(** * Qubit routing core: circuit, hardware topology and the three mappers

  A shallow embedding of the TypeScript sources
  [compiler/QuantumCircuit.ts], [hardware/Topology.ts],
  [compiler/InteractionGraph.ts], [optimizer/GreedyMapper.ts],
  [optimizer/LookAheadMapper.ts], [optimizer/GeneticSwapOptimizer.ts] and
  [metrics/CostModel.ts], followed by the properties proved about them.

  Conventions of the embedding.
  - A JavaScript value that is either a qubit number or [undefined] is an
    [option nat] ([None] is [undefined]).
  - Counters that can become [Infinity] (distances, the distance penalty)
    are [JS.number]: an integer or [Infinity].
  - Non-integer numbers (look-ahead weights, genetic rates, cost weights,
    [Math.random()]) are exact rationals; floating-point rounding is not
    modelled.
  - [while] loops with no syntactic bound take a fuel argument and return
    [None] when the fuel runs out. *)

From Stdlib Require Import String.
From Stdlib Require Import ZArith QArith Qround Lia Bool Arith List Permutation Sorted.
Import ListNotations.
Local Open Scope string_scope.
Local Open Scope nat_scope.
Local Open Scope list_scope.

(** ** JavaScript values used by the code *)

Module JS.

(** A number that is an integer or [Infinity]. *)
Inductive number : Type :=
| Fin (z : Z)
| Infinity.

Definition add (a b : number) : number :=
  match a, b with
  | Fin x, Fin y => Fin (x + y)
  | _, _ => Infinity
  end.

(** [a - 1]. *)
Definition pred (a : number) : number :=
  match a with
  | Fin x => Fin (x - 1)
  | Infinity => Infinity
  end.

Definition number_eqb (a b : number) : bool :=
  match a, b with
  | Fin x, Fin y => Z.eqb x y
  | Infinity, Infinity => true
  | _, _ => false
  end.

(** A qubit id or [undefined]. *)
Definition qid : Type := option nat.

(** [a === b] on such values. *)
Definition qid_eqb (a b : qid) : bool :=
  match a, b with
  | Some x, Some y => Nat.eqb x y
  | None, None => true
  | _, _ => false
  end.

(** [x || d] for an optional numeric option: [undefined] and [0] are falsy. *)
Definition or_default (x : option nat) (d : nat) : nat :=
  match x with
  | Some (S n) => S n
  | _ => d
  end.

(** [x || d] for an optional integer: [undefined] and [0] are falsy, every
    other integer is kept, a negative one too. [or_default] is this reading
    on the natural numbers. *)
Definition or_default_int (x : option Z) (d : Z) : Z :=
  match x with
  | Some 0%Z => d
  | Some z => z
  | None => d
  end.

(** Outcome of a call that may throw. *)
Inductive result (A : Type) : Type :=
| Ok (a : A)
| TypeError.
Arguments Ok {A} a.
Arguments TypeError {A}.

Definition bind {A B : Type} (m : result A) (k : A -> result B) : result B :=
  match m with
  | Ok a => k a
  | TypeError => TypeError
  end.

End JS.

Import JS.

(** ** compiler/QuantumCircuit.ts *)

Module QuantumCircuit.

(** [{ type, qubits, params, id }]; [params] and [id] are never read by the
    routing core and are left out. *)
Record Gate : Type := mkGate {
  gtype : string;
  gqubits : list nat
}.

Record t : Type := mk {
  nQubits : nat;
  gates : list Gate
}.

(** The constructor: stores [nQubits] as given, no gate. It contains no
    [throw]; the [result] type makes that visible. *)
Definition new (n : nat) : result t := Ok (mk n []).

(** [addGate(type, qubits)]: appends, whatever the operands are. *)
Definition addGate (c : t) (ty : string) (qs : list nat) : result t :=
  Ok (mk (nQubits c) (gates c ++ [mkGate ty qs])).

Definition getTwoQubitGates (c : t) : list Gate :=
  filter (fun g => Nat.eqb (length (gqubits g)) 2) (gates c).

End QuantumCircuit.

(** ** hardware/Topology.ts *)

Module Topology.

(** [params]: the three optional integer parameters. *)
Record Params : Type := mkParams {
  qubits : option nat;
  rows : option nat;
  cols : option nat
}.

(** [graph: Record<number, number[]>]. [buildGraph] only ever assigns the
    keys [0, 1, ..., N-1], so the record is the list of its adjacency arrays
    in key order (the order of [Object.keys]); a key [>= N] is absent. *)
Definition Graph : Type := list (list nat).

Definition lnn_row (n i : nat) : list nat :=
  (if 0 <? i then [i - 1] else []) ++
  (if i <? n - 1 then [i + 1] else []).

Definition grid_cell (rows cols r c : nat) : list nat :=
  let id := r * cols + c in
  (if 0 <? c then [id - 1] else []) ++
  (if c <? cols - 1 then [id + 1] else []) ++
  (if 0 <? r then [id - cols] else []) ++
  (if r <? rows - 1 then [id + cols] else []).

Definition star_graph (n : nat) : Graph :=
  seq 1 (n - 1) :: map (fun _ => [0]) (seq 1 (n - 1)).

Definition buildGraph (type : string) (params : Params) : Graph :=
  if String.eqb type "lnn" then
    let n := or_default (qubits params) 5 in
    map (lnn_row n) (seq 0 n)
  else if String.eqb type "grid2d" then
    let rows := or_default (rows params) 3 in
    let cols := or_default (cols params) 3 in
    flat_map (fun r => map (grid_cell rows cols r) (seq 0 cols)) (seq 0 rows)
  else if String.eqb type "star" then
    let n := or_default (qubits params) 5 in
    star_graph n
  else [].

(** [params] holding any integers, negative ones too, as the constructor
    accepts them. *)
Record IntParams : Type := mkIntParams {
  int_qubits : option Z;
  int_rows : option Z;
  int_cols : option Z
}.

(** [buildGraph()] for such parameters. A loop [for (i = 0; i < n; i++)]
    runs [Z.to_nat n] times, so not at all for a negative [n]; the tests
    [i < n - 1] are tests on integers. [buildGraph] is this function on
    natural parameters. *)
Definition buildGraph_int (type : string) (params : IntParams) : Graph :=
  if String.eqb type "lnn" then
    let n := or_default_int (int_qubits params) 5 in
    map (fun i =>
           (if 0 <? i then [i - 1] else []) ++
           (if (Z.of_nat i <? n - 1)%Z then [i + 1] else []))
        (seq 0 (Z.to_nat n))
  else if String.eqb type "grid2d" then
    let rows := or_default_int (int_rows params) 3 in
    let cols := or_default_int (int_cols params) 3 in
    flat_map
      (fun r =>
         map (fun c =>
                let id := r * Z.to_nat cols + c in
                (if 0 <? c then [id - 1] else []) ++
                (if (Z.of_nat c <? cols - 1)%Z then [id + 1] else []) ++
                (if 0 <? r then [id - Z.to_nat cols] else []) ++
                (if (Z.of_nat r <? rows - 1)%Z then [id + Z.to_nat cols] else []))
             (seq 0 (Z.to_nat cols)))
      (seq 0 (Z.to_nat rows))
  else if String.eqb type "star" then
    let n := or_default_int (int_qubits params) 5 in
    seq 1 (Z.to_nat n - 1) :: map (fun _ => [0]) (seq 1 (Z.to_nat n - 1))
  else [].

(** Key of the distance memo, [`${Math.min(q1,q2)}-${Math.max(q1,q2)}`]:
    with an [undefined] argument both parts are [NaN]. *)
Inductive CacheKey : Type :=
| Key (lo hi : nat)
| KeyNaN.

Definition cacheKey (q1 q2 : qid) : CacheKey :=
  match q1, q2 with
  | Some a, Some b => Key (Nat.min a b) (Nat.max a b)
  | _, _ => KeyNaN
  end.

Definition key_eqb (k1 k2 : CacheKey) : bool :=
  match k1, k2 with
  | Key a b, Key c d => Nat.eqb a c && Nat.eqb b d
  | KeyNaN, KeyNaN => true
  | _, _ => false
  end.

Record t : Type := mk {
  type : string;
  params : Params;
  graph : Graph;
  distanceCache : list (CacheKey * number)
}.

(** The constructor. It accepts every shape tag. *)
Definition new (ty : string) (p : Params) : result t :=
  Ok (mk ty p (buildGraph ty p) []).

Fixpoint cache_get (k : CacheKey) (m : list (CacheKey * number)) : option number :=
  match m with
  | [] => None
  | (k', v) :: m' => if key_eqb k k' then Some v else cache_get k m'
  end.

(** [this.graph[node] || []]. *)
Definition neighbors (g : Graph) (node : qid) : list nat :=
  match node with
  | Some n => nth n g []
  | None => []
  end.

Definition visited_has (visited : list qid) (q : qid) : bool :=
  existsb (qid_eqb q) visited.

(** [this.graph[q1]?.includes(q2) || false]. *)
Definition isConnected (hw : t) (q1 q2 : qid) : bool :=
  match q1, q2 with
  | Some a, Some b =>
      match nth_error (graph hw) a with
      | Some adj => existsb (Nat.eqb b) adj
      | None => false
      end
  | _, _ => false
  end.

(** The [while (queue.length > 0)] loop of [distance]. *)
Fixpoint distance_loop (fuel : nat) (g : Graph) (q2 : qid)
         (queue : list (qid * nat)) (visited : list qid) : option number :=
  match fuel with
  | 0 => None
  | S fuel' =>
      match queue with
      | [] => Some Infinity
      | (node, dist) :: rest =>
          if qid_eqb node q2 then Some (Fin (Z.of_nat dist))
          else if visited_has visited node then
            distance_loop fuel' g q2 rest visited
          else
            let visited' := node :: visited in
            let fresh :=
              filter (fun nb => negb (visited_has visited' (Some nb)))
                     (neighbors g node) in
            distance_loop fuel' g q2
              (rest ++ map (fun nb => (Some nb, dist + 1)) fresh) visited'
      end
  end.

(** The [while] loop of [getShortestPath]. *)
Fixpoint path_loop (fuel : nat) (g : Graph) (q2 : qid)
         (queue : list (qid * list qid)) (visited : list qid)
  : option (list qid) :=
  match fuel with
  | 0 => None
  | S fuel' =>
      match queue with
      | [] => Some []
      | (node, path) :: rest =>
          if qid_eqb node q2 then Some path
          else if visited_has visited node then
            path_loop fuel' g q2 rest visited
          else
            let visited' := node :: visited in
            let fresh :=
              filter (fun nb => negb (visited_has visited' (Some nb)))
                     (neighbors g node) in
            path_loop fuel' g q2
              (rest ++ map (fun nb => (Some nb, path ++ [Some nb])) fresh)
              visited'
      end
  end.

(** Every vertex is expanded at most once and each expansion pushes at most
    its degree, so the loops run at most [1 + sum of degrees] times
    ([bfs_fuel_enough_distance], [bfs_fuel_enough_path]). *)
Definition bfs_fuel (g : Graph) : nat := 2 + length (concat g).

Definition bfs_distance (g : Graph) (q1 q2 : qid) : number :=
  match distance_loop (bfs_fuel g) g q2 [(q1, 0)] [] with
  | Some v => v
  | None => Infinity
  end.

(** [distance(q1, q2)], with the memo it reads and writes. *)
Definition distance (hw : t) (q1 q2 : qid) : number * t :=
  let key := cacheKey q1 q2 in
  match cache_get key (distanceCache hw) with
  | Some v => (v, hw)
  | None =>
      let v := bfs_distance (graph hw) q1 q2 in
      (v, mk (type hw) (params hw) (graph hw) ((key, v) :: distanceCache hw))
  end.

Definition getShortestPath (hw : t) (q1 q2 : qid) : list qid :=
  match path_loop (bfs_fuel (graph hw)) (graph hw) q2 [(q1, [q1])] [] with
  | Some p => p
  | None => []
  end.

End Topology.

(** ** compiler/InteractionGraph.ts *)

Module InteractionGraph.

(** [{ qubits, distance, weight }]. *)
Record Interaction : Type := mkInteraction {
  iqubits : list nat;
  idistance : nat;
  iweight : Q
}.

(** The [for (i = currentGateIdx; i < endIdx; i++)] loop, over the gates
    from [currentGateIdx] on; [k] is [i - currentGateIdx]. *)
Fixpoint upcoming_from (gs : list QuantumCircuit.Gate) (k n : nat)
  : list Interaction :=
  match n, gs with
  | S n', g :: gs' =>
      if Nat.eqb (length (QuantumCircuit.gqubits g)) 2 then
        mkInteraction (QuantumCircuit.gqubits g) k
                      (1 / (1 + inject_Z (Z.of_nat k)))%Q
          :: upcoming_from gs' (S k) n'
      else upcoming_from gs' (S k) n'
  | _, _ => []
  end.

(** [getUpcomingInteractions(currentGateIdx, windowSize)]; the edge table
    built by the constructor is not read by any mapper. *)
Definition getUpcomingInteractions (c : QuantumCircuit.t)
           (currentGateIdx windowSize : nat) : list Interaction :=
  upcoming_from (skipn currentGateIdx (QuantumCircuit.gates c)) 0 windowSize.

(** [{ count, firstSeen, lastSeen }], the value kept for a pair of logical
    qubits. *)
Record Edge : Type := mkEdge {
  count : nat;
  firstSeen : nat;
  lastSeen : nat
}.

(** The key [`${q1}-${q2}`] of a sorted pair. Two such strings are equal
    exactly when the pairs are, so the pair stands for the string. *)
Definition Key : Type := (nat * nat)%type.

(** [[q1, q2].sort((a, b) => a - b)], joined into the key. *)
Definition edgeKey (q1 q2 : nat) : Key := (Nat.min q1 q2, Nat.max q1 q2).

Definition key_eqb (k1 k2 : Key) : bool :=
  Nat.eqb (fst k1) (fst k2) && Nat.eqb (snd k1) (snd k2).

(** [edges.get(key)] on the [Map], kept as the list of its entries in
    insertion order. *)
Fixpoint get (key : Key) (edges : list (Key * Edge)) : option Edge :=
  match edges with
  | [] => None
  | (k, e) :: rest => if key_eqb key k then Some e else get key rest
  end.

(** The body run for a two-qubit gate: create the entry when the key is
    new, then [edge.count++; edge.lastSeen = gateIdx]. *)
Fixpoint touch (key : Key) (gateIdx : nat) (edges : list (Key * Edge))
  : list (Key * Edge) :=
  match edges with
  | [] => [(key, mkEdge 1 gateIdx gateIdx)]
  | (k, e) :: rest =>
      if key_eqb key k
      then (k, mkEdge (S (count e)) (firstSeen e) gateIdx) :: rest
      else (k, e) :: touch key gateIdx rest
  end.

(** The [forEach((gate, gateIdx) => ...)] of [buildGraph]. *)
Fixpoint build_from (gs : list QuantumCircuit.Gate) (gateIdx : nat)
         (edges : list (Key * Edge)) : list (Key * Edge) :=
  match gs with
  | [] => edges
  | g :: gs' =>
      match QuantumCircuit.gqubits g with
      | [a; b] => build_from gs' (S gateIdx) (touch (edgeKey a b) gateIdx edges)
      | _ => build_from gs' (S gateIdx) edges
      end
  end.

(** [buildGraph()], the table the constructor stores in [this.graph]. *)
Definition buildGraph (c : QuantumCircuit.t) : list (Key * Edge) :=
  build_from (QuantumCircuit.gates c) 0 [].

(** [getInteractionWeight(q1, q2)]: [this.graph.get(key)?.count || 0]. *)
Definition getInteractionWeight (c : QuantumCircuit.t) (q1 q2 : nat) : nat :=
  match get (edgeKey q1 q2) (buildGraph c) with
  | Some e => count e
  | None => 0
  end.

End InteractionGraph.

(** ** The layout array *)

Module Layout.

(** The [layout] array. Besides its cells, the array object can carry a
    property named [-1]: [layout.indexOf] answers [-1] for an absent qubit
    and the mappers use that answer as an index. *)
Record t : Type := mk {
  cells : list qid;
  minus1 : qid
}.

(** [Array.from({ length: nQubits }, (_, i) => i)]. *)
Definition identity (n : nat) : t := mk (map Some (seq 0 n)) None.

Fixpoint index_from (x : qid) (l : list qid) (i : Z) : Z :=
  match l with
  | [] => (-1)%Z
  | y :: l' => if qid_eqb y x then i else index_from x l' (i + 1)%Z
  end.

(** [layout.indexOf(x)]. *)
Definition indexOf (l : t) (x : qid) : Z := index_from x (cells l) 0%Z.

(** [layout[i]]. *)
Definition get (l : t) (i : Z) : qid :=
  if (i =? -1)%Z then minus1 l
  else if (0 <=? i)%Z then nth (Z.to_nat i) (cells l) None
  else None.

Fixpoint list_set (l : list qid) (i : nat) (v : qid) : list qid :=
  match l, i with
  | [], _ => []
  | _ :: l', 0 => v :: l'
  | y :: l', S i' => y :: list_set l' i' v
  end.

(** [layout[i] = v] for an index answered by [indexOf], that is [-1] or a
    cell index; no other index is ever written. *)
Definition set (l : t) (i : Z) (v : qid) : t :=
  if (i =? -1)%Z then mk (cells l) v
  else if (0 <=? i)%Z then mk (list_set (cells l) (Z.to_nat i) v) (minus1 l)
  else l.

(** [[layout[i], layout[j]] = [layout[j], layout[i]]]. *)
Definition swap (l : t) (i j : Z) : t :=
  let a := get l i in
  let b := get l j in
  set (set l i b) j a.

(** [[...layout]]: the cells only. *)
Definition snapshot (l : t) : list qid := cells l.

(** [layout[q]] for a gate operand. *)
Definition at_ (l : t) (q : nat) : qid := get l (Z.of_nat q).

End Layout.

(** ** Steps and results shared by the three mappers *)

Module Mapping.

(** The two object literals pushed onto [steps]: the inserted swap
    ([type: 'swap'], [physical], [logical], [layout], [inserted], [depth])
    and the gate itself ([type: gate.type], [qubits], [logical], [layout],
    [inserted], [depth]). *)
Inductive Step : Type :=
| Swap (physical : qid * qid) (logical : Z * Z) (layout : list qid)
       (inserted : bool) (depth : nat)
| Native (type : string) (qubits : list qid) (logical : list nat)
         (layout : list qid) (inserted : bool) (depth : nat).

Definition step_type (s : Step) : string :=
  match s with
  | Swap _ _ _ _ _ => "swap"
  | Native ty _ _ _ _ _ => ty
  end.

Definition step_layout (s : Step) : list qid :=
  match s with
  | Swap _ _ l _ _ => l
  | Native _ _ _ l _ _ => l
  end.

Definition step_inserted (s : Step) : bool :=
  match s with
  | Swap _ _ _ b _ => b
  | Native _ _ _ _ b _ => b
  end.

Definition step_depth (s : Step) : nat :=
  match s with
  | Swap _ _ _ _ d => d
  | Native _ _ _ _ _ d => d
  end.

Definition is_swap (s : Step) : bool :=
  match s with
  | Swap _ _ _ _ _ => true
  | Native _ _ _ _ _ _ => false
  end.

Record MappingResult : Type := mkResult {
  steps : list Step;
  insertedSwaps : nat;
  depth : nat;
  distancePenalty : number;
  finalLayout : Layout.t
}.

(** The local variables of [map] / [applyChromosome] together with the
    hardware object, whose distance memo the run updates. *)
Record State : Type := mkState {
  st_steps : list Step;
  st_layout : Layout.t;
  st_insertedSwaps : nat;
  st_depth : nat;
  st_distancePenalty : number;
  st_hw : Topology.t
}.

Definition init (n : nat) (hw : Topology.t) : State :=
  mkState [] (Layout.identity n) 0 0 (Fin 0) hw.

Definition result_of (st : State) : MappingResult :=
  mkResult (st_steps st) (st_insertedSwaps st) (st_depth st)
           (st_distancePenalty st) (st_layout st).

(** The same locals after a call that updated the hardware memo. *)
Definition with_hw (st : State) (hw : Topology.t) : State :=
  mkState (st_steps st) (st_layout st) (st_insertedSwaps st) (st_depth st)
          (st_distancePenalty st) hw.

(** The swap block, identical in the three mappers: look up the two
    logical qubits, exchange the two layout entries, push the swap step,
    count it. *)
Definition insertSwap (st : State) (swapQ1 swapQ2 : qid) : State :=
  let logQ1 := Layout.indexOf (st_layout st) swapQ1 in
  let logQ2 := Layout.indexOf (st_layout st) swapQ2 in
  let layout' := Layout.swap (st_layout st) logQ1 logQ2 in
  mkState
    (st_steps st ++
      [Swap (swapQ1, swapQ2) (logQ1, logQ2) (Layout.snapshot layout') true
            (st_depth st)])
    layout'
    (S (st_insertedSwaps st))
    (S (st_depth st))
    (st_distancePenalty st)
    (st_hw st).

(** [distancePenalty += this.hardware.distance(layout[c], layout[t]) - 1]. *)
Definition addPenalty (st : State) (c t : nat) : State :=
  let '(d, hw') :=
    Topology.distance (st_hw st) (Layout.at_ (st_layout st) c)
                      (Layout.at_ (st_layout st) t) in
  mkState (st_steps st) (st_layout st) (st_insertedSwaps st) (st_depth st)
          (JS.add (st_distancePenalty st) (JS.pred d)) hw'.

(** The final [steps.push] of the gate callback. *)
Definition emitNative (st : State) (gate : QuantumCircuit.Gate) : State :=
  mkState
    (st_steps st ++
      [Native (QuantumCircuit.gtype gate)
              (map (Layout.at_ (st_layout st)) (QuantumCircuit.gqubits gate))
              (QuantumCircuit.gqubits gate)
              (Layout.snapshot (st_layout st)) false (st_depth st)])
    (st_layout st)
    (st_insertedSwaps st)
    (S (st_depth st))
    (st_distancePenalty st)
    (st_hw st).

End Mapping.

Import Mapping.

(** ** optimizer/GreedyMapper.ts *)

Module GreedyMapper.

(** [while (!this.hardware.isConnected(physC, physT)) { ... }]. *)
Fixpoint swap_loop (fuel : nat) (c t : nat) (st : State) : option State :=
  match fuel with
  | 0 => None
  | S fuel' =>
      let physC := Layout.at_ (st_layout st) c in
      let physT := Layout.at_ (st_layout st) t in
      if Topology.isConnected (st_hw st) physC physT then Some st
      else
        let path := Topology.getShortestPath (st_hw st) physC physT in
        if length path <? 2 then Some st
        else
          swap_loop fuel' c t
            (insertSwap st (nth 0 path None) (nth 1 path None))
  end.

(** The callback of [this.circuit.gates.forEach]. *)
Definition processGate (fuel : nat) (st : State) (gate : QuantumCircuit.Gate)
  : option State :=
  match QuantumCircuit.gqubits gate with
  | [c; t] =>
      match swap_loop fuel c t st with
      | Some st1 => Some (emitNative (addPenalty st1 c t) gate)
      | None => None
      end
  | _ => Some (emitNative st gate)
  end.

Fixpoint forEach (fuel : nat) (gs : list QuantumCircuit.Gate) (st : State)
  : option State :=
  match gs with
  | [] => Some st
  | g :: gs' =>
      match processGate fuel st g with
      | Some st' => forEach fuel gs' st'
      | None => None
      end
  end.

(** [map()]: the result, and the hardware object as the run leaves it.
    [fuel] bounds each gate's [while] loop. *)
Definition map (fuel : nat) (circuit : QuantumCircuit.t) (hw : Topology.t)
  : option (MappingResult * Topology.t) :=
  match forEach fuel (QuantumCircuit.gates circuit)
                (init (QuantumCircuit.nQubits circuit) hw) with
  | Some st => Some (result_of st, st_hw st)
  | None => None
  end.

End GreedyMapper.

(** ** optimizer/LookAheadMapper.ts *)

Module LookAheadMapper.

(** The value of [score]: a rational or [-Infinity]. *)
Inductive Score : Type :=
| SFin (q : Q)
| SNegInf.

(** [score -= dist * weight], for a positive [weight]. *)
Definition score_sub (s : Score) (dist : number) (weight : Q) : Score :=
  match s, dist with
  | SFin q, Fin d => SFin (q - inject_Z d * weight)%Q
  | _, _ => SNegInf
  end.

(** [a > b]. *)
Definition score_gt (a b : Score) : bool :=
  match a, b with
  | SFin x, SFin y => negb (Qle_bool x y)
  | SFin _, SNegInf => true
  | SNegInf, _ => false
  end.

(** The hardware edges in the order the two nested [forEach] visit them,
    after the [if (q1 >= q2) return] filter. *)
Definition edges (g : Topology.Graph) : list (nat * nat) :=
  flat_map
    (fun q1 =>
       List.map (fun q2 => (q1, q2))
                (filter (fun q2 => q1 <? q2) (nth q1 g [])))
    (seq 0 (length g)).

(** The [upcoming.forEach] that scores one trial layout. *)
Fixpoint score_layout (hw : Topology.t) (testLayout : Layout.t)
         (upcoming : list InteractionGraph.Interaction) (score : Score)
  : Score * Topology.t :=
  match upcoming with
  | [] => (score, hw)
  | i :: rest =>
      let qs := InteractionGraph.iqubits i in
      let '(dist, hw') :=
        Topology.distance hw
          (Layout.at_ testLayout (nth 0 qs 0))
          (Layout.at_ testLayout (nth 1 qs 0)) in
      score_layout hw' testLayout rest
                   (score_sub score dist (InteractionGraph.iweight i))
  end.

(** The body run for one hardware edge [(q1, q2)]. *)
Definition try_edge (layout : Layout.t)
           (upcoming : list InteractionGraph.Interaction)
           (acc : option (nat * nat) * Score * Topology.t) (e : nat * nat)
  : option (nat * nat) * Score * Topology.t :=
  let '(bestSwap, bestScore, hw) := acc in
  let '(q1, q2) := e in
  let testLayout := Layout.mk (Layout.snapshot layout) None in
  let log1 := Layout.indexOf testLayout (Some q1) in
  let log2 := Layout.indexOf testLayout (Some q2) in
  let testLayout' := Layout.swap testLayout log1 log2 in
  let '(score, hw') := score_layout hw testLayout' upcoming (SFin 0) in
  if score_gt score bestScore then (Some (q1, q2), score, hw')
  else (bestSwap, bestScore, hw').

(** [findBestSwap(layout, currentGateIdx)]. *)
Definition findBestSwap (circuit : QuantumCircuit.t) (lookAhead : nat)
           (hw : Topology.t) (layout : Layout.t) (currentGateIdx : nat)
  : option (nat * nat) * Topology.t :=
  let upcoming :=
    InteractionGraph.getUpcomingInteractions circuit currentGateIdx lookAhead in
  let '(bestSwap, _, hw') :=
    fold_left (try_edge layout upcoming) (edges (Topology.graph hw))
              (None, SNegInf, hw) in
  (bestSwap, hw').

(** [while (!this.hardware.isConnected(physC, physT)) { ... }]. *)
Fixpoint swap_loop (circuit : QuantumCircuit.t) (lookAhead : nat)
         (fuel : nat) (gateIdx c t : nat) (st : State) : option State :=
  match fuel with
  | 0 => None
  | S fuel' =>
      let physC := Layout.at_ (st_layout st) c in
      let physT := Layout.at_ (st_layout st) t in
      if Topology.isConnected (st_hw st) physC physT then Some st
      else
        let '(bestSwap, hw') :=
          findBestSwap circuit lookAhead (st_hw st) (st_layout st) gateIdx in
        match bestSwap with
        | None => Some (with_hw st hw')
        | Some (swapQ1, swapQ2) =>
            swap_loop circuit lookAhead fuel' gateIdx c t
                      (insertSwap (with_hw st hw') (Some swapQ1) (Some swapQ2))
        end
  end.

(** The callback of [this.circuit.gates.forEach((gate, gateIdx) => ...)]. *)
Definition processGate (circuit : QuantumCircuit.t) (lookAhead : nat)
           (fuel : nat) (st : State) (gateIdx : nat)
           (gate : QuantumCircuit.Gate) : option State :=
  match QuantumCircuit.gqubits gate with
  | [c; t] =>
      match swap_loop circuit lookAhead fuel gateIdx c t st with
      | Some st1 => Some (emitNative (addPenalty st1 c t) gate)
      | None => None
      end
  | _ => Some (emitNative st gate)
  end.

Fixpoint forEach (circuit : QuantumCircuit.t) (lookAhead : nat) (fuel : nat)
         (gs : list QuantumCircuit.Gate) (gateIdx : nat) (st : State)
  : option State :=
  match gs with
  | [] => Some st
  | g :: gs' =>
      match processGate circuit lookAhead fuel st gateIdx g with
      | Some st' => forEach circuit lookAhead fuel gs' (S gateIdx) st'
      | None => None
      end
  end.

(** [map()] of a mapper built with [new LookAheadMapper(circuit, hw,
    lookAhead)]; the default [lookAhead] is [3]. *)
Definition map (lookAhead : nat) (fuel : nat) (circuit : QuantumCircuit.t)
           (hw : Topology.t) : option (MappingResult * Topology.t) :=
  match forEach circuit lookAhead fuel (QuantumCircuit.gates circuit) 0
                (init (QuantumCircuit.nQubits circuit) hw) with
  | Some st => Some (result_of st, st_hw st)
  | None => None
  end.

End LookAheadMapper.

(** ** optimizer/GeneticSwapOptimizer.ts *)

Module GeneticSwapOptimizer.

(** An entry of a chromosome: a hardware edge, or [undefined] when it was
    read from an empty [validSwaps]. *)
Definition Gene : Type := option (nat * nat).
Definition Chromosome : Type := list Gene.

(** [x || d] for a rational option. *)
Definition or_defaultQ (x : option Q) (d : Q) : Q :=
  match x with
  | Some q => if Qeq_bool q 0 then d else q
  | None => d
  end.

(** The [config] argument of the constructor: every field optional. *)
Record Options : Type := mkOptions {
  o_populationSize : option nat;
  o_generations : option nat;
  o_tournamentSize : option nat;
  o_eliteRatio : option Q;
  o_initialMutationRate : option Q;
  o_minMutationRate : option Q;
  o_maxSwapsPerChromosome : option nat;
  o_plateauThreshold : option nat
}.

Definition no_options : Options :=
  mkOptions None None None None None None None None.

Record Config : Type := mkConfig {
  populationSize : nat;
  generations : nat;
  tournamentSize : nat;
  eliteRatio : Q;
  initialMutationRate : Q;
  minMutationRate : Q;
  maxSwapsPerChromosome : nat;
  plateauThreshold : nat
}.

(** [this.config = { populationSize: config.populationSize || 30, ... }]. *)
Definition makeConfig (o : Options) : Config :=
  mkConfig
    (or_default (o_populationSize o) 30)
    (or_default (o_generations o) 50)
    (or_default (o_tournamentSize o) 3)
    (or_defaultQ (o_eliteRatio o) (2 # 10))
    (or_defaultQ (o_initialMutationRate o) (3 # 10))
    (or_defaultQ (o_minMutationRate o) (5 # 100))
    (or_default (o_maxSwapsPerChromosome o) 8)
    (or_default (o_plateauThreshold o) 10).

(** [getValidSwaps()]. *)
Definition getValidSwaps (hw : Topology.t) : list (nat * nat) :=
  flat_map
    (fun q1 =>
       List.map (fun q2 => (q1, q2))
                (filter (fun q2 => q1 <? q2) (nth q1 (Topology.graph hw) [])))
    (seq 0 (length (Topology.graph hw))).

(** *** The replay *)

(** [while (!isConnected(physC, physT) && swapIndex < chromosome.length)]
    for a chromosome that is an array. [rest] is
    [chromosome.slice(swapIndex)]: the loop reads its head, and drops it
    when [swapIndex++] runs. Destructuring an [undefined] entry throws. *)
Fixpoint swap_loop (rest : list Gene) (c t : nat)
         (st : State) (swapIndex : nat) : result (State * nat) :=
  let physC := Layout.at_ (st_layout st) c in
  let physT := Layout.at_ (st_layout st) t in
  if Topology.isConnected (st_hw st) physC physT then Ok (st, swapIndex)
  else
    match rest with
    | [] => Ok (st, swapIndex)
    | None :: _ => TypeError
    | Some (swapQ1, swapQ2) :: rest' =>
        let logQ1 := Layout.indexOf (st_layout st) (Some swapQ1) in
        let logQ2 := Layout.indexOf (st_layout st) (Some swapQ2) in
        let st' :=
          if negb (logQ1 =? -1)%Z && negb (logQ2 =? -1)%Z
          then insertSwap st (Some swapQ1) (Some swapQ2)
          else st in
        swap_loop rest' c t st' (S swapIndex)
    end.

(** The same loop for the argument of [applyChromosome], which is [null]
    when [map] kept no best individual: the loop condition then throws as
    soon as it reads [chromosome.length]. *)
Definition run_swap_loop (chromosome : option Chromosome) (c t : nat)
           (st : State) (swapIndex : nat) : result (State * nat) :=
  match chromosome with
  | Some ch => swap_loop (skipn swapIndex ch) c t st swapIndex
  | None =>
      if Topology.isConnected (st_hw st) (Layout.at_ (st_layout st) c)
                              (Layout.at_ (st_layout st) t)
      then Ok (st, swapIndex)
      else TypeError
  end.

(** The callback of [this.circuit.gates.forEach] in [applyChromosome]. *)
Definition processGate (chromosome : option Chromosome)
           (acc : State * nat) (gate : QuantumCircuit.Gate)
  : result (State * nat) :=
  let '(st, swapIndex) := acc in
  match QuantumCircuit.gqubits gate with
  | [c; t] =>
      match run_swap_loop chromosome c t st swapIndex with
      | Ok (st1, swapIndex') =>
          Ok (emitNative (addPenalty st1 c t) gate, swapIndex')
      | TypeError => TypeError
      end
  | _ => Ok (emitNative st gate, swapIndex)
  end.

Fixpoint forEach (chromosome : option Chromosome)
         (gs : list QuantumCircuit.Gate) (acc : State * nat)
  : result (State * nat) :=
  match gs with
  | [] => Ok acc
  | g :: gs' =>
      match processGate chromosome acc g with
      | Ok acc' => forEach chromosome gs' acc'
      | TypeError => TypeError
      end
  end.

(** [applyChromosome(chromosome)]: the result, and the hardware object as
    the replay leaves it. *)
Definition applyChromosome (circuit : QuantumCircuit.t) (hw : Topology.t)
           (chromosome : option Chromosome)
  : result (MappingResult * Topology.t) :=
  match forEach chromosome (QuantumCircuit.gates circuit)
                (init (QuantumCircuit.nQubits circuit) hw, 0) with
  | Ok (st, _) => Ok (result_of st, st_hw st)
  | TypeError => TypeError
  end.

(** *** Fitness *)

(** A fitness: an integer or [-Infinity]. *)
Inductive Fitness : Type :=
| FFin (z : Z)
| FNegInf.

(** [a > b]. *)
Definition fitness_gt (a b : Fitness) : bool :=
  match a, b with
  | FFin x, FFin y => (y <? x)%Z
  | FFin _, FNegInf => true
  | FNegInf, _ => false
  end.

(** [-(insertedSwaps * 10 + depth + distancePenalty * 3)]. *)
Definition fitness_of (r : MappingResult) : Fitness :=
  match distancePenalty r with
  | Fin p =>
      FFin (- (Z.of_nat (insertedSwaps r) * 10 + Z.of_nat (depth r) + p * 3))
  | Infinity => FNegInf
  end.

(** [evaluateFitness(chromosome)]. *)
Definition evaluateFitness (circuit : QuantumCircuit.t) (hw : Topology.t)
           (chromosome : Chromosome) : result (Fitness * Topology.t) :=
  match applyChromosome circuit hw (Some chromosome) with
  | Ok (r, hw') => Ok (fitness_of r, hw')
  | TypeError => TypeError
  end.

(** [chromosomeKey(chromosome)]: the text ["a-b,c-d,..."] determines the
    list of pairs and is represented by it; destructuring an [undefined]
    entry throws. *)
Fixpoint chromosomeKey (chromosome : Chromosome) : result (list (nat * nat)) :=
  match chromosome with
  | [] => Ok []
  | None :: _ => TypeError
  | Some e :: rest =>
      match chromosomeKey rest with
      | Ok k => Ok (e :: k)
      | TypeError => TypeError
      end
  end.

(** *** The evolution, over a source of random numbers *)

(** [{ chromosome, fitness }]. *)
Definition Evaluated : Type := (Chromosome * Fitness)%type.

(** What [map] reads and updates besides its locals: how many values
    [Math.random()] has produced, the fitness memo, and the hardware object
    with its distance memo. *)
Record Env : Type := mkEnv {
  rpos : nat;
  fitnessCache : list (list (nat * nat) * Fitness);
  ehw : Topology.t
}.

(** A computation over a stream [rnd] of [Math.random()] values. *)
Definition G (A : Type) : Type := (nat -> Q) -> Env -> result (A * Env).

Definition ret {A : Type} (a : A) : G A := fun _ e => Ok (a, e).

Definition throw {A : Type} : G A := fun _ _ => TypeError.

Definition gbind {A B : Type} (m : G A) (k : A -> G B) : G B :=
  fun rnd e =>
    match m rnd e with
    | Ok (a, e') => k a rnd e'
    | TypeError => TypeError
    end.

Notation "x <- m ;; k" := (gbind m (fun x => k))
  (at level 61, m at next level, right associativity).

(** [Math.random()]. *)
Definition random : G Q :=
  fun rnd e => Ok (rnd (rpos e), mkEnv (S (rpos e)) (fitnessCache e) (ehw e)).

(** [Math.floor(Math.random() * k)]. *)
Definition randomIndex (k : nat) : G nat :=
  r <- random ;;
  ret (Z.to_nat (Qfloor (r * inject_Z (Z.of_nat k)))).

(** The inner [for (j = 0; j < length; j++)] of [initializePopulation]. *)
Fixpoint random_genes (validSwaps : list (nat * nat)) (n : nat) : G Chromosome :=
  match n with
  | 0 => ret []
  | S n' =>
      i <- randomIndex (length validSwaps) ;;
      rest <- random_genes validSwaps n' ;;
      ret (nth_error validSwaps i :: rest)
  end.

(** The outer [for (i = 0; i < populationSize; i++)]. *)
Fixpoint random_population (cfg : Config) (validSwaps : list (nat * nat))
         (n : nat) : G (list Chromosome) :=
  match n with
  | 0 => ret []
  | S n' =>
      l <- randomIndex (maxSwapsPerChromosome cfg) ;;
      chromosome <- random_genes validSwaps (l + 1) ;;
      rest <- random_population cfg validSwaps n' ;;
      ret (chromosome :: rest)
  end.

(** [initializePopulation()]. *)
Definition initializePopulation (cfg : Config) : G (list Chromosome) :=
  fun rnd e =>
    random_population cfg (getValidSwaps (ehw e)) (populationSize cfg) rnd e.

Fixpoint key_eqb (a b : list (nat * nat)) : bool :=
  match a, b with
  | [], [] => true
  | (a1, a2) :: a', (b1, b2) :: b' =>
      Nat.eqb a1 b1 && Nat.eqb a2 b2 && key_eqb a' b'
  | _, _ => false
  end.

Fixpoint fitness_get (k : list (nat * nat))
         (m : list (list (nat * nat) * Fitness)) : option Fitness :=
  match m with
  | [] => None
  | (k', v) :: m' => if key_eqb k k' then Some v else fitness_get k m'
  end.

(** The callback of [population.map(chromosome => ...)]. *)
Definition evaluate_one (circuit : QuantumCircuit.t) (chromosome : Chromosome)
  : G Evaluated :=
  fun _ e =>
    match chromosomeKey chromosome with
    | TypeError => TypeError
    | Ok cacheKey =>
        match fitness_get cacheKey (fitnessCache e) with
        | Some f => Ok ((chromosome, f), e)
        | None =>
            match evaluateFitness circuit (ehw e) chromosome with
            | TypeError => TypeError
            | Ok (f, hw') =>
                Ok ((chromosome, f),
                    mkEnv (rpos e) ((cacheKey, f) :: fitnessCache e) hw')
            end
        end
    end.

Fixpoint evaluate_all (circuit : QuantumCircuit.t) (population : list Chromosome)
  : G (list Evaluated) :=
  match population with
  | [] => ret []
  | c :: rest =>
      x <- evaluate_one circuit c ;;
      xs <- evaluate_all circuit rest ;;
      ret (x :: xs)
  end.

(** [sort((a, b) => b.fitness - a.fitness)]: descending by fitness; the
    comparator answers [NaN], read as [0], on two [-Infinity], so it is a
    consistent order and the (stable) sort keeps equal entries in their
    original order. *)
Fixpoint insert_desc (x : Evaluated) (l : list Evaluated) : list Evaluated :=
  match l with
  | [] => [x]
  | y :: l' =>
      if fitness_gt (snd y) (snd x) then y :: insert_desc x l'
      else x :: y :: l'
  end.

Definition sort_desc (l : list Evaluated) : list Evaluated :=
  fold_right insert_desc [] l.

(** The [for] loop of [tournamentSelect]. *)
Fixpoint tournament_draw (evaluated : list Evaluated) (n : nat)
  : G (list Evaluated) :=
  match n with
  | 0 => ret []
  | S n' =>
      i <- randomIndex (length evaluated) ;;
      match nth_error evaluated i with
      | None => throw
      | Some x =>
          rest <- tournament_draw evaluated n' ;;
          ret (x :: rest)
      end
  end.

(** [tournamentSelect(evaluated)]. An index past the end yields
    [undefined], whose [fitness] the comparator (or the final
    [.chromosome]) cannot read. *)
Definition tournamentSelect (cfg : Config) (evaluated : list Evaluated)
  : G Chromosome :=
  tournament <- tournament_draw evaluated (tournamentSize cfg) ;;
  match sort_desc tournament with
  | [] => throw
  | x :: _ => ret (fst x)
  end.

(** [crossover(p1, p2)]. *)
Definition crossover (p1 p2 : Chromosome) : G Chromosome :=
  if (length p1 =? 0) || (length p2 =? 0) then
    ret (if 0 <? length p1 then p1 else p2)
  else
    point <- randomIndex (Nat.min (length p1) (length p2)) ;;
    ret (firstn point p1 ++ skipn point p2).

Fixpoint replace_at {A : Type} (l : list A) (i : nat) (v : A) : list A :=
  match l, i with
  | [], _ => []
  | _ :: l', 0 => v :: l'
  | y :: l', S i' => y :: replace_at l' i' v
  end.

Fixpoint remove_at {A : Type} (l : list A) (i : nat) : list A :=
  match l, i with
  | [], _ => []
  | _ :: l', 0 => l'
  | y :: l', S i' => y :: remove_at l' i'
  end.

(** [mutate(chromosome)]. *)
Definition mutate (cfg : Config) (chromosome : Chromosome) : G Chromosome :=
  fun rnd e =>
    let validSwaps := getValidSwaps (ehw e) in
    (mutationType <- random ;;
     if negb (Qle_bool (4 # 10) mutationType) && (0 <? length chromosome) then
       idx <- randomIndex (length chromosome) ;;
       i <- randomIndex (length validSwaps) ;;
       ret (replace_at chromosome idx (nth_error validSwaps i))
     else if negb (Qle_bool (7 # 10) mutationType)
                  && (length chromosome <? maxSwapsPerChromosome cfg) then
       i <- randomIndex (length validSwaps) ;;
       ret (chromosome ++ [nth_error validSwaps i])
     else if 1 <? length chromosome then
       idx <- randomIndex (length chromosome) ;;
       ret (remove_at chromosome idx)
     else ret chromosome) rnd e.

(** [while (newPopulation.length < populationSize) { ...; push(child) }]:
    every round pushes one child, so the loop runs
    [populationSize - newPopulation.length] rounds, counted by [n]. *)
Fixpoint breed (cfg : Config) (evaluated : list Evaluated)
         (mutationRate : Q) (n : nat) (newPopulation : list Chromosome)
  : G (list Chromosome) :=
  match n with
  | 0 => ret newPopulation
  | S n' =>
      parent1 <- tournamentSelect cfg evaluated ;;
      parent2 <- tournamentSelect cfg evaluated ;;
      child <- crossover parent1 parent2 ;;
      r <- random ;;
      child' <- (if negb (Qle_bool mutationRate r)
                 then mutate cfg child else ret child) ;;
      breed cfg evaluated mutationRate n' (newPopulation ++ [child'])
  end.

(** [evaluated.slice(0, eliteCount)] for an integer [eliteCount]. *)
Definition slice0 {A : Type} (l : list A) (e : Z) : list A :=
  if (e <? 0)%Z then firstn (Z.to_nat (Z.of_nat (length l) + e)) l
  else firstn (Z.to_nat e) l.

(** [Math.max(a, b)]. *)
Definition qmax (a b : Q) : Q := if Qle_bool a b then b else a.

(** The [for (gen = 0; gen < generations; gen++)] loop of [map], counted
    by the generations still to run; the result is [bestEver], [None] for
    [null]. *)
Fixpoint evolve (circuit : QuantumCircuit.t) (cfg : Config) (gens : nat)
         (population : list Chromosome) (bestEver : option Chromosome)
         (bestEverFitness : Fitness) (plateauCounter : nat)
         (mutationRate : Q) : G (option Chromosome) :=
  match gens with
  | 0 => ret bestEver
  | S gens' =>
      evaluated0 <- evaluate_all circuit population ;;
      let evaluated := sort_desc evaluated0 in
      match evaluated with
      | [] => throw
      | top :: _ =>
          let '(bestEver', bestEverFitness', plateauCounter') :=
            if fitness_gt (snd top) bestEverFitness
            then (Some (fst top), snd top, 0)
            else (bestEver, bestEverFitness, S plateauCounter) in
          if plateauThreshold cfg <=? plateauCounter' then ret bestEver'
          else
            let eliteCount :=
              Qfloor (inject_Z (Z.of_nat (populationSize cfg)) * eliteRatio cfg) in
            let newPopulation := List.map fst (slice0 evaluated eliteCount) in
            population' <-
              breed cfg evaluated mutationRate
                    (populationSize cfg - length newPopulation) newPopulation ;;
            evolve circuit cfg gens' population' bestEver' bestEverFitness'
                   plateauCounter'
                   (qmax (minMutationRate cfg) (mutationRate * (95 # 100)))
      end
  end.

(** [map()] of an optimizer built with [new GeneticSwapOptimizer(circuit,
    hw, options)], whose fitness memo is empty. *)
Definition map (circuit : QuantumCircuit.t) (hw : Topology.t) (o : Options)
           (rnd : nat -> Q) : result (MappingResult * Topology.t) :=
  let cfg := makeConfig o in
  match
    (population <- initializePopulation cfg ;;
     evolve circuit cfg (generations cfg) population None FNegInf 0
            (initialMutationRate cfg)) rnd (mkEnv 0 [] hw)
  with
  | Ok (bestEver, e) => applyChromosome circuit (ehw e) bestEver
  | TypeError => TypeError
  end.

(** [map()] of an optimizer built with the option [generations] holding
    any integer, and the other options as [o] gives them:
    [config.generations] is [generations || 50], and the loop
    [for (gen = 0; gen < this.config.generations; gen++)] runs at most
    [Z.to_nat] of it, so not at all when it is negative. [map] is this
    function for a natural number. *)
Definition map_int (circuit : QuantumCircuit.t) (hw : Topology.t) (o : Options)
           (generations : option Z) (rnd : nat -> Q)
  : result (MappingResult * Topology.t) :=
  let cfg := makeConfig o in
  match
    (population <- initializePopulation cfg ;;
     evolve circuit cfg (Z.to_nat (or_default_int generations 50)) population
            None FNegInf 0 (initialMutationRate cfg)) rnd (mkEnv 0 [] hw)
  with
  | Ok (bestEver, e) => applyChromosome circuit (ehw e) bestEver
  | TypeError => TypeError
  end.

End GeneticSwapOptimizer.

(** ** metrics/CostModel.ts *)

Module CostModel.

Record Options : Type := mkOptions {
  o_alpha : option Q;
  o_beta : option Q;
  o_gamma : option Q
}.

Record t : Type := mk {
  alpha : Q;
  beta : Q;
  gamma : Q
}.

(** The constructor: [config.alpha || 10] and so on. *)
Definition new (o : Options) : t :=
  mk (GeneticSwapOptimizer.or_defaultQ (o_alpha o) 10)
     (GeneticSwapOptimizer.or_defaultQ (o_beta o) 1)
     (GeneticSwapOptimizer.or_defaultQ (o_gamma o) 5).

(** [evaluate(result)] on a result whose distance penalty is finite. *)
Definition evaluate (m : t) (swapCount depth distancePenalty : Z) : Q :=
  (alpha m * inject_Z swapCount + beta m * inject_Z depth
   + gamma m * inject_Z distancePenalty)%Q.

(** A cost: a rational, an infinity, or [NaN]. *)
Inductive Cost : Type :=
| CFin (q : Q)
| CInf
| CNegInf
| CNaN.

(** [evaluate(result)] on a mapper's result. The three [|| 0] change
    nothing here: the counters are numbers, and [Infinity] is not falsy.
    For a penalty of [Infinity] the product [gamma * Infinity] decides. *)
Definition evaluate_result (m : t) (r : MappingResult) : Cost :=
  match distancePenalty r with
  | Fin p =>
      CFin (evaluate m (Z.of_nat (insertedSwaps r)) (Z.of_nat (depth r)) p)
  | Infinity =>
      match (gamma m ?= 0)%Q with
      | Gt => CInf
      | Lt => CNegInf
      | Eq => CNaN
      end
  end.

End CostModel.

(** ** Running the strategies side by side

    [runOptimization] of [QuantumCompiler.tsx] (and the fallback of
    [quantum_optimizer.tsx]) and the message handler of
    [worker/mapperWorker.ts]: the mappers are built on one circuit and one
    hardware object, and run one after the other. *)

Module Comparison.

(** [{ ...result, mapper: mapper.name, cost }]. *)
Record Entry : Type := mkEntry {
  e_result : MappingResult;
  e_mapper : string;
  e_cost : CostModel.Cost
}.

(** [new CostModel({ alpha: 10, beta: 1, gamma: 5 })]. *)
Definition costModel : CostModel.t :=
  CostModel.new (CostModel.mkOptions (Some 10%Q) (Some 1%Q) (Some 5%Q)).

Definition entry (name : string) (r : MappingResult) : Entry :=
  mkEntry r name (CostModel.evaluate_result costModel r).

(** [mappers.map(mapper => { const result = mapper.map(); ... })] for the
    mappers [Greedy], [LookAhead(3)] and, when [useGenetic] is set,
    [Genetic]: each run starts on the hardware object as the run before
    left it. [None]: a loop did not stop within [fuel] rounds;
    [Some TypeError]: a mapper threw, which the caller catches. *)
Definition runMappers (fuel : nat) (circuit : QuantumCircuit.t)
           (hw : Topology.t) (useGenetic : bool)
           (o : GeneticSwapOptimizer.Options) (rnd : nat -> Q)
  : option (result (list Entry)) :=
  match GreedyMapper.map fuel circuit hw with
  | None => None
  | Some (r1, hw1) =>
      match LookAheadMapper.map 3 fuel circuit hw1 with
      | None => None
      | Some (r2, hw2) =>
          if useGenetic then
            match GeneticSwapOptimizer.map circuit hw2 o rnd with
            | TypeError => Some TypeError
            | Ok (r3, _) =>
                Some (Ok [entry "Greedy Baseline" r1;
                          entry "Look-Ahead (k=3)" r2;
                          entry "Genetic Algorithm" r3])
            end
          else
            Some (Ok [entry "Greedy Baseline" r1;
                      entry "Look-Ahead (k=3)" r2])
      end
  end.

(** The message handler of the worker: the circuit and the hardware object
    are rebuilt from the message; the genetic search runs when
    [cfg.useGenetic] is set, with the options [cfg.genetic || {}]. *)
Definition onMessage (fuel : nat) (nQubits : nat)
           (gates : list QuantumCircuit.Gate)
           (ty : string) (params : Topology.Params)
           (useGenetic : bool)
           (genetic : option GeneticSwapOptimizer.Options) (rnd : nat -> Q)
  : option (result (list Entry)) :=
  match Topology.new ty params with
  | TypeError => Some TypeError
  | Ok hw =>
      runMappers fuel (QuantumCircuit.mk nQubits gates) hw useGenetic
                 (match genetic with
                  | Some o => o
                  | None => GeneticSwapOptimizer.no_options
                  end)
                 rnd
  end.

End Comparison.

(** ** The benchmark circuits of the user interface

    [BENCHMARKS] of [QuantumCompiler.tsx] and [quantum_optimizer.tsx] (the
    two copies are the same). A loop that counts down from [k - 1] to [0]
    recurses on [k]; a loop that counts up carries its index and the number
    of rounds left. *)

Module Benchmarks.

(** [for (let j = i - 1; j >= 0; j--) circ.addGate('cx', [j, i])]; [k] is
    [j + 1]. *)
Fixpoint qft_inner (i k : nat) (circ : QuantumCircuit.t)
  : result QuantumCircuit.t :=
  match k with
  | 0 => Ok circ
  | S j => JS.bind (QuantumCircuit.addGate circ "cx" [j; i]) (qft_inner i j)
  end.

(** [for (let i = n - 1; i >= 0; i--) { circ.addGate('h', [i]); ... }];
    [k] is [i + 1]. *)
Fixpoint qft_outer (k : nat) (circ : QuantumCircuit.t)
  : result QuantumCircuit.t :=
  match k with
  | 0 => Ok circ
  | S i =>
      JS.bind (QuantumCircuit.addGate circ "h" [i])
              (fun c => JS.bind (qft_inner i i c) (qft_outer i))
  end.

Definition qft (n : nat) : result QuantumCircuit.t :=
  JS.bind (QuantumCircuit.new n) (qft_outer n).

(** [for (let i = 0; i < n; i++) circ.addGate('h', [i])], from index [i]
    with [k] rounds left. *)
Fixpoint h_layer (k i : nat) (circ : QuantumCircuit.t)
  : result QuantumCircuit.t :=
  match k with
  | 0 => Ok circ
  | S k' => JS.bind (QuantumCircuit.addGate circ "h" [i]) (h_layer k' (S i))
  end.

(** The inner loop of [grover]:
    [for (let i = 0; i < n - 1; i++) { h [i]; if (i < n - 2) cx [i, i + 1] }]. *)
Fixpoint grover_inner (n k i : nat) (circ : QuantumCircuit.t)
  : result QuantumCircuit.t :=
  match k with
  | 0 => Ok circ
  | S k' =>
      JS.bind (QuantumCircuit.addGate circ "h" [i])
              (fun c =>
                 JS.bind (if i <? n - 2
                          then QuantumCircuit.addGate c "cx" [i; i + 1]
                          else Ok c)
                         (grover_inner n k' (S i)))
  end.

(** [for (let iter = 0; iter < Math.ceil(Math.sqrt(n)); iter++) { ... }]. *)
Fixpoint grover_outer (n k : nat) (circ : QuantumCircuit.t)
  : result QuantumCircuit.t :=
  match k with
  | 0 => Ok circ
  | S k' =>
      JS.bind (QuantumCircuit.addGate circ "cx" [0; n - 1])
              (fun c => JS.bind (grover_inner n (n - 1) 0 c) (grover_outer n k'))
  end.

(** [Math.ceil(Math.sqrt(n))] is the least [k] with [n <= k * k]: the
    square root is exact on a perfect square and otherwise further from
    the next integer than a rounding error. *)
Definition grover (n : nat) : result QuantumCircuit.t :=
  JS.bind (QuantumCircuit.new n)
          (fun c => JS.bind (h_layer n 0 c) (grover_outer n (Nat.sqrt_up n))).

(** [for (let i = 0; i < n - 1; i++) circ.addGate('cx', [i, i + 1])]. *)
Fixpoint entangle_chain (k i : nat) (circ : QuantumCircuit.t)
  : result QuantumCircuit.t :=
  match k with
  | 0 => Ok circ
  | S k' =>
      JS.bind (QuantumCircuit.addGate circ "cx" [i; i + 1])
              (entangle_chain k' (S i))
  end.

Definition entangle (n : nat) : result QuantumCircuit.t :=
  JS.bind (QuantumCircuit.new n)
          (fun c => JS.bind (QuantumCircuit.addGate c "h" [0])
                            (entangle_chain (n - 1) 0)).

End Benchmarks.

(** * Specification vocabulary *)

Section GraphSpec.

Variable g : Topology.Graph.

(** [reach k u w]: a walk of [k] hardware edges leads from [u] to [w]. *)
Inductive reach : nat -> qid -> qid -> Prop :=
| reach_here : forall u, reach 0 u u
| reach_step : forall k u v w,
    In v (Topology.neighbors g u) ->
    reach k (Some v) w ->
    reach (S k) u w.

(** The adjacency lists describe an undirected graph. *)
Definition symmetric_graph : Prop :=
  forall a b, In b (nth a g []) -> In a (nth b g []).

(** No qubit is its own neighbour. *)
Definition loop_free : Prop :=
  forall a, ~ In a (nth a g []).

(** Work left to a breadth-first loop: the degrees of the vertices that
    are not yet visited. *)
Definition budget (visited : list qid) : nat :=
  list_sum
    (map (fun i =>
            if Topology.visited_has visited (Some i) then 0
            else length (nth i g []))
         (seq 0 (length g))).

(** A walk: consecutive entries are joined by hardware edges. *)
Fixpoint is_walk (p : list qid) : Prop :=
  match p with
  | [] => True
  | u :: p' =>
      match p' with
      | [] => True
      | Some v :: _ => In v (Topology.neighbors g u) /\ is_walk p'
      | None :: _ => False
      end
  end.

End GraphSpec.

(** Every memoized distance is the one the breadth-first search computes. *)
Definition cache_entry_ok (g : Topology.Graph)
         (e : Topology.CacheKey * number) : bool :=
match fst e with
| Topology.Key lo hi =>
    number_eqb (snd e) (Topology.bfs_distance g (Some lo) (Some hi))
| Topology.KeyNaN => true
end.

Definition cache_ok (hw : Topology.t) : Prop :=
forallb (cache_entry_ok (Topology.graph hw)) (Topology.distanceCache hw) = true.

(** A hardware object as the constructor and later [distance] calls leave
  it: the graph is the one [buildGraph] makes for the stored shape, and
  the memo is sound. *)
Definition built (hw : Topology.t) : Prop :=
Topology.graph hw = Topology.buildGraph (Topology.type hw) (Topology.params hw)
/\ cache_ok hw.

(** The distance a queued path stands for, and the number a returned path
  stands for. *)
Definition path_dist (x : qid * list qid) : qid * nat :=
(fst x, length (snd x) - 1).

Definition path_number (p : list qid) : number :=
match p with
| [] => Infinity
| _ :: _ => Fin (Z.of_nat (length p - 1))
end.

(** A queued path is a walk from the source [q1] to its node. *)
Definition path_ok (g : Topology.Graph) (q1 : qid) (x : qid * list qid) : Prop :=
is_walk g (snd x) /\ hd_error (snd x) = Some q1 /\ last (snd x) q1 = fst x
/\ snd x <> [].

(** The invariant of the breadth-first loop of [distance] from [s] to [t]:
  the queue is [A ++ B], with the entries of [A] at distance [m] and those
  of [B] at [m + 1]. *)
Record bfs_inv (g : Topology.Graph) (s t : qid) (m : nat)
     (A B : list (qid * nat)) (V : list qid) : Prop := mk_bfs_inv {
inv_A : forall x, In x A -> snd x = m;
inv_B : forall x, In x B -> snd x = S m;
inv_sound : forall x, In x (A ++ B) -> reach g (snd x) s (fst x);
inv_below : forall k w, k < m -> reach g k s w -> In w V;
inv_level : forall w, reach g m s w -> In w V \/ In (w, m) A;
inv_closed : forall u v, In u V -> In v (Topology.neighbors g u) ->
                         In (Some v) V \/ exists d, In (Some v, d) (A ++ B);
inv_target : ~ In t V
}.

(** What [distance] is meant to answer for [s] and [t]. *)
Definition is_distance (g : Topology.Graph) (s t : qid) (r : number) : Prop :=
match r with
| Fin z => exists d, z = Z.of_nat d /\ reach g d s t
                     /\ forall k, reach g k s t -> d <= k
| Infinity => forall k, ~ reach g k s t
end.

(** The grid shape, as [buildGraph] lays it out. *)
Definition grid_graph (rows cols : nat) : Topology.Graph :=
flat_map (fun r => map (Topology.grid_cell rows cols r) (seq 0 cols)) (seq 0 rows).

(** ** Vocabulary for the mappers *)

(** Two states of one hardware object: same shape and graph, and a sound
  memo stays sound. *)
Definition same_device (hw hw' : Topology.t) : Prop :=
Topology.type hw' = Topology.type hw
/\ Topology.params hw' = Topology.params hw
/\ Topology.graph hw' = Topology.graph hw
/\ (built hw -> built hw').

(** What a swap-insertion loop can do to the state: update the distance
  memo and insert swaps. *)
Inductive swaps_only : State -> State -> Prop :=
| so_done : forall st, swaps_only st st
| so_memo : forall st hw' st',
  same_device (st_hw st) hw' ->
  swaps_only (with_hw st hw') st' ->
  swaps_only st st'
| so_swap : forall st q1 q2 st',
  swaps_only (insertSwap st q1 q2) st' ->
  swaps_only st st'.

(** The bookkeeping of a run: the swap counter counts the swap steps, the
  depth counter counts all steps, the step at position [i] carries depth
  [i], and [inserted] is set exactly on swap steps. *)
Definition counters_ok (steps : list Step) (swaps depth : nat) : Prop :=
swaps = length (filter is_swap steps)
/\ depth = length steps
/\ (forall i s, nth_error steps i = Some s -> step_depth s = i)
/\ (forall s, In s steps -> step_inserted s = is_swap s).

Definition state_counters_ok (st : State) : Prop :=
counters_ok (st_steps st) (st_insertedSwaps st) (st_depth st).

Definition result_counters_ok (r : MappingResult) : Prop :=
counters_ok (steps r) (insertedSwaps r) (depth r).









(** ** Vocabulary for the chromosome cursor *)

(** The chromosome entries the inserted swaps of a step list stand for, in
  order. *)
Fixpoint swap_genes (steps : list Step) : list GeneticSwapOptimizer.Gene :=
match steps with
| [] => []
| Swap (Some a, Some b) _ _ _ _ :: rest => Some (a, b) :: swap_genes rest
| Swap _ _ _ _ _ :: rest => None :: swap_genes rest
| Native _ _ _ _ _ _ :: rest => swap_genes rest
end.

(** [l] is [m] with some entries left out: the entries of [l] occur in
  [m], in the same order, each at a place of its own. *)
Inductive subseq {A : Type} : list A -> list A -> Prop :=
| subseq_nil : subseq [] []
| subseq_skip : forall x l m, subseq l m -> subseq l (x :: m)
| subseq_take : forall x l m, subseq l m -> subseq (x :: l) (x :: m).

(** An outcome of a replay with its cursor moved on by [i]. *)
Definition advanced (i : nat) (r : result (State * nat)) : result (State * nat) :=
match r with
| Ok (st, k) => Ok (st, i + k)
| TypeError => TypeError
end.

(** ** Vocabulary for the options *)

(** Natural parameters read as integer parameters. *)
Definition int_params (p : Topology.Params) : Topology.IntParams :=
Topology.mkIntParams (option_map Z.of_nat (Topology.qubits p))
                     (option_map Z.of_nat (Topology.rows p))
                     (option_map Z.of_nat (Topology.cols p)).

(** No parameter is negative. *)
Definition no_negative (p : Topology.IntParams) : Prop :=
forall z,
  In (Some z) [Topology.int_qubits p; Topology.int_rows p; Topology.int_cols p] ->
  (0 <= z)%Z.

(** A computation of the genetic search keeps the hardware object the same
  device. *)
Definition keeps_device {A : Type} (m : GeneticSwapOptimizer.G A) : Prop :=
forall rnd e a e',
  m rnd e = Ok (a, e') ->
  same_device (GeneticSwapOptimizer.ehw e) (GeneticSwapOptimizer.ehw e').

(** ** Vocabulary for layouts *)

(** The layout is a bijection between the [n] logical qubits and the
  physical ids [0 .. n-1], and its [-1] property was never written. *)
Definition layout_ok (n : nat) (l : Layout.t) : Prop :=
Layout.minus1 l = None
/\ length (Layout.cells l) = n
/\ NoDup (Layout.cells l)
/\ Forall (fun c => exists p, c = Some p /\ p < n) (Layout.cells l).

(** The transposition of the physical ids [q1] and [q2]. *)
Definition transpose (q1 q2 : qid) (c : qid) : qid :=
if qid_eqb c q1 then q2 else if qid_eqb c q2 then q1 else c.

(** The layout snapshots of consecutive steps: a swap step carries the
  previous snapshot with its recorded physical pair transposed (two
  different ids, both present), any other step carries the previous
  snapshot unchanged. *)
Fixpoint snapshots_ok (prev : list qid) (steps : list Step) : Prop :=
match steps with
| [] => True
| s :: rest =>
    match s with
    | Swap (q1, q2) _ l _ _ =>
        q1 <> q2 /\ In q1 prev /\ In q2 prev /\ l = map (transpose q1 q2) prev
    | Native _ _ _ l _ _ => l = prev
    end
    /\ snapshots_ok (step_layout s) rest
end.

(** The device has no more qubits than the circuit, so every physical qubit
  is the image of a logical one. *)
Definition device_fits (n : nat) (hw : Topology.t) : Prop :=
length (Topology.graph hw) <= n.

(** The run so far: the layout is a bijection, the snapshots of the steps
  follow each other by the recorded transpositions, and the last snapshot
  is the current layout. *)
Definition trace_ok (n : nat) (st : State) : Prop :=
layout_ok n (st_layout st)
/\ snapshots_ok (Layout.cells (Layout.identity n)) (st_steps st)
/\ last (map step_layout (st_steps st)) (Layout.cells (Layout.identity n))
   = Layout.cells (st_layout st).

Definition result_trace_ok (n : nat) (r : MappingResult) : Prop :=
layout_ok n (finalLayout r)
/\ snapshots_ok (Layout.cells (Layout.identity n)) (steps r)
/\ last (map step_layout (steps r)) (Layout.cells (Layout.identity n))
   = Layout.cells (finalLayout r).

(** Every defined entry of a chromosome joins two different qubits. *)
Definition proper_genes (ch : GeneticSwapOptimizer.Chromosome) : Prop :=
Forall (fun g => match g with
                 | Some (a, b) => a <> b
                 | None => True
                 end) ch.

Definition proper_chromosome (ch : option GeneticSwapOptimizer.Chromosome) : Prop :=
match ch with
| Some l => proper_genes l
| None => True
end.

(** ** Vocabulary for the constructors *)

(** The call raised an error. *)
Definition raises {A : Type} (r : result A) : Prop := r = TypeError.

(** One of the three shape tags [buildGraph] knows. *)
Definition known_shape (ty : string) : Prop :=
ty = "lnn" \/ ty = "grid2d" \/ ty = "star".

(** Every value a computation of the genetic search can return satisfies
    [P]. *)
Definition yields {A : Type} (P : A -> Prop) (m : GeneticSwapOptimizer.G A) : Prop :=
  forall rnd e a e', m rnd e = Ok (a, e') -> P a.

(** A gene read from a list of edges with distinct ends. *)
Definition proper_gene (g : GeneticSwapOptimizer.Gene) : Prop :=
  match g with
  | Some (a, b) => a <> b
  | None => True
  end.

(** ** Vocabulary for runs of the genetic search that return *)

(** No entry of the chromosome is [undefined]. *)
Definition defined_genes (ch : GeneticSwapOptimizer.Chromosome) : Prop :=
  Forall (fun g : GeneticSwapOptimizer.Gene => g <> None) ch.

(** Every operand of every gate is a logical qubit of the circuit. *)
Definition operands_in_range (c : QuantumCircuit.t) : Prop :=
  Forall (fun g => Forall (fun q => q < QuantumCircuit.nQubits c)
                          (QuantumCircuit.gqubits g))
         (QuantumCircuit.gates c).

(** Any two of the first [n] physical qubits are joined by a walk. *)
Definition connected_below (n : nat) (g : Topology.Graph) : Prop :=
  forall a b, a < n -> b < n -> exists k, reach g k (Some a) (Some b).

(** [Math.random()] answers in [[0, 1)]. *)
Definition unit_interval (rnd : nat -> Q) : Prop :=
  forall i, (0 <= rnd i)%Q /\ (rnd i < 1)%Q.

Definition finite_fitness (f : GeneticSwapOptimizer.Fitness) : Prop :=
  exists z, f = GeneticSwapOptimizer.FFin z.

(** The environment of a search on the graph [g]: the hardware object is as
    built, and every memoized fitness is finite. *)
Definition env_ok (g : Topology.Graph) (e : GeneticSwapOptimizer.Env) : Prop :=
  built (GeneticSwapOptimizer.ehw e)
  /\ Topology.graph (GeneticSwapOptimizer.ehw e) = g
  /\ Forall (fun kv => finite_fitness (snd kv)) (GeneticSwapOptimizer.fitnessCache e).

(** The computation returns, with a value satisfying [P], from every
    environment that is [env_ok], and leaves such an environment. *)
Definition returns {A : Type} (g : Topology.Graph) (rnd : nat -> Q)
           (P : A -> Prop) (m : GeneticSwapOptimizer.G A) : Prop :=
  forall e, env_ok g e ->
            exists a e', m rnd e = Ok (a, e') /\ P a /\ env_ok g e'.

(** What a replay on the graph [g] keeps true of its state: the layout is a
    bijection, the hardware object is as built, and the penalty is finite. *)
Definition replay_ok (n : nat) (g : Topology.Graph) (st : State) : Prop :=
  layout_ok n (st_layout st)
  /\ built (st_hw st)
  /\ Topology.graph (st_hw st) = g
  /\ exists z, st_distancePenalty st = Fin z.

(** An evaluated individual with defined genes and a finite fitness. *)
Definition evaluated_ok (x : GeneticSwapOptimizer.Evaluated) : Prop :=
  defined_genes (fst x) /\ finite_fitness (snd x).

(** The best individual kept so far: [null] only before any finite fitness
    was seen. *)
Definition best_ok (best : option GeneticSwapOptimizer.Chromosome)
           (bf : GeneticSwapOptimizer.Fitness) : Prop :=
  match best with
  | Some c => defined_genes c
  | None => bf = GeneticSwapOptimizer.FNegInf
  end.

(** ** Vocabulary for the shapes *)

(** The chain, as [buildGraph] lays it out. *)
Definition lnn_graph (n : nat) : Topology.Graph :=
  map (Topology.lnn_row n) (seq 0 n).

(** The number of edges between two different qubits of a star: one when
    either is the hub, two otherwise. *)
Definition star_hops (a b : nat) : Z :=
  if a =? b then 0 else if (a =? 0) || (b =? 0) then 1 else 2.

(** ** Vocabulary for the interaction table *)

(** The gate acts on exactly the two logical qubits of the key, in either
    order. *)
Definition on_pair (key : InteractionGraph.Key) (g : QuantumCircuit.Gate) : bool :=
  match QuantumCircuit.gqubits g with
  | [a; b] => InteractionGraph.key_eqb (InteractionGraph.edgeKey a b) key
  | _ => false
  end.

(** The two-qubit gate acts on the logical qubits [q1] and [q2], in either
    order. *)
Definition acts_on (q1 q2 : nat) (g : QuantumCircuit.Gate) : bool :=
  match QuantumCircuit.gqubits g with
  | [a; b] => (Nat.eqb a q1 && Nat.eqb b q2) || (Nat.eqb a q2 && Nat.eqb b q1)
  | _ => false
  end.

(** The count kept for a key, [0] when the key is absent. *)
Definition count_of (key : InteractionGraph.Key)
           (edges : list (InteractionGraph.Key * InteractionGraph.Edge)) : nat :=
  match InteractionGraph.get key edges with
  | Some e => InteractionGraph.count e
  | None => 0
  end.

(** What the table says of the key [key] after the gates [done]: an entry
    records the positions of the first and of the last gate on that pair,
    and a key without entry belongs to no gate. *)
Definition seen_ok (done : list QuantumCircuit.Gate)
           (edges : list (InteractionGraph.Key * InteractionGraph.Edge))
           (key : InteractionGraph.Key) : Prop :=
  match InteractionGraph.get key edges with
  | Some e =>
      (exists g, nth_error done (InteractionGraph.firstSeen e) = Some g
                 /\ on_pair key g = true)
      /\ (exists g, nth_error done (InteractionGraph.lastSeen e) = Some g
                    /\ on_pair key g = true)
      /\ (forall j g, nth_error done j = Some g -> on_pair key g = true ->
                      InteractionGraph.firstSeen e <= j
                      /\ j <= InteractionGraph.lastSeen e)
  | None => forall g, In g done -> on_pair key g = false
  end.

(** No key twice, every key sorted, every count positive. *)
Definition table_ok (edges : list (InteractionGraph.Key * InteractionGraph.Edge))
  : Prop :=
  NoDup (map fst edges)
  /\ Forall (fun ke => fst (fst ke) <= snd (fst ke)
                       /\ 1 <= InteractionGraph.count (snd ke)) edges.

(** ** Vocabulary for what a run keeps of the circuit *)

(** The gate a step stands for: its type and logical operands; an inserted
    swap stands for none. *)
Definition native_of (s : Step) : option (string * list nat) :=
  match s with
  | Native ty _ logical _ _ _ => Some (ty, logical)
  | Swap _ _ _ _ _ => None
  end.

(** The gates of a step list, in order, the inserted swaps left out. *)
Fixpoint natives (steps : list Step) : list (string * list nat) :=
  match steps with
  | [] => []
  | s :: rest =>
      match native_of s with
      | Some x => x :: natives rest
      | None => natives rest
      end
  end.

(** The physical operands of a gate step are the images of its logical
    operands under the layout snapshot the step carries. *)
Definition images_ok (s : Step) : Prop :=
  match s with
  | Native _ qubits logical layout _ _ =>
      qubits = map (fun q => nth q layout None) logical
  | Swap _ _ _ _ _ => True
  end.

(** The result keeps the circuit: its gate steps are the circuit's gates in
    order, each on the images of its operands, and its depth is the number
    of gates plus the number of inserted swaps. *)
Definition gates_kept (c : QuantumCircuit.t) (r : MappingResult) : Prop :=
  natives (steps r)
  = map (fun g => (QuantumCircuit.gtype g, QuantumCircuit.gqubits g))
        (QuantumCircuit.gates c)
  /\ Forall images_ok (steps r)
  /\ depth r = length (QuantumCircuit.gates c) + insertedSwaps r.

(** What a mapper does for one gate, whichever strategy it follows: insert
    swaps (and update the distance memo), perhaps add to the penalty, and
    push the gate. *)
Inductive run : list QuantumCircuit.Gate -> State -> State -> Prop :=
| run_nil : forall st, run [] st st
| run_cons : forall g gs st st1 st2 st3,
    swaps_only st st1 ->
    (st2 = emitNative st1 g
     \/ exists c t, QuantumCircuit.gqubits g = [c; t]
                    /\ st2 = emitNative (addPenalty st1 c t) g) ->
    run gs st2 st3 ->
    run (g :: gs) st st3.

(** An inserted swap acts on two physical qubits joined by a hardware
    edge. *)
Definition swap_on_edge (g : Topology.Graph) (s : Step) : Prop :=
  match s with
  | Swap (q1, q2) _ _ _ _ =>
      exists a b, q1 = Some a /\ q2 = Some b /\ In b (nth a g [])
  | Native _ _ _ _ _ _ => True
  end.

(** The steps so far stand for the gates [done], each on the images of its
    operands. *)
Definition kept_so_far (done : list QuantumCircuit.Gate) (st : State) : Prop :=
  natives (st_steps st)
  = map (fun g => (QuantumCircuit.gtype g, QuantumCircuit.gqubits g)) done
  /\ Forall images_ok (st_steps st).

(** The run so far, on the graph [g]: every inserted swap joined two
    adjacent physical qubits. *)
Definition edge_swaps (g : Topology.Graph) (st : State) : Prop :=
  Topology.graph (st_hw st) = g /\ Forall (swap_on_edge g) (st_steps st).

(** A chromosome entry that is a hardware edge (or [undefined]). *)
Definition gene_on_edge (g : Topology.Graph) (x : GeneticSwapOptimizer.Gene)
  : Prop :=
  match x with
  | Some (a, b) => In b (nth a g [])
  | None => True
  end.

(** ** Vocabulary for fully routed runs *)

(** A two-qubit gate on two different logical qubits of the circuit; a gate
    on another number of qubits asks for nothing. *)
Definition routable (n : nat) (g : QuantumCircuit.Gate) : Prop :=
  match QuantumCircuit.gqubits g with
  | [c; t] => c < n /\ t < n /\ c <> t
  | _ => True
  end.

(** A two-qubit gate step acts on two adjacent physical qubits. *)
Definition native_adjacent (g : Topology.Graph) (s : Step) : Prop :=
  match s with
  | Native _ [p1; p2] _ _ _ _ =>
      exists a b, p1 = Some a /\ p2 = Some b /\ In b (nth a g [])
  | _ => True
  end.

(** The run so far left no gate unresolved. *)
Definition routed (g : Topology.Graph) (st : State) : Prop :=
  st_distancePenalty st = Fin 0 /\ Forall (native_adjacent g) (st_steps st).

(** A run that has inserted no swap: the layout is still the identity;
    [k] is the depth reached. *)
Definition idle (n : nat) (g : Topology.Graph) (k : nat) (st : State) : Prop :=
  st_insertedSwaps st = 0
  /\ st_layout st = Layout.identity n
  /\ st_depth st = k
  /\ Topology.graph (st_hw st) = g.

(** ** Vocabulary for the chromosomes of a search *)

(** A chromosome of a search on the graph [g] with at most [max] entries:
    every entry is a hardware edge (or [undefined], when there is no edge),
    and there are between one and [max] of them. *)
Definition chromosome_ok (g : Topology.Graph) (max : nat)
           (c : GeneticSwapOptimizer.Chromosome) : Prop :=
  Forall (gene_on_edge g) c /\ 1 <= length c /\ length c <= max.

(** Every value the computation returns, started on the graph [g] with the
    random stream [rnd], satisfies [P], and the graph is still [g]. *)
Definition preserves {A : Type} (g : Topology.Graph) (rnd : nat -> Q)
           (P : A -> Prop) (m : GeneticSwapOptimizer.G A) : Prop :=
  forall e a e',
    Topology.graph (GeneticSwapOptimizer.ehw e) = g ->
    m rnd e = Ok (a, e') ->
    P a /\ Topology.graph (GeneticSwapOptimizer.ehw e') = g.

(** ** Vocabulary for the benchmark circuits *)

(** Every gate of the list acts on qubits below [n], and a two-qubit gate on
    two different ones. *)
Definition gates_fit (n : nat) (gs : list QuantumCircuit.Gate) : Prop :=
  Forall (fun g => Forall (fun q => q < n) (QuantumCircuit.gqubits g)
                   /\ routable n g) gs.

(** The circuit [c'] is [c] with [k] more gates, all fitting [n] qubits. *)
Definition extends_by (n k : nat) (c c' : QuantumCircuit.t) : Prop :=
  QuantumCircuit.nQubits c' = QuantumCircuit.nQubits c
  /\ exists more,
      QuantumCircuit.gates c' = QuantumCircuit.gates c ++ more
      /\ length more = k
      /\ gates_fit n more.

(** [1 + 2 + ... + n], the number of gates of [qft]. *)
Fixpoint triangle (n : nat) : nat :=
  match n with
  | 0 => 0
  | S i => S i + triangle i
  end.

(** The gates of [k] rounds of the inner loop of [grover] from index [i]:
    one [h] each, and a [cx] for every index below [n - 2]. *)
Fixpoint grover_inner_count (n k i : nat) : nat :=
  match k with
  | 0 => 0
  | S k' => (if i <? n - 2 then 2 else 1) + grover_inner_count n k' (S i)
  end.

(** A gate whose operands are already adjacent under the identity layout;
    a gate on another number of qubits asks for nothing. *)
Definition already_adjacent (n : nat) (g : Topology.Graph)
           (gate : QuantumCircuit.Gate) : Prop :=
  match QuantumCircuit.gqubits gate with
  | [c; t] => c < n /\ t < n /\ In t (nth c g [])
  | _ => True
  end.

(** A run that never had to move a qubit. *)
Definition untouched (n : nat) (g : Topology.Graph) (k : nat) (st : State)
  : Prop :=
  idle n g k st /\ st_distancePenalty st = Fin 0 /\ built (st_hw st).

(** ** Vocabulary for hardware objects that differ in their memo only *)

(** Two hardware objects built for the same shape and parameters: they can
    differ in what their distance memos hold. *)
Definition twin (hw1 hw2 : Topology.t) : Prop :=
  built hw1 /\ built hw2
  /\ Topology.type hw1 = Topology.type hw2
  /\ Topology.params hw1 = Topology.params hw2.

(** Two states of a run that agree on everything but the memo. *)
Definition twin_states (st1 st2 : State) : Prop :=
  st_steps st1 = st_steps st2
  /\ st_layout st1 = st_layout st2
  /\ st_insertedSwaps st1 = st_insertedSwaps st2
  /\ st_depth st1 = st_depth st2
  /\ st_distancePenalty st1 = st_distancePenalty st2
  /\ twin (st_hw st1) (st_hw st2).

(** Two outcomes of a loop that agree on everything but the memo. *)
Definition twin_outcomes (o1 o2 : option State) : Prop :=
  match o1, o2 with
  | Some st1, Some st2 => twin_states st1 st2
  | None, None => True
  | _, _ => False
  end.

Definition twin_envs (e1 e2 : GeneticSwapOptimizer.Env) : Prop :=
  GeneticSwapOptimizer.rpos e1 = GeneticSwapOptimizer.rpos e2
  /\ GeneticSwapOptimizer.fitnessCache e1 = GeneticSwapOptimizer.fitnessCache e2
  /\ twin (GeneticSwapOptimizer.ehw e1) (GeneticSwapOptimizer.ehw e2).

(** Two outcomes of a computation of the genetic search that agree on
    everything but the memo. *)
Definition alike {A : Type} (r1 r2 : result (A * GeneticSwapOptimizer.Env))
  : Prop :=
  match r1, r2 with
  | Ok (a1, e1), Ok (a2, e2) => a1 = a2 /\ twin_envs e1 e2
  | TypeError, TypeError => True
  | _, _ => False
  end.

(** The computation does not depend on what the memo holds. *)
Definition memo_blind {A : Type} (rnd : nat -> Q)
           (m : GeneticSwapOptimizer.G A) : Prop :=
  forall e1 e2, twin_envs e1 e2 -> alike (m rnd e1) (m rnd e2).

(** Two outcomes of a replay that agree on everything but the memo. *)
Definition same_replay (r1 r2 : result (MappingResult * Topology.t)) : Prop :=
  match r1, r2 with
  | Ok (a1, h1), Ok (a2, h2) => a1 = a2 /\ twin h1 h2
  | TypeError, TypeError => True
  | _, _ => False
  end.

(** Two outcomes of a mapper that agree on everything but the memo. *)
Definition same_mapping (r1 r2 : option (MappingResult * Topology.t)) : Prop :=
  match r1, r2 with
  | Some (a1, h1), Some (a2, h2) => a1 = a2 /\ twin h1 h2
  | None, None => True
  | _, _ => False
  end.

(** ** Vocabulary for the comparison of the strategies *)

(** The cost the comparison reports for a result of a circuit with [gates]
    gates: every inserted swap counts eleven (ten as a swap, one as a
    step), every gate one, every unit of distance penalty five. *)
Definition reported_cost (gates : nat) (r : MappingResult) (c : CostModel.Cost)
  : Prop :=
  match distancePenalty r with
  | Fin p =>
      exists q, c = CostModel.CFin q
                /\ (q == inject_Z (11 * Z.of_nat (insertedSwaps r)
                                   + Z.of_nat gates + 5 * p))%Q
  | Infinity => c = CostModel.CInf
  end.

(** ** Concrete inputs used by the examples *)

Definition cx (a b : nat) : QuantumCircuit.Gate := QuantumCircuit.mkGate "cx" [a; b].
Definition hgate (a : nat) : QuantumCircuit.Gate := QuantumCircuit.mkGate "h" [a].

(** [new HardwareTopology('lnn', { qubits: 3 })]. *)
Definition lnn3 : Topology.t :=
  Topology.mk "lnn" (Topology.mkParams (Some 3) None None)
              [[1]; [0; 2]; [1]] [].

(** [new HardwareTopology('lnn', { qubits: 2 })]. *)
Definition lnn2 : Topology.t :=
  Topology.mk "lnn" (Topology.mkParams (Some 2) None None) [[1]; [0]] [].

(** [new HardwareTopology('lnn', { qubits: 1 })]. *)
Definition lnn1 : Topology.t :=
  Topology.mk "lnn" (Topology.mkParams (Some 1) None None) [[]] [].

(** [new HardwareTopology('grid2d', { rows: 2, cols: 3 })]. *)
Definition grid23 : Topology.t :=
  Topology.mk "grid2d" (Topology.mkParams None (Some 2) (Some 3))
              [[1; 3]; [0; 2; 4]; [1; 5]; [4; 0]; [3; 5; 1]; [4; 2]] [].

(** Scenario A: one two-qubit gate on the ends of a three-qubit chain. *)
Definition circuitA : QuantumCircuit.t := QuantumCircuit.mk 3 [cx 0 2].

(** [new HardwareTopology('lnn', { qubits: 0 })]: the chain of five. *)
Definition chain5 : Topology.Graph := [[1]; [0; 2]; [1; 3]; [2; 4]; [3]].

(** The star of five: qubit [0] joined to the four others. *)
Definition star5 : Topology.Graph := [[1; 2; 3; 4]; [0]; [0]; [0]; [0]].

(** The circuit whose only gate is [cx(0, 0)]. *)
Definition cx00 : QuantumCircuit.t := QuantumCircuit.mk 2 [cx 0 0].

(** The two layouts of two qubits. *)
Definition layout01 : Layout.t := Layout.mk [Some 0; Some 1] None.
Definition layout10 : Layout.t := Layout.mk [Some 1; Some 0] None.

(** Two layouts of five qubits in which logical qubit 4 is lost and the
    array's [-1] property holds a physical id. *)
Definition layoutA : Layout.t :=
  Layout.mk [Some 0; Some 1; Some 2; Some 3; None] (Some 4).
Definition layoutB : Layout.t :=
  Layout.mk [Some 0; Some 1; Some 2; Some 4; None] (Some 3).

(** * Properties of the breadth-first searches *)

Lemma qid_eqb_eq : forall a b : qid, qid_eqb a b = true <-> a = b.
Proof.
intros [x|] [y|]; simpl; split; intro H; try discriminate; try reflexivity.
- apply Nat.eqb_eq in H. now subst.
- inversion H. apply Nat.eqb_refl.
Qed.

Lemma qid_eqb_refl : forall a : qid, qid_eqb a a = true.
Proof. intro a. now apply qid_eqb_eq. Qed.

Lemma visited_has_In : forall V q, Topology.visited_has V q = true <-> In q V.
Proof.
intros V q. unfold Topology.visited_has. rewrite existsb_exists. split.
- intros [x [Hin Heq]]. apply qid_eqb_eq in Heq. now subst.
- intro H. exists q. split; [assumption | apply qid_eqb_refl].
Qed.

Lemma visited_has_false : forall V q, Topology.visited_has V q = false <-> ~ In q V.
Proof.
intros V q. rewrite <- visited_has_In.
destruct (Topology.visited_has V q); split; intro H; try reflexivity;
  try discriminate; try (exfalso; now apply H); auto.
Qed.

(** ** The loops stop within [bfs_fuel] rounds *)

Lemma sum_without : forall (f f' : nat -> nat) n l,
  NoDup l ->
  (forall i, i <> n -> f' i = f i) ->
  f' n = 0 ->
  list_sum (map f' l) + (if in_dec Nat.eq_dec n l then f n else 0)
  = list_sum (map f l).
Proof.
intros f f' n l Hnd Hother Hn. induction Hnd as [|x l Hx Hnd IH]; simpl.
- reflexivity.
- destruct (Nat.eq_dec x n) as [->|Hne].
  + rewrite Hn. destruct (in_dec Nat.eq_dec n l) as [Hin|_]; [contradiction|].
    rewrite Nat.add_0_r in IH. rewrite <- IH. lia.
  + rewrite (Hother x Hne).
    destruct (in_dec Nat.eq_dec n l); lia.
Qed.

Lemma budget_visit : forall g V node,
  Topology.visited_has V node = false ->
  budget g (node :: V) + length (Topology.neighbors g node) = budget g V.
Proof.
intros g V node Hnew. unfold budget.
destruct node as [n|]; simpl Topology.neighbors.
- rewrite <- (sum_without
                (fun i => if Topology.visited_has V (Some i) then 0
                          else length (nth i g []))
                (fun i => if Topology.visited_has (Some n :: V) (Some i) then 0
                          else length (nth i g []))
                n (seq 0 (length g))).
  + rewrite Hnew.
    destruct (in_dec Nat.eq_dec n (seq 0 (length g))) as [Hin|Hout].
    * reflexivity.
    * rewrite in_seq in Hout.
      rewrite (nth_overflow g [] (n := n)) by lia. reflexivity.
  + apply seq_NoDup.
  + intros i Hi. simpl.
    destruct (Nat.eqb i n) eqn:E; [apply Nat.eqb_eq in E; contradiction|].
    reflexivity.
  + simpl. now rewrite Nat.eqb_refl.
- simpl. rewrite Nat.add_0_r. reflexivity.
Qed.

#[local] Arguments Topology.visited_has : simpl never.

Lemma distance_loop_fuel : forall fuel g q2 queue V,
  length queue + budget g V < fuel ->
  Topology.distance_loop fuel g q2 queue V <> None.
Proof.
induction fuel as [|fuel IH]; intros g q2 queue V Hf; [lia|].
simpl. destruct queue as [|[node dist] rest]; [discriminate|].
destruct (qid_eqb node q2); [discriminate|].
destruct (Topology.visited_has V node) eqn:Hv.
- apply IH. simpl in Hf. lia.
- apply IH. pose proof (budget_visit g V node Hv) as Hb.
  rewrite length_app, length_map.
  pose proof (filter_length_le
                (fun nb => negb (Topology.visited_has (node :: V) (Some nb)))
                (Topology.neighbors g node)) as Hle.
  simpl in Hf. lia.
Qed.

Lemma budget_nil_le : forall g, budget g [] <= length (concat g).
Proof.
intro g. unfold budget. simpl.
assert (H : forall k l : list (list nat),
           list_sum (map (fun i => length (nth i (k ++ l) [])) (seq (length k) (length l)))
           = length (concat l)).
{ intros k l. revert k. induction l as [|x l IH]; intro k; simpl; [reflexivity|].
  rewrite app_nth2 by lia. rewrite Nat.sub_diag. simpl.
  rewrite length_app. f_equal.
  specialize (IH (k ++ [x])). rewrite <- app_assoc in IH. simpl in IH.
  rewrite length_app in IH. simpl in IH. rewrite Nat.add_1_r in IH. exact IH. }
specialize (H [] g). simpl in H. rewrite H. lia.
Qed.

Lemma bfs_fuel_enough_distance : forall g q1 q2,
  Topology.distance_loop (Topology.bfs_fuel g) g q2 [(q1, 0)] [] <> None.
Proof.
intros g q1 q2. apply distance_loop_fuel.
pose proof (budget_nil_le g). unfold Topology.bfs_fuel. simpl. lia.
Qed.
(** ** [distance] and [getShortestPath] run in lockstep *)

Lemma path_loop_lockstep : forall fuel g q2 Qp V,
  Forall (fun x => snd x <> []) Qp ->
  Topology.distance_loop fuel g q2 (map path_dist Qp) V
  = option_map path_number (Topology.path_loop fuel g q2 Qp V).
Proof.
induction fuel as [|fuel IH]; intros g q2 Qp V Hne; [reflexivity|].
simpl. destruct Qp as [|[node path] rest]; [reflexivity|].
inversion Hne as [|x l Hp Hrest]; subst. simpl in Hp.
simpl. destruct (qid_eqb node q2).
- simpl. destruct path; [contradiction|reflexivity].
- destruct (Topology.visited_has V node).
  + apply IH. assumption.
  + rewrite <- IH.
    * f_equal. rewrite map_app. f_equal. rewrite !map_map.
      apply map_ext. intro nb. unfold path_dist. simpl.
      rewrite length_app. simpl.
      destruct path as [|q path]; [contradiction|].
      assert (E : length (q :: path) - 1 + 1 = length (q :: path) + 1 - 1)
        by (simpl; lia).
      rewrite E. reflexivity.
    * apply Forall_app. split; [assumption|].
      apply Forall_forall. intros x Hx. apply in_map_iff in Hx.
      destruct Hx as [nb [<- _]]. simpl. intro H.
      apply app_eq_nil in H. destruct H as [_ H]. discriminate.
Qed.

(** ** The returned path is a walk between the two qubits *)

Lemma is_walk_snoc : forall g p d v,
  is_walk g p -> p <> [] ->
  In v (Topology.neighbors g (last p d)) ->
  is_walk g (p ++ [Some v]).
Proof.
intros g p d v. induction p as [|u p IH]; intros Hw Hne Hv; [contradiction|].
destruct p as [|u' p'].
- simpl in *. auto.
- change (is_walk g (u :: (u' :: p') ++ [Some v])).
  simpl in Hw. destruct u' as [u'|]; [|contradiction].
  destruct Hw as [He Hw].
  simpl. split; [assumption|].
  apply IH; [exact Hw | discriminate | exact Hv].
Qed.

Lemma path_loop_ok : forall fuel g q1 q2 Qp V r,
  Forall (path_ok g q1) Qp ->
  Topology.path_loop fuel g q2 Qp V = Some r ->
  r = [] \/ path_ok g q1 (q2, r).
Proof.
induction fuel as [|fuel IH]; intros g q1 q2 Qp V r Hok Hr; [discriminate|].
simpl in Hr. destruct Qp as [|[node path] rest].
- left. congruence.
- inversion Hok as [|x l Hp Hrest]; subst.
  destruct (qid_eqb node q2) eqn:E.
  + apply qid_eqb_eq in E. subst. inversion Hr; subst. right. exact Hp.
  + destruct (Topology.visited_has V node).
    * eapply IH; eauto.
    * eapply IH; [|exact Hr].
      apply Forall_app. split; [assumption|].
      apply Forall_forall. intros x Hx. apply in_map_iff in Hx.
      destruct Hx as [nb [<- Hnb]]. apply filter_In in Hnb.
      destruct Hnb as [Hnb _].
      destruct Hp as (Hw & Hhd & Hlast & Hne). simpl in *.
      repeat split.
      -- apply is_walk_snoc with (d := q1); [assumption|assumption|].
         now rewrite Hlast.
      -- destruct path; [contradiction|]. exact Hhd.
      -- apply last_last.
      -- intro H. apply app_eq_nil in H. destruct H as [_ H]. discriminate.
Qed.

Lemma getShortestPath_ok : forall hw q1 q2,
  let p := Topology.getShortestPath hw q1 q2 in
  p = [] \/ path_ok (Topology.graph hw) q1 (q2, p).
Proof.
intros hw q1 q2. unfold Topology.getShortestPath.
destruct (Topology.path_loop _ _ _ _ _) as [r|] eqn:E; [|now left].
eapply path_loop_ok; [|exact E].
constructor; [|constructor]. repeat split; simpl; auto. discriminate.
Qed.

(** ** [distance] is the length of a shortest walk *)

Section BfsCorrect.

Variable g : Topology.Graph.
Variables s t : qid.

Lemma reach_snoc : forall k u w v,
    reach g k u w -> In v (Topology.neighbors g w) ->
    reach g (S k) u (Some v).
Proof.
  intros k u w v H. induction H as [u|k u v' w Hin H IH]; intro Hv.
  - econstructor; [exact Hv | constructor].
  - econstructor; [exact Hin | apply IH, Hv].
Qed.

Lemma reach_last : forall k u w,
    reach g (S k) u w ->
    exists x v, reach g k u x /\ In v (Topology.neighbors g x) /\ w = Some v.
Proof.
  induction k as [|k IH]; intros u w H.
  - inversion H as [|k' u' v w' Hin Hr]; subst.
    inversion Hr; subst. exists u, v. repeat split; [constructor | assumption].
  - inversion H as [|k' u' v w' Hin Hr]; subst.
    destruct (IH _ _ Hr) as (x & v' & Hx & Hv' & ->).
    exists x, v'. repeat split; [|assumption].
    econstructor; eassumption.
Qed.

Lemma bfs_inv_init : bfs_inv g s t 0 [(s, 0)] [] [].
Proof.
  constructor.
  - intros x [<-|[]]. reflexivity.
  - intros x [].
  - intros x [<-|[]]. constructor.
  - intros k w Hk. lia.
  - intros w H. inversion H; subst. right. now left.
  - intros u v [].
  - intros [].
Qed.

(** When the entries at distance [m] are used up, those at [m + 1] take
    their place. *)
Lemma bfs_inv_next : forall m B V,
    bfs_inv g s t m [] B V -> bfs_inv g s t (S m) B [] V.
Proof.
  intros m B V [HA HB Hs Hlt Hm Hc Ht].
  assert (Hall : forall w, reach g m s w -> In w V).
  { intros w Hw. destruct (Hm w Hw) as [H|[]]. exact H. }
  constructor.
  - exact HB.
  - intros x [].
  - intros x Hx. rewrite app_nil_r in Hx. apply Hs. exact Hx.
  - intros k w Hk Hr. destruct (Nat.eq_dec k m) as [->|Hne].
    + now apply Hall.
    + apply (Hlt k); [lia|assumption].
  - intros w Hw. destruct (reach_last _ _ _ Hw) as (x & v & Hx & Hv & ->).
    destruct (Hc x v (Hall x Hx) Hv) as [H|[d Hd]]; [now left|].
    right. simpl in Hd. pose proof (HB _ Hd) as E. simpl in E. now subst.
  - intros u v Hu Hv. rewrite app_nil_r. exact (Hc u v Hu Hv).
  - exact Ht.
Qed.

(** Dropping a queue head whose node is already visited. *)
Lemma bfs_inv_skip : forall m n d A B V,
    bfs_inv g s t m ((n, d) :: A) B V -> In n V ->
    bfs_inv g s t m A B V.
Proof.
  intros m n d A B V [HA HB Hs Hlt Hm Hc Ht] Hn.
  assert (Ed : d = m) by (apply (HA (n, d)); now left).
  constructor; auto.
  - intros x Hx. apply HA. now right.
  - intros x Hx. apply Hs. now right.
  - intros w Hw. destruct (Hm w Hw) as [H|[H|H]]; auto.
    inversion H; subst. now left.
  - intros u v Hu Hv. destruct (Hc u v Hu Hv) as [H|[d' [H|H]]]; auto.
    + inversion H; subst. now left.
    + right. now exists d'.
Qed.

(** Expanding a queue head whose node is new. *)
Lemma bfs_inv_expand : forall m n d A B V,
    bfs_inv g s t m ((n, d) :: A) B V -> ~ In n V -> n <> t ->
    bfs_inv g s t m A
      (B ++ map (fun nb => (Some nb, d + 1))
                (filter (fun nb => negb (Topology.visited_has (n :: V) (Some nb)))
                        (Topology.neighbors g n)))
      (n :: V).
Proof.
  intros m n d A B V [HA HB Hs Hlt Hm Hc Ht] Hn Hnt.
  assert (Ed : d = m) by (apply (HA (n, d)); now left). subst d.
  assert (Hrn : reach g m s n) by (apply (Hs (n, m)); now left).
  constructor.
  - intros x Hx. apply HA. now right.
  - intros x Hx. apply in_app_iff in Hx. destruct Hx as [Hx|Hx]; [now apply HB|].
    apply in_map_iff in Hx. destruct Hx as [nb [<- _]]. simpl. lia.
  - intros x Hx. rewrite app_assoc in Hx. apply in_app_iff in Hx.
    destruct Hx as [Hx|Hx]; [apply Hs; now right|].
    apply in_map_iff in Hx. destruct Hx as [nb [<- Hnb]]. simpl.
    apply filter_In in Hnb. destruct Hnb as [Hnb _].
    rewrite Nat.add_1_r. eapply reach_snoc; eassumption.
  - intros k w Hk Hr. right. eapply Hlt; eassumption.
  - intros w Hw. destruct (Hm w Hw) as [H|[H|H]].
    + left. now right.
    + inversion H; subst. left. now left.
    + now right.
  - intros u v [<-|Hu] Hv.
    + destruct (Topology.visited_has (n :: V) (Some v)) eqn:E.
      * left. now apply visited_has_In.
      * right. exists (m + 1). rewrite app_assoc. apply in_app_iff. right.
        apply in_map_iff. exists v. split; [reflexivity|].
        apply filter_In. split; [assumption|]. now rewrite E.
    + destruct (Hc u v Hu Hv) as [H|[d' [H|H]]].
      * left. now right.
      * inversion H; subst. left. now left.
      * right. exists d'. rewrite app_assoc. apply in_app_iff. now left.
  - intros [E|H]; [now apply Hnt | now apply Ht].
Qed.

Lemma bfs_inv_done : forall m V,
    bfs_inv g s t m [] [] V -> forall k, ~ reach g k s t.
Proof.
  intros m V [HA HB Hs Hlt Hm Hc Ht].
  assert (Hall : forall k w, reach g k s w -> In w V).
  { induction k as [|k IH]; intros w Hw.
    - destruct (Nat.eq_dec m 0) as [->|Hne].
      + destruct (Hm w Hw) as [H|[]]. exact H.
      + apply (Hlt 0); [lia|assumption].
    - destruct (reach_last _ _ _ Hw) as (x & v & Hx & Hv & ->).
      destruct (Hc x v (IH x Hx) Hv) as [H|[d []]]. exact H. }
  intros k Hk. apply Ht. eapply Hall. exact Hk.
Qed.

Lemma distance_loop_correct : forall fuel m A B V r,
    bfs_inv g s t m A B V ->
    Topology.distance_loop fuel g t (A ++ B) V = Some r ->
    is_distance g s t r.
Proof.
  induction fuel as [|fuel IH]; intros m A B V r Hinv Hr; [discriminate|].
  assert (Hstep : forall m n d A B,
             bfs_inv g s t m ((n, d) :: A) B V ->
             Topology.distance_loop (S fuel) g t (((n, d) :: A) ++ B) V = Some r ->
             is_distance g s t r).
  { clear m A B Hinv Hr. intros m n d A B Hinv Hr. simpl in Hr.
    destruct (qid_eqb n t) eqn:E.
    - apply qid_eqb_eq in E. subst n. inversion Hr; subst r. simpl.
      exists d. split; [reflexivity|]. split.
      + apply (inv_sound _ _ _ _ _ _ _ Hinv (t, d)). now left.
      + intros k Hk. assert (Ed : d = m)
          by (apply (inv_A _ _ _ _ _ _ _ Hinv (t, d)); now left).
        subst d. destruct (le_lt_dec m k) as [|Hlt]; [assumption|].
        exfalso. apply (inv_target _ _ _ _ _ _ _ Hinv).
        eapply inv_below; eassumption.
    - destruct (Topology.visited_has V n) eqn:Ev.
      + apply visited_has_In in Ev.
        eapply IH; [|exact Hr]. eapply bfs_inv_skip; eassumption.
      + apply visited_has_false in Ev.
        rewrite <- app_assoc in Hr.
        eapply IH; [|exact Hr].
        apply bfs_inv_expand; [exact Hinv | exact Ev |].
        intro H. subst. now rewrite qid_eqb_refl in E. }
  destruct A as [|[n d] A].
  - destruct B as [|[n d] B].
    + simpl in Hr. inversion Hr; subst r. simpl.
      eapply bfs_inv_done. exact Hinv.
    + apply bfs_inv_next in Hinv.
      eapply (Hstep (S m) n d B []); [exact Hinv|].
      rewrite app_nil_r. exact Hr.
  - eapply Hstep; eassumption.
Qed.

Theorem bfs_distance_correct : is_distance g s t (Topology.bfs_distance g s t).
Proof.
  unfold Topology.bfs_distance.
  destruct (Topology.distance_loop _ _ _ _ _) as [r|] eqn:E.
  - eapply (distance_loop_correct _ 0 [(s, 0)] []); [apply bfs_inv_init|exact E].
  - exfalso. eapply bfs_fuel_enough_distance. exact E.
Qed.

End BfsCorrect.
Lemma is_distance_unique : forall g s t r1 r2,
  is_distance g s t r1 -> is_distance g s t r2 -> r1 = r2.
Proof.
intros g s t [z1|] [z2|] H1 H2; simpl in *.
- destruct H1 as (d1 & -> & R1 & M1). destruct H2 as (d2 & -> & R2 & M2).
  f_equal. f_equal. apply Nat.le_antisymm; auto.
- destruct H1 as (d1 & _ & R1 & _). exfalso. eapply H2; eassumption.
- destruct H2 as (d2 & _ & R2 & _). exfalso. eapply H1; eassumption.
- reflexivity.
Qed.

Lemma bfs_distance_self : forall g q, Topology.bfs_distance g q q = Fin 0.
Proof.
intros g q. unfold Topology.bfs_distance, Topology.bfs_fuel. simpl.
now rewrite qid_eqb_refl.
Qed.

Lemma reach_zero : forall g u w, reach g 0 u w -> u = w.
Proof. intros g u w H. now inversion H. Qed.

Lemma reach_sym : forall g, symmetric_graph g ->
  forall k a b, reach g k (Some a) (Some b) -> reach g k (Some b) (Some a).
Proof.
intros g Hsym k. induction k as [|k IH]; intros a b H.
- apply reach_zero in H. inversion H; subst. constructor.
- inversion H as [|k' u v w Hin Hr]; subst.
  eapply reach_snoc; [apply IH; exact Hr|].
  simpl in *. apply Hsym. exact Hin.
Qed.

Lemma is_distance_sym : forall g, symmetric_graph g ->
  forall a b r, is_distance g (Some a) (Some b) r ->
                is_distance g (Some b) (Some a) r.
Proof.
intros g Hsym a b [z|] H; simpl in *.
- destruct H as (d & -> & R & M). exists d. repeat split.
  + now apply reach_sym.
  + intros k Hk. apply M. now apply reach_sym.
- intros k Hk. apply (H k). now apply reach_sym.
Qed.

Lemma bfs_distance_sym : forall g, symmetric_graph g ->
  forall a b, Topology.bfs_distance g (Some a) (Some b)
              = Topology.bfs_distance g (Some b) (Some a).
Proof.
intros g Hsym a b.
eapply is_distance_unique; [apply bfs_distance_correct|].
apply is_distance_sym; [assumption|]. apply bfs_distance_correct.
Qed.

Lemma isConnected_In : forall hw a b,
  Topology.isConnected hw (Some a) (Some b) = true
  <-> In b (nth a (Topology.graph hw) []).
Proof.
intros hw a b. unfold Topology.isConnected.
destruct (nth_error (Topology.graph hw) a) as [adj|] eqn:E.
- rewrite (nth_error_nth _ _ _ E). rewrite existsb_exists. split.
  + intros [x [Hin Heq]]. apply Nat.eqb_eq in Heq. now subst.
  + intro H. exists b. split; [assumption|apply Nat.eqb_refl].
- apply nth_error_None in E. rewrite nth_overflow by assumption.
  split; [discriminate|intros []].
Qed.

Lemma isConnected_number : forall hw q1 q2,
  Topology.isConnected hw q1 q2 = true ->
  exists a b, q1 = Some a /\ q2 = Some b.
Proof.
intros hw [a|] [b|] H; try discriminate. now exists a, b.
Qed.

(** Two adjacent qubits are at distance one. *)
Lemma bfs_distance_adjacent : forall hw a b,
  loop_free (Topology.graph hw) ->
  Topology.isConnected hw (Some a) (Some b) = true ->
  Topology.bfs_distance (Topology.graph hw) (Some a) (Some b) = Fin 1.
Proof.
intros hw a b Hlf Hc. apply isConnected_In in Hc.
eapply is_distance_unique; [apply bfs_distance_correct|].
simpl. exists 1. repeat split.
- econstructor; [exact Hc|constructor].
- intros [|k] Hk; [|lia]. apply reach_zero in Hk. inversion Hk; subst.
  exfalso. eapply Hlf. exact Hc.
Qed.

(** The distance is the number of edges of the returned path. *)
Lemma bfs_distance_path : forall hw q1 q2,
  Topology.bfs_distance (Topology.graph hw) q1 q2
  = path_number (Topology.getShortestPath hw q1 q2).
Proof.
intros hw q1 q2. unfold Topology.bfs_distance, Topology.getShortestPath.
change [(q1, 0)] with (map path_dist [(q1, [q1])]).
rewrite path_loop_lockstep.
- destruct (Topology.path_loop _ _ _ _ _) as [p|] eqn:E; reflexivity.
- constructor; [discriminate|constructor].
Qed.

(** ** The memo *)

Lemma key_eqb_eq : forall k1 k2, Topology.key_eqb k1 k2 = true <-> k1 = k2.
Proof.
intros [a b|] [c d|]; simpl; split; intro H; try discriminate; try reflexivity.
- apply andb_true_iff in H. destruct H as [H1 H2].
  apply Nat.eqb_eq in H1, H2. now subst.
- inversion H; subst. now rewrite !Nat.eqb_refl.
Qed.

Lemma cache_get_In : forall k m v,
  Topology.cache_get k m = Some v -> In (k, v) m.
Proof.
intros k m v. induction m as [|[k' v'] m IH]; simpl; [discriminate|].
destruct (Topology.key_eqb k k') eqn:E.
- intro H. inversion H; subst. apply key_eqb_eq in E. subst. now left.
- intro H. right. now apply IH.
Qed.

Lemma number_eqb_eq : forall a b, number_eqb a b = true <-> a = b.
Proof.
intros [x|] [y|]; simpl; split; intro H; try discriminate; try reflexivity.
- apply Z.eqb_eq in H. now subst.
- inversion H. apply Z.eqb_refl.
Qed.

Lemma bfs_distance_minmax : forall g, symmetric_graph g ->
  forall a b, Topology.bfs_distance g (Some (Nat.min a b)) (Some (Nat.max a b))
              = Topology.bfs_distance g (Some a) (Some b).
Proof.
intros g Hsym a b. destruct (Nat.le_ge_cases a b) as [H|H].
- rewrite Nat.min_l, Nat.max_r by assumption. reflexivity.
- rewrite Nat.min_r, Nat.max_l by assumption. now apply bfs_distance_sym.
Qed.

(** On a sound memo [distance] answers what the search computes, and leaves
  the memo sound. *)
Lemma distance_value : forall hw a b,
  symmetric_graph (Topology.graph hw) -> cache_ok hw ->
  fst (Topology.distance hw (Some a) (Some b))
  = Topology.bfs_distance (Topology.graph hw) (Some a) (Some b).
Proof.
intros hw a b Hsym Hok. unfold Topology.distance. simpl.
destruct (Topology.cache_get _ _) as [v|] eqn:E; [|reflexivity].
simpl. apply cache_get_In in E.
unfold cache_ok in Hok. rewrite forallb_forall in Hok.
specialize (Hok _ E). unfold cache_entry_ok in Hok. simpl in Hok.
apply number_eqb_eq in Hok. rewrite Hok. now apply bfs_distance_minmax.
Qed.

Lemma distance_graph : forall hw q1 q2,
  Topology.graph (snd (Topology.distance hw q1 q2)) = Topology.graph hw.
Proof.
intros hw q1 q2. unfold Topology.distance.
destruct (Topology.cache_get _ _); reflexivity.
Qed.

Lemma distance_type_params : forall hw q1 q2,
  Topology.type (snd (Topology.distance hw q1 q2)) = Topology.type hw
  /\ Topology.params (snd (Topology.distance hw q1 q2)) = Topology.params hw.
Proof.
intros hw q1 q2. unfold Topology.distance.
destruct (Topology.cache_get _ _); split; reflexivity.
Qed.

Lemma distance_cache_ok : forall hw q1 q2,
  symmetric_graph (Topology.graph hw) -> cache_ok hw ->
  cache_ok (snd (Topology.distance hw q1 q2)).
Proof.
intros hw q1 q2 Hsym Hok. unfold Topology.distance.
destruct (Topology.cache_get _ _) as [v|] eqn:E; [exact Hok|].
unfold cache_ok in *. simpl. rewrite Hok, andb_true_r.
unfold cache_entry_ok. simpl.
destruct q1 as [a|], q2 as [b|]; simpl; try reflexivity.
apply number_eqb_eq. symmetry. now apply bfs_distance_minmax.
Qed.

(** ** The three device shapes are undirected and loop-free *)

Lemma or_default_pos : forall x d, 0 < d -> 0 < or_default x d.
Proof. intros [[|n]|] d H; simpl; lia. Qed.

Lemma nth_map_seq : forall (f : nat -> list nat) n a,
  nth a (map f (seq 0 n)) [] = if a <? n then f a else [].
Proof.
intros f n a. destruct (a <? n) eqn:E.
- apply Nat.ltb_lt in E. apply nth_error_nth.
  rewrite nth_error_map, nth_error_seq.
  apply Nat.ltb_lt in E. rewrite E. reflexivity.
- apply Nat.ltb_ge in E. apply nth_overflow.
  now rewrite length_map, length_seq.
Qed.

Lemma in_lnn_row : forall n a b,
  In b (Topology.lnn_row n a)
  <-> (0 < a /\ b = a - 1) \/ (a < n - 1 /\ b = a + 1).
Proof.
intros n a b. unfold Topology.lnn_row. rewrite in_app_iff.
destruct (Nat.ltb_spec 0 a); destruct (Nat.ltb_spec a (n - 1));
  simpl; split; intro Hin; intuition lia.
Qed.

Lemma lnn_symmetric : forall n, symmetric_graph (map (Topology.lnn_row n) (seq 0 n)).
Proof.
intros n a b. rewrite !nth_map_seq.
destruct (a <? n) eqn:Ea; [|intros []]. apply Nat.ltb_lt in Ea.
rewrite in_lnn_row. intro H.
assert (Hb : b < n) by lia. apply Nat.ltb_lt in Hb. rewrite Hb.
apply in_lnn_row. lia.
Qed.

Lemma lnn_loop_free : forall n, loop_free (map (Topology.lnn_row n) (seq 0 n)).
Proof.
intros n a. rewrite nth_map_seq. destruct (a <? n); [|intros []].
rewrite in_lnn_row. lia.
Qed.

Lemma nth_star : forall n a,
  nth a (Topology.star_graph n) []
  = match a with
    | 0 => seq 1 (n - 1)
    | S i => if i <? n - 1 then [0] else []
    end.
Proof.
intros n [|i]; [reflexivity|]. unfold Topology.star_graph. simpl.
destruct (i <? n - 1) eqn:E.
- apply Nat.ltb_lt in E. apply nth_error_nth.
  rewrite nth_error_map, nth_error_seq.
  apply Nat.ltb_lt in E. rewrite E. reflexivity.
- apply Nat.ltb_ge in E. apply nth_overflow.
  now rewrite length_map, length_seq.
Qed.

Lemma star_symmetric : forall n, symmetric_graph (Topology.star_graph n).
Proof.
intros n a b. rewrite !nth_star. destruct a as [|i].
- rewrite in_seq. intro H. destruct b as [|j]; [lia|].
  assert (Hj : j < n - 1) by lia. apply Nat.ltb_lt in Hj. rewrite Hj. now left.
- destruct (i <? n - 1) eqn:E; [|intros []]. apply Nat.ltb_lt in E.
  intros [<-|[]]. apply in_seq. lia.
Qed.

Lemma star_loop_free : forall n, loop_free (Topology.star_graph n).
Proof.
intros n a. rewrite nth_star. destruct a as [|i].
- rewrite in_seq. lia.
- destruct (i <? n - 1); [|intros []]. intros [H|[]]. discriminate.
Qed.

Lemma length_blocks : forall (f : nat -> nat -> list nat) cols rows r0,
  length (flat_map (fun r => map (f r) (seq 0 cols)) (seq r0 rows)) = rows * cols.
Proof.
intros f cols rows. induction rows as [|rows IH]; intro r0; simpl; [reflexivity|].
rewrite length_app, length_map, length_seq, IH. reflexivity.
Qed.

Lemma nth_blocks : forall (f : nat -> nat -> list nat) cols rows r0 r c,
  r < rows -> c < cols ->
  nth (r * cols + c) (flat_map (fun r => map (f r) (seq 0 cols)) (seq r0 rows)) []
  = f (r0 + r) c.
Proof.
intros f cols rows. induction rows as [|rows IH]; intros r0 r c Hr Hc; [lia|].
simpl. destruct r as [|r].
- simpl. rewrite app_nth1 by (now rewrite length_map, length_seq).
  rewrite nth_map_seq. apply Nat.ltb_lt in Hc. rewrite Hc.
  now rewrite Nat.add_0_r.
- rewrite app_nth2 by (rewrite length_map, length_seq; simpl; lia).
  rewrite length_map, length_seq.
  replace (S r * cols + c - cols) with (r * cols + c) by (simpl; lia).
  rewrite IH by lia. f_equal. lia.
Qed.

Lemma in_grid_cell : forall rows cols r c b,
  In b (Topology.grid_cell rows cols r c)
  <-> (0 < c /\ b = r * cols + c - 1)
      \/ (c < cols - 1 /\ b = r * cols + c + 1)
      \/ (0 < r /\ b = r * cols + c - cols)
      \/ (r < rows - 1 /\ b = r * cols + c + cols).
Proof.
intros rows cols r c b. unfold Topology.grid_cell. rewrite !in_app_iff.
destruct (Nat.ltb_spec 0 c); destruct (Nat.ltb_spec c (cols - 1));
  destruct (Nat.ltb_spec 0 r); destruct (Nat.ltb_spec r (rows - 1));
  simpl; split; intro Hin; intuition lia.
Qed.

(** The neighbours of a grid vertex, by its row and column. *)
Lemma in_grid : forall rows cols a b,
  0 < cols ->
  In b (nth a (grid_graph rows cols) [])
  <-> exists r c, r < rows /\ c < cols /\ a = r * cols + c
                  /\ In b (Topology.grid_cell rows cols r c).
Proof.
intros rows cols a b Hcols. unfold grid_graph. split.
- intro H. destruct (Nat.lt_ge_cases a (rows * cols)) as [Ha|Ha].
  + exists (a / cols), (a mod cols).
    assert (Hc : a mod cols < cols) by (apply Nat.mod_upper_bound; lia).
    assert (Hd : a = cols * (a / cols) + a mod cols) by (apply Nat.div_mod_eq).
    assert (Hr : a / cols < rows) by (apply Nat.Div0.div_lt_upper_bound; lia).
    assert (Ea : a = a / cols * cols + a mod cols) by lia.
    repeat split; try assumption.
    rewrite Ea in H at 1. rewrite nth_blocks in H by assumption. exact H.
  + rewrite nth_overflow in H by (now rewrite length_blocks). destruct H.
- intros (r & c & Hr & Hc & -> & H). now rewrite nth_blocks.
Qed.

Lemma grid_symmetric : forall rows cols, 0 < cols ->
  symmetric_graph (grid_graph rows cols).
Proof.
intros rows cols Hcols a b H. apply in_grid in H; [|assumption].
destruct H as (r & c & Hr & Hc & -> & H). apply in_grid_cell in H.
apply in_grid; [assumption|].
destruct H as [[H ->]|[[H ->]|[[H ->]|[H ->]]]].
- exists r, (c - 1).
  split; [lia|]. split; [lia|]. split; [lia|].
  apply in_grid_cell. right. left. lia.
- exists r, (c + 1).
  split; [lia|]. split; [lia|]. split; [lia|].
  apply in_grid_cell. left. lia.
- exists (r - 1), c.
  split; [lia|]. split; [lia|]. split; [nia|].
  apply in_grid_cell. right. right. right. nia.
- exists (r + 1), c.
  split; [lia|]. split; [lia|]. split; [nia|].
  apply in_grid_cell. right. right. left. nia.
Qed.

Lemma grid_loop_free : forall rows cols, 0 < cols ->
  loop_free (grid_graph rows cols).
Proof.
intros rows cols Hcols a H. apply in_grid in H; [|assumption].
destruct H as (r & c & Hr & Hc & -> & H). apply in_grid_cell in H. nia.
Qed.

Lemma empty_symmetric : symmetric_graph [].
Proof. intros a b H. destruct a; destruct H. Qed.

Lemma empty_loop_free : loop_free [].
Proof. intros a H. destruct a; destruct H. Qed.

Theorem buildGraph_symmetric : forall ty p,
  symmetric_graph (Topology.buildGraph ty p).
Proof.
intros ty p. unfold Topology.buildGraph.
destruct (String.eqb ty "lnn"); [apply lnn_symmetric|].
destruct (String.eqb ty "grid2d");
  [apply grid_symmetric, or_default_pos; lia|].
destruct (String.eqb ty "star"); [apply star_symmetric|apply empty_symmetric].
Qed.

Theorem buildGraph_loop_free : forall ty p,
  loop_free (Topology.buildGraph ty p).
Proof.
intros ty p. unfold Topology.buildGraph.
destruct (String.eqb ty "lnn"); [apply lnn_loop_free|].
destruct (String.eqb ty "grid2d");
  [apply grid_loop_free, or_default_pos; lia|].
destruct (String.eqb ty "star"); [apply star_loop_free|apply empty_loop_free].
Qed.

Lemma built_symmetric : forall hw, built hw -> symmetric_graph (Topology.graph hw).
Proof. intros hw [E _]. rewrite E. apply buildGraph_symmetric. Qed.

Lemma built_loop_free : forall hw, built hw -> loop_free (Topology.graph hw).
Proof. intros hw [E _]. rewrite E. apply buildGraph_loop_free. Qed.

Lemma built_distance : forall hw q1 q2,
  built hw -> built (snd (Topology.distance hw q1 q2)).
Proof.
intros hw q1 q2 Hb. pose proof (built_symmetric hw Hb) as Hsym.
destruct Hb as [E Hok]. split.
- rewrite distance_graph.
  destruct (distance_type_params hw q1 q2) as [-> ->]. exact E.
- now apply distance_cache_ok.
Qed.

(** * Layout arithmetic *)

Lemma length_list_set : forall l i v, length (Layout.list_set l i v) = length l.
Proof.
  induction l as [|y l IH]; intros [|i] v; simpl; auto.
Qed.

Lemma nth_list_set : forall l i v k,
    i < length l ->
    nth k (Layout.list_set l i v) None = if k =? i then v else nth k l None.
Proof.
  induction l as [|y l IH]; intros [|i] v [|k] Hi; simpl in *; try lia; auto.
  apply IH. lia.
Qed.

Lemma index_from_spec : forall x l i,
    (0 <= i)%Z ->
    (Layout.index_from x l i = -1)%Z /\ ~ In x l
    \/ exists k, Layout.index_from x l i = (i + Z.of_nat k)%Z
                 /\ k < length l /\ nth k l None = x.
Proof.
  intros x l. induction l as [|y l IH]; intros i Hi; simpl.
  - left. auto.
  - destruct (qid_eqb y x) eqn:E.
    + apply qid_eqb_eq in E. subst. right. exists 0. simpl.
      split; [lia|]. split; [lia|reflexivity].
    + destruct (IH (i + 1)%Z ltac:(lia)) as [[H Hn]|(k & H & Hk & Hx)].
      * left. split; [exact H|]. intros [F|F]; [|contradiction].
        subst. now rewrite qid_eqb_refl in E.
      * right. exists (S k). simpl. split; [lia|]. split; [lia|exact Hx].
Qed.

Lemma indexOf_spec : forall l x,
    (Layout.indexOf l x = -1)%Z /\ ~ In x (Layout.cells l)
    \/ exists k, Layout.indexOf l x = Z.of_nat k
                 /\ k < length (Layout.cells l)
                 /\ nth k (Layout.cells l) None = x.
Proof.
  intros l x. unfold Layout.indexOf.
  destruct (index_from_spec x (Layout.cells l) 0%Z ltac:(lia))
    as [H|(k & H & Hk & Hx)]; [now left|].
  right. exists k. rewrite H. auto.
Qed.

Lemma get_of_nat : forall l k,
    Layout.get l (Z.of_nat k) = nth k (Layout.cells l) None.
Proof.
  intros l k. unfold Layout.get.
  destruct (Z.of_nat k =? -1)%Z eqn:E; [apply Z.eqb_eq in E; lia|].
  destruct (0 <=? Z.of_nat k)%Z eqn:E2; [|apply Z.leb_gt in E2; lia].
  now rewrite Nat2Z.id.
Qed.

Lemma set_of_nat : forall l k v,
    Layout.set l (Z.of_nat k) v
    = Layout.mk (Layout.list_set (Layout.cells l) k v) (Layout.minus1 l).
Proof.
  intros l k v. unfold Layout.set.
  destruct (Z.of_nat k =? -1)%Z eqn:E; [apply Z.eqb_eq in E; lia|].
  destruct (0 <=? Z.of_nat k)%Z eqn:E2; [|apply Z.leb_gt in E2; lia].
  now rewrite Nat2Z.id.
Qed.

(** Exchanging two cells. *)
Lemma swap_cells : forall l i j,
    i < length (Layout.cells l) -> j < length (Layout.cells l) ->
    Layout.minus1 (Layout.swap l (Z.of_nat i) (Z.of_nat j)) = Layout.minus1 l
    /\ length (Layout.cells (Layout.swap l (Z.of_nat i) (Z.of_nat j)))
       = length (Layout.cells l)
    /\ forall k,
        nth k (Layout.cells (Layout.swap l (Z.of_nat i) (Z.of_nat j))) None
        = if k =? j then nth i (Layout.cells l) None
          else if k =? i then nth j (Layout.cells l) None
          else nth k (Layout.cells l) None.
Proof.
  intros l i j Hi Hj. unfold Layout.swap.
  rewrite !get_of_nat, !set_of_nat. simpl.
  split; [reflexivity|]. split; [now rewrite !length_list_set|].
  intro k. rewrite nth_list_set by (now rewrite length_list_set).
  destruct (k =? j) eqn:Ej; [reflexivity|].
  now rewrite nth_list_set by assumption.
Qed.

Lemma nth_eq_map : forall (f : qid -> qid) (l l' : list qid),
    length l' = length l ->
    (forall k, k < length l -> nth k l' None = f (nth k l None)) ->
    l' = map f l.
Proof.
  intros f l. induction l as [|x l IH]; intros [|y l'] Hlen H; simpl in *;
    try discriminate; [reflexivity|].
  f_equal.
  - apply (H 0). lia.
  - apply IH; [lia|]. intros k Hk. apply (H (S k)). lia.
Qed.

(** Exchanging the cells that hold two different physical ids transposes
    those ids in the whole layout and keeps it a bijection. *)
Lemma swap_transposes : forall n l q1 q2,
    layout_ok n l ->
    In q1 (Layout.cells l) -> In q2 (Layout.cells l) ->
    let l' := Layout.swap l (Layout.indexOf l q1) (Layout.indexOf l q2) in
    Layout.cells l' = map (transpose q1 q2) (Layout.cells l)
    /\ layout_ok n l'.
Proof.
  intros n l q1 q2 (Hm & Hlen & Hnd & Hall) H1 H2.
  destruct (indexOf_spec l q1) as [[_ F]|(i & Ei & Hi & Hxi)]; [contradiction|].
  destruct (indexOf_spec l q2) as [[_ F]|(j & Ej & Hj & Hxj)]; [contradiction|].
  intro l'. subst l'. rewrite Ei, Ej.
  destruct (swap_cells l i j Hi Hj) as (Sm & Sl & Sn).
  assert (Hinj : forall a b, a < length (Layout.cells l) ->
                             b < length (Layout.cells l) ->
                             nth a (Layout.cells l) None = nth b (Layout.cells l) None ->
                             a = b).
  { intros a b Ha Hb E. eapply (proj1 (NoDup_nth (Layout.cells l) None)); eauto. }
  assert (Hcells : Layout.cells (Layout.swap l (Z.of_nat i) (Z.of_nat j))
                   = map (transpose q1 q2) (Layout.cells l)).
  { apply nth_eq_map; [exact Sl|]. intros k Hk. rewrite Sn. unfold transpose.
    destruct (k =? j) eqn:Ekj.
    - apply Nat.eqb_eq in Ekj. subst k. rewrite Hxi, Hxj.
      destruct (qid_eqb q2 q1) eqn:E; [apply qid_eqb_eq in E; now subst|].
      now rewrite qid_eqb_refl.
    - apply Nat.eqb_neq in Ekj. destruct (k =? i) eqn:Eki.
      + apply Nat.eqb_eq in Eki. subst k. rewrite Hxi, Hxj.
        now rewrite qid_eqb_refl.
      + apply Nat.eqb_neq in Eki.
        destruct (qid_eqb (nth k (Layout.cells l) None) q1) eqn:E1.
        * apply qid_eqb_eq in E1. rewrite <- Hxi in E1.
          apply Hinj in E1; auto. contradiction.
        * destruct (qid_eqb (nth k (Layout.cells l) None) q2) eqn:E2;
            [|reflexivity].
          apply qid_eqb_eq in E2. rewrite <- Hxj in E2.
          apply Hinj in E2; auto. contradiction. }
  split; [exact Hcells|].
  split; [congruence|]. split; [congruence|]. split.
  - apply (proj2 (NoDup_nth _ None)). intros a b Ha Hb E.
    assert (Ha' : a < length (Layout.cells l)) by (rewrite <- Sl; exact Ha).
    assert (Hb' : b < length (Layout.cells l)) by (rewrite <- Sl; exact Hb).
    clear Ha Hb. rewrite !Sn in E.
    destruct (a =? j) eqn:Eaj; destruct (b =? j) eqn:Ebj;
      destruct (a =? i) eqn:Eai; destruct (b =? i) eqn:Ebi;
      repeat match goal with
        | H : (_ =? _) = true |- _ => apply Nat.eqb_eq in H
        | H : (_ =? _) = false |- _ => apply Nat.eqb_neq in H
        end; subst; try reflexivity; try congruence;
      apply Hinj in E; auto; congruence.
  - rewrite Hcells. apply Forall_forall. intros c Hc.
    apply in_map_iff in Hc. destruct Hc as (c0 & <- & Hc0).
    rewrite Forall_forall in Hall. unfold transpose.
    destruct (qid_eqb c0 q1); [now apply Hall|].
    destruct (qid_eqb c0 q2); now apply Hall.
Qed.

Lemma layout_ok_identity : forall n, layout_ok n (Layout.identity n).
Proof.
  intro n. unfold layout_ok, Layout.identity. simpl.
  split; [reflexivity|]. split; [now rewrite length_map, length_seq|]. split.
  - apply Finite.Injective_map_NoDup; [|apply seq_NoDup].
    intros a b E. now inversion E.
  - apply Forall_forall. intros c Hc. apply in_map_iff in Hc.
    destruct Hc as (p & <- & Hp). apply in_seq in Hp. exists p. split; [reflexivity|lia].
Qed.

(** A bijective layout is a permutation of [0 .. n-1]. *)
Lemma layout_ok_permutation : forall n l,
    layout_ok n l -> Permutation (Layout.cells l) (map Some (seq 0 n)).
Proof.
  intros n l (_ & Hlen & Hnd & Hall).
  apply NoDup_Permutation_bis; [exact Hnd| |].
  - rewrite length_map, length_seq. lia.
  - intros c Hc. rewrite Forall_forall in Hall.
    destruct (Hall c Hc) as (p & -> & Hp). apply in_map, in_seq. lia.
Qed.

Lemma layout_ok_at : forall n l q,
    layout_ok n l -> q < n -> exists p, Layout.at_ l q = Some p /\ p < n.
Proof.
  intros n l q (_ & Hlen & _ & Hall) Hq. unfold Layout.at_.
  rewrite get_of_nat. rewrite Forall_forall in Hall.
  apply Hall. apply nth_In. lia.
Qed.

Lemma layout_ok_at_In : forall n l q,
    layout_ok n l -> q < n -> In (Layout.at_ l q) (Layout.cells l).
Proof.
  intros n l q (_ & Hlen & _ & _) Hq. unfold Layout.at_.
  rewrite get_of_nat. apply nth_In. lia.
Qed.

(** In a bijective layout every physical id below [n] is present. *)
Lemma layout_ok_In : forall n l p,
    layout_ok n l -> p < n -> In (Some p) (Layout.cells l).
Proof.
  intros n l p H Hp. apply layout_ok_permutation in H.
  eapply Permutation_in; [apply Permutation_sym; exact H|].
  apply in_map, in_seq. lia.
Qed.

(** * Properties shared by the three mappers *)

Ltac split_all := repeat match goal with |- _ /\ _ => split end.

Lemma same_device_refl : forall hw, same_device hw hw.
Proof. intro hw. unfold same_device. tauto. Qed.

Lemma same_device_trans : forall a b c,
    same_device a b -> same_device b c -> same_device a c.
Proof.
  intros a b c (T1 & P1 & G1 & B1) (T2 & P2 & G2 & B2).
  unfold same_device. split; [congruence|]. split; [congruence|].
  split; [congruence|auto].
Qed.

Lemma same_device_distance : forall hw q1 q2,
    same_device hw (snd (Topology.distance hw q1 q2)).
Proof.
  intros hw q1 q2. destruct (distance_type_params hw q1 q2) as [T P].
  unfold same_device. split; [exact T|]. split; [exact P|].
  split; [apply distance_graph|apply built_distance].
Qed.

Lemma swaps_only_trans : forall a b c,
    swaps_only a b -> swaps_only b c -> swaps_only a c.
Proof.
  intros a b c H. induction H; intro Hc; auto.
  - eapply so_memo; eauto.
  - eapply so_swap; eauto.
Qed.

(** ** What a swap-insertion loop leaves unchanged *)

Lemma swaps_only_shape : forall st st',
    swaps_only st st' ->
    exists sw,
      st_steps st' = st_steps st ++ sw
      /\ Forall (fun s => is_swap s = true) sw
      /\ st_insertedSwaps st' = st_insertedSwaps st + length sw
      /\ st_depth st' = st_depth st + length sw
      /\ st_distancePenalty st' = st_distancePenalty st
      /\ same_device (st_hw st) (st_hw st').
Proof.
  intros st st' H. induction H as [st | st hw' st' Hd H IH | st q1 q2 st' H IH].
  - exists []. rewrite app_nil_r. simpl.
    split_all; auto using same_device_refl.
  - destruct IH as (sw & E1 & F & E2 & E3 & E4 & D). exists sw.
    simpl in *. split_all; auto. eapply same_device_trans; eassumption.
  - destruct IH as (sw & E1 & F & E2 & E3 & E4 & D). simpl in *.
    eexists (_ :: sw). rewrite E1, <- app_assoc. simpl.
    split; [reflexivity|]. split; [constructor; [reflexivity|exact F]|].
    split_all; try lia; assumption.
Qed.

Lemma counters_ok_push : forall steps k d s,
    counters_ok steps k d ->
    step_depth s = d ->
    step_inserted s = is_swap s ->
    counters_ok (steps ++ [s]) (if is_swap s then S k else k) (S d).
Proof.
  intros steps k d s (Hk & Hd & Hi & Hs) Hsd Hsi. unfold counters_ok. split_all.
  - rewrite filter_app, length_app. simpl.
    destruct (is_swap s); simpl; lia.
  - rewrite length_app. simpl. lia.
  - intros i x Hx. destruct (Nat.lt_ge_cases i (length steps)) as [Hlt|Hge].
    + rewrite nth_error_app1 in Hx by assumption. eauto.
    + rewrite nth_error_app2 in Hx by assumption.
      destruct (i - length steps) as [|j] eqn:E; simpl in Hx.
      * inversion Hx; subst x. lia.
      * destruct j; discriminate.
  - intros x Hx. apply in_app_iff in Hx. destruct Hx as [Hx|[<-|[]]]; auto.
Qed.

Lemma counters_insertSwap : forall st q1 q2,
    state_counters_ok st -> state_counters_ok (insertSwap st q1 q2).
Proof.
  intros st q1 q2 H. unfold state_counters_ok, insertSwap. simpl.
  apply (counters_ok_push _ _ _ (Swap _ _ _ true _) H); reflexivity.
Qed.

Lemma counters_emitNative : forall st g,
    state_counters_ok st -> state_counters_ok (emitNative st g).
Proof.
  intros st g H. unfold state_counters_ok, emitNative. simpl.
  apply (counters_ok_push _ _ _ (Native _ _ _ _ false _) H); reflexivity.
Qed.

Lemma counters_addPenalty : forall st c t,
    state_counters_ok st -> state_counters_ok (addPenalty st c t).
Proof.
  intros st c t H. unfold state_counters_ok, addPenalty.
  destruct (Topology.distance _ _ _). exact H.
Qed.

Lemma swaps_only_counters : forall st st',
    swaps_only st st' -> state_counters_ok st -> state_counters_ok st'.
Proof.
  intros st st' H. induction H; intro Hc; auto.
  apply IHswaps_only. now apply counters_insertSwap.
Qed.

Lemma counters_init : forall n hw, state_counters_ok (init n hw).
Proof.
  intros n hw. unfold state_counters_ok, counters_ok. split_all; simpl; try reflexivity.
  - intros [|i] s H; discriminate.
  - intros s [].
Qed.

(** ** The three loops only update the memo and insert swaps *)

Lemma greedy_loop_swaps_only : forall fuel c t st st',
    GreedyMapper.swap_loop fuel c t st = Some st' -> swaps_only st st'.
Proof.
  induction fuel as [|fuel IH]; intros c t st st' H; [discriminate|].
  simpl in H.
  destruct (Topology.isConnected _ _ _); [inversion H; constructor|].
  destruct (length _ <? 2); [inversion H; constructor|].
  eapply so_swap. eapply IH. exact H.
Qed.

Lemma score_layout_same_device : forall up hw tl sc,
    same_device hw (snd (LookAheadMapper.score_layout hw tl up sc)).
Proof.
  induction up as [|i up IH]; intros hw tl sc; simpl.
  - apply same_device_refl.
  - destruct (Topology.distance hw _ _) as [d hw'] eqn:E.
    eapply same_device_trans; [|apply IH].
    change hw' with (snd (d, hw')). rewrite <- E. apply same_device_distance.
Qed.

Lemma try_edge_same_device : forall layout up acc e,
    same_device (snd acc) (snd (LookAheadMapper.try_edge layout up acc e)).
Proof.
  intros layout up [[b s] hw] [q1 q2]. unfold LookAheadMapper.try_edge.
  match goal with
  | |- context [LookAheadMapper.score_layout ?h ?l ?u ?s0] =>
      pose proof (score_layout_same_device u h l s0) as H;
        destruct (LookAheadMapper.score_layout h l u s0) as [sc hw']
  end.
  simpl in *. destruct (LookAheadMapper.score_gt sc s); exact H.
Qed.

Lemma findBestSwap_same_device : forall circuit k hw layout idx,
    same_device hw (snd (LookAheadMapper.findBestSwap circuit k hw layout idx)).
Proof.
  intros circuit k hw layout idx. unfold LookAheadMapper.findBestSwap.
  set (up := InteractionGraph.getUpcomingInteractions circuit idx k).
  assert (H : forall es acc,
             same_device (snd acc)
                         (snd (fold_left (LookAheadMapper.try_edge layout up) es acc))).
  { induction es as [|e es IH]; intro acc; simpl.
    - apply same_device_refl.
    - eapply same_device_trans; [apply try_edge_same_device|apply IH]. }
  specialize (H (LookAheadMapper.edges (Topology.graph hw)) (None, LookAheadMapper.SNegInf, hw)).
  destruct (fold_left _ _ _) as [[b s] hw']. exact H.
Qed.

Lemma lookahead_loop_swaps_only : forall circuit k fuel idx c t st st',
    LookAheadMapper.swap_loop circuit k fuel idx c t st = Some st' ->
    swaps_only st st'.
Proof.
  intros circuit k. induction fuel as [|fuel IH]; intros idx c t st st' H;
    [discriminate|].
  simpl in H.
  destruct (Topology.isConnected _ _ _); [inversion H; constructor|].
  pose proof (findBestSwap_same_device circuit k (st_hw st) (st_layout st) idx) as Hd.
  destruct (LookAheadMapper.findBestSwap _ _ _ _ _) as [[[q1 q2]|] hw'].
  - eapply so_memo; [exact Hd|]. eapply so_swap. eapply IH. exact H.
  - inversion H; subst. eapply so_memo; [exact Hd|constructor].
Qed.

Lemma genetic_loop_swaps_only : forall rest c t st i st' i',
    GeneticSwapOptimizer.swap_loop rest c t st i = Ok (st', i') ->
    swaps_only st st'.
Proof.
  induction rest as [|g rest IH]; intros c t st i st' i' H; simpl in H.
  - destruct (Topology.isConnected _ _ _); inversion H; constructor.
  - destruct (Topology.isConnected _ _ _); [inversion H; constructor|].
    destruct g as [[q1 q2]|]; [|discriminate].
    destruct (negb _ && negb _).
    + eapply so_swap. eapply IH. exact H.
    + eapply IH. exact H.
Qed.

Lemma genetic_run_loop_swaps_only : forall ch c t st i st' i',
    GeneticSwapOptimizer.run_swap_loop ch c t st i = Ok (st', i') ->
    swaps_only st st'.
Proof.
  intros [ch|] c t st i st' i' H; simpl in H.
  - eapply genetic_loop_swaps_only. exact H.
  - destruct (Topology.isConnected _ _ _); inversion H; constructor.
Qed.
(** ** Bookkeeping of whole runs *)

#[local] Arguments GeneticSwapOptimizer.processGate : simpl never.
#[local] Arguments GreedyMapper.processGate : simpl never.
#[local] Arguments LookAheadMapper.processGate : simpl never.
#[local] Arguments Layout.identity : simpl never.

Lemma greedy_processGate_counters : forall fuel st g st',
    GreedyMapper.processGate fuel st g = Some st' ->
    state_counters_ok st -> state_counters_ok st'.
Proof.
  intros fuel st g st' H Hc. unfold GreedyMapper.processGate in H.
  destruct (QuantumCircuit.gqubits g) as [|c [|t [|x l]]];
    try (inversion H; subst; now apply counters_emitNative).
  destruct (GreedyMapper.swap_loop fuel c t st) as [st1|] eqn:E; [|discriminate].
  inversion H; subst. apply counters_emitNative, counters_addPenalty.
  eapply swaps_only_counters; [|exact Hc].
  eapply greedy_loop_swaps_only. exact E.
Qed.

Lemma greedy_forEach_counters : forall fuel gs st st',
    GreedyMapper.forEach fuel gs st = Some st' ->
    state_counters_ok st -> state_counters_ok st'.
Proof.
  intros fuel gs. induction gs as [|g gs IH]; intros st st' H Hc; simpl in H.
  - now inversion H; subst.
  - destruct (GreedyMapper.processGate fuel st g) as [st1|] eqn:E; [|discriminate].
    eapply IH; [exact H|]. eapply greedy_processGate_counters; eassumption.
Qed.

Lemma lookahead_processGate_counters : forall circuit k fuel st idx g st',
    LookAheadMapper.processGate circuit k fuel st idx g = Some st' ->
    state_counters_ok st -> state_counters_ok st'.
Proof.
  intros circuit k fuel st idx g st' H Hc. unfold LookAheadMapper.processGate in H.
  destruct (QuantumCircuit.gqubits g) as [|c [|t [|x l]]];
    try (inversion H; subst; now apply counters_emitNative).
  destruct (LookAheadMapper.swap_loop circuit k fuel idx c t st) as [st1|] eqn:E;
    [|discriminate].
  inversion H; subst. apply counters_emitNative, counters_addPenalty.
  eapply swaps_only_counters; [|exact Hc].
  eapply lookahead_loop_swaps_only. exact E.
Qed.

Lemma lookahead_forEach_counters : forall circuit k fuel gs idx st st',
    LookAheadMapper.forEach circuit k fuel gs idx st = Some st' ->
    state_counters_ok st -> state_counters_ok st'.
Proof.
  intros circuit k fuel gs. induction gs as [|g gs IH]; intros idx st st' H Hc;
    simpl in H.
  - now inversion H; subst.
  - destruct (LookAheadMapper.processGate circuit k fuel st idx g) as [st1|] eqn:E;
      [|discriminate].
    eapply IH; [exact H|]. eapply lookahead_processGate_counters; eassumption.
Qed.

Lemma genetic_processGate_counters : forall ch st i g st' i',
    GeneticSwapOptimizer.processGate ch (st, i) g = Ok (st', i') ->
    state_counters_ok st -> state_counters_ok st'.
Proof.
  intros ch st i g st' i' H Hc. unfold GeneticSwapOptimizer.processGate in H.
  destruct (QuantumCircuit.gqubits g) as [|c [|t [|x l]]];
    try (inversion H; subst; now apply counters_emitNative).
  destruct (GeneticSwapOptimizer.run_swap_loop ch c t st i) as [[st1 i1]|] eqn:E;
    [|discriminate].
  inversion H; subst. apply counters_emitNative, counters_addPenalty.
  eapply swaps_only_counters; [|exact Hc].
  eapply genetic_run_loop_swaps_only. exact E.
Qed.

Lemma genetic_forEach_counters : forall ch gs st i st' i',
    GeneticSwapOptimizer.forEach ch gs (st, i) = Ok (st', i') ->
    state_counters_ok st -> state_counters_ok st'.
Proof.
  intros ch gs. induction gs as [|g gs IH]; intros st i st' i' H Hc; simpl in H.
  - now inversion H; subst.
  - destruct (GeneticSwapOptimizer.processGate ch (st, i) g) as [[st1 i1]|] eqn:E;
      [|discriminate].
    eapply IH; [exact H|]. eapply genetic_processGate_counters; eassumption.
Qed.

Lemma applyChromosome_counters : forall circuit hw ch r hw',
    GeneticSwapOptimizer.applyChromosome circuit hw ch = Ok (r, hw') ->
    result_counters_ok r.
Proof.
  intros circuit hw ch r hw' H. unfold GeneticSwapOptimizer.applyChromosome in H.
  destruct (GeneticSwapOptimizer.forEach _ _ _) as [[st i]|] eqn:E; [|discriminate].
  inversion H; subst.
  eapply (genetic_forEach_counters _ _ _ _ _ _ E). apply counters_init.
Qed.

(** ** How a gate ends *)

Lemma add_pred_one : forall p, JS.add p (JS.pred (Fin 1)) = p.
Proof. intros [z|]; simpl; [f_equal; lia|reflexivity]. Qed.

Lemma swaps_only_built : forall st st',
    swaps_only st st' -> built (st_hw st) -> built (st_hw st').
Proof.
  intros st st' H Hb. apply swaps_only_shape in H.
  destruct H as (sw & _ & _ & _ & _ & _ & D). now apply D.
Qed.

Lemma built_addPenalty : forall st c t,
    built (st_hw st) -> built (st_hw (addPenalty st c t)).
Proof.
  intros st c t Hb. unfold addPenalty.
  destruct (Topology.distance _ _ _) as [d hw'] eqn:E. simpl.
  change hw' with (snd (d, hw')). rewrite <- E. now apply built_distance.
Qed.






(** ** Gates of a run *)

Lemma greedy_forEach_app : forall fuel pre g post st0 stf,
    GreedyMapper.forEach fuel (pre ++ g :: post) st0 = Some stf ->
    exists st st',
      GreedyMapper.forEach fuel pre st0 = Some st
      /\ GreedyMapper.processGate fuel st g = Some st'
      /\ GreedyMapper.forEach fuel post st' = Some stf.
Proof.
  intros fuel pre. induction pre as [|x pre IH]; intros g post st0 stf H; simpl in H.
  - destruct (GreedyMapper.processGate fuel st0 g) as [st'|] eqn:E; [|discriminate].
    exists st0, st'. auto.
  - destruct (GreedyMapper.processGate fuel st0 x) as [sx|] eqn:E; [|discriminate].
    destruct (IH _ _ _ _ H) as (st & st' & H1 & H2 & H3).
    exists st, st'. simpl. rewrite E. auto.
Qed.

Lemma greedy_processGate_built : forall fuel st g st',
    GreedyMapper.processGate fuel st g = Some st' ->
    built (st_hw st) -> built (st_hw st').
Proof.
  intros fuel st g st' H Hb. unfold GreedyMapper.processGate in H.
  destruct (QuantumCircuit.gqubits g) as [|c [|t [|x l]]];
    try (inversion H; subst; exact Hb).
  destruct (GreedyMapper.swap_loop fuel c t st) as [st1|] eqn:E; [|discriminate].
  inversion H; subst. simpl. apply built_addPenalty.
  eapply swaps_only_built; [|exact Hb]. eapply greedy_loop_swaps_only. exact E.
Qed.

Lemma greedy_forEach_built : forall fuel gs st st',
    GreedyMapper.forEach fuel gs st = Some st' ->
    built (st_hw st) -> built (st_hw st').
Proof.
  intros fuel gs. induction gs as [|g gs IH]; intros st st' H Hb; simpl in H.
  - now inversion H; subst.
  - destruct (GreedyMapper.processGate fuel st g) as [st1|] eqn:E; [|discriminate].
    eapply IH; [exact H|]. eapply greedy_processGate_built; eassumption.
Qed.

Lemma lookahead_forEach_app : forall circuit k fuel pre g post idx st0 stf,
    LookAheadMapper.forEach circuit k fuel (pre ++ g :: post) idx st0 = Some stf ->
    exists st st',
      LookAheadMapper.forEach circuit k fuel pre idx st0 = Some st
      /\ LookAheadMapper.processGate circuit k fuel st (idx + length pre) g = Some st'
      /\ LookAheadMapper.forEach circuit k fuel post (S (idx + length pre)) st'
         = Some stf.
Proof.
  intros circuit k fuel pre. induction pre as [|x pre IH];
    intros g post idx st0 stf H; simpl in H.
  - rewrite Nat.add_0_r.
    destruct (LookAheadMapper.processGate circuit k fuel st0 idx g) as [st'|] eqn:E;
      [|discriminate].
    exists st0, st'. auto.
  - destruct (LookAheadMapper.processGate circuit k fuel st0 idx x) as [sx|] eqn:E;
      [|discriminate].
    destruct (IH _ _ _ _ _ H) as (st & st' & H1 & H2 & H3).
    exists st, st'. simpl. rewrite E.
    replace (idx + S (length pre)) with (S idx + length pre) by lia. auto.
Qed.

Lemma lookahead_processGate_built : forall circuit k fuel st idx g st',
    LookAheadMapper.processGate circuit k fuel st idx g = Some st' ->
    built (st_hw st) -> built (st_hw st').
Proof.
  intros circuit k fuel st idx g st' H Hb. unfold LookAheadMapper.processGate in H.
  destruct (QuantumCircuit.gqubits g) as [|c [|t [|x l]]];
    try (inversion H; subst; exact Hb).
  destruct (LookAheadMapper.swap_loop circuit k fuel idx c t st) as [st1|] eqn:E;
    [|discriminate].
  inversion H; subst. simpl. apply built_addPenalty.
  eapply swaps_only_built; [|exact Hb]. eapply lookahead_loop_swaps_only. exact E.
Qed.

Lemma lookahead_forEach_built : forall circuit k fuel gs idx st st',
    LookAheadMapper.forEach circuit k fuel gs idx st = Some st' ->
    built (st_hw st) -> built (st_hw st').
Proof.
  intros circuit k fuel gs. induction gs as [|g gs IH]; intros idx st st' H Hb;
    simpl in H.
  - now inversion H; subst.
  - destruct (LookAheadMapper.processGate circuit k fuel st idx g) as [st1|] eqn:E;
      [|discriminate].
    eapply IH; [exact H|]. eapply lookahead_processGate_built; eassumption.
Qed.

Lemma genetic_forEach_app : forall ch pre g post acc0 accf,
    GeneticSwapOptimizer.forEach ch (pre ++ g :: post) acc0 = Ok accf ->
    exists acc acc',
      GeneticSwapOptimizer.forEach ch pre acc0 = Ok acc
      /\ GeneticSwapOptimizer.processGate ch acc g = Ok acc'
      /\ GeneticSwapOptimizer.forEach ch post acc' = Ok accf.
Proof.
  intros ch pre. induction pre as [|x pre IH]; intros g post acc0 accf H; simpl in H.
  - destruct (GeneticSwapOptimizer.processGate ch acc0 g) as [acc'|] eqn:E;
      [|discriminate].
    exists acc0, acc'. auto.
  - destruct (GeneticSwapOptimizer.processGate ch acc0 x) as [ax|] eqn:E;
      [|discriminate].
    destruct (IH _ _ _ _ H) as (acc & acc' & H1 & H2 & H3).
    exists acc, acc'. simpl. rewrite E. auto.
Qed.

Lemma genetic_processGate_built : forall ch st i g st' i',
    GeneticSwapOptimizer.processGate ch (st, i) g = Ok (st', i') ->
    built (st_hw st) -> built (st_hw st').
Proof.
  intros ch st i g st' i' H Hb. unfold GeneticSwapOptimizer.processGate in H.
  destruct (QuantumCircuit.gqubits g) as [|c [|t [|x l]]];
    try (inversion H; subst; exact Hb).
  destruct (GeneticSwapOptimizer.run_swap_loop ch c t st i) as [[st1 i1]|] eqn:E;
    [|discriminate].
  inversion H; subst. simpl. apply built_addPenalty.
  eapply swaps_only_built; [|exact Hb]. eapply genetic_run_loop_swaps_only. exact E.
Qed.

Lemma genetic_forEach_built : forall ch gs st i st' i',
    GeneticSwapOptimizer.forEach ch gs (st, i) = Ok (st', i') ->
    built (st_hw st) -> built (st_hw st').
Proof.
  intros ch gs. induction gs as [|g gs IH]; intros st i st' i' H Hb; simpl in H.
  - now inversion H; subst.
  - destruct (GeneticSwapOptimizer.processGate ch (st, i) g) as [[st1 i1]|] eqn:E;
      [|discriminate].
    eapply IH; [exact H|]. eapply genetic_processGate_built; eassumption.
Qed.
(** ** The genetic search keeps the device *)

Lemma applyChromosome_same_device : forall circuit hw ch r hw',
    GeneticSwapOptimizer.applyChromosome circuit hw ch = Ok (r, hw') ->
    same_device hw hw'.
Proof.
  intros circuit hw ch r hw' H. unfold GeneticSwapOptimizer.applyChromosome in H.
  destruct (GeneticSwapOptimizer.forEach _ _ _) as [[st i]|] eqn:E; [|discriminate].
  inversion H; subst. clear H.
  assert (G : forall gs st0 i0 st1 i1,
             GeneticSwapOptimizer.forEach ch gs (st0, i0) = Ok (st1, i1) ->
             same_device (st_hw st0) (st_hw st1)).
  { induction gs as [|g gs IH]; intros st0 i0 st1 i1 H; simpl in H.
    - inversion H; subst. apply same_device_refl.
    - destruct (GeneticSwapOptimizer.processGate ch (st0, i0) g) as [[sx ix]|] eqn:Eg;
        [|discriminate].
      eapply same_device_trans; [|eapply IH; exact H].
      unfold GeneticSwapOptimizer.processGate in Eg.
      destruct (QuantumCircuit.gqubits g) as [|c [|t [|x l]]];
        try (inversion Eg; subst; apply same_device_refl).
      destruct (GeneticSwapOptimizer.run_swap_loop ch c t st0 i0) as [[s1 j1]|] eqn:El;
        [|discriminate].
      inversion Eg; subst. simpl.
      apply genetic_run_loop_swaps_only, swaps_only_shape in El.
      destruct El as (sw & _ & _ & _ & _ & _ & D).
      eapply same_device_trans; [exact D|].
      unfold addPenalty.
      destruct (Topology.distance (st_hw s1) _ _) as [d h] eqn:Ed. simpl.
      change h with (snd (d, h)). rewrite <- Ed. apply same_device_distance. }
  apply (G _ _ _ _ _ E).
Qed.

Lemma keeps_ret : forall A (a : A), keeps_device (GeneticSwapOptimizer.ret a).
Proof.
  intros A a rnd e a' e' H. inversion H; subst. apply same_device_refl.
Qed.

Lemma keeps_throw : forall A, keeps_device (@GeneticSwapOptimizer.throw A).
Proof. intros A rnd e a e' H. discriminate. Qed.

Lemma keeps_bind : forall A B (m : GeneticSwapOptimizer.G A)
                          (k : A -> GeneticSwapOptimizer.G B),
    keeps_device m -> (forall a, keeps_device (k a)) ->
    keeps_device (GeneticSwapOptimizer.gbind m k).
Proof.
  intros A B m k Hm Hk rnd e b e' H. unfold GeneticSwapOptimizer.gbind in H.
  destruct (m rnd e) as [[a e1]|] eqn:E; [|discriminate].
  eapply same_device_trans; [eapply Hm; exact E|eapply Hk; exact H].
Qed.

Lemma keeps_random : keeps_device GeneticSwapOptimizer.random.
Proof.
  intros rnd e a e' H. inversion H; subst. apply same_device_refl.
Qed.

Lemma keeps_randomIndex : forall k, keeps_device (GeneticSwapOptimizer.randomIndex k).
Proof.
  intro k. apply keeps_bind; [apply keeps_random|intro; apply keeps_ret].
Qed.

Create HintDb keeps.
#[local] Hint Resolve keeps_ret keeps_throw keeps_random keeps_randomIndex : keeps.

Ltac keeps :=
  repeat first
    [ apply keeps_bind; [|intro]
    | solve [auto with keeps]
    | match goal with
      | |- keeps_device (if ?b then _ else _) => destruct b
      | |- keeps_device (match ?x with _ => _ end) => destruct x
      | |- keeps_device (let '(_, _) := ?x in _) => destruct x
      end ].

Lemma keeps_random_genes : forall vs n,
    keeps_device (GeneticSwapOptimizer.random_genes vs n).
Proof. intros vs n. induction n as [|n IH]; simpl; keeps. Qed.
#[local] Hint Resolve keeps_random_genes : keeps.

Lemma keeps_random_population : forall cfg vs n,
    keeps_device (GeneticSwapOptimizer.random_population cfg vs n).
Proof. intros cfg vs n. induction n as [|n IH]; simpl; keeps. Qed.

Lemma keeps_initializePopulation : forall cfg,
    keeps_device (GeneticSwapOptimizer.initializePopulation cfg).
Proof.
  intros cfg rnd e a e' H. unfold GeneticSwapOptimizer.initializePopulation in H.
  eapply keeps_random_population. exact H.
Qed.

Lemma keeps_evaluate_one : forall circuit c,
    keeps_device (GeneticSwapOptimizer.evaluate_one circuit c).
Proof.
  intros circuit c rnd e a e' H. unfold GeneticSwapOptimizer.evaluate_one in H.
  destruct (GeneticSwapOptimizer.chromosomeKey c) as [k|]; [|discriminate].
  destruct (GeneticSwapOptimizer.fitness_get _ _) as [f|].
  - inversion H; subst. apply same_device_refl.
  - unfold GeneticSwapOptimizer.evaluateFitness in H.
    destruct (GeneticSwapOptimizer.applyChromosome _ _ _) as [[r hw']|] eqn:E;
      [|discriminate].
    inversion H; subst. simpl. eapply applyChromosome_same_device. exact E.
Qed.
#[local] Hint Resolve keeps_initializePopulation keeps_evaluate_one : keeps.

Lemma keeps_evaluate_all : forall circuit p,
    keeps_device (GeneticSwapOptimizer.evaluate_all circuit p).
Proof. intros circuit p. induction p as [|c p IH]; simpl; keeps. Qed.

Lemma keeps_tournament_draw : forall ev n,
    keeps_device (GeneticSwapOptimizer.tournament_draw ev n).
Proof. intros ev n. induction n as [|n IH]; simpl; keeps. Qed.
#[local] Hint Resolve keeps_evaluate_all keeps_tournament_draw : keeps.

Lemma keeps_tournamentSelect : forall cfg ev,
    keeps_device (GeneticSwapOptimizer.tournamentSelect cfg ev).
Proof. intros cfg ev. unfold GeneticSwapOptimizer.tournamentSelect. keeps. Qed.

Lemma keeps_crossover : forall p1 p2,
    keeps_device (GeneticSwapOptimizer.crossover p1 p2).
Proof. intros p1 p2. unfold GeneticSwapOptimizer.crossover. keeps. Qed.

Lemma keeps_mutate : forall cfg c, keeps_device (GeneticSwapOptimizer.mutate cfg c).
Proof.
  intros cfg c rnd e a e' H. unfold GeneticSwapOptimizer.mutate in H.
  revert H. match goal with |- ?m rnd e = _ -> _ => assert (K : keeps_device m) end.
  { keeps. }
  intro H. eapply K. exact H.
Qed.
#[local] Hint Resolve keeps_tournamentSelect keeps_crossover keeps_mutate : keeps.

Lemma keeps_breed : forall cfg ev rate n pop,
    keeps_device (GeneticSwapOptimizer.breed cfg ev rate n pop).
Proof.
  intros cfg ev rate n. induction n as [|n IH]; intro pop; simpl; keeps.
Qed.
#[local] Hint Resolve keeps_breed : keeps.

Lemma keeps_evolve : forall circuit cfg gens pop best bf pc rate,
    keeps_device (GeneticSwapOptimizer.evolve circuit cfg gens pop best bf pc rate).
Proof.
  intros circuit cfg gens. induction gens as [|gens IH];
    intros pop best bf pc rate; simpl; keeps.
Qed.
#[local] Hint Resolve keeps_evolve : keeps.

(** [map] returns the replay of some chromosome (or of [null]) on the same
    device. *)
Lemma genetic_map_is_replay : forall circuit hw o rnd r hw',
    GeneticSwapOptimizer.map circuit hw o rnd = Ok (r, hw') ->
    exists hw1 best,
      same_device hw hw1
      /\ GeneticSwapOptimizer.applyChromosome circuit hw1 best = Ok (r, hw').
Proof.
  intros circuit hw o rnd r hw' H. unfold GeneticSwapOptimizer.map in H.
  match type of H with
  | match ?m rnd ?e with _ => _ end = _ =>
      assert (K : keeps_device m) by keeps;
        destruct (m rnd e) as [[best e1]|] eqn:E; [|discriminate];
        apply K in E
  end.
  exists (GeneticSwapOptimizer.ehw e1), best. split; [exact E|exact H].
Qed.
(** ** The chromosome cursor *)

Lemma genetic_loop_cursor : forall rest c t st i st1 i1,
    GeneticSwapOptimizer.swap_loop rest c t st i = Ok (st1, i1) ->
    i <= i1 <= i + length rest
    /\ (Topology.isConnected (st_hw st) (Layout.at_ (st_layout st) c)
                             (Layout.at_ (st_layout st) t) = true ->
        i1 = i /\ st1 = st)
    /\ (Topology.isConnected (st_hw st) (Layout.at_ (st_layout st) c)
                             (Layout.at_ (st_layout st) t) = false ->
        rest <> [] -> i < i1).
Proof.
  induction rest as [|g rest IH]; intros c t st i st1 i1 H; simpl in H.
  - destruct (Topology.isConnected (st_hw st) _ _) eqn:E; inversion H; subst;
      simpl; (split; [lia|]); split; intros; try discriminate; try congruence; auto.
  - destruct (Topology.isConnected (st_hw st) _ _) eqn:E.
    + inversion H; subst. simpl. split; [lia|]. split; [auto|discriminate].
    + destruct g as [[q1 q2]|]; [|discriminate].
      apply IH in H. destruct H as (Hle & _ & _). simpl.
      split; [lia|]. split; [discriminate|]. intros _ _. lia.
Qed.

Lemma skipn_nonempty : forall (A : Type) (l : list A) i,
    i < length l -> skipn i l <> [].
Proof.
  intros A l i H E. apply (f_equal (@length A)) in E.
  rewrite length_skipn in E. simpl in E. lia.
Qed.

Lemma genetic_processGate_exhausted : forall ch st i g,
    length ch <= i ->
    GeneticSwapOptimizer.processGate (Some ch) (st, i) g
    = Ok (match QuantumCircuit.gqubits g with
          | [c; t] => emitNative (addPenalty st c t) g
          | _ => emitNative st g
          end, i).
Proof.
  intros ch st i g Hi. unfold GeneticSwapOptimizer.processGate.
  destruct (QuantumCircuit.gqubits g) as [|c [|t [|x l]]]; try reflexivity.
  simpl. rewrite skipn_all2 by assumption. simpl.
  destruct (Topology.isConnected _ _ _); reflexivity.
Qed.

Lemma addPenalty_frame : forall st c t,
    st_steps (addPenalty st c t) = st_steps st
    /\ st_layout (addPenalty st c t) = st_layout st
    /\ st_insertedSwaps (addPenalty st c t) = st_insertedSwaps st
    /\ st_depth (addPenalty st c t) = st_depth st.
Proof.
  intros st c t. unfold addPenalty.
  destruct (Topology.distance _ _ _). simpl. auto.
Qed.

Lemma genetic_forEach_exhausted : forall ch gs st i,
    length ch <= i ->
    exists st',
      GeneticSwapOptimizer.forEach (Some ch) gs (st, i) = Ok (st', i)
      /\ st_layout st' = st_layout st
      /\ st_insertedSwaps st' = st_insertedSwaps st
      /\ exists new,
          st_steps st' = st_steps st ++ new
          /\ length new = length gs
          /\ Forall (fun s => is_swap s = false) new.
Proof.
  intros ch gs. induction gs as [|g gs IH]; intros st i Hi; simpl.
  - exists st. split; [reflexivity|]. split; [reflexivity|]. split; [reflexivity|].
    exists []. rewrite app_nil_r. auto.
  - rewrite genetic_processGate_exhausted by assumption.
    set (st1 := match QuantumCircuit.gqubits g with
                | [c; t] => emitNative (addPenalty st c t) g
                | _ => emitNative st g
                end).
    assert (H1 : st_layout st1 = st_layout st
                 /\ st_insertedSwaps st1 = st_insertedSwaps st
                 /\ exists s, st_steps st1 = st_steps st ++ [s] /\ is_swap s = false).
    { subst st1. destruct (QuantumCircuit.gqubits g) as [|c [|t [|x l]]]; simpl;
        try (split; [reflexivity|]; split; [reflexivity|];
             eexists; split; reflexivity).
      destruct (addPenalty_frame st c t) as (E1 & E2 & E3 & E4).
      rewrite E1, E2, E3. split; [reflexivity|]. split; [reflexivity|].
      eexists; split; reflexivity. }
    destruct H1 as (L1 & S1 & s & P1 & Hs).
    destruct (IH st1 i Hi) as (st' & E & L & S & new & P & Ln & F).
    exists st'. split; [exact E|]. split; [congruence|]. split; [congruence|].
    exists (s :: new). rewrite P, P1, <- app_assoc. simpl.
    split; [reflexivity|]. split; [congruence|]. constructor; assumption.
Qed.
(** ** The guarded swap of the genetic replay keeps the layout a bijection *)

Lemma indexOf_not_minus1 : forall l x,
    (Layout.indexOf l x =? -1)%Z = false -> In x (Layout.cells l).
Proof.
  intros l x H. apply Z.eqb_neq in H.
  destruct (indexOf_spec l x) as [[E _]|(k & _ & Hk & Hx)]; [contradiction|].
  rewrite <- Hx. now apply nth_In.
Qed.

Lemma genetic_loop_layout_ok : forall n rest c t st i st1 i1,
    layout_ok n (st_layout st) ->
    GeneticSwapOptimizer.swap_loop rest c t st i = Ok (st1, i1) ->
    layout_ok n (st_layout st1).
Proof.
  intros n rest. induction rest as [|g rest IH]; intros c t st i st1 i1 Hl H;
    simpl in H.
  - destruct (Topology.isConnected _ _ _); inversion H; now subst.
  - destruct (Topology.isConnected _ _ _); [inversion H; now subst|].
    destruct g as [[q1 q2]|]; [|discriminate].
    eapply IH; [|exact H].
    destruct (Layout.indexOf (st_layout st) (Some q1) =? -1)%Z eqn:E1;
      [exact Hl|].
    destruct (Layout.indexOf (st_layout st) (Some q2) =? -1)%Z eqn:E2;
      [exact Hl|].
    simpl. apply swap_transposes; auto using indexOf_not_minus1.
Qed.

Lemma genetic_processGate_layout_ok : forall n ch st i g st' i',
    layout_ok n (st_layout st) ->
    GeneticSwapOptimizer.processGate ch (st, i) g = Ok (st', i') ->
    layout_ok n (st_layout st').
Proof.
  intros n ch st i g st' i' Hl H. unfold GeneticSwapOptimizer.processGate in H.
  destruct (QuantumCircuit.gqubits g) as [|c [|t [|x l]]];
    try (inversion H; subst; exact Hl).
  destruct (GeneticSwapOptimizer.run_swap_loop ch c t st i) as [[st1 i1]|] eqn:E;
    [|discriminate].
  inversion H; subst. simpl.
  destruct (addPenalty_frame st1 c t) as (_ & -> & _).
  destruct ch as [ch|]; simpl in E.
  - eapply genetic_loop_layout_ok; eassumption.
  - destruct (Topology.isConnected _ _ _); inversion E; now subst.
Qed.

Lemma genetic_forEach_layout_ok : forall n ch gs st i st' i',
    layout_ok n (st_layout st) ->
    GeneticSwapOptimizer.forEach ch gs (st, i) = Ok (st', i') ->
    layout_ok n (st_layout st').
Proof.
  intros n ch gs. induction gs as [|g gs IH]; intros st i st' i' Hl H; simpl in H.
  - now inversion H; subst.
  - destruct (GeneticSwapOptimizer.processGate ch (st, i) g) as [[st1 i1]|] eqn:E;
      [|discriminate].
    eapply IH; [|exact H]. eapply genetic_processGate_layout_ok; eassumption.
Qed.

(** ** A gate on one qubit twice *)

Lemma getShortestPath_self : forall hw q, Topology.getShortestPath hw q q = [q].
Proof.
  intros hw q. unfold Topology.getShortestPath, Topology.bfs_fuel. simpl.
  now rewrite qid_eqb_refl.
Qed.



(** ** Layout snapshots along a run *)

Lemma snapshots_ok_snoc : forall ss prev s,
    snapshots_ok prev ss ->
    match s with
    | Swap (q1, q2) _ l _ _ =>
        let p := last (map step_layout ss) prev in
        q1 <> q2 /\ In q1 p /\ In q2 p /\ l = map (transpose q1 q2) p
    | Native _ _ _ l _ _ => l = last (map step_layout ss) prev
    end ->
    snapshots_ok prev (ss ++ [s]).
Proof.
  induction ss as [|x ss IH]; intros prev s H Hs.
  - simpl in *. split; [|exact I]. destruct s as [[q1 q2] ? ? ? ?|]; exact Hs.
  - simpl in H. destruct H as [Hx Hrest]. simpl. split; [exact Hx|].
    apply IH; [exact Hrest|].
    assert (E : last (map step_layout (x :: ss)) prev
                = last (map step_layout ss) (step_layout x)).
    { simpl. destruct (map step_layout ss) as [|y l] eqn:El; [reflexivity|].
      clear. revert y. induction l as [|z l IHl]; intro y; [reflexivity|].
      simpl in *. apply IHl. }
    rewrite E in Hs. exact Hs.
Qed.

Lemma last_map_snoc : forall ss prev s,
    last (map step_layout (ss ++ [s])) prev = step_layout s.
Proof.
  intros ss prev s. rewrite map_app. simpl. apply last_last.
Qed.

Lemma trace_ok_init : forall n hw, trace_ok n (init n hw).
Proof.
  intros n hw. unfold trace_ok. simpl.
  split; [apply layout_ok_identity|]. split; [exact I|reflexivity].
Qed.

Lemma trace_ok_insertSwap : forall n st q1 q2,
    trace_ok n st -> q1 <> q2 ->
    In q1 (Layout.cells (st_layout st)) ->
    In q2 (Layout.cells (st_layout st)) ->
    trace_ok n (insertSwap st q1 q2).
Proof.
  intros n st q1 q2 (Hl & Hs & Hlast) Hne H1 H2.
  destruct (swap_transposes n (st_layout st) q1 q2 Hl H1 H2) as [Hc Hl'].
  unfold trace_ok, insertSwap. simpl in *. split; [exact Hl'|]. split.
  - apply snapshots_ok_snoc; [exact Hs|]. cbv beta iota zeta. rewrite Hlast.
    unfold Layout.snapshot. auto.
  - rewrite last_map_snoc. reflexivity.
Qed.

Lemma trace_ok_emitNative : forall n st g,
    trace_ok n st -> trace_ok n (emitNative st g).
Proof.
  intros n st g (Hl & Hs & Hlast). unfold trace_ok, emitNative. simpl in *.
  split; [exact Hl|]. split.
  - apply snapshots_ok_snoc; [exact Hs|]. cbv beta iota zeta. now rewrite Hlast.
  - rewrite last_map_snoc. reflexivity.
Qed.

Lemma trace_ok_addPenalty : forall n st c t,
    trace_ok n st -> trace_ok n (addPenalty st c t).
Proof.
  intros n st c t H. unfold trace_ok.
  destruct (addPenalty_frame st c t) as (-> & -> & _). exact H.
Qed.

Lemma trace_ok_with_hw : forall n st hw,
    trace_ok n st -> trace_ok n (with_hw st hw).
Proof. intros n st hw H. exact H. Qed.

(** ** Greedy and look-ahead swaps on a device that fits the circuit *)

Lemma neighbor_in_graph : forall (g : Topology.Graph) a b,
    In b (nth a g []) -> a < length g.
Proof.
  intros g a b H. destruct (Nat.lt_ge_cases a (length g)) as [Hlt|Hge]; [exact Hlt|].
  rewrite nth_overflow in H by assumption. destruct H.
Qed.

Lemma neighbor_closed : forall (g : Topology.Graph) a b,
    symmetric_graph g -> In b (nth a g []) -> b < length g.
Proof.
  intros g a b Hsym H. apply Hsym in H. eapply neighbor_in_graph. exact H.
Qed.

(** The first edge of a shortest path with at least two vertices. *)
Lemma shortest_path_first_edge : forall hw q1 q2,
    2 <= length (Topology.getShortestPath hw q1 q2) ->
    exists a b,
      nth 0 (Topology.getShortestPath hw q1 q2) None = Some a
      /\ nth 1 (Topology.getShortestPath hw q1 q2) None = Some b
      /\ q1 = Some a
      /\ In b (nth a (Topology.graph hw) []).
Proof.
  intros hw q1 q2 Hlen.
  destruct (getShortestPath_ok hw q1 q2) as [E|(Hw & Hhd & _ & _)].
  - rewrite E in Hlen. simpl in Hlen. lia.
  - simpl in Hw, Hhd.
    destruct (Topology.getShortestPath hw q1 q2) as [|u [|v p]];
      simpl in Hlen; try lia.
    simpl in Hhd. inversion Hhd; subst u.
    simpl in Hw. destruct v as [b|]; [|contradiction]. destruct Hw as [Hin _].
    destruct q1 as [a|]; [|destruct Hin].
    exists a, b. simpl. auto.
Qed.

Lemma greedy_loop_trace_ok : forall n fuel c t st st1,
    built (st_hw st) -> device_fits n (st_hw st) ->
    trace_ok n st ->
    GreedyMapper.swap_loop fuel c t st = Some st1 ->
    trace_ok n st1.
Proof.
  intros n. induction fuel as [|fuel IH]; intros c t st st1 Hb Hfit Ht H;
    [discriminate|].
  simpl in H.
  destruct (Topology.isConnected _ _ _); [inversion H; now subst|].
  destruct (length _ <? 2) eqn:El; [inversion H; now subst|].
  apply Nat.ltb_ge in El.
  destruct (shortest_path_first_edge _ _ _ El) as (a & b & E0 & E1 & _ & Hin).
  rewrite E0, E1 in H.
  eapply IH; [| |  |exact H]; try assumption.
  pose proof (built_symmetric _ Hb) as Hsym.
  pose proof (built_loop_free _ Hb) as Hlf.
  apply trace_ok_insertSwap; [exact Ht| | |].
  - intro E. inversion E; subst. eapply Hlf. exact Hin.
  - apply (layout_ok_In n); [apply Ht|].
    apply neighbor_in_graph in Hin. unfold device_fits in Hfit. lia.
  - apply (layout_ok_In n); [apply Ht|].
    apply neighbor_closed in Hin; [|exact Hsym]. unfold device_fits in Hfit. lia.
Qed.

Lemma in_edges : forall g q1 q2,
    In (q1, q2) (LookAheadMapper.edges g) ->
    q1 < q2 /\ In q2 (nth q1 g []).
Proof.
  intros g q1 q2 H. unfold LookAheadMapper.edges in H.
  apply in_flat_map in H. destruct H as (a & _ & H).
  apply in_map_iff in H. destruct H as (b & E & Hb). inversion E; subst.
  apply filter_In in Hb. destruct Hb as [Hin Hlt]. apply Nat.ltb_lt in Hlt. auto.
Qed.

Lemma findBestSwap_In : forall circuit k hw layout idx q1 q2 hw',
    LookAheadMapper.findBestSwap circuit k hw layout idx = (Some (q1, q2), hw') ->
    In (q1, q2) (LookAheadMapper.edges (Topology.graph hw)).
Proof.
  intros circuit k hw layout idx q1 q2 hw' H.
  unfold LookAheadMapper.findBestSwap in H.
  set (up := InteractionGraph.getUpcomingInteractions circuit idx k) in *.
  assert (G : forall es acc b s h,
             fold_left (LookAheadMapper.try_edge layout up) es acc = (Some b, s, h) ->
             In b es \/ fst (fst acc) = Some b).
  { induction es as [|e es IH]; intros acc b s h Hf; simpl in Hf.
    - right. now rewrite Hf.
    - apply IH in Hf. destruct Hf as [Hf|Hf]; [left; now right|].
      destruct acc as [[b0 s0] h0]. destruct e as [e1 e2].
      unfold LookAheadMapper.try_edge in Hf.
      destruct (LookAheadMapper.score_layout _ _ _ _) as [sc h1].
      destruct (LookAheadMapper.score_gt sc s0); simpl in Hf.
      + inversion Hf; subst. left. now left.
      + right. exact Hf. }
  destruct (fold_left _ _ _) as [[b s] h] eqn:E.
  inversion H; subst.
  apply G in E. destruct E as [E|E]; [exact E|discriminate].
Qed.

Lemma lookahead_loop_trace_ok : forall circuit k n fuel idx c t st st1,
    built (st_hw st) -> device_fits n (st_hw st) ->
    trace_ok n st ->
    LookAheadMapper.swap_loop circuit k fuel idx c t st = Some st1 ->
    trace_ok n st1.
Proof.
  intros circuit k n. induction fuel as [|fuel IH];
    intros idx c t st st1 Hb Hfit Ht H; [discriminate|].
  simpl in H.
  destruct (Topology.isConnected _ _ _); [inversion H; now subst|].
  pose proof (findBestSwap_same_device circuit k (st_hw st) (st_layout st) idx) as Hd.
  destruct (LookAheadMapper.findBestSwap _ _ _ _ _) as [[[q1 q2]|] hw'] eqn:Ef.
  - simpl in Hd. destruct Hd as (_ & _ & Hg & Hb').
    apply findBestSwap_In in Ef. apply in_edges in Ef. destruct Ef as [Hlt Hin].
    pose proof (built_symmetric _ Hb) as Hsym.
    eapply IH; [| | |exact H].
    + simpl. now apply Hb'.
    + unfold device_fits in *. simpl. now rewrite Hg.
    + apply trace_ok_insertSwap; [exact Ht| | |].
      * intro E. inversion E. lia.
      * apply (layout_ok_In n); [apply Ht|].
        apply neighbor_in_graph in Hin. unfold device_fits in Hfit. lia.
      * apply (layout_ok_In n); [apply Ht|].
        apply neighbor_closed in Hin; [|exact Hsym].
        unfold device_fits in Hfit. lia.
  - inversion H; subst. exact Ht.
Qed.

Lemma genetic_loop_trace_ok : forall n rest c t st i st1 i1,
    proper_genes rest ->
    trace_ok n st ->
    GeneticSwapOptimizer.swap_loop rest c t st i = Ok (st1, i1) ->
    trace_ok n st1.
Proof.
  intros n rest. induction rest as [|g rest IH]; intros c t st i st1 i1 Hp Ht H;
    simpl in H.
  - destruct (Topology.isConnected _ _ _); inversion H; now subst.
  - destruct (Topology.isConnected _ _ _); [inversion H; now subst|].
    destruct g as [[q1 q2]|]; [|discriminate].
    inversion Hp as [|x l Hg Hrest]; subst.
    eapply IH; [exact Hrest| |exact H].
    destruct (Layout.indexOf (st_layout st) (Some q1) =? -1)%Z eqn:E1;
      [exact Ht|].
    destruct (Layout.indexOf (st_layout st) (Some q2) =? -1)%Z eqn:E2;
      [exact Ht|].
    simpl. apply trace_ok_insertSwap; auto using indexOf_not_minus1.
    intro E. inversion E. contradiction.
Qed.

(** ** The trace of whole runs *)

Lemma device_fits_same : forall n hw hw',
    same_device hw hw' -> device_fits n hw -> device_fits n hw'.
Proof.
  intros n hw hw' (_ & _ & G & _) H. unfold device_fits in *. now rewrite G.
Qed.

Lemma same_device_addPenalty : forall st c t,
    same_device (st_hw st) (st_hw (addPenalty st c t)).
Proof.
  intros st c t. unfold addPenalty.
  destruct (Topology.distance (st_hw st) _ _) as [d h] eqn:E. simpl.
  change h with (snd (d, h)). rewrite <- E. apply same_device_distance.
Qed.

Lemma greedy_processGate_trace_ok : forall n fuel st g st',
    built (st_hw st) -> device_fits n (st_hw st) -> trace_ok n st ->
    GreedyMapper.processGate fuel st g = Some st' ->
    built (st_hw st') /\ device_fits n (st_hw st') /\ trace_ok n st'.
Proof.
  intros n fuel st g st' Hb Hf Ht H.
  split; [eapply greedy_processGate_built; eassumption|].
  unfold GreedyMapper.processGate in H.
  destruct (QuantumCircuit.gqubits g) as [|c [|t [|x l]]];
    try (inversion H; subst; split; [exact Hf|now apply trace_ok_emitNative]).
  destruct (GreedyMapper.swap_loop fuel c t st) as [st1|] eqn:E; [|discriminate].
  inversion H; subst. simpl.
  pose proof (greedy_loop_swaps_only _ _ _ _ _ E) as Hso.
  apply swaps_only_shape in Hso. destruct Hso as (_ & _ & _ & _ & _ & _ & D).
  split.
  - eapply device_fits_same; [apply same_device_addPenalty|].
    eapply device_fits_same; eassumption.
  - apply trace_ok_emitNative, trace_ok_addPenalty.
    eapply greedy_loop_trace_ok; eassumption.
Qed.

Lemma greedy_forEach_trace_ok : forall n fuel gs st st',
    built (st_hw st) -> device_fits n (st_hw st) -> trace_ok n st ->
    GreedyMapper.forEach fuel gs st = Some st' ->
    trace_ok n st'.
Proof.
  intros n fuel gs. induction gs as [|g gs IH]; intros st st' Hb Hf Ht H;
    simpl in H.
  - now inversion H; subst.
  - destruct (GreedyMapper.processGate fuel st g) as [st1|] eqn:E; [|discriminate].
    destruct (greedy_processGate_trace_ok _ _ _ _ _ Hb Hf Ht E) as (B & F & T).
    eapply IH; eassumption.
Qed.

Lemma lookahead_processGate_trace_ok : forall circuit k n fuel st idx g st',
    built (st_hw st) -> device_fits n (st_hw st) -> trace_ok n st ->
    LookAheadMapper.processGate circuit k fuel st idx g = Some st' ->
    built (st_hw st') /\ device_fits n (st_hw st') /\ trace_ok n st'.
Proof.
  intros circuit k n fuel st idx g st' Hb Hf Ht H.
  split; [eapply lookahead_processGate_built; eassumption|].
  unfold LookAheadMapper.processGate in H.
  destruct (QuantumCircuit.gqubits g) as [|c [|t [|x l]]];
    try (inversion H; subst; split; [exact Hf|now apply trace_ok_emitNative]).
  destruct (LookAheadMapper.swap_loop circuit k fuel idx c t st) as [st1|] eqn:E;
    [|discriminate].
  inversion H; subst. simpl.
  pose proof (lookahead_loop_swaps_only _ _ _ _ _ _ _ _ E) as Hso.
  apply swaps_only_shape in Hso. destruct Hso as (_ & _ & _ & _ & _ & _ & D).
  split.
  - eapply device_fits_same; [apply same_device_addPenalty|].
    eapply device_fits_same; eassumption.
  - apply trace_ok_emitNative, trace_ok_addPenalty.
    eapply lookahead_loop_trace_ok; eassumption.
Qed.

Lemma lookahead_forEach_trace_ok : forall circuit k n fuel gs idx st st',
    built (st_hw st) -> device_fits n (st_hw st) -> trace_ok n st ->
    LookAheadMapper.forEach circuit k fuel gs idx st = Some st' ->
    trace_ok n st'.
Proof.
  intros circuit k n fuel gs. induction gs as [|g gs IH];
    intros idx st st' Hb Hf Ht H; simpl in H.
  - now inversion H; subst.
  - destruct (LookAheadMapper.processGate circuit k fuel st idx g) as [st1|] eqn:E;
      [|discriminate].
    destruct (lookahead_processGate_trace_ok _ _ _ _ _ _ _ _ Hb Hf Ht E)
      as (B & F & T).
    eapply IH; eassumption.
Qed.

Lemma proper_genes_skipn : forall ch i, proper_genes ch -> proper_genes (skipn i ch).
Proof.
  intros ch i H. unfold proper_genes in *. rewrite Forall_forall in *.
  intros x Hx. apply H. rewrite <- (firstn_skipn i ch).
  apply in_or_app. now right.
Qed.

Lemma genetic_processGate_trace_ok : forall n ch st i g st' i',
    proper_chromosome ch -> trace_ok n st ->
    GeneticSwapOptimizer.processGate ch (st, i) g = Ok (st', i') ->
    trace_ok n st'.
Proof.
  intros n ch st i g st' i' Hp Ht H. unfold GeneticSwapOptimizer.processGate in H.
  destruct (QuantumCircuit.gqubits g) as [|c [|t [|x l]]];
    try (inversion H; subst; now apply trace_ok_emitNative).
  destruct (GeneticSwapOptimizer.run_swap_loop ch c t st i) as [[st1 i1]|] eqn:E;
    [|discriminate].
  inversion H; subst. apply trace_ok_emitNative, trace_ok_addPenalty.
  destruct ch as [ch|]; simpl in E.
  - eapply genetic_loop_trace_ok; [|exact Ht|exact E].
    now apply proper_genes_skipn.
  - destruct (Topology.isConnected _ _ _); inversion E; now subst.
Qed.

Lemma genetic_forEach_trace_ok : forall n ch gs st i st' i',
    proper_chromosome ch -> trace_ok n st ->
    GeneticSwapOptimizer.forEach ch gs (st, i) = Ok (st', i') ->
    trace_ok n st'.
Proof.
  intros n ch gs. induction gs as [|g gs IH]; intros st i st' i' Hp Ht H;
    simpl in H.
  - now inversion H; subst.
  - destruct (GeneticSwapOptimizer.processGate ch (st, i) g) as [[st1 i1]|] eqn:E;
      [|discriminate].
    eapply IH; [exact Hp| |exact H].
    eapply genetic_processGate_trace_ok; eassumption.
Qed.

(** On a device that fits the circuit, and in every replay of a chromosome
    of proper edges, the final layout is a permutation of [0 .. n-1] and the
    snapshots change exactly by the recorded transpositions. *)
Theorem layout_trace_when_device_fits :
  (forall fuel circuit hw r hw',
      built hw -> device_fits (QuantumCircuit.nQubits circuit) hw ->
      GreedyMapper.map fuel circuit hw = Some (r, hw') ->
      result_trace_ok (QuantumCircuit.nQubits circuit) r)
  /\ (forall k fuel circuit hw r hw',
         built hw -> device_fits (QuantumCircuit.nQubits circuit) hw ->
         LookAheadMapper.map k fuel circuit hw = Some (r, hw') ->
         result_trace_ok (QuantumCircuit.nQubits circuit) r)
  /\ (forall circuit hw ch r hw',
         proper_chromosome ch ->
         GeneticSwapOptimizer.applyChromosome circuit hw ch = Ok (r, hw') ->
         result_trace_ok (QuantumCircuit.nQubits circuit) r).
Proof.
  split; [|split].
  - intros fuel circuit hw r hw' Hb Hf H. unfold GreedyMapper.map in H.
    destruct (GreedyMapper.forEach _ _ _) as [st|] eqn:E; [|discriminate].
    inversion H; subst.
    eapply (greedy_forEach_trace_ok _ _ _ (init _ hw)); [exact Hb|exact Hf| |exact E].
    apply trace_ok_init.
  - intros k fuel circuit hw r hw' Hb Hf H. unfold LookAheadMapper.map in H.
    destruct (LookAheadMapper.forEach _ _ _ _ _ _) as [st|] eqn:E; [|discriminate].
    inversion H; subst.
    eapply (lookahead_forEach_trace_ok _ _ _ _ _ _ (init _ hw));
      [exact Hb|exact Hf| |exact E].
    apply trace_ok_init.
  - intros circuit hw ch r hw' Hp H.
    unfold GeneticSwapOptimizer.applyChromosome in H.
    destruct (GeneticSwapOptimizer.forEach _ _ _) as [[st i]|] eqn:E; [|discriminate].
    inversion H; subst.
    eapply (genetic_forEach_trace_ok _ _ _ (init _ hw)); [exact Hp| |exact E].
    apply trace_ok_init.
Qed.

(** ** A two-qubit gate on one qubit twice: the Greedy loop *)




(** * The Greedy loop stops on a device that fits the circuit *)

Lemma path_loop_length : forall fuel g q2 Qp V r k,
    Forall (fun x : qid * list qid => length (snd x) <= k) Qp ->
    Topology.path_loop fuel g q2 Qp V = Some r ->
    length r <= k + fuel.
Proof.
  induction fuel as [|fuel IH]; intros g q2 Qp V r k Hq Hr; [discriminate|].
  simpl in Hr. destruct Qp as [|[node path] rest].
  - inversion Hr; subst. simpl. lia.
  - inversion Hq as [|x l Hp Hrest]; subst. simpl in Hp.
    destruct (qid_eqb node q2).
    + inversion Hr; subst. lia.
    + destruct (Topology.visited_has V node).
      * apply (IH _ _ _ _ _ k) in Hr; [lia|assumption].
      * apply (IH _ _ _ _ _ (S k)) in Hr; [lia|].
        apply Forall_app. split.
        -- eapply Forall_impl; [|exact Hrest]. simpl. intros; lia.
        -- apply Forall_forall. intros x Hx. apply in_map_iff in Hx.
           destruct Hx as (nb & <- & _). simpl. rewrite length_app. simpl. lia.
Qed.

Lemma getShortestPath_length : forall hw q1 q2,
    length (Topology.getShortestPath hw q1 q2)
    <= 1 + Topology.bfs_fuel (Topology.graph hw).
Proof.
  intros hw q1 q2. unfold Topology.getShortestPath.
  destruct (Topology.path_loop _ _ _ _ _) as [r|] eqn:E; [|simpl; lia].
  eapply path_loop_length; [|exact E]. constructor; [simpl; lia|constructor].
Qed.

Lemma walk_reach : forall g p u d,
    is_walk g (u :: p) -> reach g (length p) u (last (u :: p) d).
Proof.
  intros g p. induction p as [|v p IH]; intros u d Hw.
  - constructor.
  - simpl in Hw. destruct v as [v|]; [|contradiction]. destruct Hw as [Hin Hw].
    change (last (u :: Some v :: p) d) with (last (Some v :: p) d).
    simpl length. econstructor; [exact Hin|]. apply IH. exact Hw.
Qed.

Lemma nth_map_transpose : forall q1 q2 l k,
    q1 <> None -> q2 <> None ->
    nth k (map (transpose q1 q2) l) None = transpose q1 q2 (nth k l None).
Proof.
  intros q1 q2 l k H1 H2.
  replace (@None nat) with (transpose q1 q2 None) at 1.
  - apply map_nth.
  - unfold transpose. destruct q1, q2; try contradiction; reflexivity.
Qed.

(** One round of the Greedy loop shortens the shortest path. *)
Lemma greedy_round_shortens : forall n st c t,
    built (st_hw st) -> device_fits n (st_hw st) -> trace_ok n st ->
    let physC := Layout.at_ (st_layout st) c in
    let physT := Layout.at_ (st_layout st) t in
    let path := Topology.getShortestPath (st_hw st) physC physT in
    Topology.isConnected (st_hw st) physC physT = false ->
    2 <= length path ->
    let st' := insertSwap st (nth 0 path None) (nth 1 path None) in
    trace_ok n st'
    /\ length (Topology.getShortestPath (st_hw st') (Layout.at_ (st_layout st') c)
                                        (Layout.at_ (st_layout st') t))
       < length path.
Proof.
  intros n st c t Hb Hfit Ht physC physT path Hc Hlen st'.
  pose proof (built_symmetric _ Hb) as Hsym.
  pose proof (built_loop_free _ Hb) as Hlf.
  destruct (shortest_path_first_edge _ _ _ Hlen) as (a & b & E0 & E1 & EC & Hin).
  fold physC physT path in E0, E1, EC.
  assert (Hab : Some a <> Some b)
    by (intro E; inversion E; subst; eapply Hlf; exact Hin).
  assert (Ha : In (Some a) (Layout.cells (st_layout st))).
  { apply (layout_ok_In n); [apply Ht|].
    apply neighbor_in_graph in Hin. unfold device_fits in Hfit. lia. }
  assert (Hbn : In (Some b) (Layout.cells (st_layout st))).
  { apply (layout_ok_In n); [apply Ht|].
    apply neighbor_closed in Hin; [|exact Hsym]. unfold device_fits in Hfit. lia. }
  subst st'. rewrite E0, E1.
  split; [now apply trace_ok_insertSwap|].
  destruct (swap_transposes n (st_layout st) (Some a) (Some b) (proj1 Ht) Ha Hbn)
    as [Hcells _].
  destruct (getShortestPath_ok (st_hw st) physC physT) as [E|(Hw & Hhd & Hlast & _)];
    [fold path in E; rewrite E in Hlen; simpl in Hlen; lia|].
  fold path in Hw, Hhd, Hlast. simpl in Hw, Hhd, Hlast.
  destruct path as [|u [|v rest]] eqn:Ep; simpl in Hlen; try lia.
  simpl in E0, E1. subst u v.
  assert (Hrest : rest <> []).
  { intro E. subst rest. simpl in Hlast. rewrite <- Hlast in Hc. rewrite EC in Hc.
    assert (K : Topology.isConnected (st_hw st) (Some a) (Some b) = true)
      by (now apply isConnected_In).
    congruence. }
  assert (HT : physT <> Some a).
  { intro E. assert (K : path = [Some a]).
    { unfold path. rewrite EC, E. apply getShortestPath_self. }
    rewrite Ep in K. discriminate. }
  assert (HT2 : physT <> Some b).
  { intro E. rewrite EC, E in Hc.
    assert (K : Topology.isConnected (st_hw st) (Some a) (Some b) = true)
      by (now apply isConnected_In).
    congruence. }
  simpl st_layout. simpl st_hw. unfold Layout.at_ at 1 2.
  rewrite !get_of_nat, Hcells.
  rewrite !nth_map_transpose by discriminate.
  rewrite <- !get_of_nat. fold (Layout.at_ (st_layout st) c).
  fold (Layout.at_ (st_layout st) t). fold physC physT.
  assert (TC : transpose (Some a) (Some b) physC = Some b).
  { rewrite EC. unfold transpose. now rewrite qid_eqb_refl. }
  assert (TT : transpose (Some a) (Some b) physT = physT).
  { unfold transpose.
    destruct (qid_eqb physT (Some a)) eqn:X1;
      [apply qid_eqb_eq in X1; contradiction|].
    destruct (qid_eqb physT (Some b)) eqn:X2;
      [apply qid_eqb_eq in X2; contradiction|]. reflexivity. }
  rewrite TC, TT.
  assert (Hwalk : is_walk (Topology.graph (st_hw st)) (Some b :: rest))
    by (simpl in Hw; apply Hw).
  assert (El : last (Some b :: rest) physC = physT).
  { rewrite <- Hlast. destruct rest; [contradiction|reflexivity]. }
  assert (Hreach : reach (Topology.graph (st_hw st)) (length rest) (Some b) physT).
  { exact (eq_ind _ (fun w => reach _ _ _ w) (walk_reach _ _ _ physC Hwalk) _ El). }
  pose proof (bfs_distance_correct (Topology.graph (st_hw st)) (Some b) physT) as Hd.
  rewrite bfs_distance_path in Hd.
  destruct (Topology.getShortestPath (st_hw st) (Some b) physT) as [|x p'] eqn:Enew.
  - simpl. lia.
  - simpl in Hd. destruct Hd as (d & Ed & _ & Hmin).
    apply Nat2Z.inj in Ed. specialize (Hmin _ Hreach). simpl in *. lia.
Qed.

Lemma greedy_loop_returns : forall n c t L fuel st,
    built (st_hw st) -> device_fits n (st_hw st) -> trace_ok n st ->
    length (Topology.getShortestPath (st_hw st) (Layout.at_ (st_layout st) c)
                                     (Layout.at_ (st_layout st) t)) <= L ->
    L < fuel ->
    exists st1, GreedyMapper.swap_loop fuel c t st = Some st1.
Proof.
  intros n c t. induction L as [|L IH]; intros fuel st Hb Hfit Ht Hlen Hf;
    (destruct fuel as [|fuel]; [lia|]); simpl.
  - destruct (Topology.isConnected _ _ _); [eexists; reflexivity|].
    destruct (length _ <? 2) eqn:E; [eexists; reflexivity|].
    apply Nat.ltb_ge in E. lia.
  - destruct (Topology.isConnected _ _ _) eqn:Ec; [eexists; reflexivity|].
    destruct (length _ <? 2) eqn:E; [eexists; reflexivity|].
    apply Nat.ltb_ge in E.
    destruct (greedy_round_shortens n st c t Hb Hfit Ht Ec E) as [Ht' Hlt].
    apply IH; try assumption; [|lia]. lia.
Qed.

Lemma greedy_processGate_returns : forall n fuel st g,
    built (st_hw st) -> device_fits n (st_hw st) -> trace_ok n st ->
    1 + Topology.bfs_fuel (Topology.graph (st_hw st)) < fuel ->
    exists st', GreedyMapper.processGate fuel st g = Some st'.
Proof.
  intros n fuel st g Hb Hfit Ht Hf. unfold GreedyMapper.processGate.
  destruct (QuantumCircuit.gqubits g) as [|c [|t [|x l]]];
    try (eexists; reflexivity).
  destruct (greedy_loop_returns n c t _ fuel st Hb Hfit Ht
              (getShortestPath_length _ _ _) Hf) as (st1 & ->).
  eexists. reflexivity.
Qed.

Lemma greedy_forEach_returns : forall n fuel gs st,
    built (st_hw st) -> device_fits n (st_hw st) -> trace_ok n st ->
    1 + Topology.bfs_fuel (Topology.graph (st_hw st)) < fuel ->
    exists st', GreedyMapper.forEach fuel gs st = Some st'.
Proof.
  intros n fuel gs. induction gs as [|g gs IH]; intros st Hb Hfit Ht Hf; simpl.
  - eexists. reflexivity.
  - destruct (greedy_processGate_returns n fuel st g Hb Hfit Ht Hf) as (st1 & E).
    rewrite E.
    destruct (greedy_processGate_trace_ok _ _ _ _ _ Hb Hfit Ht E) as (B & F & T).
    apply IH; try assumption.
    assert (G : Topology.graph (st_hw st1) = Topology.graph (st_hw st)).
    { unfold GreedyMapper.processGate in E.
      destruct (QuantumCircuit.gqubits g) as [|c [|t [|x l]]];
        try (inversion E; subst; reflexivity).
      destruct (GreedyMapper.swap_loop fuel c t st) as [s1|] eqn:El; [|discriminate].
      inversion E; subst. simpl.
      apply greedy_loop_swaps_only, swaps_only_shape in El.
      destruct El as (_ & _ & _ & _ & _ & _ & (_ & _ & G1 & _)).
      destruct (same_device_addPenalty s1 c t) as (_ & _ & G2 & _). congruence. }
    now rewrite G.
Qed.

(** On a device that fits the circuit, [GreedyMapper.map] returns: every
    round of a gate's loop shortens the shortest path between the two
    images, so the loop stops within the length of the first path. *)
Theorem greedy_returns_when_device_fits : forall circuit hw fuel,
    built hw -> device_fits (QuantumCircuit.nQubits circuit) hw ->
    1 + Topology.bfs_fuel (Topology.graph hw) < fuel ->
    exists r hw', GreedyMapper.map fuel circuit hw = Some (r, hw').
Proof.
  intros circuit hw fuel Hb Hfit Hf. unfold GreedyMapper.map.
  destruct (greedy_forEach_returns (QuantumCircuit.nQubits circuit) fuel
              (QuantumCircuit.gates circuit)
              (init (QuantumCircuit.nQubits circuit) hw) Hb Hfit
              (trace_ok_init _ _) Hf) as (st & ->).
  eexists. eexists. reflexivity.
Qed.

(** ** The chromosomes of the genetic search are made of hardware edges *)

Lemma yields_ret : forall A (P : A -> Prop) a,
    P a -> yields P (GeneticSwapOptimizer.ret a).
Proof. intros A P a H rnd e a' e' E. inversion E; now subst. Qed.

Lemma yields_throw : forall A (P : A -> Prop),
    yields P (@GeneticSwapOptimizer.throw A).
Proof. intros A P rnd e a e' E. discriminate. Qed.

Lemma yields_bind : forall A B (P : A -> Prop) (Q : B -> Prop)
                           (m : GeneticSwapOptimizer.G A)
                           (k : A -> GeneticSwapOptimizer.G B),
    yields P m -> (forall a, P a -> yields Q (k a)) ->
    yields Q (GeneticSwapOptimizer.gbind m k).
Proof.
  intros A B P Q m k Hm Hk rnd e b e' E. unfold GeneticSwapOptimizer.gbind in E.
  destruct (m rnd e) as [[a e1]|] eqn:Em; [|discriminate].
  eapply Hk; [eapply Hm; exact Em|exact E].
Qed.

Lemma yields_any : forall A (m : GeneticSwapOptimizer.G A), yields (fun _ => True) m.
Proof. intros A m rnd e a e' E. exact I. Qed.

Lemma validSwaps_proper : forall hw a b,
    In (a, b) (GeneticSwapOptimizer.getValidSwaps hw) -> a <> b.
Proof.
  intros hw a b H. apply in_edges in H. lia.
Qed.

Lemma nth_error_proper : forall hw i,
    proper_gene (nth_error (GeneticSwapOptimizer.getValidSwaps hw) i).
Proof.
  intros hw i. destruct (nth_error _ i) as [[a b]|] eqn:E; simpl; [|exact I].
  apply nth_error_In in E. eapply validSwaps_proper. exact E.
Qed.

Lemma yields_random_genes : forall hw n,
    yields proper_genes
           (GeneticSwapOptimizer.random_genes (GeneticSwapOptimizer.getValidSwaps hw) n).
Proof.
  intros hw n. induction n as [|n IH]; simpl.
  - apply yields_ret. constructor.
  - eapply yields_bind; [apply yields_any|]. intros i _.
    eapply yields_bind; [exact IH|]. intros rest Hrest.
    apply yields_ret. constructor; [apply nth_error_proper|exact Hrest].
Qed.

Lemma yields_random_population : forall cfg hw n,
    yields (Forall proper_genes)
           (GeneticSwapOptimizer.random_population
              cfg (GeneticSwapOptimizer.getValidSwaps hw) n).
Proof.
  intros cfg hw n. induction n as [|n IH]; simpl.
  - apply yields_ret. constructor.
  - eapply yields_bind; [apply yields_any|]. intros l _.
    eapply yields_bind; [apply yields_random_genes|]. intros c Hc.
    eapply yields_bind; [exact IH|]. intros rest Hrest.
    apply yields_ret. now constructor.
Qed.

Lemma yields_initializePopulation : forall cfg,
    yields (Forall proper_genes) (GeneticSwapOptimizer.initializePopulation cfg).
Proof.
  intros cfg rnd e a e' E. unfold GeneticSwapOptimizer.initializePopulation in E.
  eapply yields_random_population. exact E.
Qed.

Lemma yields_evaluate_all : forall circuit p,
    Forall proper_genes p ->
    yields (Forall (fun x => proper_genes (fst x)))
           (GeneticSwapOptimizer.evaluate_all circuit p).
Proof.
  intros circuit p Hp. induction Hp as [|c p Hc Hp IH]; simpl.
  - apply yields_ret. constructor.
  - eapply yields_bind with (P := fun x => proper_genes (fst x)).
    + intros rnd e a e' E. unfold GeneticSwapOptimizer.evaluate_one in E.
      destruct (GeneticSwapOptimizer.chromosomeKey c); [|discriminate].
      destruct (GeneticSwapOptimizer.fitness_get _ _);
        [inversion E; now subst|].
      destruct (GeneticSwapOptimizer.evaluateFitness _ _ _) as [[f h]|];
        [|discriminate].
      inversion E; now subst.
    + intros x Hx. eapply yields_bind; [exact IH|]. intros xs Hxs.
      apply yields_ret. now constructor.
Qed.

Lemma insert_desc_Forall : forall (P : GeneticSwapOptimizer.Evaluated -> Prop) x l,
    P x -> Forall P l -> Forall P (GeneticSwapOptimizer.insert_desc x l).
Proof.
  intros P x l Hx Hl. induction Hl as [|y l Hy Hl IH]; simpl.
  - now constructor.
  - destruct (GeneticSwapOptimizer.fitness_gt _ _); repeat constructor; auto.
Qed.

Lemma sort_desc_Forall : forall (P : GeneticSwapOptimizer.Evaluated -> Prop) l,
    Forall P l -> Forall P (GeneticSwapOptimizer.sort_desc l).
Proof.
  intros P l Hl. induction Hl as [|x l Hx Hl IH]; simpl; [constructor|].
  now apply insert_desc_Forall.
Qed.

Lemma yields_tournament_draw : forall ev n,
    Forall (fun x => proper_genes (fst x)) ev ->
    yields (Forall (fun x => proper_genes (fst x)))
           (GeneticSwapOptimizer.tournament_draw ev n).
Proof.
  intros ev n Hev. induction n as [|n IH]; simpl.
  - apply yields_ret. constructor.
  - eapply yields_bind; [apply yields_any|]. intros i _.
    match goal with
    | |- yields _ (match ?t with _ => _ end) => destruct t as [x|] eqn:E
    end; [|apply yields_throw].
    eapply yields_bind; [exact IH|]. intros rest Hrest.
    apply yields_ret. constructor; [|exact Hrest].
    rewrite Forall_forall in Hev. apply Hev. eapply nth_error_In. exact E.
Qed.

Lemma yields_tournamentSelect : forall cfg ev,
    Forall (fun x => proper_genes (fst x)) ev ->
    yields proper_genes (GeneticSwapOptimizer.tournamentSelect cfg ev).
Proof.
  intros cfg ev Hev. unfold GeneticSwapOptimizer.tournamentSelect.
  eapply yields_bind; [apply yields_tournament_draw; exact Hev|].
  intros t Ht. apply sort_desc_Forall in Ht.
  destruct (GeneticSwapOptimizer.sort_desc t) as [|x l]; [apply yields_throw|].
  apply yields_ret. now inversion Ht.
Qed.

Lemma proper_genes_firstn : forall c i,
    proper_genes c -> proper_genes (firstn i c).
Proof.
  intros c i H. unfold proper_genes in *. rewrite Forall_forall in *.
  intros x Hx. apply H. rewrite <- (firstn_skipn i c). apply in_or_app. now left.
Qed.

Lemma yields_crossover : forall p1 p2,
    proper_genes p1 -> proper_genes p2 ->
    yields proper_genes (GeneticSwapOptimizer.crossover p1 p2).
Proof.
  intros p1 p2 H1 H2. unfold GeneticSwapOptimizer.crossover.
  destruct (_ || _).
  - apply yields_ret. destruct (0 <? length p1); assumption.
  - eapply yields_bind; [apply yields_any|]. intros point _.
    apply yields_ret. apply Forall_app. split.
    + now apply proper_genes_firstn.
    + now apply proper_genes_skipn.
Qed.

Lemma replace_at_Forall : forall (P : GeneticSwapOptimizer.Gene -> Prop) l i v,
    Forall P l -> P v -> Forall P (GeneticSwapOptimizer.replace_at l i v).
Proof.
  intros P l. induction l as [|y l IH]; intros [|i] v Hl Hv; simpl;
    try constructor; inversion Hl; subst; auto.
Qed.

Lemma remove_at_Forall : forall (P : GeneticSwapOptimizer.Gene -> Prop) l i,
    Forall P l -> Forall P (GeneticSwapOptimizer.remove_at l i).
Proof.
  intros P l. induction l as [|y l IH]; intros [|i] Hl; simpl;
    try constructor; inversion Hl; subst; auto.
Qed.

Lemma yields_mutate : forall cfg c,
    proper_genes c -> yields proper_genes (GeneticSwapOptimizer.mutate cfg c).
Proof.
  intros cfg c Hc rnd e a e' E. unfold GeneticSwapOptimizer.mutate in E.
  revert E.
  match goal with
  | |- ?m rnd e = _ -> _ => assert (K : yields proper_genes m)
  end.
  { eapply yields_bind; [apply yields_any|]. intros mt _.
    destruct (_ && _).
    - eapply yields_bind; [apply yields_any|]. intros idx _.
      eapply yields_bind; [apply yields_any|]. intros i _.
      apply yields_ret. apply replace_at_Forall; [exact Hc|apply nth_error_proper].
    - destruct (_ && _).
      + eapply yields_bind; [apply yields_any|]. intros i _.
        apply yields_ret. apply Forall_app. split; [exact Hc|].
        constructor; [apply nth_error_proper|constructor].
      + destruct (1 <? _).
        * eapply yields_bind; [apply yields_any|]. intros idx _.
          apply yields_ret. now apply remove_at_Forall.
        * now apply yields_ret. }
  intro E. eapply K. exact E.
Qed.

Lemma yields_breed : forall cfg ev rate n pop,
    Forall (fun x => proper_genes (fst x)) ev ->
    Forall proper_genes pop ->
    yields (Forall proper_genes) (GeneticSwapOptimizer.breed cfg ev rate n pop).
Proof.
  intros cfg ev rate n. induction n as [|n IH]; intros pop Hev Hpop; simpl.
  - now apply yields_ret.
  - eapply yields_bind; [apply yields_tournamentSelect; exact Hev|]. intros p1 H1.
    eapply yields_bind; [apply yields_tournamentSelect; exact Hev|]. intros p2 H2.
    eapply yields_bind; [now apply yields_crossover|]. intros child Hch.
    eapply yields_bind; [apply yields_any|]. intros r _.
    eapply yields_bind with (P := proper_genes).
    + destruct (negb _); [now apply yields_mutate|now apply yields_ret].
    + intros child' Hc'. apply IH; [exact Hev|].
      apply Forall_app. split; [exact Hpop|]. now repeat constructor.
Qed.

Lemma slice0_Forall : forall A (P : A -> Prop) l e,
    Forall P l -> Forall P (GeneticSwapOptimizer.slice0 l e).
Proof.
  intros A P l e H. unfold GeneticSwapOptimizer.slice0.
  destruct (e <? 0)%Z; rewrite Forall_forall in *; intros x Hx; apply H.
  - rewrite <- (firstn_skipn (Z.to_nat (Z.of_nat (length l) + e)) l).
    apply in_or_app. now left.
  - rewrite <- (firstn_skipn (Z.to_nat e) l). apply in_or_app. now left.
Qed.

Lemma yields_evolve : forall circuit cfg gens pop best bf pc rate,
    Forall proper_genes pop -> proper_chromosome best ->
    yields proper_chromosome
           (GeneticSwapOptimizer.evolve circuit cfg gens pop best bf pc rate).
Proof.
  intros circuit cfg gens. induction gens as [|gens IH];
    intros pop best bf pc rate Hpop Hbest; simpl.
  - now apply yields_ret.
  - eapply yields_bind; [apply yields_evaluate_all; exact Hpop|]. intros ev0 Hev0.
    apply sort_desc_Forall in Hev0.
    destruct (GeneticSwapOptimizer.sort_desc ev0) as [|top l] eqn:Es;
      [apply yields_throw|].
    assert (Htop : proper_genes (fst top)) by (now inversion Hev0).
    destruct (GeneticSwapOptimizer.fitness_gt (snd top) bf).
    + destruct (_ <=? _); [now apply yields_ret|].
      eapply yields_bind.
      * apply yields_breed; [exact Hev0|].
        apply Forall_map. apply slice0_Forall. exact Hev0.
      * intros pop' Hpop'. now apply IH.
    + destruct (_ <=? _); [now apply yields_ret|].
      eapply yields_bind.
      * apply yields_breed; [exact Hev0|].
        apply Forall_map. apply slice0_Forall. exact Hev0.
      * intros pop' Hpop'. now apply IH.
Qed.

(** [map] replays a chromosome of proper hardware edges, or [null]. *)
Lemma genetic_map_replays_proper : forall circuit hw o rnd r hw',
    GeneticSwapOptimizer.map circuit hw o rnd = Ok (r, hw') ->
    exists hw1 best,
      proper_chromosome best
      /\ GeneticSwapOptimizer.applyChromosome circuit hw1 best = Ok (r, hw').
Proof.
  intros circuit hw o rnd r hw' H. unfold GeneticSwapOptimizer.map in H.
  match type of H with
  | match ?m rnd ?e with _ => _ end = _ =>
      assert (K : yields proper_chromosome m);
        [|destruct (m rnd e) as [[best e1]|] eqn:E; [|discriminate];
          apply K in E]
  end.
  - eapply yields_bind; [apply yields_initializePopulation|].
    intros pop Hpop. apply yields_evolve; [exact Hpop|exact I].
  - exists (GeneticSwapOptimizer.ehw e1), best. auto.
Qed.

(** The result of the genetic search, for every circuit, device, options and
    random numbers: the final layout is a permutation of [0 .. n-1] and the
    snapshots change exactly by the recorded transpositions. *)
Theorem genetic_map_layout_trace : forall circuit hw o rnd r hw',
    GeneticSwapOptimizer.map circuit hw o rnd = Ok (r, hw') ->
    result_trace_ok (QuantumCircuit.nQubits circuit) r.
Proof.
  intros circuit hw o rnd r hw' H.
  destruct (genetic_map_replays_proper _ _ _ _ _ _ H) as (hw1 & best & Hp & E).
  eapply (proj2 (proj2 layout_trace_when_device_fits)); eassumption.
Qed.

(** * When the genetic search returns *)

Lemma randomIndex_below : forall (r : Q) k,
    (0 <= r)%Q -> (r < 1)%Q -> 0 < k ->
    Z.to_nat (Qfloor (r * inject_Z (Z.of_nat k))) < k.
Proof.
  intros r k H0 H1 Hk.
  assert (Hk' : (0 < inject_Z (Z.of_nat k))%Q).
  { change 0%Q with (inject_Z 0). rewrite <- Zlt_Qlt. lia. }
  assert (Hlt : (r * inject_Z (Z.of_nat k) < inject_Z (Z.of_nat k))%Q).
  { rewrite <- (Qmult_1_l (inject_Z (Z.of_nat k))) at 2.
    apply Qmult_lt_compat_r; assumption. }
  assert (Hge : (0 <= r * inject_Z (Z.of_nat k))%Q).
  { apply Qmult_le_0_compat; [assumption|]. now apply Qlt_le_weak. }
  assert (F1 : (Qfloor (r * inject_Z (Z.of_nat k)) < Z.of_nat k)%Z).
  { rewrite Zlt_Qlt. eapply Qle_lt_trans; [apply Qfloor_le|exact Hlt]. }
  assert (F0 : (0 <= Qfloor (r * inject_Z (Z.of_nat k)))%Z).
  { change 0%Z with (Qfloor 0). now apply Qfloor_resp_le. }
  lia.
Qed.

(** ** A replay of defined genes returns, with a finite penalty *)

Lemma genetic_loop_returns : forall rest c t st i,
    defined_genes rest ->
    exists st1 i1, GeneticSwapOptimizer.swap_loop rest c t st i = Ok (st1, i1).
Proof.
  induction rest as [|g rest IH]; intros c t st i Hd; simpl.
  - destruct (Topology.isConnected _ _ _); eexists; eexists; reflexivity.
  - destruct (Topology.isConnected _ _ _); [eexists; eexists; reflexivity|].
    inversion Hd as [|x l Hg Hrest]; subst.
    destruct g as [[q1 q2]|]; [|contradiction]. apply IH. exact Hrest.
Qed.

Lemma defined_genes_skipn : forall ch i, defined_genes ch -> defined_genes (skipn i ch).
Proof.
  intros ch i H. unfold defined_genes in *. rewrite Forall_forall in *.
  intros x Hx. apply H. rewrite <- (firstn_skipn i ch). apply in_or_app. now right.
Qed.

Section Replay.

Variable circuit : QuantumCircuit.t.
Variable g : Topology.Graph.
Local Abbreviation n := (QuantumCircuit.nQubits circuit).
Hypothesis Hconn : connected_below n g.

Lemma replay_gate : forall ch st i gate,
    defined_genes ch ->
    Forall (fun q => q < n) (QuantumCircuit.gqubits gate) ->
    replay_ok n g st ->
    exists st' i',
      GeneticSwapOptimizer.processGate (Some ch) (st, i) gate = Ok (st', i')
      /\ replay_ok n g st'.
Proof.
  intros ch st i gate Hd Hq (Hl & Hb & Hg & z & Hz).
  unfold GeneticSwapOptimizer.processGate.
  destruct (QuantumCircuit.gqubits gate) as [|c [|t [|x l]]] eqn:Eq;
    try (eexists; eexists; split; [reflexivity|];
         unfold replay_ok; simpl; eauto 6).
  simpl.
  destruct (genetic_loop_returns (skipn i ch) c t st i (defined_genes_skipn _ _ Hd))
    as (st1 & i1 & E).
  rewrite E. eexists. eexists. split; [reflexivity|].
  pose proof (genetic_loop_swaps_only _ _ _ _ _ _ _ E) as Hso.
  pose proof (swaps_only_built _ _ Hso Hb) as Hb1.
  pose proof (swaps_only_shape _ _ Hso) as (_ & _ & _ & _ & _ & Ep & (_ & _ & G1 & _)).
  pose proof (genetic_loop_layout_ok _ _ _ _ _ _ _ _ Hl E) as Hl1.
  pose proof (Forall_inv Hq) as Hc.
  pose proof (Forall_inv (Forall_inv_tail Hq)) as Ht.
  destruct (layout_ok_at _ _ c Hl1 Hc) as (a & Ea & Ha).
  destruct (layout_ok_at _ _ t Hl1 Ht) as (b & Eb & Hbn).
  unfold replay_ok. simpl.
  destruct (addPenalty_frame st1 c t) as (_ & -> & _).
  split; [exact Hl1|]. split; [now apply built_addPenalty|].
  split.
  - destruct (same_device_addPenalty st1 c t) as (_ & _ & G2 & _). congruence.
  - unfold addPenalty. rewrite Ea, Eb.
    destruct (Topology.distance (st_hw st1) (Some a) (Some b)) as [d h] eqn:Ed.
    simpl. rewrite Ep, Hz.
    assert (Hd' : d = Topology.bfs_distance (Topology.graph (st_hw st1))
                                            (Some a) (Some b)).
    { change d with (fst (d, h)). rewrite <- Ed.
      apply distance_value; [now apply built_symmetric|apply Hb1]. }
    pose proof (bfs_distance_correct (Topology.graph (st_hw st1)) (Some a) (Some b))
      as Hdist.
    rewrite <- Hd' in Hdist. destruct d as [zd|].
    + simpl. eexists. reflexivity.
    + exfalso. simpl in Hdist. destruct (Hconn a b Ha Hbn) as (k & Hk).
      apply (Hdist k). rewrite G1, Hg. exact Hk.
Qed.

Lemma replay_forEach : forall ch gs st i,
    defined_genes ch ->
    Forall (fun gate => Forall (fun q => q < n) (QuantumCircuit.gqubits gate)) gs ->
    replay_ok n g st ->
    exists st' i',
      GeneticSwapOptimizer.forEach (Some ch) gs (st, i) = Ok (st', i')
      /\ replay_ok n g st'.
Proof.
  intros ch gs. induction gs as [|gate gs IH]; intros st i Hd Hq Hok; simpl.
  - eexists. eexists. split; [reflexivity|exact Hok].
  - destruct (replay_gate ch st i gate Hd (Forall_inv Hq) Hok)
      as (st1 & i1 & E & Hok1).
    rewrite E. apply IH; [exact Hd|exact (Forall_inv_tail Hq)|exact Hok1].
Qed.

Lemma replay_returns : forall hw ch,
    operands_in_range circuit ->
    built hw -> Topology.graph hw = g -> defined_genes ch ->
    exists r hw',
      GeneticSwapOptimizer.applyChromosome circuit hw (Some ch) = Ok (r, hw')
      /\ finite_fitness (GeneticSwapOptimizer.fitness_of r)
      /\ built hw' /\ Topology.graph hw' = g.
Proof.
  intros hw ch Hops Hb Hg Hd. unfold GeneticSwapOptimizer.applyChromosome.
  destruct (replay_forEach ch (QuantumCircuit.gates circuit)
              (init n hw) 0 Hd Hops) as (st & i & E & Hok).
  { unfold replay_ok. simpl. split; [apply layout_ok_identity|].
    split; [exact Hb|]. split; [exact Hg|]. now exists 0%Z. }
  rewrite E. eexists. eexists. split; [reflexivity|].
  destruct Hok as (_ & Hb' & Hg' & z & Hz).
  split; [|split; assumption].
  unfold GeneticSwapOptimizer.fitness_of, result_of. simpl. rewrite Hz.
  eexists. reflexivity.
Qed.

End Replay.

(** ** The evolution returns a chromosome *)

Section Evolution.

Variable circuit : QuantumCircuit.t.
Variable g : Topology.Graph.
Variable rnd : nat -> Q.
Hypothesis Hconn : connected_below (QuantumCircuit.nQubits circuit) g.
Hypothesis Hops : operands_in_range circuit.
Hypothesis Hrnd : unit_interval rnd.
Hypothesis Hedges : LookAheadMapper.edges g <> [].

Lemma returns_ret : forall A (P : A -> Prop) a,
    P a -> returns g rnd P (GeneticSwapOptimizer.ret a).
Proof. intros A P a H e He. exists a, e. auto. Qed.

Lemma returns_bind : forall A B (P : A -> Prop) (Q : B -> Prop)
                            (m : GeneticSwapOptimizer.G A)
                            (k : A -> GeneticSwapOptimizer.G B),
    returns g rnd P m -> (forall a, P a -> returns g rnd Q (k a)) ->
    returns g rnd Q (GeneticSwapOptimizer.gbind m k).
Proof.
  intros A B P Q m k Hm Hk e He.
  destruct (Hm e He) as (a & e1 & E & Ha & He1).
  destruct (Hk a Ha e1 He1) as (b & e2 & E2 & Hb & He2).
  exists b, e2. unfold GeneticSwapOptimizer.gbind. rewrite E. auto.
Qed.

Lemma returns_weaken : forall A (P Q : A -> Prop) (m : GeneticSwapOptimizer.G A),
    (forall a, P a -> Q a) -> returns g rnd P m -> returns g rnd Q m.
Proof.
  intros A P Q m H Hm e He. destruct (Hm e He) as (a & e' & E & Ha & He').
  exists a, e'. auto.
Qed.

Lemma returns_random :
  returns g rnd (fun r => (0 <= r)%Q /\ (r < 1)%Q) GeneticSwapOptimizer.random.
Proof.
  intros e He. eexists. eexists. split; [reflexivity|].
  split; [apply Hrnd|]. exact He.
Qed.

Lemma returns_randomIndex : forall k,
    returns g rnd (fun i => 0 < k -> i < k) (GeneticSwapOptimizer.randomIndex k).
Proof.
  intro k. unfold GeneticSwapOptimizer.randomIndex.
  eapply returns_bind; [apply returns_random|]. intros r [H0 H1].
  apply returns_ret. intro Hk. now apply randomIndex_below.
Qed.

Lemma edge_gene_defined : forall i,
    (0 < length (LookAheadMapper.edges g) -> i < length (LookAheadMapper.edges g)) ->
    nth_error (LookAheadMapper.edges g) i <> None.
Proof.
  intros i H. apply nth_error_Some. apply H.
  destruct (LookAheadMapper.edges g); [contradiction|simpl; lia].
Qed.

Lemma returns_random_genes : forall k,
    returns g rnd defined_genes
            (GeneticSwapOptimizer.random_genes (LookAheadMapper.edges g) k).
Proof.
  induction k as [|k IH]; simpl.
  - apply returns_ret. constructor.
  - eapply returns_bind; [apply returns_randomIndex|]. intros i Hi.
    eapply returns_bind; [exact IH|]. intros rest Hrest.
    apply returns_ret. constructor; [now apply edge_gene_defined|exact Hrest].
Qed.

Lemma returns_random_population : forall cfg k,
    returns g rnd (fun p => Forall defined_genes p /\ length p = k)
            (GeneticSwapOptimizer.random_population cfg (LookAheadMapper.edges g) k).
Proof.
  intros cfg k. induction k as [|k IH]; simpl.
  - apply returns_ret. split; [constructor|reflexivity].
  - eapply returns_bind; [apply returns_randomIndex|]. intros l _.
    eapply returns_bind; [apply returns_random_genes|]. intros c Hc.
    eapply returns_bind; [exact IH|]. intros rest [Hrest Hlen].
    apply returns_ret. split; [now constructor|simpl; now rewrite Hlen].
Qed.

Lemma returns_initializePopulation : forall cfg,
    returns g rnd
            (fun p => Forall defined_genes p
                      /\ length p = GeneticSwapOptimizer.populationSize cfg)
            (GeneticSwapOptimizer.initializePopulation cfg).
Proof.
  intros cfg e He. unfold GeneticSwapOptimizer.initializePopulation.
  unfold GeneticSwapOptimizer.getValidSwaps.
  pose proof He as (_ & Hg & _). rewrite Hg.
  apply returns_random_population. exact He.
Qed.

Lemma chromosomeKey_defined : forall c,
    defined_genes c -> exists k, GeneticSwapOptimizer.chromosomeKey c = Ok k.
Proof.
  intros c H. induction H as [|x c Hx Hc IH]; simpl; [now eexists|].
  destruct x as [e|]; [|contradiction]. destruct IH as (k & ->). now eexists.
Qed.

Lemma fitness_get_In : forall k m f,
    GeneticSwapOptimizer.fitness_get k m = Some f -> exists k', In (k', f) m.
Proof.
  intros k m f. induction m as [|[k' v] m IH]; simpl; [discriminate|].
  destruct (GeneticSwapOptimizer.key_eqb k k').
  - intro E. inversion E; subst. exists k'. now left.
  - intro E. destruct (IH E) as (k0 & H). exists k0. now right.
Qed.

Lemma returns_evaluate_one : forall c,
    defined_genes c ->
    returns g rnd evaluated_ok (GeneticSwapOptimizer.evaluate_one circuit c).
Proof.
  intros c Hc e (Hb & Hg & Hcache). unfold GeneticSwapOptimizer.evaluate_one.
  destruct (chromosomeKey_defined c Hc) as (k & ->).
  destruct (GeneticSwapOptimizer.fitness_get k _) as [f|] eqn:Ef.
  - eexists. eexists. split; [reflexivity|]. split.
    + split; [exact Hc|]. simpl.
      destruct (fitness_get_In _ _ _ Ef) as (k' & Hin).
      rewrite Forall_forall in Hcache. exact (Hcache _ Hin).
    + unfold env_ok. auto.
  - unfold GeneticSwapOptimizer.evaluateFitness.
    destruct (replay_returns circuit g Hconn _ c Hops Hb Hg Hc)
      as (r & hw' & E & Hf & Hb' & Hg').
    rewrite E. eexists. eexists. split; [reflexivity|]. split.
    + split; [exact Hc|exact Hf].
    + unfold env_ok. simpl. split; [exact Hb'|]. split; [exact Hg'|].
      constructor; [exact Hf|exact Hcache].
Qed.

Lemma returns_evaluate_all : forall p,
    Forall defined_genes p ->
    returns g rnd (fun ev => Forall evaluated_ok ev /\ length ev = length p)
            (GeneticSwapOptimizer.evaluate_all circuit p).
Proof.
  intros p Hp. induction Hp as [|c p Hc Hp IH]; simpl.
  - apply returns_ret. split; [constructor|reflexivity].
  - eapply returns_bind; [apply returns_evaluate_one; exact Hc|]. intros x Hx.
    eapply returns_bind; [exact IH|]. intros xs [Hxs Hlen].
    apply returns_ret. split; [now constructor|simpl; now rewrite Hlen].
Qed.

Lemma insert_desc_length : forall x l,
    length (GeneticSwapOptimizer.insert_desc x l) = S (length l).
Proof.
  intros x l. induction l as [|y l IH]; simpl; [reflexivity|].
  destruct (GeneticSwapOptimizer.fitness_gt _ _); simpl; now rewrite ?IH.
Qed.

Lemma sort_desc_length : forall l,
    length (GeneticSwapOptimizer.sort_desc l) = length l.
Proof.
  induction l as [|x l IH]; simpl; [reflexivity|].
  now rewrite insert_desc_length, IH.
Qed.

Lemma returns_tournament_draw : forall ev k,
    Forall evaluated_ok ev -> ev <> [] ->
    returns g rnd (fun t => Forall evaluated_ok t /\ length t = k)
            (GeneticSwapOptimizer.tournament_draw ev k).
Proof.
  intros ev k Hev Hne. induction k as [|k IH]; simpl.
  - apply returns_ret. split; [constructor|reflexivity].
  - eapply returns_bind; [apply returns_randomIndex|]. intros i Hi.
    assert (Hlt : i < length ev).
    { apply Hi. destruct ev; [contradiction|simpl; lia]. }
    match goal with
    | |- returns _ _ _ (match ?t with _ => _ end) => destruct t as [x|] eqn:E
    end; [|apply nth_error_None in E; lia].
    eapply returns_bind; [exact IH|]. intros rest [Hrest Hlen].
    apply returns_ret. split; [|simpl; now rewrite Hlen].
    constructor; [|exact Hrest].
    rewrite Forall_forall in Hev. apply Hev. eapply nth_error_In. exact E.
Qed.

Lemma returns_tournamentSelect : forall cfg ev,
    0 < GeneticSwapOptimizer.tournamentSize cfg ->
    Forall evaluated_ok ev -> ev <> [] ->
    returns g rnd defined_genes (GeneticSwapOptimizer.tournamentSelect cfg ev).
Proof.
  intros cfg ev Hts Hev Hne. unfold GeneticSwapOptimizer.tournamentSelect.
  eapply returns_bind; [apply returns_tournament_draw; eassumption|].
  intros t [Ht Hlen].
  pose proof (sort_desc_length t) as Hsl.
  apply (sort_desc_Forall evaluated_ok) in Ht.
  destruct (GeneticSwapOptimizer.sort_desc t) as [|x l]; [simpl in Hsl; lia|].
  apply returns_ret. inversion Ht as [|? ? Hx _]; subst. apply Hx.
Qed.

Lemma defined_genes_firstn : forall c i,
    defined_genes c -> defined_genes (firstn i c).
Proof.
  intros c i H. unfold defined_genes in *. rewrite Forall_forall in *.
  intros x Hx. apply H. rewrite <- (firstn_skipn i c). apply in_or_app. now left.
Qed.

Lemma returns_crossover : forall p1 p2,
    defined_genes p1 -> defined_genes p2 ->
    returns g rnd defined_genes (GeneticSwapOptimizer.crossover p1 p2).
Proof.
  intros p1 p2 H1 H2. unfold GeneticSwapOptimizer.crossover.
  destruct (_ || _).
  - apply returns_ret. destruct (0 <? length p1); assumption.
  - eapply returns_bind; [apply returns_randomIndex|]. intros point _.
    apply returns_ret. apply Forall_app. split.
    + now apply defined_genes_firstn.
    + now apply defined_genes_skipn.
Qed.

Lemma returns_mutate : forall cfg c,
    defined_genes c ->
    returns g rnd defined_genes (GeneticSwapOptimizer.mutate cfg c).
Proof.
  intros cfg c Hc e He. unfold GeneticSwapOptimizer.mutate.
  unfold GeneticSwapOptimizer.getValidSwaps.
  pose proof He as (_ & Hg & _). cbv beta zeta. rewrite Hg.
  match goal with
  | |- exists a e', ?m rnd e = _ /\ _ =>
      cut (returns g rnd defined_genes m); [intro H; exact (H e He)|]
  end.
  clear e He Hg.
  eapply returns_bind; [apply returns_random|]. intros mt _.
  destruct (_ && _).
  - eapply returns_bind; [apply returns_randomIndex|]. intros idx _.
    eapply returns_bind; [apply returns_randomIndex|]. intros i Hi.
    apply returns_ret. apply replace_at_Forall; [exact Hc|].
    now apply edge_gene_defined.
  - destruct (_ && _).
    + eapply returns_bind; [apply returns_randomIndex|]. intros i Hi.
      apply returns_ret. apply Forall_app. split; [exact Hc|].
      constructor; [now apply edge_gene_defined|constructor].
    + destruct (1 <? _).
      * eapply returns_bind; [apply returns_randomIndex|]. intros idx _.
        apply returns_ret. now apply remove_at_Forall.
      * now apply returns_ret.
Qed.

Lemma returns_breed : forall cfg ev rate k pop,
    0 < GeneticSwapOptimizer.tournamentSize cfg ->
    Forall evaluated_ok ev -> ev <> [] ->
    Forall defined_genes pop ->
    returns g rnd (fun p => Forall defined_genes p /\ length p = length pop + k)
            (GeneticSwapOptimizer.breed cfg ev rate k pop).
Proof.
  intros cfg ev rate k. induction k as [|k IH]; intros pop Hts Hev Hne Hpop; simpl.
  - apply returns_ret. split; [exact Hpop|lia].
  - eapply returns_bind; [now apply returns_tournamentSelect|]. intros p1 H1.
    eapply returns_bind; [now apply returns_tournamentSelect|]. intros p2 H2.
    eapply returns_bind; [now apply returns_crossover|]. intros child Hch.
    eapply returns_bind; [apply returns_random|]. intros r _.
    eapply returns_bind with (P := defined_genes).
    + destruct (negb _); [now apply returns_mutate|now apply returns_ret].
    + intros child' Hc'.
      eapply returns_weaken; [|apply IH; try assumption].
      * intros p [Hp Hlen]. split; [exact Hp|].
        rewrite Hlen, length_app. simpl. lia.
      * apply Forall_app. split; [exact Hpop|]. now repeat constructor.
Qed.

Lemma returns_evolve : forall cfg gens pop best bf pc rate,
    0 < GeneticSwapOptimizer.tournamentSize cfg ->
    0 < GeneticSwapOptimizer.populationSize cfg ->
    Forall defined_genes pop ->
    GeneticSwapOptimizer.populationSize cfg <= length pop ->
    best_ok best bf ->
    returns g rnd
            (fun b => match b with
                      | Some c => defined_genes c
                      | None => gens = 0 /\ best = None
                      end)
            (GeneticSwapOptimizer.evolve circuit cfg gens pop best bf pc rate).
Proof.
  intros cfg gens. induction gens as [|gens IH];
    intros pop best bf pc rate Hts Hps Hpop Hlen Hbest; simpl.
  - apply returns_ret. destruct best; auto.
  - eapply returns_bind; [apply returns_evaluate_all; exact Hpop|].
    intros ev0 [Hev0 Hl0].
    pose proof (sort_desc_length ev0) as Hsl.
    apply (sort_desc_Forall evaluated_ok) in Hev0.
    destruct (GeneticSwapOptimizer.sort_desc ev0) as [|top l] eqn:Es;
      [simpl in Hsl; lia|].
    assert (Htop : evaluated_ok top) by (now inversion Hev0).
    destruct Htop as [Htd (z & Htf)].
    assert (Hnext : forall best' bf' pc',
               best' <> None -> best_ok best' bf' ->
               returns g rnd
                 (fun b => match b with
                           | Some c => defined_genes c
                           | None => S gens = 0 /\ best = None
                           end)
                 (if GeneticSwapOptimizer.plateauThreshold cfg <=? pc'
                  then GeneticSwapOptimizer.ret best'
                  else
                    GeneticSwapOptimizer.gbind
                      (GeneticSwapOptimizer.breed cfg (top :: l) rate
                         (GeneticSwapOptimizer.populationSize cfg
                          - length (map fst
                                      (GeneticSwapOptimizer.slice0 (top :: l)
                                         (Qfloor
                                            (inject_Z
                                               (Z.of_nat
                                                  (GeneticSwapOptimizer.populationSize cfg))
                                             * GeneticSwapOptimizer.eliteRatio cfg)))))
                         (map fst
                              (GeneticSwapOptimizer.slice0 (top :: l)
                                 (Qfloor
                                    (inject_Z
                                       (Z.of_nat
                                          (GeneticSwapOptimizer.populationSize cfg))
                                     * GeneticSwapOptimizer.eliteRatio cfg)))))
                      (fun population' =>
                         GeneticSwapOptimizer.evolve circuit cfg gens population'
                           best' bf' pc'
                           (GeneticSwapOptimizer.qmax
                              (GeneticSwapOptimizer.minMutationRate cfg)
                              (rate * (95 # 100)))))).
    { intros best' bf' pc' Hsome Hb'.
      destruct (_ <=? _).
      - apply returns_ret. destruct best' as [c|]; [exact Hb'|contradiction].
      - eapply returns_bind.
        + apply returns_breed; [exact Hts|exact Hev0|discriminate|].
          apply Forall_map. apply slice0_Forall.
          eapply Forall_impl; [|exact Hev0]. intros x [Hx _]. exact Hx.
        + intros pop' [Hp' Hlen'].
          eapply returns_weaken; [|apply IH; try assumption; [lia]].
          intros [c|] Hc; [exact Hc|].
          destruct Hc as [_ Hc]. contradiction. }
    destruct (GeneticSwapOptimizer.fitness_gt (snd top) bf) eqn:Egt.
    + apply Hnext; [discriminate|exact Htd].
    + destruct best as [c|].
      * apply Hnext; [discriminate|exact Hbest].
      * simpl in Hbest. subst bf. rewrite Htf in Egt. discriminate.
Qed.

End Evolution.

Lemma genetic_map_total : forall circuit hw o rnd,
    built hw ->
    LookAheadMapper.edges (Topology.graph hw) <> [] ->
    operands_in_range circuit ->
    connected_below (QuantumCircuit.nQubits circuit) (Topology.graph hw) ->
    unit_interval rnd ->
    exists r hw', GeneticSwapOptimizer.map circuit hw o rnd = Ok (r, hw').
Proof.
  intros circuit hw o rnd Hb Hedges Hops Hconn Hrnd.
  set (g := Topology.graph hw) in *.
  set (cfg := GeneticSwapOptimizer.makeConfig o).
  assert (Hps : 0 < GeneticSwapOptimizer.populationSize cfg)
    by (apply or_default_pos; lia).
  assert (Hts : 0 < GeneticSwapOptimizer.tournamentSize cfg)
    by (apply or_default_pos; lia).
  assert (Hgen : 0 < GeneticSwapOptimizer.generations cfg)
    by (apply or_default_pos; lia).
  assert (Hrun : returns g rnd
                   (fun b => exists c, b = Some c /\ defined_genes c)
                   (GeneticSwapOptimizer.gbind
                      (GeneticSwapOptimizer.initializePopulation cfg)
                      (fun population =>
                         GeneticSwapOptimizer.evolve circuit cfg
                           (GeneticSwapOptimizer.generations cfg) population
                           None GeneticSwapOptimizer.FNegInf 0
                           (GeneticSwapOptimizer.initialMutationRate cfg)))).
  { eapply returns_bind.
    - apply returns_initializePopulation; assumption.
    - intros pop [Hpop Hlen].
      eapply returns_weaken;
        [|apply (returns_evolve circuit g rnd Hconn Hops Hrnd Hedges);
          try assumption; [lia|reflexivity]].
      intros [c|] Hc; [now exists c|]. destruct Hc as [Hc _]. lia. }
  assert (He0 : env_ok g (GeneticSwapOptimizer.mkEnv 0 [] hw)).
  { split; [exact Hb|]. split; [reflexivity|constructor]. }
  destruct (Hrun _ He0) as (b & e & E & (c & -> & Hc) & (Hb' & Hg' & _)).
  unfold GeneticSwapOptimizer.map. fold cfg. rewrite E.
  destruct (replay_returns circuit g Hconn _ c Hops Hb' Hg' Hc)
    as (r & hw' & E' & _). eauto.
Qed.



(** * Runs that do not end well *)

(** ** A look-ahead loop that never stops *)

Lemma distance_self_built : forall hw p,
    built hw ->
    exists hw', Topology.distance hw (Some p) (Some p) = (Fin 0, hw')
                /\ same_device hw hw'.
Proof.
  intros hw p Hb.
  destruct (Topology.distance hw (Some p) (Some p)) as [d hw'] eqn:E.
  exists hw'. split.
  - f_equal. change d with (fst (d, hw')). rewrite <- E.
    rewrite distance_value by (auto using built_symmetric; apply Hb).
    apply bfs_distance_self.
  - change hw' with (snd (d, hw')). rewrite <- E. apply same_device_distance.
Qed.

Lemma lookahead_cx00_best : forall hw l,
    built hw -> Topology.graph hw = [[1]; [0]] ->
    l = layout01 \/ l = layout10 ->
    exists hw',
      LookAheadMapper.findBestSwap cx00 3 hw l 0 = (Some (0, 1), hw')
      /\ same_device hw hw'.
Proof.
  intros hw l Hb Hg Hl. unfold LookAheadMapper.findBestSwap.
  rewrite Hg. cbn [LookAheadMapper.edges length seq flat_map nth filter List.map
                     Nat.ltb Nat.leb app fold_left].
  unfold LookAheadMapper.try_edge.
  destruct Hl as [-> | ->]; simpl;
    match goal with
    | |- context [Topology.distance hw ?a ?b] =>
        let a' := eval vm_compute in a in
        let b' := eval vm_compute in b in
        change (Topology.distance hw a b) with (Topology.distance hw a' b')
    end.
  - destruct (distance_self_built hw 1 Hb) as (hw' & E & D). rewrite E. simpl.
    exists hw'. auto.
  - destruct (distance_self_built hw 0 Hb) as (hw' & E & D). rewrite E. simpl.
    exists hw'. auto.
Qed.

Lemma lookahead_cx00_diverges : forall fuel st,
    built (st_hw st) -> Topology.graph (st_hw st) = [[1]; [0]] ->
    st_layout st = layout01 \/ st_layout st = layout10 ->
    LookAheadMapper.swap_loop cx00 3 fuel 0 0 0 st = None.
Proof.
  induction fuel as [|fuel IH]; intros st Hb Hg Hl; [reflexivity|].
  cbn [LookAheadMapper.swap_loop].
  assert (Hc : Topology.isConnected (st_hw st) (Layout.at_ (st_layout st) 0)
                                    (Layout.at_ (st_layout st) 0) = false).
  { unfold Topology.isConnected. rewrite Hg.
    destruct Hl as [-> | ->]; reflexivity. }
  rewrite Hc.
  destruct (lookahead_cx00_best (st_hw st) (st_layout st) Hb Hg Hl)
    as (hw' & E & D).
  rewrite E. apply IH.
  - simpl. now apply D.
  - simpl. destruct D as (_ & _ & G & _). now rewrite G.
  - simpl. destruct Hl as [-> | ->]; [right|left]; reflexivity.
Qed.

Lemma greedy_lost_qubit_diverges : forall fuel st,
    Topology.graph (st_hw st) = Topology.graph grid23 ->
    st_layout st = layoutA \/ st_layout st = layoutB ->
    GreedyMapper.swap_loop fuel 3 2 st = None.
Proof.
  induction fuel as [|fuel IH]; intros st Hg Hl; [reflexivity|].
  cbn [GreedyMapper.swap_loop].
  unfold Topology.isConnected, Topology.getShortestPath. rewrite Hg.
  destruct Hl as [E|E]; rewrite E.
  - change (GreedyMapper.swap_loop fuel 3 2 (insertSwap st (Some 3) (Some 4)) = None).
    apply IH; [exact Hg|]. right. simpl. rewrite E. reflexivity.
  - change (GreedyMapper.swap_loop fuel 3 2 (insertSwap st (Some 4) (Some 5)) = None).
    apply IH; [exact Hg|]. left. simpl. rewrite E. reflexivity.
Qed.

(** ** The genetic search on a device without edges *)

Lemma or_default_succ : forall x d, 0 < d -> exists n, or_default x d = S n.
Proof.
  intros x d H. pose proof (or_default_pos x d H) as P.
  destruct (or_default x d) as [|n]; [lia|]. now exists n.
Qed.

Lemma randomIndex_ok : forall k rnd e,
    exists i e', GeneticSwapOptimizer.randomIndex k rnd e = Ok (i, e').
Proof. intros k rnd e. eexists. eexists. reflexivity. Qed.

Lemma random_genes_step : forall vs n rnd e,
    GeneticSwapOptimizer.random_genes vs (S n) rnd e
    = match GeneticSwapOptimizer.randomIndex (length vs) rnd e with
      | Ok (i, e1) =>
          match GeneticSwapOptimizer.random_genes vs n rnd e1 with
          | Ok (rest, e2) => Ok (nth_error vs i :: rest, e2)
          | TypeError => TypeError
          end
      | TypeError => TypeError
      end.
Proof. reflexivity. Qed.

Lemma random_genes_ok : forall vs n rnd e,
    exists c e', GeneticSwapOptimizer.random_genes vs n rnd e = Ok (c, e').
Proof.
  intros vs n. induction n as [|n IH]; intros rnd e.
  - eexists. eexists. reflexivity.
  - rewrite random_genes_step.
    destruct (randomIndex_ok (length vs) rnd e) as (i & e1 & ->).
    destruct (IH rnd e1) as (c & e2 & ->). eexists. eexists. reflexivity.
Qed.

Lemma random_genes_undefined : forall n rnd e,
    exists c e',
      GeneticSwapOptimizer.random_genes [] (S n) rnd e = Ok (None :: c, e').
Proof.
  intros n rnd e. rewrite random_genes_step.
  destruct (randomIndex_ok (length (@nil (nat * nat))) rnd e) as (i & e1 & ->).
  destruct (random_genes_ok [] n rnd e1) as (c & e2 & ->).
  exists c, e2. destruct i; reflexivity.
Qed.

Lemma random_population_step : forall cfg vs n rnd e,
    GeneticSwapOptimizer.random_population cfg vs (S n) rnd e
    = match GeneticSwapOptimizer.randomIndex
              (GeneticSwapOptimizer.maxSwapsPerChromosome cfg) rnd e with
      | Ok (l, e1) =>
          match GeneticSwapOptimizer.random_genes vs (l + 1) rnd e1 with
          | Ok (chromosome, e2) =>
              match GeneticSwapOptimizer.random_population cfg vs n rnd e2 with
              | Ok (rest, e3) => Ok (chromosome :: rest, e3)
              | TypeError => TypeError
              end
          | TypeError => TypeError
          end
      | TypeError => TypeError
      end.
Proof. reflexivity. Qed.

Lemma random_population_ok : forall cfg vs n rnd e,
    exists p e', GeneticSwapOptimizer.random_population cfg vs n rnd e = Ok (p, e').
Proof.
  intros cfg vs n. induction n as [|n IH]; intros rnd e.
  - eexists. eexists. reflexivity.
  - rewrite random_population_step.
    destruct (randomIndex_ok (GeneticSwapOptimizer.maxSwapsPerChromosome cfg) rnd e)
      as (l & e1 & ->).
    destruct (random_genes_ok vs (l + 1) rnd e1) as (c & e2 & ->).
    destruct (IH rnd e2) as (p & e3 & ->). eexists. eexists. reflexivity.
Qed.

Lemma random_population_undefined : forall cfg n rnd e,
    exists c rest e',
      GeneticSwapOptimizer.random_population cfg [] (S n) rnd e
      = Ok ((None :: c) :: rest, e').
Proof.
  intros cfg n rnd e. rewrite random_population_step.
  destruct (randomIndex_ok (GeneticSwapOptimizer.maxSwapsPerChromosome cfg) rnd e)
    as (l & e1 & ->).
  rewrite Nat.add_1_r.
  destruct (random_genes_undefined l rnd e1) as (c & e2 & ->).
  destruct (random_population_ok cfg [] n rnd e2) as (p & e3 & ->).
  exists c, p, e3. reflexivity.
Qed.

Lemma evolve_undefined_gene : forall circuit cfg gens c rest best bf pc rate rnd e,
    GeneticSwapOptimizer.evolve circuit cfg (S gens) ((None :: c) :: rest)
                                best bf pc rate rnd e = TypeError.
Proof. reflexivity. Qed.


(** * The gates of a run, one by one *)

(** A run is a chain of gate callbacks. Whatever each callback adds to the
    distance penalty, the penalty at the end is the sum of the amounts, and
    the steps pushed so far are never touched again. [share] is what is
    known of the amount a callback adds. *)
Section Shares.

Variable X : Type.
Variable pen : X -> number.
Variable stp : X -> list Step.
Variable step : nat -> X -> QuantumCircuit.Gate -> X -> Prop.
Variable Inv : X -> Prop.
Variable share : nat -> X -> QuantumCircuit.Gate -> X -> number -> Prop.

Hypothesis step_inv : forall idx x g x', Inv x -> step idx x g x' -> Inv x'.

Hypothesis step_share : forall idx x g x',
    Inv x -> step idx x g x' ->
    exists a, share idx x g x' a
              /\ pen x' = JS.add (pen x) a
              /\ exists new, stp x' = stp x ++ new.



End Shares.

(** The three [forEach] loops are such chains. *)











(** Each run, gate by gate. *)




(** ** The share of a gate on one qubit twice *)







(** ** The cursor of a replay *)

Lemma genetic_loop_offset : forall rest c t st i k,
    GeneticSwapOptimizer.swap_loop rest c t st (i + k)
    = advanced i (GeneticSwapOptimizer.swap_loop rest c t st k).
Proof.
  induction rest as [|g rest IH]; intros c t st i k; simpl.
  - destruct (Topology.isConnected _ _ _); reflexivity.
  - destruct (Topology.isConnected _ _ _); [reflexivity|].
    destruct g as [[q1 q2]|]; [|reflexivity].
    rewrite <- IH. f_equal. lia.
Qed.

Lemma genetic_processGate_offset : forall ch st i k g,
    GeneticSwapOptimizer.processGate (Some ch) (st, i + k) g
    = advanced i (GeneticSwapOptimizer.processGate (Some (skipn i ch)) (st, k) g).
Proof.
  intros ch st i k g. unfold GeneticSwapOptimizer.processGate.
  destruct (QuantumCircuit.gqubits g) as [|c [|t [|x l]]]; try reflexivity.
  unfold GeneticSwapOptimizer.run_swap_loop.
  rewrite skipn_skipn, (Nat.add_comm k i), genetic_loop_offset.
  destruct (GeneticSwapOptimizer.swap_loop _ _ _ _ _) as [[st1 k1]|]; reflexivity.
Qed.

Lemma genetic_forEach_offset : forall ch gs st i k,
    GeneticSwapOptimizer.forEach (Some ch) gs (st, i + k)
    = advanced i (GeneticSwapOptimizer.forEach (Some (skipn i ch)) gs (st, k)).
Proof.
  intros ch gs. induction gs as [|g gs IH]; intros st i k; simpl; [reflexivity|].
  rewrite genetic_processGate_offset.
  destruct (GeneticSwapOptimizer.processGate (Some (skipn i ch)) (st, k) g)
    as [[st1 k1]|]; simpl; [|reflexivity].
  apply IH.
Qed.

Lemma genetic_forEach_bind : forall ch gs1 gs2 acc,
    GeneticSwapOptimizer.forEach ch (gs1 ++ gs2) acc
    = JS.bind (GeneticSwapOptimizer.forEach ch gs1 acc)
              (GeneticSwapOptimizer.forEach ch gs2).
Proof.
  intros ch gs1. induction gs1 as [|g gs1 IH]; intros gs2 acc; simpl;
    [reflexivity|].
  destruct (GeneticSwapOptimizer.processGate ch acc g) as [acc1|]; simpl;
    [apply IH|reflexivity].
Qed.

Lemma subseq_refl_nil : forall A (m : list A), subseq [] m.
Proof. induction m; constructor; assumption. Qed.

Lemma subseq_app : forall A (l1 m1 l2 m2 : list A),
    subseq l1 m1 -> subseq l2 m2 -> subseq (l1 ++ l2) (m1 ++ m2).
Proof.
  intros A l1 m1 l2 m2 H1 H2. induction H1; simpl;
    [exact H2|now constructor|now constructor].
Qed.

Lemma subseq_length : forall A (l m : list A), subseq l m -> length l <= length m.
Proof. intros A l m H. induction H; simpl; lia. Qed.

Lemma swap_genes_app : forall a b, swap_genes (a ++ b) = swap_genes a ++ swap_genes b.
Proof.
  induction a as [|s a IH]; intro b; [reflexivity|].
  destruct s as [[[x|] [y|]] lg ly ins d|ty qs lg ly ins d]; simpl;
    now rewrite IH.
Qed.

Lemma swap_genes_length : forall l, length (swap_genes l) = length (filter is_swap l).
Proof.
  induction l as [|s l IH]; [reflexivity|].
  destruct s as [[[x|] [y|]] lg ly ins d|ty qs lg ly ins d]; simpl;
    now rewrite IH.
Qed.

Lemma firstn_add : forall A a b (l : list A),
    firstn (a + b) l = firstn a l ++ firstn b (skipn a l).
Proof.
  intros A a. induction a as [|a IH]; intros b l; [reflexivity|].
  destruct l as [|x l]; simpl; [now rewrite firstn_nil|]. now rewrite IH.
Qed.

(** The swaps a loop inserts are entries it read, in the order it read
    them. *)
Lemma genetic_loop_subseq : forall rest c t st st1 k,
    GeneticSwapOptimizer.swap_loop rest c t st 0 = Ok (st1, k) ->
    k <= length rest
    /\ exists new,
        st_steps st1 = st_steps st ++ new
        /\ subseq (swap_genes new) (firstn k rest).
Proof.
  induction rest as [|g rest IH]; intros c t st st1 k H; simpl in H.
  - destruct (Topology.isConnected _ _ _); injection H as <- <-;
      (split; [simpl; lia|]); exists []; rewrite app_nil_r;
      (split; [reflexivity|constructor]).
  - destruct (Topology.isConnected _ _ _).
    + injection H as <- <-. split; [simpl; lia|]. exists [].
      rewrite app_nil_r. split; [reflexivity|constructor].
    + destruct g as [[q1 q2]|]; [|discriminate].
      change 1 with (1 + 0) in H. rewrite genetic_loop_offset in H.
      match type of H with
      | advanced 1 (GeneticSwapOptimizer.swap_loop rest c t ?s 0) = _ =>
          destruct (GeneticSwapOptimizer.swap_loop rest c t s 0)
            as [[st2 k2]|] eqn:E; [|discriminate]
      end.
      simpl in H. injection H as <- <-.
      apply IH in E. destruct E as (Hk & new & En & Hs).
      split; [simpl; lia|]. simpl firstn.
      destruct (negb (Layout.indexOf (st_layout st) (Some q1) =? -1)%Z
                && negb (Layout.indexOf (st_layout st) (Some q2) =? -1)%Z).
      * eexists. split; [rewrite En; simpl; rewrite <- app_assoc; reflexivity|].
        simpl. now constructor.
      * exists new. split; [exact En|]. now constructor.
Qed.

Lemma genetic_processGate_subseq : forall ch st g st1 k,
    GeneticSwapOptimizer.processGate (Some ch) (st, 0) g = Ok (st1, k) ->
    k <= length ch
    /\ exists new,
        st_steps st1 = st_steps st ++ new
        /\ subseq (swap_genes new) (firstn k ch).
Proof.
  intros ch st g st1 k H. unfold GeneticSwapOptimizer.processGate in H.
  destruct (QuantumCircuit.gqubits g) as [|c [|t [|x l]]];
    try (injection H as <- <-; split; [lia|]; eexists;
         split; [reflexivity|simpl; constructor]).
  unfold GeneticSwapOptimizer.run_swap_loop in H. simpl skipn in H.
  destruct (GeneticSwapOptimizer.swap_loop ch c t st 0) as [[st2 k2]|] eqn:E;
    [|discriminate].
  injection H as <- <-. apply genetic_loop_subseq in E.
  destruct E as (Hk & new & En & Hs). split; [exact Hk|].
  destruct (addPenalty_frame st2 c t) as (Ea & _).
  eexists. split; [simpl; rewrite Ea, En, <- app_assoc; reflexivity|].
  rewrite swap_genes_app. simpl. now rewrite app_nil_r.
Qed.

Lemma genetic_forEach_subseq : forall gs ch st stf j,
    GeneticSwapOptimizer.forEach (Some ch) gs (st, 0) = Ok (stf, j) ->
    j <= length ch
    /\ exists new,
        st_steps stf = st_steps st ++ new
        /\ subseq (swap_genes new) (firstn j ch).
Proof.
  induction gs as [|g gs IH]; intros ch st stf j H; simpl in H.
  - injection H as <- <-. split; [lia|]. exists []. rewrite app_nil_r.
    split; [reflexivity|constructor].
  - destruct (GeneticSwapOptimizer.processGate (Some ch) (st, 0) g)
      as [[st1 k]|] eqn:E; [|discriminate].
    apply genetic_processGate_subseq in E.
    destruct E as (Hk & new1 & E1 & S1).
    rewrite <- (Nat.add_0_r k), genetic_forEach_offset in H.
    destruct (GeneticSwapOptimizer.forEach (Some (skipn k ch)) gs (st1, 0))
      as [[st2 j2]|] eqn:E2; [|discriminate].
    simpl in H. injection H as <- <-.
    apply IH in E2. destruct E2 as (Hj & new2 & E2 & S2).
    rewrite length_skipn in Hj. split; [lia|].
    exists (new1 ++ new2). split; [now rewrite E2, E1, app_assoc|].
    rewrite swap_genes_app, firstn_add. now apply subseq_app.
Qed.

(** * The claims *)

(** ** Topology *)

(** C7. On every hardware object the constructor builds (whatever its memo
    holds after earlier calls): [distance(q, q)] is [0]; [distance(a, b)]
    equals [distance(b, a)], also when the second call runs on the memo the
    first one left; for a pair joined by a walk the shortest path is not
    empty and the distance is its length minus one; for a pair joined by no
    walk the distance is [Infinity] and the shortest path is empty. *)
Theorem distance_laws : forall hw,
    built hw ->
    (forall q, fst (Topology.distance hw (Some q) (Some q)) = Fin 0)
    /\ (forall a b,
          fst (Topology.distance hw (Some a) (Some b))
          = fst (Topology.distance hw (Some b) (Some a))
          /\ fst (Topology.distance
                    (snd (Topology.distance hw (Some a) (Some b)))
                    (Some b) (Some a))
             = fst (Topology.distance hw (Some a) (Some b)))
    /\ (forall a b,
          (exists k, reach (Topology.graph hw) k (Some a) (Some b)) ->
          Topology.getShortestPath hw (Some a) (Some b) <> []
          /\ fst (Topology.distance hw (Some a) (Some b))
             = Fin (Z.of_nat
                      (length (Topology.getShortestPath hw (Some a) (Some b)))
                    - 1))
    /\ (forall a b,
          ~ (exists k, reach (Topology.graph hw) k (Some a) (Some b)) ->
          fst (Topology.distance hw (Some a) (Some b)) = Infinity
          /\ Topology.getShortestPath hw (Some a) (Some b) = []).
Proof.
  intros hw Hb. pose proof (built_symmetric hw Hb) as Hsym.
  assert (Hok : cache_ok hw) by apply Hb.
  split; [|split; [|split]].
  - intro q. rewrite distance_value by assumption. apply bfs_distance_self.
  - intros a b. split.
    + rewrite !distance_value by assumption. now apply bfs_distance_sym.
    + rewrite distance_value.
      * rewrite distance_graph. rewrite distance_value by assumption.
        symmetry. now apply bfs_distance_sym.
      * now rewrite distance_graph.
      * now apply distance_cache_ok.
  - intros a b [k Hk]. rewrite distance_value by assumption.
    pose proof (bfs_distance_correct (Topology.graph hw) (Some a) (Some b)) as Hd.
    rewrite bfs_distance_path in *.
    destruct (Topology.getShortestPath hw (Some a) (Some b)) as [|x p].
    + exfalso. simpl in Hd. eapply Hd. exact Hk.
    + split; [discriminate|]. unfold path_number. f_equal. simpl length. lia.
  - intros a b Hno. rewrite distance_value by assumption.
    pose proof (bfs_distance_correct (Topology.graph hw) (Some a) (Some b)) as Hd.
    rewrite bfs_distance_path in *.
    destruct (Topology.getShortestPath hw (Some a) (Some b)) as [|x p].
    + split; reflexivity.
    + exfalso. apply Hno. simpl in Hd. destruct Hd as (d & _ & Hr & _).
      now exists d.
Qed.

Lemma distance_laws_witness :
  built lnn3
  /\ fst (Topology.distance lnn3 (Some 0) (Some 2))
     = fst (Topology.distance lnn3 (Some 2) (Some 0)).
Proof.
  assert (H : built lnn3) by (split; reflexivity).
  split; [exact H|].
  exact (proj1 (proj1 (proj2 (distance_laws lnn3 H)) 0 2)).
Defined.

(** ** Counters and step records *)

(** C4. The result of every mapper satisfies: [insertedSwaps] is the number
    of swap steps, [depth] is the number of steps, the step at position [i]
    carries depth index [i] (so the indices increase strictly from [0]), and
    [inserted] is [true] exactly on the swap steps. This holds for
    [GreedyMapper.map], for [LookAheadMapper.map] with any window, for every
    replay [applyChromosome] and for [GeneticSwapOptimizer.map] under any
    options and random stream. *)
Theorem result_bookkeeping :
  (forall fuel circuit hw r hw',
      GreedyMapper.map fuel circuit hw = Some (r, hw') -> result_counters_ok r)
  /\ (forall k fuel circuit hw r hw',
         LookAheadMapper.map k fuel circuit hw = Some (r, hw') ->
         result_counters_ok r)
  /\ (forall circuit hw ch r hw',
         GeneticSwapOptimizer.applyChromosome circuit hw ch = Ok (r, hw') ->
         result_counters_ok r)
  /\ (forall circuit hw o rnd r hw',
         GeneticSwapOptimizer.map circuit hw o rnd = Ok (r, hw') ->
         result_counters_ok r).
Proof.
  split; [|split; [|split]].
  - intros fuel circuit hw r hw' H. unfold GreedyMapper.map in H.
    destruct (GreedyMapper.forEach _ _ _) as [st|] eqn:E; [|discriminate].
    inversion H; subst.
    eapply (greedy_forEach_counters _ _ _ _ E). apply counters_init.
  - intros k fuel circuit hw r hw' H. unfold LookAheadMapper.map in H.
    destruct (LookAheadMapper.forEach _ _ _ _ _ _) as [st|] eqn:E; [|discriminate].
    inversion H; subst.
    eapply (lookahead_forEach_counters _ _ _ _ _ _ _ E). apply counters_init.
  - apply applyChromosome_counters.
  - intros circuit hw o rnd r hw' H. unfold GeneticSwapOptimizer.map in H.
    destruct (GeneticSwapOptimizer.gbind _ _ _ _) as [[best e]|]; [|discriminate].
    eapply applyChromosome_counters. exact H.
Qed.

Lemma result_bookkeeping_witness :
  exists r hw',
    GreedyMapper.map 3 circuitA lnn3 = Some (r, hw')
    /\ insertedSwaps r = 1 /\ depth r = 2
    /\ result_counters_ok r.
Proof.
  eexists. eexists. split; [reflexivity|]. split; [reflexivity|].
  split; [reflexivity|].
  eapply (proj1 result_bookkeeping 3 circuitA lnn3). reflexivity.
Defined.

(** ** Two-qubit gates *)



(** ** The chromosome cursor *)

(** C6. In a replay of a chromosome [ch] the cursor is one counter threaded
    through all gates. A gate never moves it back; a one-qubit gate or an
    already adjacent two-qubit gate leaves it where it is, and an
    unresolved two-qubit gate met before the end of the chromosome advances
    it. It is never reset: a run of gates started at the cursor [i] is the
    run on the entries from [i] on, so an entry before the cursor is not
    read again, and the gates after a gate start at the cursor that gate
    left. In the result of [applyChromosome] the inserted swaps are
    entries of the chromosome before the last cursor, in their order, each
    used at most once. Once the cursor is at or past the end, every later
    gate leaves it there, inserts no swap and keeps the layout; the gate is
    pushed as a gate step and, when it has two operands, the penalty
    receives the distance then measured minus one; the replay of any
    remaining gate list succeeds, and the result holds the steps and the
    swap count as they were plus one gate step per remaining gate. *)
Theorem cursor_shared_across_gates : forall ch,
    (forall st i g st' i',
        GeneticSwapOptimizer.processGate (Some ch) (st, i) g = Ok (st', i') ->
        i <= i'
        /\ (length (QuantumCircuit.gqubits g) <> 2 -> i' = i)
        /\ (forall c t,
               QuantumCircuit.gqubits g = [c; t] ->
               Topology.isConnected (st_hw st) (Layout.at_ (st_layout st) c)
                                    (Layout.at_ (st_layout st) t) = true ->
               i' = i)
        /\ (forall c t,
               QuantumCircuit.gqubits g = [c; t] ->
               Topology.isConnected (st_hw st) (Layout.at_ (st_layout st) c)
                                    (Layout.at_ (st_layout st) t) = false ->
               i < length ch ->
               i < i'))
    /\ (forall st i g,
           length ch <= i ->
           GeneticSwapOptimizer.processGate (Some ch) (st, i) g
           = Ok (match QuantumCircuit.gqubits g with
                 | [c; t] => emitNative (addPenalty st c t) g
                 | _ => emitNative st g
                 end, i))
    /\ (forall gs st i,
           length ch <= i ->
           exists st',
             GeneticSwapOptimizer.forEach (Some ch) gs (st, i) = Ok (st', i)
             /\ st_layout st' = st_layout st
             /\ st_insertedSwaps st' = st_insertedSwaps st
             /\ exists new,
                 st_steps st' = st_steps st ++ new
                 /\ length new = length gs
                 /\ Forall (fun s => is_swap s = false) new)
    /\ (forall gs st i,
           GeneticSwapOptimizer.forEach (Some ch) gs (st, i)
           = advanced i (GeneticSwapOptimizer.forEach (Some (skipn i ch)) gs
                           (st, 0)))
    /\ (forall gs1 gs2 acc,
           GeneticSwapOptimizer.forEach (Some ch) (gs1 ++ gs2) acc
           = JS.bind (GeneticSwapOptimizer.forEach (Some ch) gs1 acc)
                     (GeneticSwapOptimizer.forEach (Some ch) gs2))
    /\ (forall circuit hw r hw',
           GeneticSwapOptimizer.applyChromosome circuit hw (Some ch)
           = Ok (r, hw') ->
           exists stf j,
             GeneticSwapOptimizer.forEach (Some ch) (QuantumCircuit.gates circuit)
               (init (QuantumCircuit.nQubits circuit) hw, 0) = Ok (stf, j)
             /\ r = result_of stf
             /\ j <= length ch
             /\ subseq (swap_genes (steps r)) (firstn j ch)
             /\ insertedSwaps r <= j)
    /\ (forall circuit hw r hw' pre g post,
           GeneticSwapOptimizer.applyChromosome circuit hw (Some ch)
           = Ok (r, hw') ->
           QuantumCircuit.gates circuit = pre ++ g :: post ->
           exists st i st' i',
             GeneticSwapOptimizer.forEach (Some ch) pre
               (init (QuantumCircuit.nQubits circuit) hw, 0) = Ok (st, i)
             /\ GeneticSwapOptimizer.processGate (Some ch) (st, i) g
                = Ok (st', i')
             /\ i <= i' /\ i' <= length ch
             /\ subseq (swap_genes (st_steps st')) (firstn i' ch)
             /\ (exists rest, steps r = st_steps st' ++ rest)
             /\ (i' = length ch ->
                 finalLayout r = st_layout st'
                 /\ insertedSwaps r = st_insertedSwaps st'
                 /\ exists new,
                     steps r = st_steps st' ++ new
                     /\ length new = length post
                     /\ Forall (fun s => is_swap s = false) new)).
Proof.
  intro ch. split; [|split; [|split; [|split; [|split; [|split]]]]].
  - intros st i g st' i' H. unfold GeneticSwapOptimizer.processGate in H.
    destruct (QuantumCircuit.gqubits g) as [|c [|t [|x l]]] eqn:Eg;
      try (inversion H; subst; split; [lia|]; split; [reflexivity|];
           split; intros; discriminate).
    destruct (GeneticSwapOptimizer.run_swap_loop _ _ _ _ _) as [[st1 i1]|] eqn:E;
      [|discriminate].
    inversion H; subst st' i'. simpl in E.
    apply genetic_loop_cursor in E. destruct E as (Hle & Hres & Hun).
    split; [lia|]. split; [simpl; intro K; now elim K|]. split.
    + intros c' t' Hq Hc. inversion Hq; subst. now apply Hres.
    + intros c' t' Hq Hc Hi. inversion Hq; subst.
      apply Hun; [exact Hc|]. now apply skipn_nonempty.
  - apply genetic_processGate_exhausted.
  - apply genetic_forEach_exhausted.
  - intros gs st i. rewrite <- (Nat.add_0_r i) at 1.
    apply genetic_forEach_offset.
  - intros gs1 gs2 acc. apply genetic_forEach_bind.
  - intros circuit hw r hw' H.
    pose proof (applyChromosome_counters _ _ _ _ _ H) as (Hc & _).
    unfold GeneticSwapOptimizer.applyChromosome in H.
    destruct (GeneticSwapOptimizer.forEach _ _ _) as [[stf j]|] eqn:E;
      [|discriminate].
    injection H as <- _. exists stf, j. split; [reflexivity|].
    split; [reflexivity|].
    destruct (genetic_forEach_subseq _ _ _ _ _ E) as (Hj & new & En & Hs).
    simpl in En. subst new. split; [exact Hj|]. split; [exact Hs|].
    rewrite Hc, <- swap_genes_length.
    apply subseq_length in Hs. rewrite length_firstn in Hs. simpl in *. lia.
  - intros circuit hw r hw' pre g post H Hg.
    unfold GeneticSwapOptimizer.applyChromosome in H. rewrite Hg in H.
    destruct (GeneticSwapOptimizer.forEach _ _ _) as [[stf j]|] eqn:E;
      [|discriminate].
    injection H as <- _.
    apply genetic_forEach_app in E.
    destruct E as ([st i] & [st' i'] & E1 & E2 & E3).
    exists st, i, st', i'. split; [exact E1|]. split; [exact E2|].
    assert (E12 : GeneticSwapOptimizer.forEach (Some ch) (pre ++ [g])
                    (init (QuantumCircuit.nQubits circuit) hw, 0)
                  = Ok (st', i')).
    { rewrite genetic_forEach_bind, E1. simpl. now rewrite E2. }
    destruct (genetic_forEach_subseq _ _ _ _ _ E12) as (Hi' & new & En & Hs).
    simpl in En. subst new.
    assert (Hle : i <= i').
    { unfold GeneticSwapOptimizer.processGate in E2.
      destruct (QuantumCircuit.gqubits g) as [|c [|t [|x l]]];
        try (injection E2 as _ <-; lia).
      destruct (GeneticSwapOptimizer.run_swap_loop _ _ _ _ _) as [[st1 i1]|] eqn:El;
        [|discriminate].
      injection E2 as _ <-. simpl in El.
      apply genetic_loop_cursor in El. lia. }
    split; [exact Hle|]. split; [exact Hi'|]. split; [exact Hs|].
    assert (R : exists rest, st_steps stf = st_steps st' ++ rest).
    { pose proof (genetic_forEach_offset ch post st' i' 0) as O.
      rewrite Nat.add_0_r, E3 in O.
      destruct (GeneticSwapOptimizer.forEach (Some (skipn i' ch)) post (st', 0))
        as [[s k]|] eqn:Ex; [|discriminate O].
      simpl in O. injection O as Es Ej. subst s.
      destruct (genetic_forEach_subseq _ _ _ _ _ Ex) as (_ & rest & Er & _).
      now exists rest. }
    split; [exact R|].
    intro Hend.
    destruct (genetic_forEach_exhausted ch post st' i' ltac:(lia))
      as (sx & Ex & L & S & new & N1 & N2 & N3).
    pose proof (eq_trans (eq_sym E3) Ex) as K. injection K as -> _.
    simpl. split; [exact L|]. split; [exact S|].
    exists new. auto.
Qed.

Lemma cursor_shared_across_gates_witness :
  GeneticSwapOptimizer.processGate (Some [Some (0, 1)]) (init 3 lnn3, 1) (cx 0 2)
  = Ok (emitNative (addPenalty (init 3 lnn3) 0 2) (cx 0 2), 1)
  /\ st_distancePenalty (emitNative (addPenalty (init 3 lnn3) 0 2) (cx 0 2)) = Fin 1
  /\ exists r hw',
      GeneticSwapOptimizer.applyChromosome
        (QuantumCircuit.mk 3 [cx 0 2; cx 1 2]) lnn3
        (Some [Some (0, 1); Some (1, 2)]) = Ok (r, hw')
      /\ Layout.cells (finalLayout r) = [Some 2; Some 0; Some 1]
      /\ subseq (swap_genes (steps r)) [Some (0, 1); Some (1, 2)].
Proof.
  split; [|split; [reflexivity|]].
  - apply (proj1 (proj2 (cursor_shared_across_gates [Some (0, 1)]))
                 (init 3 lnn3) 1 (cx 0 2)).
    simpl. lia.
  - destruct (GeneticSwapOptimizer.applyChromosome
                (QuantumCircuit.mk 3 [cx 0 2; cx 1 2]) lnn3
                (Some [Some (0, 1); Some (1, 2)])) as [[r hw']|] eqn:E;
      [|vm_compute in E; discriminate E].
    exists r, hw'. split; [reflexivity|].
    destruct (proj1 (proj2 (proj2 (proj2 (proj2 (proj2
                (cursor_shared_across_gates [Some (0, 1); Some (1, 2)]))))))
                _ _ _ _ E) as (stf & j & Ef & Er & Hj & Hs & _).
    split.
    + vm_compute in E. injection E as <- _. reflexivity.
    + assert (Ej : j = 2).
      { vm_compute in Ef. injection Ef as _ <-. reflexivity. }
      subst j. exact Hs.
Defined.

(** ** A two-qubit gate on one qubit twice *)




(** ** Constructors and their options *)

Lemma or_defaultQ_zero : forall q d, (q == 0)%Q ->
    GeneticSwapOptimizer.or_defaultQ (Some q) d = d.
Proof.
  intros q d H. unfold GeneticSwapOptimizer.or_defaultQ.
  apply Qeq_bool_iff in H. now rewrite H.
Qed.

Lemma or_defaultQ_nonzero : forall x d, ~ (d == 0)%Q ->
    ~ (GeneticSwapOptimizer.or_defaultQ x d == 0)%Q.
Proof.
  intros [q|] d Hd; simpl; [|exact Hd].
  destruct (Qeq_bool q 0) eqn:E; [exact Hd|].
  intro H. apply Qeq_bool_iff in H. congruence.
Qed.

Lemma or_default_nonzero : forall x d, d <> 0 -> or_default x d <> 0.
Proof. intros [[|n]|] d H; simpl; auto. Qed.

Lemma or_default_int_nonzero : forall x d, d <> 0%Z -> or_default_int x d <> 0%Z.
Proof. intros [[|z|z]|] d H; simpl; auto; discriminate. Qed.

Lemma or_default_int_kept : forall z d, z <> 0%Z -> or_default_int (Some z) d = z.
Proof. intros [|z|z] d H; [now elim H|reflexivity|reflexivity]. Qed.

Lemma or_default_int_nat : forall x d,
    or_default_int (option_map Z.of_nat x) (Z.of_nat d) = Z.of_nat (or_default x d).
Proof. intros [[|n]|] d; reflexivity. Qed.

Lemma or_default_int_pos : forall x d,
    (0 < d)%Z -> (forall z, x = Some z -> (0 <= z)%Z) ->
    (0 < or_default_int x d)%Z.
Proof.
  intros [[|z|z]|] d Hd H; simpl; try lia.
  specialize (H _ eq_refl). lia.
Qed.

Lemma buildGraph_int_nat : forall ty p,
    Topology.buildGraph_int ty (int_params p) = Topology.buildGraph ty p.
Proof.
  intros ty p. unfold Topology.buildGraph_int, Topology.buildGraph, int_params.
  cbn [Topology.int_qubits Topology.int_rows Topology.int_cols].
  change 5%Z with (Z.of_nat 5). change 3%Z with (Z.of_nat 3).
  rewrite !or_default_int_nat, !Nat2Z.id.
  destruct (String.eqb ty "lnn").
  { apply map_ext_in. intros i Hi. apply in_seq in Hi.
    unfold Topology.lnn_row. f_equal.
    replace (Z.of_nat i <? Z.of_nat (or_default (Topology.qubits p) 5) - 1)%Z
      with (i <? or_default (Topology.qubits p) 5 - 1); [reflexivity|].
    destruct (Nat.ltb_spec i (or_default (Topology.qubits p) 5 - 1));
      symmetry; [apply Z.ltb_lt|apply Z.ltb_ge]; lia. }
  destruct (String.eqb ty "grid2d").
  { rewrite !flat_map_concat_map. f_equal.
    apply map_ext_in. intros r Hr. apply in_seq in Hr.
    apply map_ext_in. intros c Hc. apply in_seq in Hc.
    unfold Topology.grid_cell. cbv zeta.
    replace (Z.of_nat c <? Z.of_nat (or_default (Topology.cols p) 3) - 1)%Z
      with (c <? or_default (Topology.cols p) 3 - 1).
    2:{ destruct (Nat.ltb_spec c (or_default (Topology.cols p) 3 - 1));
        symmetry; [apply Z.ltb_lt|apply Z.ltb_ge]; lia. }
    replace (Z.of_nat r <? Z.of_nat (or_default (Topology.rows p) 3) - 1)%Z
      with (r <? or_default (Topology.rows p) 3 - 1).
    2:{ destruct (Nat.ltb_spec r (or_default (Topology.rows p) 3 - 1));
        symmetry; [apply Z.ltb_lt|apply Z.ltb_ge]; lia. }
    reflexivity. }
  reflexivity.
Qed.

Lemma map_int_nat : forall circuit hw o rnd,
    GeneticSwapOptimizer.map_int circuit hw o
      (option_map Z.of_nat (GeneticSwapOptimizer.o_generations o)) rnd
    = GeneticSwapOptimizer.map circuit hw o rnd.
Proof.
  intros circuit hw o rnd.
  unfold GeneticSwapOptimizer.map_int, GeneticSwapOptimizer.map.
  change 50%Z with (Z.of_nat 50). rewrite or_default_int_nat, Nat2Z.id.
  reflexivity.
Qed.

(** C9. An option equal to [0] is replaced by the default: a cost model
    built with [alpha = 0] (or [beta = 0], [gamma = 0]) has weight [10]
    ([1], [5]); a genetic optimizer built with [generations = 0] has the
    generation cap [50] and its [map] is the [map] of the optimizer built
    with [generations = 50]; [buildGraph] for [lnn] or [star] with
    [qubits = 0] makes the five-qubit device. No options give a zero
    weight or a generation cap of [0], and parameters without a negative
    number give an [lnn], [grid2d] or [star] device with a qubit. A
    negative number is kept by [||]: a negative [qubits] makes the [lnn]
    device without qubits, a negative [rows] or [cols] the [grid2d] device
    without qubits, and with a negative [generations] the search runs no
    generation and replays [null]. *)
Theorem zero_options_fall_back :
  (forall q b c, (q == 0)%Q ->
                 CostModel.alpha (CostModel.new (CostModel.mkOptions (Some q) b c)) = 10%Q)
  /\ (forall q a c, (q == 0)%Q ->
                    CostModel.beta (CostModel.new (CostModel.mkOptions a (Some q) c)) = 1%Q)
  /\ (forall q a b, (q == 0)%Q ->
                    CostModel.gamma (CostModel.new (CostModel.mkOptions a b (Some q))) = 5%Q)
  /\ (forall p t e i m s pl,
         GeneticSwapOptimizer.generations
           (GeneticSwapOptimizer.makeConfig
              (GeneticSwapOptimizer.mkOptions p (Some 0) t e i m s pl)) = 50
         /\ forall circuit hw rnd,
             GeneticSwapOptimizer.map circuit hw
               (GeneticSwapOptimizer.mkOptions p (Some 0) t e i m s pl) rnd
             = GeneticSwapOptimizer.map circuit hw
                 (GeneticSwapOptimizer.mkOptions p (Some 50) t e i m s pl) rnd)
  /\ (forall r c,
         Topology.buildGraph "lnn" (Topology.mkParams (Some 0) r c) = chain5
         /\ Topology.buildGraph "star" (Topology.mkParams (Some 0) r c) = star5)
  /\ (forall r c,
         Topology.buildGraph_int "lnn" (Topology.mkIntParams (Some 0%Z) r c)
         = chain5
         /\ Topology.buildGraph_int "star" (Topology.mkIntParams (Some 0%Z) r c)
            = star5)
  /\ (forall o,
         ~ (CostModel.alpha (CostModel.new o) == 0)%Q
         /\ ~ (CostModel.beta (CostModel.new o) == 0)%Q
         /\ ~ (CostModel.gamma (CostModel.new o) == 0)%Q)
  /\ (forall generations, or_default_int generations 50 <> 0%Z)
  /\ (forall ty p, Topology.buildGraph_int ty (int_params p) = Topology.buildGraph ty p)
  /\ (forall circuit hw o rnd,
         GeneticSwapOptimizer.map_int circuit hw o
           (option_map Z.of_nat (GeneticSwapOptimizer.o_generations o)) rnd
         = GeneticSwapOptimizer.map circuit hw o rnd)
  /\ (forall ty p,
         known_shape ty -> no_negative p -> Topology.buildGraph_int ty p <> [])
  /\ (forall z r c,
         (z < 0)%Z ->
         Topology.buildGraph_int "lnn" (Topology.mkIntParams (Some z) r c) = [])
  /\ (forall z q r c,
         (z < 0)%Z ->
         Topology.buildGraph_int "grid2d" (Topology.mkIntParams q (Some z) c) = []
         /\ Topology.buildGraph_int "grid2d" (Topology.mkIntParams q r (Some z)) = [])
  /\ (forall z circuit hw o rnd,
         (z < 0)%Z ->
         GeneticSwapOptimizer.map_int circuit hw o (Some z) rnd
         = match GeneticSwapOptimizer.initializePopulation
                   (GeneticSwapOptimizer.makeConfig o) rnd
                   (GeneticSwapOptimizer.mkEnv 0 [] hw) with
           | Ok (_, e) =>
               GeneticSwapOptimizer.applyChromosome
                 circuit (GeneticSwapOptimizer.ehw e) None
           | TypeError => TypeError
           end).
Proof.
  split; [|split; [|split; [|split; [|split; [|split; [|split; [|split;
    [|split; [|split; [|split; [|split; [|split]]]]]]]]]]]].
  - intros q b c H. simpl. now apply or_defaultQ_zero.
  - intros q a c H. simpl. now apply or_defaultQ_zero.
  - intros q a b H. simpl. now apply or_defaultQ_zero.
  - intros p t e i m s pl. split; reflexivity.
  - intros r c. split; reflexivity.
  - intros r c. split; reflexivity.
  - intro o. simpl. repeat split; apply or_defaultQ_nonzero; discriminate.
  - intro g. apply or_default_int_nonzero. discriminate.
  - apply buildGraph_int_nat.
  - apply map_int_nat.
  - intros ty p Hk Hn. unfold Topology.buildGraph_int.
    assert (Hq : (0 < or_default_int (Topology.int_qubits p) 5)%Z).
    { apply or_default_int_pos; [lia|]. intros z E. apply Hn. rewrite <- E.
      simpl. tauto. }
    assert (Hr : (0 < or_default_int (Topology.int_rows p) 3)%Z).
    { apply or_default_int_pos; [lia|]. intros z E. apply Hn. rewrite <- E.
      simpl. tauto. }
    assert (Hc : (0 < or_default_int (Topology.int_cols p) 3)%Z).
    { apply or_default_int_pos; [lia|]. intros z E. apply Hn. rewrite <- E.
      simpl. tauto. }
    destruct Hk as [H|[H|H]]; subst ty; simpl String.eqb; cbv iota zeta.
    + destruct (Z.to_nat (or_default_int (Topology.int_qubits p) 5)) eqn:E;
        [lia|discriminate].
    + destruct (Z.to_nat (or_default_int (Topology.int_rows p) 3)) eqn:E1; [lia|].
      destruct (Z.to_nat (or_default_int (Topology.int_cols p) 3)) eqn:E2; [lia|].
      discriminate.
    + discriminate.
  - intros z r c Hz. unfold Topology.buildGraph_int. simpl String.eqb.
    cbv iota zeta. cbn [Topology.int_qubits].
    rewrite or_default_int_kept by lia.
    now destruct z.
  - intros z q r c Hz. unfold Topology.buildGraph_int. simpl String.eqb.
    cbv iota zeta. cbn [Topology.int_rows Topology.int_cols].
    rewrite !or_default_int_kept by lia. split.
    + now destruct z.
    + destruct z; try lia. simpl.
      induction (seq 0 (Z.to_nat (or_default_int r 3))) as [|x l IH];
        [reflexivity|exact IH].
  - intros z circuit hw o rnd Hz. unfold GeneticSwapOptimizer.map_int.
    rewrite or_default_int_kept by lia.
    destruct z; try lia. simpl Z.to_nat.
    unfold GeneticSwapOptimizer.gbind. cbn [GeneticSwapOptimizer.evolve].
    destruct (GeneticSwapOptimizer.initializePopulation _ _ _) as [[pop e]|];
      reflexivity.
Qed.

Lemma zero_options_fall_back_witness :
  (0 == 0)%Q
  /\ CostModel.alpha
       (CostModel.new (CostModel.mkOptions (Some 0%Q) (Some 1%Q) (Some 5%Q))) = 10%Q
  /\ known_shape "lnn"
  /\ no_negative (Topology.mkIntParams (Some 2%Z) None None)
  /\ Topology.buildGraph_int "lnn" (Topology.mkIntParams (Some 2%Z) None None) <> [].
Proof.
  assert (K : known_shape "lnn") by (left; reflexivity).
  assert (N : no_negative (Topology.mkIntParams (Some 2%Z) None None)).
  { intros z [E|[E|[E|[]]]]; try discriminate E. injection E as <-. lia. }
  split; [reflexivity|]. split.
  - apply (proj1 zero_options_fall_back 0%Q (Some 1%Q) (Some 5%Q)). reflexivity.
  - split; [exact K|]. split; [exact N|].
    exact (proj1 (proj2 (proj2 (proj2 (proj2 (proj2 (proj2 (proj2 (proj2
             (proj2 (proj2 zero_options_fall_back))))))))))
             "lnn" (Topology.mkIntParams (Some 2%Z) None None) K N).
Defined.

(** C9, where it fails: a device without qubits and a search without
    generations are expressible, with a negative number. [qubits: -1] is
    truthy, so [||] keeps it, the loop of [buildGraph] never runs and the
    [lnn] device has no qubit; [rows: -1] does the same to [grid2d]; and
    with [generations: -1] the loop of [map] runs no round. *)
Lemma negative_options_are_kept :
  or_default_int (Some (-1)%Z) 5 = (-1)%Z
  /\ Topology.buildGraph_int "lnn" (Topology.mkIntParams (Some (-1)%Z) None None)
     = []
  /\ Topology.buildGraph_int "grid2d"
       (Topology.mkIntParams None (Some (-1)%Z) None) = []
  /\ Z.to_nat (or_default_int (Some (-1)%Z) 50) = 0
  /\ forall circuit hw o rnd,
      GeneticSwapOptimizer.map_int circuit hw o (Some (-1)%Z) rnd
      = match GeneticSwapOptimizer.initializePopulation
                (GeneticSwapOptimizer.makeConfig o) rnd
                (GeneticSwapOptimizer.mkEnv 0 [] hw) with
        | Ok (_, e) =>
            GeneticSwapOptimizer.applyChromosome
              circuit (GeneticSwapOptimizer.ehw e) None
        | TypeError => TypeError
        end.
Proof.
  split; [reflexivity|]. split; [reflexivity|]. split; [reflexivity|].
  split; [reflexivity|].
  intros circuit hw o rnd. unfold GeneticSwapOptimizer.map_int.
  simpl Z.to_nat. unfold GeneticSwapOptimizer.gbind.
  cbn [GeneticSwapOptimizer.evolve].
  destruct (GeneticSwapOptimizer.initializePopulation _ _ _) as [[pop e]|];
    reflexivity.
Qed.

(** ** Input validation *)

(** C1, as the code has it. No constructor and no [addGate] validates its
    input or raises: [new QuantumCircuit(n)] stores any [n], also [0];
    [addGate] appends the gate whatever its operands are; a topology with an
    unknown shape tag is built with an empty graph; and [qubits = 0] for
    [lnn] or [star] gives the default five-qubit device. *)
Theorem constructors_never_raise :
  (forall n, QuantumCircuit.new n = Ok (QuantumCircuit.mk n []))
  /\ (forall c ty qs,
         QuantumCircuit.addGate c ty qs
         = Ok (QuantumCircuit.mk (QuantumCircuit.nQubits c)
                 (QuantumCircuit.gates c ++ [QuantumCircuit.mkGate ty qs])))
  /\ (forall ty p, exists hw, Topology.new ty p = Ok hw)
  /\ (forall ty p, ~ known_shape ty ->
                   Topology.new ty p = Ok (Topology.mk ty p [] []))
  /\ (forall r c,
         Topology.new "lnn" (Topology.mkParams (Some 0) r c)
         = Ok (Topology.mk "lnn" (Topology.mkParams (Some 0) r c) chain5 [])
         /\ Topology.new "star" (Topology.mkParams (Some 0) r c)
            = Ok (Topology.mk "star" (Topology.mkParams (Some 0) r c) star5 [])).
Proof.
  split; [|split; [|split; [|split]]]; try reflexivity.
  - intros ty p. eexists. reflexivity.
  - intros ty p H. unfold Topology.new, Topology.buildGraph.
    destruct (String.eqb ty "lnn") eqn:E1;
      [apply String.eqb_eq in E1; exfalso; apply H; left; exact E1|].
    destruct (String.eqb ty "grid2d") eqn:E2;
      [apply String.eqb_eq in E2; exfalso; apply H; right; left; exact E2|].
    destruct (String.eqb ty "star") eqn:E3;
      [apply String.eqb_eq in E3; exfalso; apply H; right; right; exact E3|].
    reflexivity.
  - intros r c. split; reflexivity.
Qed.

Lemma constructors_never_raise_witness :
  ~ known_shape "ring"
  /\ Topology.new "ring" (Topology.mkParams (Some 4) None None)
     = Ok (Topology.mk "ring" (Topology.mkParams (Some 4) None None) [] []).
Proof.
  assert (H : ~ known_shape "ring")
    by (intros [H|[H|H]]; discriminate H).
  split; [exact H|].
  apply (proj1 (proj2 (proj2 (proj2 constructors_never_raise)))). exact H.
Defined.

(** C1 as stated fails: each of the four invalid inputs is accepted. *)
Lemma invalid_inputs_accepted :
  ~ raises (QuantumCircuit.new 0)
  /\ ~ raises (QuantumCircuit.addGate (QuantumCircuit.mk 2 []) "cx" [0; 7])
  /\ ~ raises (Topology.new "ring" (Topology.mkParams (Some 4) None None))
  /\ ~ raises (Topology.new "lnn" (Topology.mkParams (Some 0) None None)).
Proof.
  unfold raises. repeat split; discriminate.
Qed.

(** ** The layout on a device larger than the circuit *)

(** C3, at a failing input. A five-qubit circuit with the single gate
    [cx(4, 2)] on the 2 x 3 grid (six physical qubits): the shortest path
    from physical 4 to physical 2 is [4, 5, 2], physical 5 holds no logical
    qubit, [layout.indexOf(5)] is [-1], and the unguarded swap writes
    [undefined] into [layout[4]]. The swap step records the logical pair
    [(4, -1)], and the final layout is not a permutation of [0 .. 4]. *)
Theorem greedy_layout_lost_on_larger_device : forall fuel,
    exists r hw',
      GreedyMapper.map (2 + fuel) (QuantumCircuit.mk 5 [cx 4 2]) grid23
      = Some (r, hw')
      /\ steps r
         = [Swap (Some 4, Some 5) (4%Z, (-1)%Z)
                 [Some 0; Some 1; Some 2; Some 3; None] true 0;
            Native "cx" [None; Some 2] [4; 2]
                   [Some 0; Some 1; Some 2; Some 3; None] false 1]
      /\ Layout.cells (finalLayout r) = [Some 0; Some 1; Some 2; Some 3; None]
      /\ ~ Permutation (Layout.cells (finalLayout r)) (map Some (seq 0 5)).
Proof.
  intro fuel. eexists. eexists. split; [reflexivity|]. simpl.
  split; [reflexivity|]. split; [reflexivity|].
  intro H. apply Permutation_sym in H.
  assert (Hin : In (@None nat) (map Some (seq 0 5))).
  { eapply Permutation_in; [apply Permutation_sym; exact H|]. simpl. tauto. }
  simpl in Hin. intuition discriminate.
Qed.

(** ** Termination *)

(** C5, at a failing input. On the two-qubit chain, the circuit whose only
    gate is [cx(0, 0)]: the two physical images are equal, so they are never
    adjacent; every trial layout scores [0], so [findBestSwap] always
    returns the edge [(0, 1)]; the loop of [LookAheadMapper] (window 3)
    swaps that edge for ever, and [map] returns for no amount of fuel. *)
Theorem lookahead_never_returns : forall fuel,
    LookAheadMapper.map 3 fuel cx00 lnn2 = None.
Proof.
  intro fuel. unfold LookAheadMapper.map. simpl.
  unfold LookAheadMapper.processGate. simpl.
  rewrite lookahead_cx00_diverges; [reflexivity| | |].
  - split; reflexivity.
  - reflexivity.
  - left. reflexivity.
Qed.

(** The Greedy loop can also run for ever: after the first gate has lost
    logical qubit 4 into the layout's [-1] property, the second gate moves
    logical qubit 3 between physical 3 and physical 4 without end. *)
Theorem greedy_never_returns : forall fuel,
    GreedyMapper.map fuel (QuantumCircuit.mk 5 [cx 4 2; cx 3 2]) grid23 = None.
Proof.
  intros [|[|fuel]]; [reflexivity|reflexivity|].
  unfold GreedyMapper.map.
  cbn [QuantumCircuit.gates QuantumCircuit.nQubits GreedyMapper.forEach].
  match goal with
  | |- context [GreedyMapper.processGate ?f ?s (cx 4 2)] =>
      let v := eval vm_compute in (GreedyMapper.processGate 2 s (cx 4 2)) in
      assert (E : GreedyMapper.processGate f s (cx 4 2) = v) by reflexivity
  end.
  rewrite E. unfold GreedyMapper.processGate at 1.
  cbn [QuantumCircuit.gqubits cx].
  rewrite greedy_lost_qubit_diverges; [reflexivity|reflexivity|].
  left. reflexivity.
Qed.

(** ** The genetic search *)

(** C8, at its failing inputs. On a device without edges [validSwaps] is
    empty, every gene of the initial population is [validSwaps[0]], that is
    [undefined], and the first [chromosomeKey] call of the first generation
    destructures it: [map] throws, whatever the circuit, the options
    ([generations = 0] counts as [50], [populationSize = 1] included) and
    the random numbers. *)
Theorem genetic_throws_without_edges : forall circuit hw o rnd,
    GeneticSwapOptimizer.getValidSwaps hw = [] ->
    GeneticSwapOptimizer.map circuit hw o rnd = TypeError.
Proof.
  intros circuit hw o rnd Hv. unfold GeneticSwapOptimizer.map.
  unfold GeneticSwapOptimizer.gbind, GeneticSwapOptimizer.initializePopulation.
  cbn [GeneticSwapOptimizer.ehw]. rewrite Hv.
  destruct (or_default_succ (GeneticSwapOptimizer.o_populationSize o) 30 ltac:(lia))
    as (n & En).
  destruct (or_default_succ (GeneticSwapOptimizer.o_generations o) 50 ltac:(lia))
    as (g & Eg).
  unfold GeneticSwapOptimizer.makeConfig at 2 4.
  cbn [GeneticSwapOptimizer.populationSize GeneticSwapOptimizer.generations].
  rewrite En, Eg.
  destruct (random_population_undefined
              (GeneticSwapOptimizer.makeConfig o) n rnd
              (GeneticSwapOptimizer.mkEnv 0 [] hw)) as (c & rest & e' & E).
  rewrite E. rewrite evolve_undefined_gene. reflexivity.
Qed.

Lemma genetic_throws_without_edges_witness :
  GeneticSwapOptimizer.getValidSwaps lnn1 = []
  /\ GeneticSwapOptimizer.map
       (QuantumCircuit.mk 1 [hgate 0]) lnn1
       (GeneticSwapOptimizer.mkOptions (Some 1) (Some 0) None None None None
                                       None None)
       (fun _ => 0%Q)
     = TypeError.
Proof.
  split; [reflexivity|].
  apply genetic_throws_without_edges. reflexivity.
Defined.

(** * Further properties of the hardware topology *)

Lemma key_eqb_refl : forall k, Topology.key_eqb k k = true.
Proof. intro k. now apply key_eqb_eq. Qed.

Lemma cacheKey_comm : forall q1 q2,
    Topology.cacheKey q1 q2 = Topology.cacheKey q2 q1.
Proof.
  intros [a|] [b|]; simpl; try reflexivity.
  now rewrite Nat.min_comm, Nat.max_comm.
Qed.

(** [distance] is a breadth-first search that answers the number of edges
    of a shortest walk: on a hardware object the constructor built, a finite
    answer [d] comes with a walk of [d] edges and no walk is shorter, and
    the answer [Infinity] means that no walk joins the two qubits. *)
Theorem distance_is_shortest_walk : forall hw a b,
    built hw ->
    is_distance (Topology.graph hw) (Some a) (Some b)
                (fst (Topology.distance hw (Some a) (Some b))).
Proof.
  intros hw a b Hb.
  rewrite distance_value; [|now apply built_symmetric|apply Hb].
  apply bfs_distance_correct.
Qed.

Lemma distance_is_shortest_walk_example :
  built lnn3
  /\ is_distance (Topology.graph lnn3) (Some 0) (Some 2)
                 (fst (Topology.distance lnn3 (Some 0) (Some 2))).
Proof.
  assert (H : built lnn3) by (split; reflexivity).
  split; [exact H|]. exact (distance_is_shortest_walk lnn3 0 2 H).
Defined.

(** [getShortestPath(q1, q2)] answers either the empty array, and then no
    walk joins [q1] to [q2], or an array that starts with [q1], ends with
    [q2], steps along hardware edges only, and has as few edges as any walk
    from [q1] to [q2]. The memo plays no part in it. *)
Theorem shortest_path_is_shortest_walk : forall hw q1 q2,
    let p := Topology.getShortestPath hw q1 q2 in
    (p = [] /\ forall k, ~ reach (Topology.graph hw) k q1 q2)
    \/ (hd_error p = Some q1
        /\ last p q1 = q2
        /\ is_walk (Topology.graph hw) p
        /\ reach (Topology.graph hw) (length p - 1) q1 q2
        /\ forall k, reach (Topology.graph hw) k q1 q2 -> length p - 1 <= k).
Proof.
  intros hw q1 q2 p.
  pose proof (bfs_distance_correct (Topology.graph hw) q1 q2) as Hd.
  rewrite bfs_distance_path in Hd. fold p in Hd.
  destruct (getShortestPath_ok hw q1 q2) as [E|Hok]; fold p in E || fold p in Hok.
  - left. split; [exact E|]. rewrite E in Hd. exact Hd.
  - right. destruct Hok as (Hw & Hh & Hl & Hne). simpl in Hw, Hh, Hl, Hne.
    destruct p as [|x p'] eqn:Ep; [contradiction|].
    cbn [path_number is_distance] in Hd. destruct Hd as (d & Ed & Hr & Hmin).
    apply Nat2Z.inj in Ed. subst d.
    repeat split; assumption.
Qed.

(** A repeated [distance] query is answered from the memo: after
    [distance(q1, q2)], asking again, in either argument order, gives the
    first answer and leaves the hardware object as it is. This holds for
    every content of the memo and also for [undefined] arguments. *)
Theorem distance_memo_round_trip : forall hw q1 q2,
    let v := fst (Topology.distance hw q1 q2) in
    let hw1 := snd (Topology.distance hw q1 q2) in
    Topology.distance hw1 q1 q2 = (v, hw1)
    /\ Topology.distance hw1 q2 q1 = (v, hw1).
Proof.
  intros hw q1 q2 v hw1.
  assert (H : Topology.cache_get (Topology.cacheKey q1 q2)
                                 (Topology.distanceCache hw1) = Some v).
  { unfold v, hw1, Topology.distance.
    destruct (Topology.cache_get (Topology.cacheKey q1 q2)
                                 (Topology.distanceCache hw)) as [w|] eqn:E;
      simpl; [exact E|].
    now rewrite key_eqb_refl. }
  split; unfold Topology.distance.
  - now rewrite H.
  - now rewrite cacheKey_comm, H.
Qed.

(** Every query with an [undefined] argument shares the memo key
    [NaN-NaN]: once such a query was answered, every later one, whatever
    its other argument, gets the first answer. So after
    [distance(undefined, undefined)], which is [0], the distance from
    [undefined] to any qubit is answered [0]. *)
Theorem undefined_distance_is_memoized_once : forall hw q q',
    let v := fst (Topology.distance hw None q) in
    let hw1 := snd (Topology.distance hw None q) in
    fst (Topology.distance hw1 None q') = v
    /\ fst (Topology.distance hw1 q' None) = v
    /\ (Topology.distanceCache hw = [] -> q = None -> v = Fin 0).
Proof.
  intros hw q q' v hw1.
  assert (K1 : Topology.cacheKey None q' = Topology.KeyNaN) by reflexivity.
  assert (K2 : Topology.cacheKey q' None = Topology.KeyNaN)
    by (destruct q'; reflexivity).
  assert (H : Topology.cache_get Topology.KeyNaN (Topology.distanceCache hw1)
              = Some v).
  { unfold v, hw1, Topology.distance. simpl Topology.cacheKey.
    destruct (Topology.cache_get Topology.KeyNaN (Topology.distanceCache hw))
      as [w|] eqn:E; simpl; [exact E|].
    reflexivity. }
  split; [|split].
  - unfold Topology.distance. now rewrite K1, H.
  - unfold Topology.distance. now rewrite K2, H.
  - intros E ->. unfold v, Topology.distance. rewrite E. reflexivity.
Qed.

Lemma undefined_distance_is_memoized_once_example :
  Topology.distanceCache lnn3 = []
  /\ fst (Topology.distance (snd (Topology.distance lnn3 None None))
                            None (Some 2)) = Fin 0.
Proof.
  split; [reflexivity|].
  destruct (undefined_distance_is_memoized_once lnn3 None (Some 2))
    as (H1 & _ & H3).
  rewrite H1. apply H3; reflexivity.
Defined.


(** On a hardware object the constructor built, two qubits are connected
    exactly when their distance is [1]. *)
Theorem connected_iff_distance_one : forall hw a b,
    built hw ->
    (Topology.isConnected hw (Some a) (Some b) = true
     <-> fst (Topology.distance hw (Some a) (Some b)) = Fin 1).
Proof.
  intros hw a b Hb.
  rewrite distance_value; [|now apply built_symmetric|apply Hb].
  split.
  - intro H. apply bfs_distance_adjacent; [now apply built_loop_free|exact H].
  - intro H.
    pose proof (bfs_distance_correct (Topology.graph hw) (Some a) (Some b)) as Hd.
    rewrite H in Hd. destruct Hd as (d & Ed & Hr & _).
    assert (d = 1) by lia. subst d.
    inversion Hr as [|k u v w Hin Hr']; subst.
    apply reach_zero in Hr'. inversion Hr'; subst.
    apply isConnected_In. exact Hin.
Qed.

Lemma connected_iff_distance_one_example :
  built lnn3
  /\ (Topology.isConnected lnn3 (Some 0) (Some 1) = true
      <-> fst (Topology.distance lnn3 (Some 0) (Some 1)) = Fin 1).
Proof.
  assert (H : built lnn3) by (split; reflexivity).
  split; [exact H|]. exact (connected_iff_distance_one lnn3 0 1 H).
Defined.

(** ** The three shapes: size, distances *)

Lemma reach_trans : forall g k1 u v,
    reach g k1 u v -> forall k2 w, reach g k2 v w -> reach g (k1 + k2) u w.
Proof.
  intros g k1 u v H. induction H as [u|k u x v Hin H IH]; intros k2 w H2.
  - exact H2.
  - simpl. eapply reach_step; [exact Hin|]. now apply IH.
Qed.

Lemma reach_edge : forall g a b,
    In b (nth a g []) -> reach g 1 (Some a) (Some b).
Proof.
  intros g a b H. eapply reach_step; [exact H|constructor].
Qed.

Lemma reach_from_number : forall g k u w,
    reach g k u w -> forall a, u = Some a -> exists b, w = Some b.
Proof.
  intros g k u w H. induction H as [u|k u x v Hin H IH]; intros a E.
  - now exists a.
  - now apply (IH x).
Qed.

(** What a distance is, in terms of walks: an upper and a lower bound. *)
Lemma is_distance_intro : forall g a b d,
    reach g d (Some a) (Some b) ->
    (forall k, reach g k (Some a) (Some b) -> d <= k) ->
    Topology.bfs_distance g (Some a) (Some b) = Fin (Z.of_nat d).
Proof.
  intros g a b d Hr Hmin.
  eapply is_distance_unique; [apply bfs_distance_correct|].
  exists d. auto.
Qed.

Lemma built_shape_distance : forall hw a b d,
    built hw ->
    reach (Topology.graph hw) d (Some a) (Some b) ->
    (forall k, reach (Topology.graph hw) k (Some a) (Some b) -> d <= k) ->
    fst (Topology.distance hw (Some a) (Some b)) = Fin (Z.of_nat d).
Proof.
  intros hw a b d Hb Hr Hmin.
  rewrite distance_value; [|now apply built_symmetric|apply Hb].
  now apply is_distance_intro.
Qed.

(** *** The chain *)

Lemma lnn_neighbor : forall n a b,
    In b (nth a (lnn_graph n) []) <->
    a < n /\ b < n /\ (b + 1 = a \/ a + 1 = b).
Proof.
  intros n a b. unfold lnn_graph. rewrite nth_map_seq.
  destruct (Nat.ltb_spec a n) as [Ha|Ha].
  - rewrite in_lnn_row. lia.
  - simpl. lia.
Qed.

Lemma lnn_walk_up : forall n d a,
    a + d < n -> reach (lnn_graph n) d (Some a) (Some (a + d)).
Proof.
  intros n d. induction d as [|d IH]; intros a H.
  - rewrite Nat.add_0_r. constructor.
  - eapply reach_step with (v := a + 1).
    + simpl. apply lnn_neighbor. lia.
    + replace (a + S d) with (a + 1 + d) by lia. apply IH. lia.
Qed.

Lemma lnn_walk_bound : forall n k u w,
    reach (lnn_graph n) k u w ->
    forall a b, u = Some a -> w = Some b -> a <= b + k /\ b <= a + k.
Proof.
  intros n k u w H. induction H as [u|k u x v Hin H IH]; intros a b Ea Eb.
  - subst. inversion Eb. lia.
  - subst. simpl in Hin. apply lnn_neighbor in Hin.
    specialize (IH x b eq_refl eq_refl). lia.
Qed.

Lemma lnn_symmetric_graph : forall n, symmetric_graph (lnn_graph n).
Proof. intros n a b H. apply lnn_neighbor in H. apply lnn_neighbor. lia. Qed.

Lemma lnn_bfs_distance : forall n a b,
    a < n -> b < n ->
    Topology.bfs_distance (lnn_graph n) (Some a) (Some b)
    = Fin (Z.abs (Z.of_nat a - Z.of_nat b)).
Proof.
  intros n a b Ha Hb.
  destruct (Nat.le_ge_cases a b) as [Hab|Hab].
  - replace (Z.abs (Z.of_nat a - Z.of_nat b)) with (Z.of_nat (b - a)) by lia.
    apply is_distance_intro.
    + replace b with (a + (b - a)) at 2 by lia. apply lnn_walk_up. lia.
    + intros k Hk. pose proof (lnn_walk_bound _ _ _ _ Hk a b eq_refl eq_refl). lia.
  - replace (Z.abs (Z.of_nat a - Z.of_nat b)) with (Z.of_nat (a - b)) by lia.
    apply is_distance_intro.
    + apply reach_sym; [apply lnn_symmetric_graph|].
      replace a with (b + (a - b)) at 2 by lia. apply lnn_walk_up. lia.
    + intros k Hk. pose proof (lnn_walk_bound _ _ _ _ Hk a b eq_refl eq_refl). lia.
Qed.

(** On the chain built for [qubits = n] (five when [n] is missing or [0])
    the device has [n] qubits and the distance between two of them is the
    difference of their ids. *)
Theorem lnn_distance : forall hw a b,
    built hw -> Topology.type hw = "lnn" ->
    a < or_default (Topology.qubits (Topology.params hw)) 5 ->
    b < or_default (Topology.qubits (Topology.params hw)) 5 ->
    length (Topology.graph hw) = or_default (Topology.qubits (Topology.params hw)) 5
    /\ fst (Topology.distance hw (Some a) (Some b))
       = Fin (Z.abs (Z.of_nat a - Z.of_nat b)).
Proof.
  intros hw a b Hb Ht Ha Hlt.
  assert (Eg : Topology.graph hw
               = lnn_graph (or_default (Topology.qubits (Topology.params hw)) 5)).
  { destruct Hb as [E _]. rewrite E, Ht. reflexivity. }
  split.
  - rewrite Eg. unfold lnn_graph. now rewrite length_map, length_seq.
  - rewrite distance_value; [|now apply built_symmetric|apply Hb].
    rewrite Eg. now apply lnn_bfs_distance.
Qed.

Lemma lnn_distance_example :
  fst (Topology.distance lnn3 (Some 2) (Some 0)) = Fin 2.
Proof.
  assert (H : built lnn3) by (split; reflexivity).
  exact (proj2 (lnn_distance lnn3 2 0 H eq_refl ltac:(simpl; lia) ltac:(simpl; lia))).
Defined.

(** *** The star *)

Lemma star_neighbor : forall n a b,
    In b (nth a (Topology.star_graph n) []) <->
    (a = 0 /\ 1 <= b < n) \/ (1 <= a < n /\ b = 0).
Proof.
  intros n a b. rewrite nth_star. destruct a as [|i].
  - rewrite in_seq. lia.
  - destruct (Nat.ltb_spec i (n - 1)); simpl; lia.
Qed.

Lemma star_walk_bound : forall n k u w,
    reach (Topology.star_graph n) k u w ->
    forall a b, u = Some a -> w = Some b ->
                (a = b \/ 1 <= k) /\ (a <> b -> a <> 0 -> b <> 0 -> 2 <= k).
Proof.
  intros n k u w H. induction H as [u|k u x v Hin H IH]; intros a b Ea Eb.
  - subst. inversion Eb. lia.
  - subst. simpl in Hin. apply star_neighbor in Hin.
    specialize (IH x b eq_refl eq_refl). lia.
Qed.

Lemma star_bfs_distance : forall n a b,
    a < n -> b < n ->
    Topology.bfs_distance (Topology.star_graph n) (Some a) (Some b)
    = Fin (star_hops a b).
Proof.
  intros n a b Ha Hb. unfold star_hops.
  destruct (Nat.eqb_spec a b) as [E|E].
  - subst. apply bfs_distance_self.
  - assert (Hs : forall x y, x < n -> y < n -> x <> y -> (x = 0 \/ y = 0) ->
                             reach (Topology.star_graph n) 1 (Some x) (Some y)).
    { intros x y Hx Hy Hxy H0. apply reach_edge. apply star_neighbor. lia. }
    destruct (Nat.eqb_spec a 0) as [E0|E0]; [|destruct (Nat.eqb_spec b 0) as [E1|E1]];
      simpl.
    + apply (is_distance_intro _ a b 1); [apply Hs; lia|].
      intros k Hk. pose proof (star_walk_bound _ _ _ _ Hk a b eq_refl eq_refl). lia.
    + apply (is_distance_intro _ a b 1); [apply Hs; lia|].
      intros k Hk. pose proof (star_walk_bound _ _ _ _ Hk a b eq_refl eq_refl). lia.
    + apply (is_distance_intro _ a b 2).
      * apply (reach_trans _ 1 (Some a) (Some 0)); [apply Hs; lia|apply Hs; lia].
      * intros k Hk.
        pose proof (star_walk_bound _ _ _ _ Hk a b eq_refl eq_refl). lia.
Qed.

(** On the star built for [qubits = n] the device has [n] qubits; the
    distance between two different qubits is [1] when one of them is the
    hub [0], and [2] otherwise. *)
Theorem star_distance : forall hw a b,
    built hw -> Topology.type hw = "star" ->
    a < or_default (Topology.qubits (Topology.params hw)) 5 ->
    b < or_default (Topology.qubits (Topology.params hw)) 5 ->
    length (Topology.graph hw) = or_default (Topology.qubits (Topology.params hw)) 5
    /\ fst (Topology.distance hw (Some a) (Some b)) = Fin (star_hops a b).
Proof.
  intros hw a b Hb Ht Ha Hlt.
  assert (Eg : Topology.graph hw
               = Topology.star_graph
                   (or_default (Topology.qubits (Topology.params hw)) 5)).
  { destruct Hb as [E _]. rewrite E, Ht. reflexivity. }
  split.
  - rewrite Eg. unfold Topology.star_graph. simpl.
    rewrite length_map, length_seq.
    pose proof (or_default_pos (Topology.qubits (Topology.params hw)) 5). lia.
  - rewrite distance_value; [|now apply built_symmetric|apply Hb].
    rewrite Eg. now apply star_bfs_distance.
Qed.

Lemma star_distance_example :
  fst (Topology.distance
         (Topology.mk "star" (Topology.mkParams (Some 5) None None) star5 [])
         (Some 3) (Some 4)) = Fin 2.
Proof.
  refine (proj2 (star_distance
                   (Topology.mk "star" (Topology.mkParams (Some 5) None None)
                                star5 [])
                   3 4 _ eq_refl _ _)).
  - split; reflexivity.
  - simpl; lia.
  - simpl; lia.
Defined.

(** *** The grid *)

Lemma coords_unique : forall cols r c r' c',
    c < cols -> c' < cols -> r * cols + c = r' * cols + c' ->
    r = r' /\ c = c'.
Proof.
  intros cols r c r' c' Hc Hc' E.
  assert (Hr : r = r').
  { destruct (Nat.lt_trichotomy r r') as [H|[H|H]]; [|exact H|]; exfalso; nia. }
  subst. lia.
Qed.

Lemma grid_neighbor : forall rows cols r c b,
    r < rows -> c < cols ->
    (In b (nth (r * cols + c) (grid_graph rows cols) []) <->
     exists r' c', r' < rows /\ c' < cols /\ b = r' * cols + c'
                   /\ ((r = r' /\ (c' + 1 = c \/ c + 1 = c'))
                       \/ (c = c' /\ (r' + 1 = r \/ r + 1 = r')))).
Proof.
  intros rows cols r c b Hr Hc.
  assert (Hcols : 0 < cols) by lia.
  rewrite (in_grid rows cols _ _ Hcols). split.
  - intros (r0 & c0 & Hr0 & Hc0 & E & Hin).
    apply coords_unique in E; [|assumption|assumption]. destruct E; subst r0 c0.
    apply in_grid_cell in Hin. destruct Hin as [[H ->]|[[H ->]|[[H ->]|[H ->]]]].
    + exists r, (c - 1). repeat split; try lia.
    + exists r, (c + 1). repeat split; try lia.
    + exists (r - 1), c. repeat split; try lia.
      destruct r as [|r]; [lia|]. simpl. rewrite Nat.sub_0_r. lia.
    + exists (r + 1), c. repeat split; try lia.
  - intros (r' & c' & Hr' & Hc' & -> & Hadj).
    exists r, c. repeat split; try assumption.
    apply in_grid_cell.
    destruct Hadj as [[<- [H|H]]|[<- [H|H]]].
    + left. split; lia.
    + right; left. split; lia.
    + right; right; left. split; [lia|]. subst r. lia.
    + right; right; right. split; [lia|]. subst r'. lia.
Qed.

Lemma grid_walk_right : forall rows cols r d c,
    r < rows -> c + d < cols ->
    reach (grid_graph rows cols) d (Some (r * cols + c)) (Some (r * cols + (c + d))).
Proof.
  intros rows cols r d. induction d as [|d IH]; intros c Hr H.
  - rewrite Nat.add_0_r. constructor.
  - eapply reach_step with (v := r * cols + (c + 1)).
    + simpl. apply grid_neighbor; [assumption|lia|].
      exists r, (c + 1). repeat split; try lia.
    + replace (c + S d) with (c + 1 + d) by lia. apply IH; [assumption|lia].
Qed.

Lemma grid_walk_down : forall rows cols c d r,
    c < cols -> r + d < rows ->
    reach (grid_graph rows cols) d (Some (r * cols + c)) (Some ((r + d) * cols + c)).
Proof.
  intros rows cols c d. induction d as [|d IH]; intros r Hc H.
  - rewrite Nat.add_0_r. constructor.
  - eapply reach_step with (v := (r + 1) * cols + c).
    + simpl. apply grid_neighbor; [lia|assumption|].
      exists (r + 1), c. repeat split; try lia.
    + replace (r + S d) with (r + 1 + d) by lia. apply IH; [assumption|lia].
Qed.

Lemma grid_walk_bound : forall rows cols k u w,
    reach (grid_graph rows cols) k u w ->
    forall r c r' c',
      r < rows -> c < cols -> c' < cols ->
      u = Some (r * cols + c) -> w = Some (r' * cols + c') ->
      (r - r') + (r' - r) + ((c - c') + (c' - c)) <= k.
Proof.
  intros rows cols k u w H.
  induction H as [u|k u x v Hin H IH]; intros r c r' c' Hr Hc Hc' Eu Ew.
  - subst. inversion Ew as [E]. apply coords_unique in E; [lia|assumption|assumption].
  - subst. simpl in Hin. apply grid_neighbor in Hin; [|assumption|assumption].
    destruct Hin as (r1 & c1 & Hr1 & Hc1 & -> & Hadj).
    specialize (IH r1 c1 r' c' Hr1 Hc1 Hc' eq_refl eq_refl). lia.
Qed.

Lemma grid_walk : forall rows cols r1 c1 r2 c2,
    r1 < rows -> c1 < cols -> r2 < rows -> c2 < cols ->
    reach (grid_graph rows cols)
          ((r1 - r2) + (r2 - r1) + ((c1 - c2) + (c2 - c1)))
          (Some (r1 * cols + c1)) (Some (r2 * cols + c2)).
Proof.
  intros rows cols r1 c1 r2 c2 Hr1 Hc1 Hr2 Hc2.
  assert (Hsym : symmetric_graph (grid_graph rows cols))
    by (apply grid_symmetric; lia).
  apply (reach_trans _ _ _ (Some (r2 * cols + c1))).
  - destruct (Nat.le_ge_cases r1 r2) as [H|H].
    + replace (r1 - r2 + (r2 - r1)) with (r2 - r1) by lia.
      replace r2 with (r1 + (r2 - r1)) at 2 by lia.
      apply grid_walk_down; lia.
    + replace (r1 - r2 + (r2 - r1)) with (r1 - r2) by lia.
      apply reach_sym; [exact Hsym|].
      replace r1 with (r2 + (r1 - r2)) at 2 by lia.
      apply grid_walk_down; lia.
  - destruct (Nat.le_ge_cases c1 c2) as [H|H].
    + replace (c1 - c2 + (c2 - c1)) with (c2 - c1) by lia.
      replace c2 with (c1 + (c2 - c1)) at 2 by lia.
      apply grid_walk_right; lia.
    + replace (c1 - c2 + (c2 - c1)) with (c1 - c2) by lia.
      apply reach_sym; [exact Hsym|].
      replace c1 with (c2 + (c1 - c2)) at 2 by lia.
      apply grid_walk_right; lia.
Qed.

(** On the grid built for [rows] and [cols] (three each when missing or
    [0]) the device has [rows * cols] qubits, and the distance between the
    qubit at row [r1], column [c1] and the one at row [r2], column [c2] is
    the number of rows plus the number of columns between them. *)
Theorem grid_distance : forall hw r1 c1 r2 c2,
    built hw -> Topology.type hw = "grid2d" ->
    r1 < or_default (Topology.rows (Topology.params hw)) 3 ->
    c1 < or_default (Topology.cols (Topology.params hw)) 3 ->
    r2 < or_default (Topology.rows (Topology.params hw)) 3 ->
    c2 < or_default (Topology.cols (Topology.params hw)) 3 ->
    length (Topology.graph hw)
    = or_default (Topology.rows (Topology.params hw)) 3
      * or_default (Topology.cols (Topology.params hw)) 3
    /\ fst (Topology.distance hw
              (Some (r1 * or_default (Topology.cols (Topology.params hw)) 3 + c1))
              (Some (r2 * or_default (Topology.cols (Topology.params hw)) 3 + c2)))
       = Fin (Z.abs (Z.of_nat r1 - Z.of_nat r2)
              + Z.abs (Z.of_nat c1 - Z.of_nat c2)).
Proof.
  intros hw r1 c1 r2 c2 Hb Ht Hr1 Hc1 Hr2 Hc2.
  set (rows := or_default (Topology.rows (Topology.params hw)) 3) in *.
  set (cols := or_default (Topology.cols (Topology.params hw)) 3) in *.
  assert (Eg : Topology.graph hw = grid_graph rows cols).
  { destruct Hb as [E _]. rewrite E, Ht. reflexivity. }
  split.
  - rewrite Eg. unfold grid_graph. apply length_blocks.
  - replace (Z.abs (Z.of_nat r1 - Z.of_nat r2) + Z.abs (Z.of_nat c1 - Z.of_nat c2))%Z
      with (Z.of_nat ((r1 - r2) + (r2 - r1) + ((c1 - c2) + (c2 - c1)))) by lia.
    apply built_shape_distance; [exact Hb| |]; rewrite Eg.
    + now apply grid_walk.
    + intros k Hk. eapply grid_walk_bound; eauto.
Qed.

Lemma grid_distance_example :
  fst (Topology.distance grid23 (Some 0) (Some 5)) = Fin 3.
Proof.
  assert (H : built grid23) by (split; reflexivity).
  exact (proj2 (grid_distance grid23 0 0 1 2 H eq_refl
                              ltac:(simpl; lia) ltac:(simpl; lia)
                              ltac:(simpl; lia) ltac:(simpl; lia))).
Defined.

(** *** Every generated shape is connected *)

Lemma lnn_connected : forall n a b,
    a < n -> b < n -> exists k, reach (lnn_graph n) k (Some a) (Some b).
Proof.
  intros n a b Ha Hb.
  destruct (Nat.le_ge_cases a b) as [H|H].
  - exists (b - a). replace b with (a + (b - a)) at 2 by lia.
    apply lnn_walk_up. lia.
  - exists (a - b). apply reach_sym; [apply lnn_symmetric_graph|].
    replace a with (b + (a - b)) at 2 by lia. apply lnn_walk_up. lia.
Qed.

Lemma star_connected : forall n a b,
    a < n -> b < n ->
    exists k, reach (Topology.star_graph n) k (Some a) (Some b).
Proof.
  intros n a b Ha Hb.
  assert (Hub : forall x, x < n -> exists k,
                   reach (Topology.star_graph n) k (Some x) (Some 0)).
  { intros [|x] Hx; [exists 0; constructor|].
    exists 1. apply reach_edge. apply star_neighbor. lia. }
  destruct (Hub a Ha) as (k1 & H1). destruct (Hub b Hb) as (k2 & H2).
  exists (k1 + k2). eapply reach_trans; [exact H1|].
  apply reach_sym; [apply star_symmetric|exact H2].
Qed.

Lemma grid_connected : forall rows cols a b,
    a < rows * cols -> b < rows * cols ->
    exists k, reach (grid_graph rows cols) k (Some a) (Some b).
Proof.
  intros rows cols a b Ha Hb.
  assert (Hc : 0 < cols) by (destruct cols; lia).
  assert (D : forall x, x < rows * cols ->
                        x = (x / cols) * cols + x mod cols
                        /\ x / cols < rows /\ x mod cols < cols).
  { intros x Hx. split; [|split].
    - rewrite (Nat.div_mod_eq x cols) at 1. lia.
    - apply Nat.Div0.div_lt_upper_bound. lia.
    - apply Nat.mod_upper_bound. lia. }
  destruct (D a Ha) as (Ea & Hra & Hca). destruct (D b Hb) as (Eb & Hrb & Hcb).
  pose proof (grid_walk rows cols _ _ _ _ Hra Hca Hrb Hcb) as W.
  rewrite <- Ea, <- Eb in W. eexists. exact W.
Qed.

Lemma built_connected : forall hw,
    built hw -> known_shape (Topology.type hw) ->
    connected_below (length (Topology.graph hw)) (Topology.graph hw).
Proof.
  intros hw Hb Hk a b Ha Hlt.
  destruct Hb as [E _]. rewrite E in *. clear E.
  destruct Hk as [Ht|[Ht|Ht]]; rewrite Ht in *;
    unfold Topology.buildGraph in *; simpl in Ha, Hlt |- *.
  - change (map (Topology.lnn_row ?n) (seq 0 ?n)) with (lnn_graph n) in *.
    unfold lnn_graph in Ha, Hlt. rewrite length_map, length_seq in Ha, Hlt.
    now apply lnn_connected.
  - change (flat_map _ _) with
      (grid_graph (or_default (Topology.rows (Topology.params hw)) 3)
                  (or_default (Topology.cols (Topology.params hw)) 3)) in *.
    unfold grid_graph in Ha, Hlt. rewrite length_blocks in Ha, Hlt.
    now apply grid_connected.
  - unfold Topology.star_graph in Ha, Hlt. simpl in Ha, Hlt.
    rewrite length_map, length_seq in Ha, Hlt.
    pose proof (or_default_pos (Topology.qubits (Topology.params hw)) 5).
    apply star_connected; lia.
Qed.

(** A hardware object built for one of the three shapes is connected: any
    two of its qubits are joined by a walk, so no distance between them is
    [Infinity]. For any other shape tag the graph is empty. *)
Theorem generated_shapes_connected : forall hw,
    built hw ->
    (known_shape (Topology.type hw) ->
     forall a b,
       a < length (Topology.graph hw) -> b < length (Topology.graph hw) ->
       (exists k, reach (Topology.graph hw) k (Some a) (Some b))
       /\ fst (Topology.distance hw (Some a) (Some b)) <> Infinity)
    /\ (~ known_shape (Topology.type hw) -> Topology.graph hw = []).
Proof.
  intros hw Hb. split.
  - intros Hk a b Ha Hlt.
    assert (Hr : exists k, reach (Topology.graph hw) k (Some a) (Some b))
      by (now apply built_connected).
    split; [exact Hr|].
    rewrite distance_value; [|now apply built_symmetric|apply Hb].
    pose proof (bfs_distance_correct (Topology.graph hw) (Some a) (Some b)) as Hd.
    intro E. rewrite E in Hd. destruct Hr as (k & Hr). exact (Hd k Hr).
  - intro Hn. destruct Hb as [E _]. rewrite E.
    unfold Topology.buildGraph.
    destruct (String.eqb_spec (Topology.type hw) "lnn") as [H|_];
      [exfalso; apply Hn; left; exact H|].
    destruct (String.eqb_spec (Topology.type hw) "grid2d") as [H|_];
      [exfalso; apply Hn; right; left; exact H|].
    destruct (String.eqb_spec (Topology.type hw) "star") as [H|_];
      [exfalso; apply Hn; right; right; exact H|].
    reflexivity.
Qed.

Lemma generated_shapes_connected_example :
  exists k, reach (Topology.graph grid23) k (Some 0) (Some 5).
Proof.
  assert (H : built grid23) by (split; reflexivity).
  refine (proj1 (proj1 (generated_shapes_connected grid23 H) _ 0 5 _ _)).
  - right; left; reflexivity.
  - simpl; lia.
  - simpl; lia.
Defined.

(** ** The hardware edges *)

Lemma lnn_row_NoDup : forall n a, NoDup (Topology.lnn_row n a).
Proof.
  intros n a. unfold Topology.lnn_row.
  destruct (0 <? a) eqn:E1; destruct (a <? n - 1); simpl;
    repeat constructor; simpl; try tauto.
  apply Nat.ltb_lt in E1. intros [H|[]]. lia.
Qed.

Lemma grid_cell_NoDup : forall rows cols r c,
    0 < cols -> c < cols -> NoDup (Topology.grid_cell rows cols r c).
Proof.
  intros rows cols r c Hcols Hc. unfold Topology.grid_cell.
  set (id := r * cols + c).
  assert (Hid : cols * r <= id) by (unfold id; lia).
  destruct (Nat.ltb_spec 0 c); destruct (Nat.ltb_spec c (cols - 1));
    destruct (Nat.ltb_spec 0 r); destruct (Nat.ltb_spec r (rows - 1)); simpl;
      repeat constructor; simpl; intuition try lia; nia.
Qed.

Lemma NoDup_map_pair : forall (a : nat) l,
    NoDup l -> NoDup (map (fun b : nat => (a, b)) l).
Proof.
  intros a l H. apply Finite.Injective_map_NoDup; [|exact H].
  intros x y E. now inversion E.
Qed.

Lemma NoDup_filter' : forall (f : nat -> bool) l, NoDup l -> NoDup (filter f l).
Proof. intros f l H. now apply NoDup_filter. Qed.

Lemma edges_NoDup_from : forall g k n,
    (forall a, NoDup (nth a g [])) ->
    NoDup (flat_map
             (fun q1 => map (fun q2 => (q1, q2))
                            (filter (fun q2 => q1 <? q2) (nth q1 g [])))
             (seq k n)).
Proof.
  intros g k n Hg. revert k. induction n as [|n IH]; intro k; simpl.
  - constructor.
  - apply NoDup_app.
    + apply NoDup_map_pair, NoDup_filter', Hg.
    + apply IH.
    + intros [x y] H1 H2. apply in_map_iff in H1. destruct H1 as (b & E & _).
      inversion E; subst. apply in_flat_map in H2.
      destruct H2 as (q & Hq & H2). apply in_seq in Hq.
      apply in_map_iff in H2. destruct H2 as (b' & E' & _). inversion E'. lia.
Qed.

Lemma built_rows_NoDup : forall hw a,
    built hw -> NoDup (nth a (Topology.graph hw) []).
Proof.
  intros hw a [E _]. rewrite E. unfold Topology.buildGraph.
  destruct (String.eqb _ "lnn").
  { rewrite nth_map_seq. destruct (_ <? _); [apply lnn_row_NoDup|constructor]. }
  destruct (String.eqb _ "grid2d").
  { set (rows := or_default _ 3). set (cols := or_default (Topology.cols _) 3).
    assert (Hc : 0 < cols) by (apply or_default_pos; lia).
    destruct (Nat.lt_ge_cases a (rows * cols)) as [Ha|Ha].
    - replace a with ((a / cols) * cols + a mod cols)
        by (rewrite (Nat.div_mod_eq a cols) at 3; lia).
      rewrite nth_blocks.
      + apply grid_cell_NoDup; [exact Hc|]. apply Nat.mod_upper_bound. lia.
      + apply Nat.Div0.div_lt_upper_bound. lia.
      + apply Nat.mod_upper_bound. lia.
    - rewrite nth_overflow; [constructor|]. now rewrite length_blocks. }
  destruct (String.eqb _ "star").
  { rewrite nth_star. destruct a as [|i]; [apply seq_NoDup|].
    destruct (_ <? _); repeat constructor. simpl. tauto. }
  destruct a; constructor.
Qed.

(** [getValidSwaps()] lists the hardware edges: a pair [(a, b)] is listed
    exactly when [a < b] and the two qubits are connected; on a hardware
    object the constructor built no pair is listed twice, and every
    connected pair is listed in one of its two orders. *)
Theorem valid_swaps_are_the_edges : forall hw,
    (forall a b,
        In (a, b) (GeneticSwapOptimizer.getValidSwaps hw)
        <-> a < b /\ Topology.isConnected hw (Some a) (Some b) = true)
    /\ (built hw ->
        NoDup (GeneticSwapOptimizer.getValidSwaps hw)
        /\ forall a b,
            Topology.isConnected hw (Some a) (Some b) = true ->
            In (Nat.min a b, Nat.max a b) (GeneticSwapOptimizer.getValidSwaps hw)).
Proof.
  intro hw.
  assert (Hin : forall a b,
             In (a, b) (GeneticSwapOptimizer.getValidSwaps hw)
             <-> a < b /\ Topology.isConnected hw (Some a) (Some b) = true).
  { intros a b. rewrite isConnected_In.
    unfold GeneticSwapOptimizer.getValidSwaps. rewrite in_flat_map. split.
    - intros (q & Hq & H). apply in_map_iff in H. destruct H as (y & E & H).
      inversion E; subst. apply filter_In in H. destruct H as [H1 H2].
      apply Nat.ltb_lt in H2. auto.
    - intros [Hlt H]. exists a. split.
      + apply in_seq. split; [lia|]. simpl.
        destruct (Nat.lt_ge_cases a (length (Topology.graph hw))) as [L|L];
          [exact L|]. rewrite nth_overflow in H by exact L. contradiction.
      + apply in_map_iff. exists b. split; [reflexivity|].
        apply filter_In. split; [exact H|]. now apply Nat.ltb_lt. }
  split; [exact Hin|]. intro Hb. split.
  - unfold GeneticSwapOptimizer.getValidSwaps. apply edges_NoDup_from.
    intro a. now apply built_rows_NoDup.
  - intros a b H. apply Hin.
    assert (Hne : a <> b).
    { intros ->. apply isConnected_In in H.
      exact (built_loop_free hw Hb b H). }
    destruct (Nat.lt_ge_cases a b) as [L|L].
    + rewrite Nat.min_l, Nat.max_r by lia. split; [exact L|exact H].
    + rewrite Nat.min_r, Nat.max_l by lia. split; [lia|].
      apply isConnected_In. apply built_symmetric; [exact Hb|].
      now apply isConnected_In.
Qed.

Lemma valid_swaps_are_the_edges_example :
  built lnn3 /\ NoDup (GeneticSwapOptimizer.getValidSwaps lnn3).
Proof.
  assert (H : built lnn3) by (split; reflexivity).
  split; [exact H|].
  exact (proj1 (proj2 (valid_swaps_are_the_edges lnn3) H)).
Defined.

(** * The interaction table of a circuit *)

Lemma ikey_eqb_eq : forall k1 k2,
    InteractionGraph.key_eqb k1 k2 = true <-> k1 = k2.
Proof.
  intros [a b] [c d]. unfold InteractionGraph.key_eqb. simpl.
  rewrite andb_true_iff, !Nat.eqb_eq. split.
  - intros [-> ->]. reflexivity.
  - intro E. inversion E. auto.
Qed.

Lemma ikey_eqb_refl : forall k, InteractionGraph.key_eqb k k = true.
Proof. intro k. now apply ikey_eqb_eq. Qed.

Lemma ikey_eqb_sym_bool : forall k1 k2,
    InteractionGraph.key_eqb k1 k2 = InteractionGraph.key_eqb k2 k1.
Proof.
  intros [a b] [c d]. unfold InteractionGraph.key_eqb. simpl.
  now rewrite (Nat.eqb_sym a c), (Nat.eqb_sym b d).
Qed.

Lemma edgeKey_comm : forall a b,
    InteractionGraph.edgeKey a b = InteractionGraph.edgeKey b a.
Proof.
  intros a b. unfold InteractionGraph.edgeKey.
  now rewrite Nat.min_comm, Nat.max_comm.
Qed.

(** Reading the table after one update. *)
Lemma get_touch : forall key idx edges k,
    InteractionGraph.get k (InteractionGraph.touch key idx edges)
    = if InteractionGraph.key_eqb k key
      then Some (match InteractionGraph.get key edges with
                 | Some e => InteractionGraph.mkEdge
                               (S (InteractionGraph.count e))
                               (InteractionGraph.firstSeen e) idx
                 | None => InteractionGraph.mkEdge 1 idx idx
                 end)
      else InteractionGraph.get k edges.
Proof.
  intros key idx edges k. induction edges as [|[k0 e0] rest IH]; simpl.
  - destruct (InteractionGraph.key_eqb k key); reflexivity.
  - destruct (InteractionGraph.key_eqb key k0) eqn:E0; simpl.
    + apply ikey_eqb_eq in E0. subst k0.
      destruct (InteractionGraph.key_eqb k key); reflexivity.
    + destruct (InteractionGraph.key_eqb k k0) eqn:E1.
      * apply ikey_eqb_eq in E1. subst k0.
        destruct (InteractionGraph.key_eqb k key) eqn:E2; [|reflexivity].
        apply ikey_eqb_eq in E2. subst k. rewrite ikey_eqb_refl in E0.
        discriminate.
      * exact IH.
Qed.

Lemma on_pair_step : forall key g,
    on_pair key g = true ->
    exists a b, QuantumCircuit.gqubits g = [a; b]
                /\ InteractionGraph.edgeKey a b = key.
Proof.
  intros key g H. unfold on_pair in H.
  destruct (QuantumCircuit.gqubits g) as [|a [|b [|x l]]]; try discriminate.
  exists a, b. split; [reflexivity|]. now apply ikey_eqb_eq.
Qed.

Lemma build_from_count : forall key gs idx edges,
    count_of key (InteractionGraph.build_from gs idx edges)
    = count_of key edges + length (filter (on_pair key) gs).
Proof.
  intros key gs. induction gs as [|g gs IH]; intros idx edges; simpl.
  - lia.
  - unfold on_pair at 1.
    destruct (QuantumCircuit.gqubits g) as [|a [|b [|x l]]];
      try (rewrite IH; reflexivity).
    rewrite IH. unfold count_of at 1. rewrite get_touch.
    rewrite (ikey_eqb_sym_bool key (InteractionGraph.edgeKey a b)).
    destruct (InteractionGraph.key_eqb (InteractionGraph.edgeKey a b) key) eqn:E.
    + apply ikey_eqb_eq in E. rewrite E. unfold count_of. simpl.
      destruct (InteractionGraph.get key edges); simpl; lia.
    + unfold count_of. lia.
Qed.

Lemma on_pair_acts_on : forall q1 q2 g,
    on_pair (InteractionGraph.edgeKey q1 q2) g = acts_on q1 q2 g.
Proof.
  intros q1 q2 g. unfold on_pair, acts_on.
  destruct (QuantumCircuit.gqubits g) as [|a [|b [|x l]]]; try reflexivity.
  unfold InteractionGraph.key_eqb, InteractionGraph.edgeKey. simpl.
  destruct (Nat.eqb_spec a q1), (Nat.eqb_spec b q2), (Nat.eqb_spec a q2),
    (Nat.eqb_spec b q1), (Nat.eqb_spec (Nat.min a b) (Nat.min q1 q2)),
    (Nat.eqb_spec (Nat.max a b) (Nat.max q1 q2)); simpl; try reflexivity;
      exfalso; lia.
Qed.

(** [getInteractionWeight(q1, q2)] is the number of two-qubit gates of the
    circuit that act on [q1] and [q2], in either order; it is [0] for a
    pair no gate acts on, and the same for [(q2, q1)]. *)
Theorem interaction_weight_counts : forall c q1 q2,
    InteractionGraph.getInteractionWeight c q1 q2
    = length (filter (acts_on q1 q2) (QuantumCircuit.gates c))
    /\ InteractionGraph.getInteractionWeight c q2 q1
       = InteractionGraph.getInteractionWeight c q1 q2.
Proof.
  intros c q1 q2. split.
  - change (InteractionGraph.getInteractionWeight c q1 q2)
      with (count_of (InteractionGraph.edgeKey q1 q2)
                     (InteractionGraph.build_from (QuantumCircuit.gates c) 0 [])).
    rewrite build_from_count. simpl.
    f_equal. apply filter_ext. intro g. apply on_pair_acts_on.
  - unfold InteractionGraph.getInteractionWeight.
    now rewrite (edgeKey_comm q2 q1).
Qed.

(** ** First and last occurrence *)

Lemma on_pair_unique : forall k1 k2 g,
    on_pair k1 g = true -> on_pair k2 g = true -> k1 = k2.
Proof.
  intros k1 k2 g H1 H2.
  destruct (on_pair_step _ _ H1) as (a & b & E1 & <-).
  destruct (on_pair_step _ _ H2) as (a' & b' & E2 & <-).
  rewrite E1 in E2. now inversion E2.
Qed.

Lemma nth_error_snoc : forall (A : Type) (l : list A) x j y,
    nth_error (l ++ [x]) j = Some y ->
    (j < length l /\ nth_error l j = Some y) \/ (j = length l /\ y = x).
Proof.
  intros A l x j y H.
  destruct (Nat.lt_ge_cases j (length l)) as [L|L].
  - left. split; [exact L|]. now rewrite nth_error_app1 in H.
  - right. rewrite nth_error_app2 in H by exact L.
    destruct (j - length l) as [|d] eqn:E.
    + simpl in H. inversion H. split; [lia|reflexivity].
    + simpl in H. destruct d; discriminate.
Qed.

Lemma seen_ok_skip : forall done edges key g,
    on_pair key g = false ->
    seen_ok done edges key -> seen_ok (done ++ [g]) edges key.
Proof.
  intros done edges key g Hg H. unfold seen_ok in *.
  destruct (InteractionGraph.get key edges) as [e|].
  - destruct H as ((g1 & N1 & P1) & (g2 & N2 & P2) & Hall).
    split; [|split].
    + exists g1. split; [|exact P1].
      rewrite nth_error_app1; [exact N1|]. apply nth_error_Some. congruence.
    + exists g2. split; [|exact P2].
      rewrite nth_error_app1; [exact N2|]. apply nth_error_Some. congruence.
    + intros j g' N P. apply nth_error_snoc in N.
      destruct N as [[_ N]|[_ ->]]; [now apply (Hall j g')|congruence].
  - intros g' Hin. apply in_app_or in Hin. destruct Hin as [Hin|[<-|[]]]; auto.
Qed.

Lemma seen_ok_touch : forall done edges g a b key,
    QuantumCircuit.gqubits g = [a; b] ->
    (forall k, seen_ok done edges k) ->
    seen_ok (done ++ [g])
            (InteractionGraph.touch (InteractionGraph.edgeKey a b)
                                    (length done) edges) key.
Proof.
  intros done edges g a b key Eg Hall.
  assert (Pg : on_pair (InteractionGraph.edgeKey a b) g = true).
  { unfold on_pair. rewrite Eg. apply ikey_eqb_refl. }
  destruct (InteractionGraph.key_eqb key (InteractionGraph.edgeKey a b)) eqn:E.
  - apply ikey_eqb_eq in E. subst key.
    assert (Nlast : nth_error (done ++ [g]) (length done) = Some g).
    { rewrite nth_error_app2 by lia. now rewrite Nat.sub_diag. }
    specialize (Hall (InteractionGraph.edgeKey a b)).
    unfold seen_ok in *. rewrite get_touch, ikey_eqb_refl.
    destruct (InteractionGraph.get _ edges) as [e|]; simpl.
    + destruct Hall as ((g1 & N1 & P1) & (g2 & N2 & P2) & Hall).
      assert (L1 : InteractionGraph.firstSeen e < length done)
        by (apply nth_error_Some; congruence).
      split; [|split].
      * exists g1. split; [|exact P1]. now rewrite nth_error_app1.
      * exists g. auto.
      * intros j g' N P. apply nth_error_snoc in N.
        destruct N as [[L N]|[-> _]]; [|lia].
        destruct (Hall j g' N P). lia.
    + split; [|split]; try (exists g; auto).
      intros j g' N P. apply nth_error_snoc in N.
      destruct N as [[L N]|[-> _]]; [|lia].
      apply nth_error_In in N. rewrite (Hall g' N) in P. discriminate.
  - assert (Hg : on_pair key g = false).
    { destruct (on_pair key g) eqn:P; [|reflexivity].
      rewrite (on_pair_unique _ _ _ P Pg), ikey_eqb_refl in E. discriminate. }
    pose proof (seen_ok_skip done edges key g Hg (Hall key)) as H.
    unfold seen_ok in *. now rewrite get_touch, E.
Qed.

Lemma build_from_seen : forall gs done edges,
    (forall k, seen_ok done edges k) ->
    forall k, seen_ok (done ++ gs)
                      (InteractionGraph.build_from gs (length done) edges) k.
Proof.
  induction gs as [|g gs IH]; intros done edges H k.
  - rewrite app_nil_r. apply H.
  - assert (Step : forall edges',
               (forall k, seen_ok (done ++ [g]) edges' k) ->
               seen_ok (done ++ g :: gs)
                       (InteractionGraph.build_from gs (S (length done)) edges') k).
    { intros edges' H'. specialize (IH (done ++ [g]) edges' H' k).
      rewrite <- app_assoc in IH. simpl in IH.
      rewrite length_app in IH. simpl in IH.
      now rewrite Nat.add_1_r in IH. }
    simpl.
    destruct (QuantumCircuit.gqubits g) as [|a [|b [|x l]]] eqn:Eg;
      try (apply Step; intro k'; apply seen_ok_skip; [|apply H];
           unfold on_pair; now rewrite Eg).
    apply Step. intro k'. now apply seen_ok_touch.
Qed.

(** The entry of the table for a pair of logical qubits records where that
    pair occurs: [firstSeen] and [lastSeen] are positions of gates acting
    on the pair, every gate acting on it lies between them, and a pair
    without entry is acted on by no gate. *)
Theorem interaction_first_and_last_seen : forall c q1 q2,
    match InteractionGraph.get (InteractionGraph.edgeKey q1 q2)
                               (InteractionGraph.buildGraph c) with
    | Some e =>
        (exists g, nth_error (QuantumCircuit.gates c)
                             (InteractionGraph.firstSeen e) = Some g
                   /\ acts_on q1 q2 g = true)
        /\ (exists g, nth_error (QuantumCircuit.gates c)
                                (InteractionGraph.lastSeen e) = Some g
                      /\ acts_on q1 q2 g = true)
        /\ (forall j g, nth_error (QuantumCircuit.gates c) j = Some g ->
                        acts_on q1 q2 g = true ->
                        InteractionGraph.firstSeen e <= j
                        /\ j <= InteractionGraph.lastSeen e)
    | None => forall g, In g (QuantumCircuit.gates c) -> acts_on q1 q2 g = false
    end.
Proof.
  intros c q1 q2.
  pose proof (build_from_seen (QuantumCircuit.gates c) [] []
                (fun k g (H : In g []) => match H with end)
                (InteractionGraph.edgeKey q1 q2)) as H.
  simpl in H. unfold seen_ok in H. unfold InteractionGraph.buildGraph.
  destruct (InteractionGraph.get _ _) as [e|].
  - destruct H as ((g1 & N1 & P1) & (g2 & N2 & P2) & Hall).
    rewrite on_pair_acts_on in P1, P2.
    split; [exists g1; auto|]. split; [exists g2; auto|].
    intros j g N P. apply (Hall j g N). now rewrite on_pair_acts_on.
  - intros g Hin. rewrite <- on_pair_acts_on. now apply H.
Qed.

(** ** The whole table *)

Lemma touch_keys : forall key idx edges,
    map fst (InteractionGraph.touch key idx edges)
    = match InteractionGraph.get key edges with
      | Some _ => map fst edges
      | None => map fst edges ++ [key]
      end.
Proof.
  intros key idx edges. induction edges as [|[k e] rest IH]; simpl.
  - reflexivity.
  - destruct (InteractionGraph.key_eqb key k); simpl; [reflexivity|].
    rewrite IH. destruct (InteractionGraph.get key rest); reflexivity.
Qed.

Lemma get_None_keys : forall key edges,
    InteractionGraph.get key edges = None -> ~ In key (map fst edges).
Proof.
  intros key edges. induction edges as [|[k e] rest IH]; simpl; [tauto|].
  destruct (InteractionGraph.key_eqb key k) eqn:E; [discriminate|].
  intros H [Hk|Hin]; [|now apply IH].
  subst k. rewrite ikey_eqb_refl in E. discriminate.
Qed.

Lemma touch_total : forall key idx edges,
    list_sum (map (fun ke => InteractionGraph.count (snd ke))
                  (InteractionGraph.touch key idx edges))
    = S (list_sum (map (fun ke => InteractionGraph.count (snd ke)) edges)).
Proof.
  intros key idx edges. induction edges as [|[k e] rest IH]; simpl.
  - reflexivity.
  - destruct (InteractionGraph.key_eqb key k); simpl; [reflexivity|].
    rewrite IH. lia.
Qed.

Lemma touch_entries : forall (P : InteractionGraph.Key * InteractionGraph.Edge -> Prop)
                             key idx edges,
    (forall k e f l, P (k, e) -> P (k, InteractionGraph.mkEdge
                                         (S (InteractionGraph.count e)) f l)) ->
    P (key, InteractionGraph.mkEdge 1 idx idx) ->
    Forall P edges -> Forall P (InteractionGraph.touch key idx edges).
Proof.
  intros P key idx edges Hup Hnew H.
  induction H as [|[k e] rest Hx Hr IH]; simpl.
  - constructor; [exact Hnew|constructor].
  - destruct (InteractionGraph.key_eqb key k).
    + constructor; [now apply Hup|exact Hr].
    + constructor; assumption.
Qed.

Lemma build_from_table : forall gs idx edges,
    table_ok edges ->
    table_ok (InteractionGraph.build_from gs idx edges)
    /\ list_sum (map (fun ke => InteractionGraph.count (snd ke))
                     (InteractionGraph.build_from gs idx edges))
       = list_sum (map (fun ke => InteractionGraph.count (snd ke)) edges)
         + length (filter (fun g => length (QuantumCircuit.gqubits g) =? 2) gs).
Proof.
  induction gs as [|g gs IH]; intros idx edges H; simpl.
  - split; [exact H|lia].
  - destruct (QuantumCircuit.gqubits g) as [|a [|b [|x l]]]; simpl;
      try (now apply IH).
    pose (T := InteractionGraph.touch (InteractionGraph.edgeKey a b) idx edges).
    assert (HT : table_ok T).
    { destruct H as [Hn Hf]. split.
      - unfold T. rewrite touch_keys.
        destruct (InteractionGraph.get _ edges) eqn:E; [exact Hn|].
        apply NoDup_app; [exact Hn|repeat constructor; simpl; tauto|].
        intros k Hk [<-|[]]. now apply get_None_keys in E.
      - unfold T. apply touch_entries; [| |exact Hf].
        + simpl. intros k e _ _ [H1 _]. split; [exact H1|lia].
        + simpl. split; [lia|lia]. }
    destruct (IH (S idx) T HT) as [H1 H2]. fold T. split; [exact H1|].
    rewrite H2. unfold T. rewrite touch_total. lia.
Qed.

(** The table [buildGraph] makes has one entry per pair of logical qubits
    some two-qubit gate acts on: no key occurs twice, every key is sorted,
    every count is at least one, and the counts add up to the number of
    two-qubit gates, the length of [getTwoQubitGates()]. *)
Theorem interaction_table_total : forall c,
    NoDup (map fst (InteractionGraph.buildGraph c))
    /\ Forall (fun ke => fst (fst ke) <= snd (fst ke)
                         /\ 1 <= InteractionGraph.count (snd ke))
              (InteractionGraph.buildGraph c)
    /\ list_sum (map (fun ke => InteractionGraph.count (snd ke))
                     (InteractionGraph.buildGraph c))
       = length (QuantumCircuit.getTwoQubitGates c).
Proof.
  intro c. unfold InteractionGraph.buildGraph.
  destruct (build_from_table (QuantumCircuit.gates c) 0 [])
    as [[H1 H2] H3]; [split; constructor|].
  split; [exact H1|]. split; [exact H2|]. rewrite H3. reflexivity.
Qed.

(** ** The look-ahead window *)

Lemma upcoming_from_spec : forall gs k n,
    let up := InteractionGraph.upcoming_from gs k n in
    length up <= n
    /\ Forall (fun i =>
                 k <= InteractionGraph.idistance i
                 /\ InteractionGraph.idistance i < k + n
                 /\ (exists g, nth_error gs (InteractionGraph.idistance i - k)
                               = Some g
                               /\ QuantumCircuit.gqubits g
                                  = InteractionGraph.iqubits i)
                 /\ length (InteractionGraph.iqubits i) = 2
                 /\ InteractionGraph.iweight i
                    = (1 / (1 + inject_Z (Z.of_nat (InteractionGraph.idistance i))))%Q)
              up
    /\ StronglySorted lt (map InteractionGraph.idistance up)
    /\ (forall d g, d < n -> nth_error gs d = Some g ->
                    length (QuantumCircuit.gqubits g) = 2 ->
                    exists i, In i up /\ InteractionGraph.idistance i = k + d).
Proof.
  intros gs k n. cbv zeta. revert gs k. induction n as [|n IH]; intros gs k; simpl.
  - destruct gs; simpl; (split; [lia|]); (split; [constructor|]);
      (split; [constructor|]); intros d g' H; lia.
  - destruct gs as [|g gs]; simpl.
    + split; [lia|]. split; [constructor|]. split; [constructor|].
      intros d g' _ H. destruct d; discriminate.
    + destruct (IH gs (S k)) as (L & F & Srt & C).
      assert (F' : Forall (fun i =>
                 k <= InteractionGraph.idistance i
                 /\ InteractionGraph.idistance i < k + S n
                 /\ (exists g0, nth_error (g :: gs) (InteractionGraph.idistance i - k)
                               = Some g0
                               /\ QuantumCircuit.gqubits g0
                                  = InteractionGraph.iqubits i)
                 /\ length (InteractionGraph.iqubits i) = 2
                 /\ InteractionGraph.iweight i
                    = (1 / (1 + inject_Z (Z.of_nat (InteractionGraph.idistance i))))%Q)
              (InteractionGraph.upcoming_from gs (S k) n)).
      { eapply Forall_impl; [|exact F]. simpl.
        intros i (H1 & H2 & (g0 & N & Q0) & H3 & H4).
        split; [lia|]. split; [lia|]. split; [|auto].
        exists g0. split; [|exact Q0].
        replace (InteractionGraph.idistance i - k)
          with (S (InteractionGraph.idistance i - S k)) by lia. exact N. }
      destruct (Nat.eqb_spec (length (QuantumCircuit.gqubits g)) 2) as [E|E].
      * split; [simpl; lia|]. split; [|split].
        -- constructor; [|exact F']. simpl. split; [lia|]. split; [lia|].
           split; [|auto]. exists g. rewrite Nat.sub_diag. auto.
        -- simpl. constructor; [exact Srt|].
           rewrite Forall_map. eapply Forall_impl; [|exact F].
           simpl. intros i (H1 & _). lia.
        -- intros [|d] g0 Hd N L2.
           ++ simpl in N. inversion N; subst g0.
              eexists. split; [left; reflexivity|simpl; lia].
           ++ simpl in N. destruct (C d g0 ltac:(lia) N L2) as (i & Hi & Ed).
              exists i. split; [right; exact Hi|lia].
      * split; [lia|]. split; [exact F'|]. split; [exact Srt|].
        intros [|d] g0 Hd N L2.
        -- simpl in N. inversion N; subst g0. contradiction.
        -- simpl in N. destruct (C d g0 ltac:(lia) N L2) as (i & Hi & Ed).
           exists i. split; [exact Hi|lia].
Qed.

Lemma nth_error_skipn : forall (A : Type) (l : list A) n d,
    nth_error (skipn n l) d = nth_error l (n + d).
Proof.
  intros A l n. revert l. induction n as [|n IH]; intros [|x l] d; simpl;
    try reflexivity.
  - now destruct d.
  - apply IH.
Qed.

(** [getUpcomingInteractions(currentGateIdx, windowSize)] reports exactly
    the two-qubit gates at the positions [currentGateIdx + d] for
    [d < windowSize], in order of [d]: each entry carries the operands of
    its gate, its offset [d] as [distance] and the weight [1 / (1 + d)],
    which lies in [(0, 1]]. It is empty when [currentGateIdx] is past the
    last gate. *)
Theorem upcoming_interactions_window : forall c cur w,
    let up := InteractionGraph.getUpcomingInteractions c cur w in
    length up <= w
    /\ (length (QuantumCircuit.gates c) <= cur -> up = [])
    /\ Forall (fun i =>
                 InteractionGraph.idistance i < w
                 /\ (exists g, nth_error (QuantumCircuit.gates c)
                                         (cur + InteractionGraph.idistance i)
                               = Some g
                               /\ QuantumCircuit.gqubits g
                                  = InteractionGraph.iqubits i)
                 /\ length (InteractionGraph.iqubits i) = 2
                 /\ InteractionGraph.iweight i
                    = (1 / (1 + inject_Z (Z.of_nat (InteractionGraph.idistance i))))%Q
                 /\ (0 < InteractionGraph.iweight i)%Q
                 /\ (InteractionGraph.iweight i <= 1)%Q)
              up
    /\ StronglySorted lt (map InteractionGraph.idistance up)
    /\ (forall d g, d < w ->
                    nth_error (QuantumCircuit.gates c) (cur + d) = Some g ->
                    length (QuantumCircuit.gqubits g) = 2 ->
                    exists i, In i up /\ InteractionGraph.idistance i = d).
Proof.
  intros c cur w up. unfold up, InteractionGraph.getUpcomingInteractions.
  destruct (upcoming_from_spec (skipn cur (QuantumCircuit.gates c)) 0 w)
    as (L & F & Srt & C).
  split; [exact L|]. split; [|split; [|split]].
  - intro H. rewrite skipn_all2 by exact H. destruct w; reflexivity.
  - eapply Forall_impl; [|exact F]. simpl.
    intros i (_ & H2 & (g & N & Q0) & H3 & H4).
    split; [exact H2|]. split.
    { exists g. rewrite nth_error_skipn, Nat.sub_0_r in N. auto. }
    split; [exact H3|]. split; [exact H4|].
    rewrite H4.
    assert (P : (0 < 1 + inject_Z (Z.of_nat (InteractionGraph.idistance i)))%Q).
    { change 1%Q with (inject_Z 1). rewrite <- inject_Z_plus.
      change 0%Q with (inject_Z 0). rewrite <- Zlt_Qlt. lia. }
    split.
    + unfold Qdiv. rewrite Qmult_1_l. now apply Qinv_lt_0_compat.
    + apply Qle_shift_div_r; [exact P|]. rewrite Qmult_1_l.
      change 1%Q with (inject_Z 1) at 1 2. rewrite <- inject_Z_plus.
      rewrite <- Zle_Qle. lia.
  - exact Srt.
  - intros d g Hd N L2. rewrite <- nth_error_skipn in N.
    destruct (C d g Hd N L2) as (i & Hi & E). exists i. auto.
Qed.

(** * What every run keeps of the circuit *)

Lemma greedy_forEach_run : forall fuel gs st st',
    GreedyMapper.forEach fuel gs st = Some st' -> run gs st st'.
Proof.
  intros fuel gs. induction gs as [|g gs IH]; intros st st' H; simpl in H.
  - inversion H; subst. constructor.
  - destruct (GreedyMapper.processGate fuel st g) as [st2|] eqn:E; [|discriminate].
    unfold GreedyMapper.processGate in E.
    destruct (QuantumCircuit.gqubits g) as [|c [|t [|x l]]] eqn:Eg;
      try (inversion E; subst; eapply run_cons;
           [apply so_done|left; reflexivity|now apply IH]).
    destruct (GreedyMapper.swap_loop fuel c t st) as [st1|] eqn:El; [|discriminate].
    inversion E; subst. eapply run_cons.
    + eapply greedy_loop_swaps_only. exact El.
    + right. exists c, t. auto.
    + now apply IH.
Qed.

Lemma lookahead_forEach_run : forall circuit k fuel gs idx st st',
    LookAheadMapper.forEach circuit k fuel gs idx st = Some st' -> run gs st st'.
Proof.
  intros circuit k fuel gs. induction gs as [|g gs IH]; intros idx st st' H;
    simpl in H.
  - inversion H; subst. constructor.
  - destruct (LookAheadMapper.processGate circuit k fuel st idx g) as [st2|] eqn:E;
      [|discriminate].
    unfold LookAheadMapper.processGate in E.
    destruct (QuantumCircuit.gqubits g) as [|c [|t [|x l]]] eqn:Eg;
      try (inversion E; subst; eapply run_cons;
           [apply so_done|left; reflexivity|eapply IH; eassumption]).
    destruct (LookAheadMapper.swap_loop circuit k fuel idx c t st) as [st1|] eqn:El;
      [|discriminate].
    inversion E; subst. eapply run_cons.
    + eapply lookahead_loop_swaps_only. exact El.
    + right. exists c, t. auto.
    + eapply IH; eassumption.
Qed.

Lemma genetic_forEach_run : forall ch gs st i st' i',
    GeneticSwapOptimizer.forEach ch gs (st, i) = Ok (st', i') -> run gs st st'.
Proof.
  intros ch gs. induction gs as [|g gs IH]; intros st i st' i' H; simpl in H.
  - inversion H; subst. constructor.
  - destruct (GeneticSwapOptimizer.processGate ch (st, i) g) as [[st2 i2]|] eqn:E;
      [|discriminate].
    unfold GeneticSwapOptimizer.processGate in E.
    destruct (QuantumCircuit.gqubits g) as [|c [|t [|x l]]] eqn:Eg;
      try (inversion E; subst; eapply run_cons;
           [apply so_done|left; reflexivity|eapply IH; eassumption]).
    destruct (GeneticSwapOptimizer.run_swap_loop ch c t st i) as [[st1 i1]|] eqn:El;
      [|discriminate].
    inversion E; subst. eapply run_cons.
    + eapply genetic_run_loop_swaps_only. exact El.
    + right. exists c, t. auto.
    + eapply IH; eassumption.
Qed.

Lemma natives_app : forall l1 l2, natives (l1 ++ l2) = natives l1 ++ natives l2.
Proof.
  induction l1 as [|s l1 IH]; intro l2; simpl; [reflexivity|].
  destruct (native_of s); simpl; now rewrite IH.
Qed.

Lemma kept_swaps_only : forall done st st',
    swaps_only st st' -> kept_so_far done st -> kept_so_far done st'.
Proof.
  intros done st st' H. induction H as [st|st hw' st' Hd H IH|st q1 q2 st' H IH];
    intro K; auto.
  apply IH. destruct K as [K1 K2]. split; simpl.
  - rewrite natives_app. simpl. now rewrite app_nil_r.
  - apply Forall_app. split; [exact K2|]. repeat constructor.
Qed.

Lemma at_nth : forall l q, Layout.at_ l q = nth q (Layout.cells l) None.
Proof. intros l q. apply get_of_nat. Qed.

Lemma kept_emitNative : forall done st g,
    kept_so_far done st -> kept_so_far (done ++ [g]) (emitNative st g).
Proof.
  intros done st g [K1 K2]. split; simpl.
  - rewrite natives_app, map_app, K1. reflexivity.
  - apply Forall_app. split; [exact K2|]. constructor; [|constructor].
    simpl. apply map_ext. intro q. apply at_nth.
Qed.

Lemma kept_addPenalty : forall done st c t,
    kept_so_far done st -> kept_so_far done (addPenalty st c t).
Proof.
  intros done st c t K. unfold addPenalty.
  destruct (Topology.distance _ _ _). exact K.
Qed.

Lemma run_kept : forall gs st st',
    run gs st st' -> forall done,
      kept_so_far done st -> kept_so_far (done ++ gs) st'.
Proof.
  intros gs st st' H. induction H as [st|g gs st st1 st2 st3 Hs Hg Hr IH];
    intros done K.
  - now rewrite app_nil_r.
  - replace (done ++ g :: gs) with ((done ++ [g]) ++ gs)
      by (now rewrite <- app_assoc).
    apply IH. apply (kept_swaps_only _ _ _ Hs) in K.
    destruct Hg as [->|(c & t & _ & ->)].
    + now apply kept_emitNative.
    + now apply kept_emitNative, kept_addPenalty.
Qed.

Lemma run_graph : forall gs st st',
    run gs st st' -> Topology.graph (st_hw st') = Topology.graph (st_hw st).
Proof.
  intros gs st st' H. induction H as [st|g gs st st1 st2 st3 Hs Hg Hr IH].
  - reflexivity.
  - rewrite IH. apply swaps_only_shape in Hs.
    destruct Hs as (_ & _ & _ & _ & _ & _ & (_ & _ & G1 & _)).
    destruct Hg as [->|(c & t & _ & ->)]; simpl; [exact G1|].
    destruct (same_device_addPenalty st1 c t) as (_ & _ & G2 & _). congruence.
Qed.

Lemma length_steps_split : forall l,
    length l = length (filter is_swap l) + length (natives l).
Proof.
  induction l as [|s l IH]; simpl; [reflexivity|].
  destruct s; simpl; lia.
Qed.

Lemma run_gates_kept : forall c hw st,
    run (QuantumCircuit.gates c) (init (QuantumCircuit.nQubits c) hw) st ->
    state_counters_ok st ->
    gates_kept c (result_of st).
Proof.
  intros c hw st H Hc.
  destruct (run_kept _ _ _ H []) as [K1 K2]; [split; [reflexivity|constructor]|].
  simpl in K1. split; [exact K1|]. split; [exact K2|].
  destruct Hc as (Hs & Hd & _). simpl. rewrite Hd, Hs.
  rewrite (length_steps_split (st_steps st)), K1, length_map. lia.
Qed.

(** No mapper drops, repeats or reorders a gate: in the result of
    [GreedyMapper.map], of [LookAheadMapper.map], of every replay and of
    [GeneticSwapOptimizer.map], the steps other than the inserted swaps are
    the circuit's gates in their order, with their types and logical
    operands; each acts on the images of its operands under the layout
    snapshot it carries; and [depth] is the number of gates plus
    [insertedSwaps]. *)
Theorem gates_are_kept :
  (forall fuel circuit hw r hw',
      GreedyMapper.map fuel circuit hw = Some (r, hw') -> gates_kept circuit r)
  /\ (forall k fuel circuit hw r hw',
         LookAheadMapper.map k fuel circuit hw = Some (r, hw') ->
         gates_kept circuit r)
  /\ (forall circuit hw ch r hw',
         GeneticSwapOptimizer.applyChromosome circuit hw ch = Ok (r, hw') ->
         gates_kept circuit r)
  /\ (forall circuit hw o rnd r hw',
         GeneticSwapOptimizer.map circuit hw o rnd = Ok (r, hw') ->
         gates_kept circuit r).
Proof.
  assert (A : forall circuit hw ch r hw',
             GeneticSwapOptimizer.applyChromosome circuit hw ch = Ok (r, hw') ->
             gates_kept circuit r).
  { intros circuit hw ch r hw' H.
    unfold GeneticSwapOptimizer.applyChromosome in H.
    destruct (GeneticSwapOptimizer.forEach _ _ _) as [[st i]|] eqn:E;
      [|discriminate].
    inversion H; subst. eapply run_gates_kept.
    - eapply genetic_forEach_run. exact E.
    - eapply (genetic_forEach_counters _ _ _ _ _ _ E). apply counters_init. }
  split; [|split; [|split]].
  - intros fuel circuit hw r hw' H. unfold GreedyMapper.map in H.
    destruct (GreedyMapper.forEach _ _ _) as [st|] eqn:E; [|discriminate].
    inversion H; subst. eapply run_gates_kept.
    + eapply greedy_forEach_run. exact E.
    + eapply (greedy_forEach_counters _ _ _ _ E). apply counters_init.
  - intros k fuel circuit hw r hw' H. unfold LookAheadMapper.map in H.
    destruct (LookAheadMapper.forEach _ _ _ _ _ _) as [st|] eqn:E; [|discriminate].
    inversion H; subst. eapply run_gates_kept.
    + eapply lookahead_forEach_run. exact E.
    + eapply (lookahead_forEach_counters _ _ _ _ _ _ _ E). apply counters_init.
  - exact A.
  - intros circuit hw o rnd r hw' H.
    destruct (genetic_map_is_replay _ _ _ _ _ _ H) as (hw1 & best & _ & R).
    eapply A. exact R.
Qed.

Lemma gates_are_kept_example :
  exists r hw',
    GreedyMapper.map 3 circuitA lnn3 = Some (r, hw')
    /\ insertedSwaps r = 1
    /\ gates_kept circuitA r.
Proof.
  eexists. eexists. split; [reflexivity|]. split; [reflexivity|].
  eapply (proj1 gates_are_kept 3 circuitA lnn3). reflexivity.
Defined.

(** * Inserted swaps act on hardware edges *)

Lemma edge_swaps_insertSwap : forall g st a b,
    edge_swaps g st -> In b (nth a g []) ->
    edge_swaps g (insertSwap st (Some a) (Some b)).
Proof.
  intros g st a b [E F] H. split; [exact E|]. simpl.
  apply Forall_app. split; [exact F|]. constructor; [|constructor].
  simpl. exists a, b. auto.
Qed.

Lemma edge_swaps_hw : forall g st hw',
    edge_swaps g st -> same_device (st_hw st) hw' ->
    edge_swaps g (with_hw st hw').
Proof.
  intros g st hw' [E F] (_ & _ & Eg & _). split; [|exact F].
  simpl. now rewrite Eg.
Qed.

Lemma edge_swaps_addPenalty : forall g st c t,
    edge_swaps g st -> edge_swaps g (addPenalty st c t).
Proof.
  intros g st c t [E F].
  pose proof (same_device_addPenalty st c t) as (_ & _ & Eg & _).
  split; [now rewrite Eg|].
  unfold addPenalty. destruct (Topology.distance _ _ _). exact F.
Qed.

Lemma edge_swaps_emitNative : forall g st gate,
    edge_swaps g st -> edge_swaps g (emitNative st gate).
Proof.
  intros g st gate [E F]. split; [exact E|]. simpl.
  apply Forall_app. split; [exact F|]. repeat constructor.
Qed.

Lemma greedy_loop_edge_swaps : forall g fuel c t st st',
    GreedyMapper.swap_loop fuel c t st = Some st' ->
    edge_swaps g st -> edge_swaps g st'.
Proof.
  intros g fuel. induction fuel as [|fuel IH]; intros c t st st' H K;
    [discriminate|].
  simpl in H.
  destruct (Topology.isConnected _ _ _); [inversion H; subst; exact K|].
  destruct (Nat.ltb_spec
              (length (Topology.getShortestPath (st_hw st)
                         (Layout.at_ (st_layout st) c)
                         (Layout.at_ (st_layout st) t))) 2) as [L|L];
    [inversion H; subst; exact K|].
  destruct (shortest_path_first_edge _ _ _ L) as (a & b & E0 & E1 & _ & Hin).
  rewrite E0, E1 in H. eapply IH; [exact H|].
  apply edge_swaps_insertSwap; [exact K|]. destruct K as [<- _]. exact Hin.
Qed.

Lemma lookahead_loop_edge_swaps : forall g circuit k fuel idx c t st st',
    LookAheadMapper.swap_loop circuit k fuel idx c t st = Some st' ->
    edge_swaps g st -> edge_swaps g st'.
Proof.
  intros g circuit k fuel. induction fuel as [|fuel IH];
    intros idx c t st st' H K; [discriminate|].
  simpl in H.
  destruct (Topology.isConnected _ _ _); [inversion H; subst; exact K|].
  destruct (LookAheadMapper.findBestSwap circuit k (st_hw st) (st_layout st) idx)
    as [best hw1] eqn:E.
  pose proof (findBestSwap_same_device circuit k (st_hw st) (st_layout st) idx)
    as Hd. rewrite E in Hd. simpl in Hd.
  destruct best as [[q1 q2]|].
  - eapply IH; [exact H|].
    apply edge_swaps_insertSwap; [now apply edge_swaps_hw|].
    apply findBestSwap_In in E. apply in_edges in E.
    destruct K as [<- _]. apply E.
  - inversion H; subst. now apply edge_swaps_hw.
Qed.

Lemma genetic_loop_edge_swaps : forall g rest c t st i st' i',
    Forall (gene_on_edge g) rest ->
    GeneticSwapOptimizer.swap_loop rest c t st i = Ok (st', i') ->
    edge_swaps g st -> edge_swaps g st'.
Proof.
  intros g rest. induction rest as [|x rest IH]; intros c t st i st' i' Hg H K;
    simpl in H.
  - destruct (Topology.isConnected _ _ _); inversion H; subst; exact K.
  - destruct (Topology.isConnected _ _ _); [inversion H; subst; exact K|].
    destruct x as [[a b]|]; [|discriminate].
    eapply IH; [eapply Forall_inv_tail; exact Hg|exact H|].
    destruct (_ && _); [|exact K].
    apply edge_swaps_insertSwap; [exact K|]. exact (Forall_inv Hg).
Qed.

Lemma gene_on_edge_skipn : forall g ch i,
    Forall (gene_on_edge g) ch -> Forall (gene_on_edge g) (skipn i ch).
Proof.
  intros g ch i H. rewrite Forall_forall in *. intros x Hx. apply H.
  rewrite <- (firstn_skipn i ch). apply in_or_app. now right.
Qed.

Lemma greedy_forEach_edge_swaps : forall g fuel gs st st',
    GreedyMapper.forEach fuel gs st = Some st' ->
    edge_swaps g st -> edge_swaps g st'.
Proof.
  intros g fuel gs. induction gs as [|gate gs IH]; intros st st' H K; simpl in H.
  - inversion H; subst. exact K.
  - destruct (GreedyMapper.processGate fuel st gate) as [st2|] eqn:E;
      [|discriminate].
    eapply IH; [exact H|]. unfold GreedyMapper.processGate in E.
    destruct (QuantumCircuit.gqubits gate) as [|c [|t [|x l]]];
      try (inversion E; subst; now apply edge_swaps_emitNative).
    destruct (GreedyMapper.swap_loop fuel c t st) as [st1|] eqn:El; [|discriminate].
    inversion E; subst. apply edge_swaps_emitNative, edge_swaps_addPenalty.
    eapply greedy_loop_edge_swaps; eassumption.
Qed.

Lemma lookahead_forEach_edge_swaps : forall g circuit k fuel gs idx st st',
    LookAheadMapper.forEach circuit k fuel gs idx st = Some st' ->
    edge_swaps g st -> edge_swaps g st'.
Proof.
  intros g circuit k fuel gs. induction gs as [|gate gs IH];
    intros idx st st' H K; simpl in H.
  - inversion H; subst. exact K.
  - destruct (LookAheadMapper.processGate circuit k fuel st idx gate)
      as [st2|] eqn:E; [|discriminate].
    eapply IH; [exact H|]. unfold LookAheadMapper.processGate in E.
    destruct (QuantumCircuit.gqubits gate) as [|c [|t [|x l]]];
      try (inversion E; subst; now apply edge_swaps_emitNative).
    destruct (LookAheadMapper.swap_loop circuit k fuel idx c t st) as [st1|] eqn:El;
      [|discriminate].
    inversion E; subst. apply edge_swaps_emitNative, edge_swaps_addPenalty.
    eapply lookahead_loop_edge_swaps; eassumption.
Qed.

Lemma genetic_forEach_edge_swaps : forall g ch gs st i st' i',
    match ch with Some l => Forall (gene_on_edge g) l | None => True end ->
    GeneticSwapOptimizer.forEach ch gs (st, i) = Ok (st', i') ->
    edge_swaps g st -> edge_swaps g st'.
Proof.
  intros g ch gs. induction gs as [|gate gs IH]; intros st i st' i' Hg H K;
    simpl in H.
  - inversion H; subst. exact K.
  - destruct (GeneticSwapOptimizer.processGate ch (st, i) gate)
      as [[st2 i2]|] eqn:E; [|discriminate].
    eapply IH; [exact Hg|exact H|]. unfold GeneticSwapOptimizer.processGate in E.
    destruct (QuantumCircuit.gqubits gate) as [|c [|t [|x l]]];
      try (inversion E; subst; now apply edge_swaps_emitNative).
    destruct (GeneticSwapOptimizer.run_swap_loop ch c t st i) as [[st1 i1]|] eqn:El;
      [|discriminate].
    inversion E; subst. apply edge_swaps_emitNative, edge_swaps_addPenalty.
    unfold GeneticSwapOptimizer.run_swap_loop in El. destruct ch as [l|].
    + eapply genetic_loop_edge_swaps; [|exact El|exact K].
      now apply gene_on_edge_skipn.
    + destruct (Topology.isConnected _ _ _); inversion El; subst; exact K.
Qed.

Lemma edge_swaps_init : forall n hw, edge_swaps (Topology.graph hw) (init n hw).
Proof. intros n hw. split; [reflexivity|constructor]. Qed.

(** Every swap that [GreedyMapper] or [LookAheadMapper] inserts exchanges
    the logical qubits of two physical qubits joined by a hardware edge,
    and so does every swap of a replay whose chromosome holds hardware
    edges only. This needs nothing of the circuit or of the device. *)
Theorem inserted_swaps_are_on_edges :
  (forall fuel circuit hw r hw',
      GreedyMapper.map fuel circuit hw = Some (r, hw') ->
      Forall (swap_on_edge (Topology.graph hw)) (steps r))
  /\ (forall k fuel circuit hw r hw',
         LookAheadMapper.map k fuel circuit hw = Some (r, hw') ->
         Forall (swap_on_edge (Topology.graph hw)) (steps r))
  /\ (forall circuit hw ch r hw',
         Forall (gene_on_edge (Topology.graph hw)) ch ->
         GeneticSwapOptimizer.applyChromosome circuit hw (Some ch) = Ok (r, hw') ->
         Forall (swap_on_edge (Topology.graph hw)) (steps r)).
Proof.
  split; [|split].
  - intros fuel circuit hw r hw' H. unfold GreedyMapper.map in H.
    destruct (GreedyMapper.forEach _ _ _) as [st|] eqn:E; [|discriminate].
    inversion H; subst.
    apply (greedy_forEach_edge_swaps _ _ _ _ _ E (edge_swaps_init _ _)).
  - intros k fuel circuit hw r hw' H. unfold LookAheadMapper.map in H.
    destruct (LookAheadMapper.forEach _ _ _ _ _ _) as [st|] eqn:E; [|discriminate].
    inversion H; subst.
    apply (lookahead_forEach_edge_swaps _ _ _ _ _ _ _ _ E (edge_swaps_init _ _)).
  - intros circuit hw ch r hw' Hg H.
    unfold GeneticSwapOptimizer.applyChromosome in H.
    destruct (GeneticSwapOptimizer.forEach _ _ _) as [[st i]|] eqn:E;
      [|discriminate].
    inversion H; subst.
    apply (genetic_forEach_edge_swaps _ (Some ch) _ _ _ _ _ Hg E
                                      (edge_swaps_init _ _)).
Qed.

Lemma inserted_swaps_are_on_edges_example :
  exists r hw',
    GreedyMapper.map 3 circuitA lnn3 = Some (r, hw')
    /\ Forall (swap_on_edge (Topology.graph lnn3)) (steps r).
Proof.
  eexists. eexists. split; [reflexivity|].
  eapply (proj1 inserted_swaps_are_on_edges 3 circuitA lnn3). reflexivity.
Defined.

(** * Greedy routes every gate on a connected device that fits *)

Lemma layout_ok_injective : forall n l c t,
    layout_ok n l -> c < n -> t < n -> c <> t ->
    Layout.at_ l c <> Layout.at_ l t.
Proof.
  intros n l c t (_ & Hlen & Hnd & _) Hc Ht Hct E.
  rewrite !at_nth in E.
  apply (proj1 (NoDup_nth (Layout.cells l) None) Hnd) in E; lia.
Qed.

(** What one round of the Greedy loop does: the control qubit moves along
    the first edge of the shortest path, the target stays. *)
Lemma greedy_round_images : forall n st c t,
    built (st_hw st) -> device_fits n (st_hw st) -> trace_ok n st ->
    let physC := Layout.at_ (st_layout st) c in
    let physT := Layout.at_ (st_layout st) t in
    let path := Topology.getShortestPath (st_hw st) physC physT in
    Topology.isConnected (st_hw st) physC physT = false ->
    2 <= length path ->
    let st' := insertSwap st (nth 0 path None) (nth 1 path None) in
    exists a b,
      physC = Some a /\ In b (nth a (Topology.graph (st_hw st)) [])
      /\ nth 1 path None = Some b
      /\ Layout.at_ (st_layout st') c = Some b
      /\ Layout.at_ (st_layout st') t = physT.
Proof.
  intros n st c t Hb Hfit Ht physC physT path Hc Hlen st'.
  pose proof (built_symmetric _ Hb) as Hsym.
  pose proof (built_loop_free _ Hb) as Hlf.
  destruct (shortest_path_first_edge _ _ _ Hlen) as (a & b & E0 & E1 & EC & Hin).
  fold physC physT path in E0, E1, EC.
  exists a, b. split; [exact EC|]. split; [exact Hin|]. split; [exact E1|].
  assert (Ha : In (Some a) (Layout.cells (st_layout st))).
  { apply (layout_ok_In n); [apply Ht|].
    apply neighbor_in_graph in Hin. unfold device_fits in Hfit. lia. }
  assert (Hbn : In (Some b) (Layout.cells (st_layout st))).
  { apply (layout_ok_In n); [apply Ht|].
    apply neighbor_closed in Hin; [|exact Hsym]. unfold device_fits in Hfit. lia. }
  subst st'. rewrite E0, E1.
  destruct (swap_transposes n (st_layout st) (Some a) (Some b) (proj1 Ht) Ha Hbn)
    as [Hcells _].
  assert (HT : physT <> Some a).
  { intro E. assert (K : path = [Some a]).
    { unfold path. rewrite EC, E. apply getShortestPath_self. }
    rewrite K in Hlen. simpl in Hlen. lia. }
  assert (HT2 : physT <> Some b).
  { intro E. rewrite EC, E in Hc.
    assert (K : Topology.isConnected (st_hw st) (Some a) (Some b) = true)
      by (now apply isConnected_In).
    congruence. }
  simpl st_layout. unfold Layout.at_ at 1 2.
  rewrite !get_of_nat, Hcells.
  rewrite !nth_map_transpose by discriminate.
  rewrite <- !get_of_nat. fold (Layout.at_ (st_layout st) c).
  fold (Layout.at_ (st_layout st) t). fold physC physT.
  split.
  - rewrite EC. unfold transpose. now rewrite qid_eqb_refl.
  - unfold transpose.
    destruct (qid_eqb physT (Some a)) eqn:X1;
      [apply qid_eqb_eq in X1; contradiction|].
    destruct (qid_eqb physT (Some b)) eqn:X2;
      [apply qid_eqb_eq in X2; contradiction|]. reflexivity.
Qed.

(** The length of the shortest path is the distance plus one. *)
Lemma path_length_distance : forall hw a b d,
    reach (Topology.graph hw) d (Some a) (Some b) ->
    (forall k, reach (Topology.graph hw) k (Some a) (Some b) -> d <= k) ->
    length (Topology.getShortestPath hw (Some a) (Some b)) = S d.
Proof.
  intros hw a b d Hr Hmin.
  pose proof (is_distance_intro _ a b d Hr Hmin) as E.
  rewrite bfs_distance_path in E. unfold path_number in E.
  destruct (Topology.getShortestPath hw (Some a) (Some b)) as [|x p];
    [discriminate|].
  inversion E. simpl in *. lia.
Qed.

Lemma shortest_distance_exists : forall g a b k,
    reach g k (Some a) (Some b) ->
    exists d, reach g d (Some a) (Some b)
              /\ forall k', reach g k' (Some a) (Some b) -> d <= k'.
Proof.
  intros g a b k Hk.
  pose proof (bfs_distance_correct g (Some a) (Some b)) as Hd.
  destruct (Topology.bfs_distance g (Some a) (Some b)) as [z|].
  - destruct Hd as (d & _ & Hr & Hmin). exists d. auto.
  - exfalso. exact (Hd k Hk).
Qed.

Lemma greedy_loop_routes : forall n c t d fuel st a b,
    built (st_hw st) -> device_fits n (st_hw st) -> trace_ok n st ->
    Layout.at_ (st_layout st) c = Some a ->
    Layout.at_ (st_layout st) t = Some b ->
    a <> b ->
    reach (Topology.graph (st_hw st)) d (Some a) (Some b) ->
    (forall k, reach (Topology.graph (st_hw st)) k (Some a) (Some b) -> d <= k) ->
    d < fuel ->
    exists st1,
      GreedyMapper.swap_loop fuel c t st = Some st1
      /\ st_insertedSwaps st1 = st_insertedSwaps st + (d - 1)
      /\ Topology.isConnected (st_hw st1) (Layout.at_ (st_layout st1) c)
                              (Layout.at_ (st_layout st1) t) = true
      /\ st_hw st1 = st_hw st
      /\ st_distancePenalty st1 = st_distancePenalty st.
Proof.
  intros n c t d. induction d as [|d IH];
    intros fuel st a b Hb Hfit Ht Ea Eb Hab Hr Hmin Hf.
  - apply reach_zero in Hr. congruence.
  - destruct fuel as [|fuel]; [lia|]. simpl. rewrite Ea, Eb.
    destruct (Topology.isConnected (st_hw st) (Some a) (Some b)) eqn:Ec.
    + exists st. split; [reflexivity|].
      assert (d = 0).
      { apply isConnected_In in Ec. apply reach_edge in Ec.
        specialize (Hmin _ Ec). lia. }
      subst d. rewrite Ea, Eb. repeat split; [lia|exact Ec].
    + pose proof (path_length_distance _ _ _ _ Hr Hmin) as Hlen.
      destruct (Nat.ltb_spec
                  (length (Topology.getShortestPath (st_hw st) (Some a) (Some b)))
                  2) as [L|L]; [lia|].
      assert (Ec' : Topology.isConnected (st_hw st) (Layout.at_ (st_layout st) c)
                                         (Layout.at_ (st_layout st) t) = false)
        by (now rewrite Ea, Eb).
      assert (L' : 2 <= length (Topology.getShortestPath (st_hw st)
                                  (Layout.at_ (st_layout st) c)
                                  (Layout.at_ (st_layout st) t)))
        by (now rewrite Ea, Eb).
      destruct (greedy_round_shortens n st c t Hb Hfit Ht Ec' L') as [Ht' _].
      destruct (greedy_round_images n st c t Hb Hfit Ht Ec' L')
        as (a' & x & EC & Hin & Ex & Ec1 & Et1).
      rewrite Ea, Eb in *. inversion EC; subst a'. clear EC.
      set (st' := insertSwap st
                    (nth 0 (Topology.getShortestPath (st_hw st) (Some a) (Some b)) None)
                    (nth 1 (Topology.getShortestPath (st_hw st) (Some a) (Some b)) None))
        in *.
      assert (Hxb : x <> b).
      { intros ->. apply isConnected_In in Hin. congruence. }
      assert (Hd0 : d <> 0).
      { intros ->. inversion Hr as [|k u v w Hv Hr']; subst.
        apply reach_zero in Hr'. inversion Hr'; subst.
        apply isConnected_In in Hv. congruence. }
      assert (Hrx : exists k, reach (Topology.graph (st_hw st)) k (Some x) (Some b)).
      { exists (S (S d)). eapply reach_step; [|exact Hr].
        simpl. apply (built_symmetric _ Hb). exact Hin. }
      destruct Hrx as (k0 & Hk0).
      destruct (shortest_distance_exists _ _ _ _ Hk0) as (d' & Hr' & Hmin').
      assert (Ed : d' = d).
      { assert (U : S d <= S d').
        { apply Hmin. eapply reach_step; [exact Hin|exact Hr']. }
        assert (V : d' <= d).
        { pose proof (getShortestPath_ok (st_hw st) (Some a) (Some b))
            as [E|(Hw & Hhd & Hlast & _)]; [rewrite E in Hlen; discriminate|].
          simpl in Hw, Hhd, Hlast.
          destruct (Topology.getShortestPath (st_hw st) (Some a) (Some b))
            as [|u [|v rest]] eqn:Ep; simpl in Hlen; try lia.
          simpl in Ex. subst v.
          assert (Hwalk : is_walk (Topology.graph (st_hw st)) (Some x :: rest))
            by (simpl in Hw; apply Hw).
          assert (El : last (Some x :: rest) (Some a) = Some b).
          { rewrite <- Hlast. destruct rest; [|reflexivity].
            simpl in Hlast. inversion Hlast. contradiction. }
          assert (W : reach (Topology.graph (st_hw st)) (length rest)
                            (Some x) (Some b)).
          { exact (eq_ind _ (fun w => reach _ _ _ w)
                          (walk_reach _ _ _ (Some a) Hwalk) _ El). }
          specialize (Hmin' _ W).
          injection Hlen as Hlen. lia. }
        lia. }
      subst d'.
      destruct (IH fuel st' x b) as (st1 & E1 & S1 & C1 & H1 & P1);
        try assumption; try lia.
      exists st1. split; [exact E1|].
      split; [rewrite S1; simpl; lia|]. split; [exact C1|].
      split; [rewrite H1; reflexivity|rewrite P1; reflexivity].
Qed.

Lemma addPenalty_fields : forall st c t,
    st_steps (addPenalty st c t) = st_steps st
    /\ st_layout (addPenalty st c t) = st_layout st
    /\ st_insertedSwaps (addPenalty st c t) = st_insertedSwaps st
    /\ st_depth (addPenalty st c t) = st_depth st
    /\ st_distancePenalty (addPenalty st c t)
       = JS.add (st_distancePenalty st)
                (JS.pred (fst (Topology.distance (st_hw st)
                                 (Layout.at_ (st_layout st) c)
                                 (Layout.at_ (st_layout st) t)))).
Proof.
  intros st c t. unfold addPenalty.
  destruct (Topology.distance _ _ _) as [d hw']. simpl. auto.
Qed.

Lemma greedy_gate_routes : forall n fuel st c t,
    built (st_hw st) -> device_fits n (st_hw st) -> trace_ok n st ->
    connected_below n (Topology.graph (st_hw st)) ->
    c < n -> t < n -> c <> t ->
    1 + Topology.bfs_fuel (Topology.graph (st_hw st)) < fuel ->
    exists st1 d a b,
      GreedyMapper.swap_loop fuel c t st = Some st1
      /\ fst (Topology.distance (st_hw st) (Layout.at_ (st_layout st) c)
                                (Layout.at_ (st_layout st) t))
         = Fin (Z.of_nat d)
      /\ 1 <= d
      /\ st_insertedSwaps st1 = st_insertedSwaps st + (d - 1)
      /\ st_hw st1 = st_hw st
      /\ Layout.at_ (st_layout st1) c = Some a
      /\ Layout.at_ (st_layout st1) t = Some b
      /\ In b (nth a (Topology.graph (st_hw st)) [])
      /\ st_distancePenalty (addPenalty st1 c t) = st_distancePenalty st.
Proof.
  intros n fuel st c t Hb Hfit Ht Hconn Hc Htn Hct Hf.
  destruct (layout_ok_at n _ c (proj1 Ht) Hc) as (a0 & Ea & Ha).
  destruct (layout_ok_at n _ t (proj1 Ht) Htn) as (b0 & Eb & Hb0).
  assert (Hab : a0 <> b0).
  { intros ->. apply (layout_ok_injective n (st_layout st) c t (proj1 Ht) Hc Htn Hct).
    congruence. }
  destruct (Hconn a0 b0 Ha Hb0) as (k & Hk).
  destruct (shortest_distance_exists _ _ _ _ Hk) as (d & Hr & Hmin).
  assert (Hd : d < fuel).
  { pose proof (path_length_distance _ _ _ _ Hr Hmin) as E.
    pose proof (getShortestPath_length (st_hw st) (Some a0) (Some b0)). lia. }
  destruct (greedy_loop_routes n c t d fuel st a0 b0 Hb Hfit Ht Ea Eb Hab Hr Hmin Hd)
    as (st1 & El & S1 & C1 & H1 & P1).
  destruct (isConnected_number _ _ _ C1) as (a & b & Ea1 & Eb1).
  destruct (addPenalty_fields st1 c t) as (_ & _ & _ & _ & F5).
  exists st1, d, a, b.
  split; [exact El|]. split.
  { rewrite Ea, Eb. rewrite distance_value; [|now apply built_symmetric|apply Hb].
    now apply is_distance_intro. }
  split.
  { destruct d; [|lia]. apply reach_zero in Hr. congruence. }
  split; [exact S1|]. split; [exact H1|]. split; [exact Ea1|].
  split; [exact Eb1|].
  rewrite Ea1, Eb1 in C1. split.
  { rewrite H1 in C1. now apply isConnected_In. }
  rewrite F5, P1, Ea1, Eb1.
  rewrite distance_value;
    [|rewrite H1; now apply built_symmetric|rewrite H1; apply Hb].
  rewrite bfs_distance_adjacent;
    [apply add_pred_one|rewrite H1; now apply built_loop_free|exact C1].
Qed.

(** For a gate on two different logical qubits, on a connected device with
    no more qubits than the circuit, [GreedyMapper] inserts exactly
    [distance - 1] swaps, where [distance] is the distance between the two
    physical images when the gate is reached; the gate then acts on two
    adjacent physical qubits and adds nothing to the distance penalty. *)
Theorem greedy_inserts_distance_minus_one : forall n fuel st g c t,
    built (st_hw st) -> device_fits n (st_hw st) -> trace_ok n st ->
    connected_below n (Topology.graph (st_hw st)) ->
    QuantumCircuit.gqubits g = [c; t] -> c < n -> t < n -> c <> t ->
    1 + Topology.bfs_fuel (Topology.graph (st_hw st)) < fuel ->
    exists st' d,
      GreedyMapper.processGate fuel st g = Some st'
      /\ fst (Topology.distance (st_hw st) (Layout.at_ (st_layout st) c)
                                (Layout.at_ (st_layout st) t))
         = Fin (Z.of_nat d)
      /\ 1 <= d
      /\ st_insertedSwaps st' = st_insertedSwaps st + (d - 1)
      /\ st_distancePenalty st' = st_distancePenalty st
      /\ Topology.isConnected (st_hw st') (Layout.at_ (st_layout st') c)
                              (Layout.at_ (st_layout st') t) = true.
Proof.
  intros n fuel st g c t Hb Hfit Ht Hconn Eg Hc Htn Hct Hf.
  destruct (greedy_gate_routes n fuel st c t Hb Hfit Ht Hconn Hc Htn Hct Hf)
    as (st1 & d & a & b & El & Hd & H1 & HS & HH & Ea & Eb & Hin & HP).
  destruct (addPenalty_fields st1 c t) as (_ & F2 & F3 & _).
  exists (emitNative (addPenalty st1 c t) g), d.
  unfold GreedyMapper.processGate. rewrite Eg, El.
  split; [reflexivity|]. split; [exact Hd|]. split; [exact H1|].
  split; [simpl; rewrite F3; exact HS|]. split; [exact HP|].
  simpl. rewrite F2, Ea, Eb. apply isConnected_In.
  destruct (same_device_addPenalty st1 c t) as (_ & _ & G & _).
  rewrite G, HH. exact Hin.
Qed.

Lemma greedy_inserts_distance_minus_one_example :
  exists st' d,
    GreedyMapper.processGate 12 (init 3 lnn3) (cx 0 2) = Some st'
    /\ fst (Topology.distance lnn3 (Some 0) (Some 2)) = Fin (Z.of_nat d)
    /\ 1 <= d
    /\ st_insertedSwaps st' = 0 + (d - 1)
    /\ st_distancePenalty st' = Fin 0
    /\ Topology.isConnected (st_hw st') (Layout.at_ (st_layout st') 0)
                            (Layout.at_ (st_layout st') 2) = true.
Proof.
  refine (greedy_inserts_distance_minus_one 3 12 (init 3 lnn3) (cx 0 2) 0 2
            _ _ _ _ eq_refl _ _ _ _).
  - split; reflexivity.
  - unfold device_fits. simpl. lia.
  - apply trace_ok_init.
  - intros a b Ha Hb.
    change (Topology.graph (st_hw (init 3 lnn3))) with (lnn_graph 3).
    now apply lnn_connected.
  - lia.
  - lia.
  - lia.
  - unfold Topology.bfs_fuel. simpl. lia.
Defined.

(** ** The whole run *)

Lemma routed_emitNative_other : forall gr st g,
    routed gr st -> length (QuantumCircuit.gqubits g) <> 2 ->
    routed gr (emitNative st g).
Proof.
  intros gr st g [P F] H. split; [exact P|]. simpl.
  apply Forall_app. split; [exact F|]. constructor; [|constructor]. simpl.
  destruct (QuantumCircuit.gqubits g) as [|c [|t [|x l]]]; simpl; auto.
  simpl in H. lia.
Qed.

Lemma greedy_forEach_routes : forall n fuel gr gs st,
    built (st_hw st) -> device_fits n (st_hw st) -> trace_ok n st ->
    Topology.graph (st_hw st) = gr ->
    connected_below n gr ->
    Forall (routable n) gs ->
    1 + Topology.bfs_fuel gr < fuel ->
    routed gr st ->
    exists st', GreedyMapper.forEach fuel gs st = Some st' /\ routed gr st'.
Proof.
  intros n fuel gr gs. induction gs as [|g gs IH];
    intros st Hb Hfit Ht Eg Hconn Hgs Hf HR; simpl.
  - exists st. auto.
  - assert (Step : exists st2, GreedyMapper.processGate fuel st g = Some st2
                               /\ routed gr st2).
    { pose proof (Forall_inv Hgs) as Hg. unfold routable in Hg.
      unfold GreedyMapper.processGate.
      destruct (QuantumCircuit.gqubits g) as [|c [|t [|x l]]] eqn:Eq;
        try (eexists; split; [reflexivity|];
             apply routed_emitNative_other; [exact HR|rewrite Eq; simpl; lia]).
      destruct Hg as (Hc & Htn & Hct). subst gr.
      destruct (greedy_gate_routes n fuel st c t Hb Hfit Ht Hconn Hc Htn Hct Hf)
        as (st1 & d & a & b & El & Hd & H1 & HS & HH & Ea & Eb & Hin & HP).
      rewrite El. eexists. split; [reflexivity|].
      destruct (addPenalty_fields st1 c t) as (F1 & F2 & _).
      destruct HR as [P F]. split; unfold emitNative;
        cbn [st_steps st_distancePenalty].
      - rewrite HP. exact P.
      - rewrite Eq. cbn [map]. rewrite F1, F2, Ea, Eb. apply Forall_app. split.
        + apply greedy_loop_swaps_only, swaps_only_shape in El.
          destruct El as (sw & -> & Hsw & _).
          apply Forall_app. split; [exact F|].
          eapply Forall_impl; [|exact Hsw]. intros s Hs.
          destruct s; [exact I|discriminate].
        + constructor; [|constructor]. simpl. exists a, b. auto. }
    destruct Step as (st2 & E & HR2). rewrite E.
    destruct (greedy_processGate_trace_ok _ _ _ _ _ Hb Hfit Ht E) as (B & F & T).
    assert (G : Topology.graph (st_hw st2) = gr).
    { rewrite <- Eg. apply (run_graph [g]).
      apply (greedy_forEach_run fuel). simpl. now rewrite E. }
    apply IH; try assumption. eapply Forall_inv_tail; exact Hgs.
Qed.

(** On a connected device with no more qubits than the circuit, a circuit
    whose two-qubit gates act on two different logical qubits of the
    circuit is routed completely by [GreedyMapper]: [map] returns, every
    two-qubit gate step acts on two adjacent physical qubits, and the
    distance penalty is [0]. *)
Theorem greedy_routes_every_gate : forall circuit hw fuel,
    built hw ->
    device_fits (QuantumCircuit.nQubits circuit) hw ->
    connected_below (QuantumCircuit.nQubits circuit) (Topology.graph hw) ->
    Forall (routable (QuantumCircuit.nQubits circuit))
           (QuantumCircuit.gates circuit) ->
    1 + Topology.bfs_fuel (Topology.graph hw) < fuel ->
    exists r hw',
      GreedyMapper.map fuel circuit hw = Some (r, hw')
      /\ distancePenalty r = Fin 0
      /\ Forall (native_adjacent (Topology.graph hw)) (steps r).
Proof.
  intros circuit hw fuel Hb Hfit Hconn Hgs Hf.
  destruct (greedy_forEach_routes
              (QuantumCircuit.nQubits circuit) fuel (Topology.graph hw)
              (QuantumCircuit.gates circuit)
              (init (QuantumCircuit.nQubits circuit) hw)
              Hb Hfit (trace_ok_init _ _) eq_refl Hconn Hgs Hf)
    as (st & E & P & F); [split; [reflexivity|constructor]|].
  unfold GreedyMapper.map. rewrite E. eexists. eexists.
  split; [reflexivity|]. split; assumption.
Qed.

Lemma greedy_routes_every_gate_example :
  exists r hw',
    GreedyMapper.map 12 circuitA lnn3 = Some (r, hw')
    /\ distancePenalty r = Fin 0
    /\ Forall (native_adjacent (Topology.graph lnn3)) (steps r).
Proof.
  apply greedy_routes_every_gate.
  - split; reflexivity.
  - unfold device_fits. simpl. lia.
  - intros a b Ha Hb. change (Topology.graph lnn3) with (lnn_graph 3).
    now apply lnn_connected.
  - repeat constructor. discriminate.
  - unfold Topology.bfs_fuel. simpl. lia.
Defined.

(** * A device without edges *)

Lemma no_edges_isConnected : forall hw q1 q2,
    Forall (fun row => row = []) (Topology.graph hw) ->
    Topology.isConnected hw q1 q2 = false.
Proof.
  intros hw q1 q2 H. destruct (Topology.isConnected hw q1 q2) eqn:E;
    [|reflexivity].
  destruct (isConnected_number _ _ _ E) as (a & b & -> & ->).
  apply isConnected_In in E. exfalso.
  destruct (nth_in_or_default a (Topology.graph hw) []) as [Hin|Hd].
  - rewrite Forall_forall in H. rewrite (H _ Hin) in E. exact E.
  - rewrite Hd in E. exact E.
Qed.

Lemma no_edges_path : forall hw q1 q2,
    Forall (fun row => row = []) (Topology.graph hw) ->
    length (Topology.getShortestPath hw q1 q2) < 2.
Proof.
  intros hw q1 q2 H.
  destruct (Nat.lt_ge_cases (length (Topology.getShortestPath hw q1 q2)) 2)
    as [L|L]; [exact L|].
  destruct (shortest_path_first_edge _ _ _ L) as (a & b & _ & _ & _ & Hin).
  exfalso.
  destruct (nth_in_or_default a (Topology.graph hw) []) as [Hn|Hd].
  - rewrite Forall_forall in H. rewrite (H _ Hn) in Hin. exact Hin.
  - rewrite Hd in Hin. exact Hin.
Qed.

Lemma no_edges_edges : forall g,
    Forall (fun row => row = []) g -> LookAheadMapper.edges g = [].
Proof.
  intros g H. destruct (LookAheadMapper.edges g) as [|[a b] l] eqn:E;
    [reflexivity|].
  assert (Hin : In (a, b) (LookAheadMapper.edges g)) by (rewrite E; now left).
  apply in_edges in Hin. destruct Hin as [_ Hin]. exfalso.
  destruct (nth_in_or_default a g []) as [Hn|Hd].
  - rewrite Forall_forall in H. rewrite (H _ Hn) in Hin. exact Hin.
  - rewrite Hd in Hin. exact Hin.
Qed.

Lemma idle_emitNative : forall n g k st gate,
    idle n g k st -> idle n g (S k) (emitNative st gate).
Proof.
  intros n g k st gate (H1 & H2 & H3 & H4). repeat split; simpl; congruence.
Qed.

Lemma idle_addPenalty : forall n g k st c t,
    idle n g k st -> idle n g k (addPenalty st c t).
Proof.
  intros n g k st c t (H1 & H2 & H3 & H4).
  destruct (addPenalty_fields st c t) as (_ & F2 & F3 & F4 & _).
  destruct (same_device_addPenalty st c t) as (_ & _ & G & _).
  repeat split; congruence.
Qed.

Lemma greedy_forEach_idle : forall n g fuel gs st k,
    Forall (fun row => row = []) g ->
    idle n g k st ->
    exists st', GreedyMapper.forEach (S fuel) gs st = Some st'
                /\ idle n g (k + length gs) st'.
Proof.
  intros n g fuel gs. induction gs as [|gate gs IH]; intros st k Hg Hi.
  - exists st. split; [reflexivity|]. now rewrite Nat.add_0_r.
  - assert (Step : exists st2, GreedyMapper.processGate (S fuel) st gate = Some st2
                               /\ idle n g (S k) st2).
    { unfold GreedyMapper.processGate.
      destruct (QuantumCircuit.gqubits gate) as [|c [|t [|x l]]];
        try (eexists; split; [reflexivity|now apply idle_emitNative]).
      assert (Hg' : Forall (fun row => row = []) (Topology.graph (st_hw st)))
        by (destruct Hi as (_ & _ & _ & ->); exact Hg).
      simpl. rewrite no_edges_isConnected by exact Hg'.
      destruct (Nat.ltb_spec
                  (length (Topology.getShortestPath (st_hw st)
                             (Layout.at_ (st_layout st) c)
                             (Layout.at_ (st_layout st) t))) 2) as [L|L].
      - eexists. split; [reflexivity|].
        now apply idle_emitNative, idle_addPenalty.
      - pose proof (no_edges_path (st_hw st) (Layout.at_ (st_layout st) c)
                                  (Layout.at_ (st_layout st) t) Hg'). lia. }
    destruct Step as (st2 & E & Hi2). simpl. rewrite E.
    destruct (IH st2 (S k) Hg Hi2) as (st' & E' & Hi').
    exists st'. split; [exact E'|].
    replace (k + S (length gs)) with (S k + length gs) by lia. exact Hi'.
Qed.

Lemma findBestSwap_no_edges : forall circuit k hw layout idx,
    LookAheadMapper.edges (Topology.graph hw) = [] ->
    LookAheadMapper.findBestSwap circuit k hw layout idx = (None, hw).
Proof.
  intros circuit k hw layout idx E. unfold LookAheadMapper.findBestSwap.
  rewrite E. reflexivity.
Qed.

Lemma idle_with_hw : forall n g k st,
    idle n g k st -> idle n g k (with_hw st (st_hw st)).
Proof. intros n g k st H. exact H. Qed.

Lemma lookahead_forEach_idle : forall circuit w n g fuel gs idx st k,
    LookAheadMapper.edges g = [] ->
    idle n g k st ->
    exists st', LookAheadMapper.forEach circuit w (S fuel) gs idx st = Some st'
                /\ idle n g (k + length gs) st'.
Proof.
  intros circuit w n g fuel gs. induction gs as [|gate gs IH];
    intros idx st k Hg Hi.
  - exists st. split; [reflexivity|]. now rewrite Nat.add_0_r.
  - assert (Step : exists st2,
               LookAheadMapper.processGate circuit w (S fuel) st idx gate = Some st2
               /\ idle n g (S k) st2).
    { unfold LookAheadMapper.processGate.
      destruct (QuantumCircuit.gqubits gate) as [|c [|t [|x l]]];
        try (eexists; split; [reflexivity|now apply idle_emitNative]).
      assert (Hg' : LookAheadMapper.edges (Topology.graph (st_hw st)) = [])
        by (destruct Hi as (_ & _ & _ & ->); exact Hg).
      simpl. destruct (Topology.isConnected _ _ _).
      - eexists. split; [reflexivity|].
        now apply idle_emitNative, idle_addPenalty.
      - rewrite findBestSwap_no_edges by exact Hg'.
        eexists. split; [reflexivity|].
        now apply idle_emitNative, idle_addPenalty, idle_with_hw. }
    destruct Step as (st2 & E & Hi2). simpl. rewrite E.
    destruct (IH (S idx) st2 (S k) Hg Hi2) as (st' & E' & Hi').
    exists st'. split; [exact E'|].
    replace (k + S (length gs)) with (S k + length gs) by lia. exact Hi'.
Qed.

(** On a device without any edge (one qubit, or an unknown shape tag)
    [GreedyMapper] and [LookAheadMapper] do not fail: [map] returns after
    one look at each gate, inserts no swap, leaves the layout as it
    started, and its depth is the number of gates. *)
Theorem no_edges_no_swaps : forall circuit hw,
    Forall (fun row => row = []) (Topology.graph hw) ->
    (forall fuel, exists r hw',
          GreedyMapper.map (S fuel) circuit hw = Some (r, hw')
          /\ insertedSwaps r = 0
          /\ depth r = length (QuantumCircuit.gates circuit)
          /\ finalLayout r = Layout.identity (QuantumCircuit.nQubits circuit))
    /\ (forall k fuel, exists r hw',
           LookAheadMapper.map k (S fuel) circuit hw = Some (r, hw')
           /\ insertedSwaps r = 0
           /\ depth r = length (QuantumCircuit.gates circuit)
           /\ finalLayout r = Layout.identity (QuantumCircuit.nQubits circuit)).
Proof.
  intros circuit hw Hg.
  assert (Hi : idle (QuantumCircuit.nQubits circuit) (Topology.graph hw) 0
                    (init (QuantumCircuit.nQubits circuit) hw))
    by (repeat split).
  split.
  - intro fuel.
    destruct (greedy_forEach_idle _ _ fuel (QuantumCircuit.gates circuit) _ _ Hg Hi)
      as (st & E & H1 & H2 & H3 & _).
    unfold GreedyMapper.map. rewrite E. eexists. eexists.
    split; [reflexivity|]. simpl. auto.
  - intros k fuel.
    destruct (lookahead_forEach_idle circuit k _ _ fuel
                (QuantumCircuit.gates circuit) 0 _ _ (no_edges_edges _ Hg) Hi)
      as (st & E & H1 & H2 & H3 & _).
    unfold LookAheadMapper.map. rewrite E. eexists. eexists.
    split; [reflexivity|]. simpl. auto.
Qed.

Lemma no_edges_no_swaps_example :
  exists r hw',
    LookAheadMapper.map 3 1 (QuantumCircuit.mk 2 [cx 0 1]) lnn1 = Some (r, hw')
    /\ insertedSwaps r = 0
    /\ depth r = 1
    /\ finalLayout r = Layout.identity 2.
Proof.
  refine (proj2 (no_edges_no_swaps (QuantumCircuit.mk 2 [cx 0 1]) lnn1 _) 3 0).
  repeat constructor.
Defined.

(** * Runs on a device that fits the circuit *)

(** On a hardware object the constructor built with no more qubits than the
    circuit, the layout [GreedyMapper] and [LookAheadMapper] return is a
    permutation of the physical ids [0 .. n-1], the snapshots of consecutive
    steps differ by the transposition a swap step records and by nothing at
    a gate step, and the last snapshot is the final layout. *)
Theorem layout_stays_a_permutation :
  (forall fuel circuit hw r hw',
      built hw -> device_fits (QuantumCircuit.nQubits circuit) hw ->
      GreedyMapper.map fuel circuit hw = Some (r, hw') ->
      Permutation (Layout.cells (finalLayout r))
                  (map Some (seq 0 (QuantumCircuit.nQubits circuit)))
      /\ snapshots_ok (map Some (seq 0 (QuantumCircuit.nQubits circuit))) (steps r)
      /\ last (map step_layout (steps r))
              (map Some (seq 0 (QuantumCircuit.nQubits circuit)))
         = Layout.cells (finalLayout r))
  /\ (forall k fuel circuit hw r hw',
         built hw -> device_fits (QuantumCircuit.nQubits circuit) hw ->
         LookAheadMapper.map k fuel circuit hw = Some (r, hw') ->
         Permutation (Layout.cells (finalLayout r))
                     (map Some (seq 0 (QuantumCircuit.nQubits circuit)))
         /\ snapshots_ok (map Some (seq 0 (QuantumCircuit.nQubits circuit)))
                         (steps r)
         /\ last (map step_layout (steps r))
                 (map Some (seq 0 (QuantumCircuit.nQubits circuit)))
            = Layout.cells (finalLayout r)).
Proof.
  split.
  - intros fuel circuit hw r hw' Hb Hfit H.
    destruct (proj1 layout_trace_when_device_fits _ _ _ _ _ Hb Hfit H)
      as (H1 & H2 & H3).
    split; [now apply layout_ok_permutation|]. split; assumption.
  - intros k fuel circuit hw r hw' Hb Hfit H.
    destruct (proj1 (proj2 layout_trace_when_device_fits) _ _ _ _ _ _ Hb Hfit H)
      as (H1 & H2 & H3).
    split; [now apply layout_ok_permutation|]. split; assumption.
Qed.

Lemma layout_stays_a_permutation_example :
  exists r hw',
    GreedyMapper.map 3 circuitA lnn3 = Some (r, hw')
    /\ Permutation (Layout.cells (finalLayout r)) (map Some (seq 0 3)).
Proof.
  eexists. eexists. split; [reflexivity|].
  refine (proj1 (proj1 layout_stays_a_permutation 3 circuitA lnn3 _ _ _ _ eq_refl)).
  - split; reflexivity.
  - unfold device_fits. simpl. lia.
Defined.

Lemma greedy_returns_when_device_fits_example :
  exists r hw', GreedyMapper.map 12 circuitA lnn3 = Some (r, hw').
Proof.
  apply greedy_returns_when_device_fits.
  - split; reflexivity.
  - unfold device_fits. simpl. lia.
  - unfold Topology.bfs_fuel. simpl. lia.
Defined.

Lemma genetic_map_layout_trace_example :
  exists r hw',
    GeneticSwapOptimizer.map
      circuitA lnn3
      (GeneticSwapOptimizer.mkOptions (Some 2) (Some 1) None None None None
                                      None None)
      (fun _ => 0%Q)
    = Ok (r, hw')
    /\ result_trace_ok 3 r.
Proof.
  eexists. eexists. split; [vm_compute; reflexivity|].
  eapply (genetic_map_layout_trace
            circuitA lnn3
            (GeneticSwapOptimizer.mkOptions (Some 2) (Some 1) None None None None
                                            None None)
            (fun _ => 0%Q)).
  vm_compute. reflexivity.
Defined.

(** * The chromosomes of the genetic search *)

Section Chromosomes.

Variable circuit : QuantumCircuit.t.
Variable g : Topology.Graph.
Variable rnd : nat -> Q.
Variable cfg : GeneticSwapOptimizer.Config.
Hypothesis Hrnd : unit_interval rnd.
Hypothesis Hmax : 0 < GeneticSwapOptimizer.maxSwapsPerChromosome cfg.

Local Abbreviation max := (GeneticSwapOptimizer.maxSwapsPerChromosome cfg).

Lemma preserves_ret : forall A (P : A -> Prop) a,
    P a -> preserves g rnd P (GeneticSwapOptimizer.ret a).
Proof. intros A P a H e a' e' Hg E. injection E as <- <-. auto. Qed.

Lemma preserves_throw : forall A (P : A -> Prop),
    preserves g rnd P (@GeneticSwapOptimizer.throw A).
Proof. intros A P e a e' Hg E. discriminate. Qed.

Lemma preserves_bind : forall A B (P : A -> Prop) (Q : B -> Prop)
                              (m : GeneticSwapOptimizer.G A)
                              (k : A -> GeneticSwapOptimizer.G B),
    preserves g rnd P m -> (forall a, P a -> preserves g rnd Q (k a)) ->
    preserves g rnd Q (GeneticSwapOptimizer.gbind m k).
Proof.
  intros A B P Q m k Hm Hk e b e' Hg E. unfold GeneticSwapOptimizer.gbind in E.
  destruct (m rnd e) as [[a e1]|] eqn:Em; [|discriminate].
  destruct (Hm _ _ _ Hg Em) as [Ha Hg1]. exact (Hk a Ha _ _ _ Hg1 E).
Qed.

Lemma preserves_weaken : forall A (P Q : A -> Prop) (m : GeneticSwapOptimizer.G A),
    (forall a, P a -> Q a) -> preserves g rnd P m -> preserves g rnd Q m.
Proof.
  intros A P Q m H Hm e a e' Hg E. destruct (Hm _ _ _ Hg E). auto.
Qed.

Lemma preserves_random :
  preserves g rnd (fun r => (0 <= r)%Q /\ (r < 1)%Q) GeneticSwapOptimizer.random.
Proof.
  intros e a e' Hg E. unfold GeneticSwapOptimizer.random in E.
  injection E as <- <-. split; [apply Hrnd|exact Hg].
Qed.

Lemma preserves_randomIndex : forall k,
    preserves g rnd (fun i => 0 < k -> i < k) (GeneticSwapOptimizer.randomIndex k).
Proof.
  intro k. unfold GeneticSwapOptimizer.randomIndex.
  eapply preserves_bind; [apply preserves_random|]. intros r [H0 H1].
  apply preserves_ret. intro Hk. now apply randomIndex_below.
Qed.

Lemma edge_gene : forall i,
    gene_on_edge g (nth_error (LookAheadMapper.edges g) i).
Proof.
  intro i. destruct (nth_error _ i) as [[a b]|] eqn:E; simpl; [|exact I].
  apply nth_error_In in E. apply in_edges in E. apply E.
Qed.

Lemma preserves_random_genes : forall k,
    preserves g rnd (fun c => Forall (gene_on_edge g) c /\ length c = k)
              (GeneticSwapOptimizer.random_genes (LookAheadMapper.edges g) k).
Proof.
  induction k as [|k IH]; simpl.
  - apply preserves_ret. split; [constructor|reflexivity].
  - eapply preserves_bind; [apply preserves_randomIndex|]. intros i _.
    eapply preserves_bind; [exact IH|]. intros rest [Hrest Hlen].
    apply preserves_ret. split; [|simpl; now rewrite Hlen].
    constructor; [apply edge_gene|exact Hrest].
Qed.

Lemma preserves_random_population : forall k,
    preserves g rnd (Forall (chromosome_ok g max))
              (GeneticSwapOptimizer.random_population
                 cfg (LookAheadMapper.edges g) k).
Proof.
  induction k as [|k IH]; simpl.
  - apply preserves_ret. constructor.
  - eapply preserves_bind; [apply preserves_randomIndex|]. intros l Hl.
    eapply preserves_bind; [apply preserves_random_genes|]. intros c [Hc Hlen].
    eapply preserves_bind; [exact IH|]. intros rest Hrest.
    apply preserves_ret. constructor; [|exact Hrest].
    specialize (Hl Hmax). split; [exact Hc|]. lia.
Qed.

Lemma preserves_initializePopulation :
  preserves g rnd (Forall (chromosome_ok g max))
            (GeneticSwapOptimizer.initializePopulation cfg).
Proof.
  intros e a e' Hg E. unfold GeneticSwapOptimizer.initializePopulation in E.
  unfold GeneticSwapOptimizer.getValidSwaps in E. rewrite Hg in E.
  exact (preserves_random_population _ _ _ _ Hg E).
Qed.

Lemma preserves_evaluate_one : forall c,
    chromosome_ok g max c ->
    preserves g rnd (fun x => chromosome_ok g max (fst x))
              (GeneticSwapOptimizer.evaluate_one circuit c).
Proof.
  intros c Hc e a e' Hg E.
  pose proof (keeps_evaluate_one circuit c rnd e a e' E) as (_ & _ & G & _).
  split; [|congruence].
  unfold GeneticSwapOptimizer.evaluate_one in E.
  destruct (GeneticSwapOptimizer.chromosomeKey c); [|discriminate].
  destruct (GeneticSwapOptimizer.fitness_get _ _);
    [injection E as <- _; exact Hc|].
  destruct (GeneticSwapOptimizer.evaluateFitness _ _ _) as [[f h]|];
    [|discriminate].
  injection E as <- _. exact Hc.
Qed.

Lemma preserves_evaluate_all : forall p,
    Forall (chromosome_ok g max) p ->
    preserves g rnd (Forall (fun x => chromosome_ok g max (fst x)))
              (GeneticSwapOptimizer.evaluate_all circuit p).
Proof.
  intros p Hp. induction Hp as [|c p Hc Hp IH]; simpl.
  - apply preserves_ret. constructor.
  - eapply preserves_bind; [now apply preserves_evaluate_one|]. intros x Hx.
    eapply preserves_bind; [exact IH|]. intros xs Hxs.
    apply preserves_ret. now constructor.
Qed.

Lemma preserves_tournament_draw : forall ev k,
    Forall (fun x => chromosome_ok g max (fst x)) ev ->
    preserves g rnd (Forall (fun x => chromosome_ok g max (fst x)))
              (GeneticSwapOptimizer.tournament_draw ev k).
Proof.
  intros ev k Hev. induction k as [|k IH]; simpl.
  - apply preserves_ret. constructor.
  - eapply preserves_bind; [apply preserves_randomIndex|]. intros i _.
    match goal with
    | |- preserves _ _ _ (match ?t with _ => _ end) => destruct t as [x|] eqn:E
    end; [|apply preserves_throw].
    eapply preserves_bind; [exact IH|]. intros rest Hrest.
    apply preserves_ret. constructor; [|exact Hrest].
    rewrite Forall_forall in Hev. apply Hev. eapply nth_error_In. exact E.
Qed.

Lemma preserves_tournamentSelect : forall ev,
    Forall (fun x => chromosome_ok g max (fst x)) ev ->
    preserves g rnd (chromosome_ok g max)
              (GeneticSwapOptimizer.tournamentSelect cfg ev).
Proof.
  intros ev Hev. unfold GeneticSwapOptimizer.tournamentSelect.
  eapply preserves_bind; [now apply preserves_tournament_draw|].
  intros t Ht. apply sort_desc_Forall in Ht.
  destruct (GeneticSwapOptimizer.sort_desc t) as [|x l]; [apply preserves_throw|].
  apply preserves_ret. now inversion Ht.
Qed.

Lemma gene_on_edge_firstn : forall c i,
    Forall (gene_on_edge g) c -> Forall (gene_on_edge g) (firstn i c).
Proof.
  intros c i H. rewrite Forall_forall in *. intros x Hx. apply H.
  rewrite <- (firstn_skipn i c). apply in_or_app. now left.
Qed.

Lemma preserves_crossover : forall p1 p2,
    chromosome_ok g max p1 -> chromosome_ok g max p2 ->
    preserves g rnd (chromosome_ok g max) (GeneticSwapOptimizer.crossover p1 p2).
Proof.
  intros p1 p2 (G1 & L1 & M1) (G2 & L2 & M2).
  unfold GeneticSwapOptimizer.crossover.
  destruct (Nat.eqb_spec (length p1) 0); [lia|].
  destruct (Nat.eqb_spec (length p2) 0); [lia|]. simpl.
  eapply preserves_bind; [apply preserves_randomIndex|]. intros point Hp.
  apply preserves_ret. specialize (Hp ltac:(lia)).
  split.
  - apply Forall_app. split;
      [now apply gene_on_edge_firstn|now apply gene_on_edge_skipn].
  - rewrite length_app, length_firstn, length_skipn. lia.
Qed.

Lemma length_replace_at : forall (A : Type) (l : list A) i v,
    length (GeneticSwapOptimizer.replace_at l i v) = length l.
Proof.
  intros A l. induction l as [|y l IH]; intros [|i] v; simpl; auto.
Qed.

Lemma length_remove_at : forall (A : Type) (l : list A) i,
    i < length l -> length (GeneticSwapOptimizer.remove_at l i) = length l - 1.
Proof.
  intros A l. induction l as [|y l IH]; intros [|i] H; simpl in *; try lia.
  rewrite IH by lia. lia.
Qed.

Lemma preserves_mutate : forall c,
    chromosome_ok g max c ->
    preserves g rnd (chromosome_ok g max) (GeneticSwapOptimizer.mutate cfg c).
Proof.
  intros c (G1 & L1 & M1) e a e' Hg.
  unfold GeneticSwapOptimizer.mutate, GeneticSwapOptimizer.getValidSwaps.
  cbv beta zeta. rewrite Hg. revert e a e' Hg.
  change (preserves g rnd (chromosome_ok g max)
            (GeneticSwapOptimizer.gbind GeneticSwapOptimizer.random
               (fun mutationType =>
                  if negb (Qle_bool (4 # 10) mutationType) && (0 <? length c)
                  then
                    GeneticSwapOptimizer.gbind
                      (GeneticSwapOptimizer.randomIndex (length c))
                      (fun idx =>
                         GeneticSwapOptimizer.gbind
                           (GeneticSwapOptimizer.randomIndex
                              (length (LookAheadMapper.edges g)))
                           (fun i =>
                              GeneticSwapOptimizer.ret
                                (GeneticSwapOptimizer.replace_at
                                   c idx
                                   (nth_error (LookAheadMapper.edges g) i))))
                  else
                    if negb (Qle_bool (7 # 10) mutationType)
                       && (length c <? max)
                    then
                      GeneticSwapOptimizer.gbind
                        (GeneticSwapOptimizer.randomIndex
                           (length (LookAheadMapper.edges g)))
                        (fun i =>
                           GeneticSwapOptimizer.ret
                             (c ++ [nth_error (LookAheadMapper.edges g) i]))
                    else
                      if 1 <? length c
                      then
                        GeneticSwapOptimizer.gbind
                          (GeneticSwapOptimizer.randomIndex (length c))
                          (fun idx =>
                             GeneticSwapOptimizer.ret
                               (GeneticSwapOptimizer.remove_at c idx))
                      else GeneticSwapOptimizer.ret c))).
  eapply preserves_bind; [apply preserves_random|]. intros mt _.
  destruct (_ && _).
  - eapply preserves_bind; [apply preserves_randomIndex|]. intros idx _.
    eapply preserves_bind; [apply preserves_randomIndex|]. intros i _.
    apply preserves_ret. split.
    + apply replace_at_Forall; [exact G1|apply edge_gene].
    + rewrite length_replace_at. lia.
  - destruct (negb _ && (length c <? max)) eqn:E2.
    + apply andb_true_iff in E2. destruct E2 as [_ E2]. apply Nat.ltb_lt in E2.
      eapply preserves_bind; [apply preserves_randomIndex|]. intros i _.
      apply preserves_ret. split.
      * apply Forall_app. split; [exact G1|].
        constructor; [apply edge_gene|constructor].
      * rewrite length_app. simpl. lia.
    + destruct (Nat.ltb_spec 1 (length c)) as [L|L].
      * eapply preserves_bind; [apply preserves_randomIndex|]. intros idx Hi.
        apply preserves_ret. split; [now apply remove_at_Forall|].
        rewrite length_remove_at; [lia|]. apply Hi. lia.
      * apply preserves_ret. split; [exact G1|lia].
Qed.

Lemma preserves_breed : forall ev rate k pop,
    Forall (fun x => chromosome_ok g max (fst x)) ev ->
    Forall (chromosome_ok g max) pop ->
    preserves g rnd (Forall (chromosome_ok g max))
              (GeneticSwapOptimizer.breed cfg ev rate k pop).
Proof.
  intros ev rate k. induction k as [|k IH]; intros pop Hev Hpop; simpl.
  - now apply preserves_ret.
  - eapply preserves_bind; [now apply preserves_tournamentSelect|]. intros p1 H1.
    eapply preserves_bind; [now apply preserves_tournamentSelect|]. intros p2 H2.
    eapply preserves_bind; [now apply preserves_crossover|]. intros child Hch.
    eapply preserves_bind; [apply preserves_random|]. intros r _.
    eapply preserves_bind with (P := chromosome_ok g max).
    + destruct (negb _); [now apply preserves_mutate|now apply preserves_ret].
    + intros child' Hc'. apply IH; [exact Hev|].
      apply Forall_app. split; [exact Hpop|].
      constructor; [exact Hc'|constructor].
Qed.

Lemma preserves_evolve : forall gens pop best bf pc rate,
    Forall (chromosome_ok g max) pop ->
    match best with Some c => chromosome_ok g max c | None => True end ->
    preserves g rnd
              (fun b => match b with
                        | Some c => chromosome_ok g max c
                        | None => True
                        end)
              (GeneticSwapOptimizer.evolve circuit cfg gens pop best bf pc rate).
Proof.
  induction gens as [|gens IH]; intros pop best bf pc rate Hpop Hbest; simpl.
  - now apply preserves_ret.
  - eapply preserves_bind; [now apply preserves_evaluate_all|]. intros ev0 Hev0.
    apply sort_desc_Forall in Hev0.
    destruct (GeneticSwapOptimizer.sort_desc ev0) as [|top l] eqn:Es;
      [apply preserves_throw|].
    assert (Htop : chromosome_ok g max (fst top)) by (now inversion Hev0).
    destruct (GeneticSwapOptimizer.fitness_gt (snd top) bf).
    + destruct (_ <=? _); [now apply preserves_ret|].
      eapply preserves_bind.
      * apply preserves_breed; [exact Hev0|].
        apply Forall_map. apply slice0_Forall. exact Hev0.
      * intros pop' Hp'. now apply IH.
    + destruct (_ <=? _); [now apply preserves_ret|].
      eapply preserves_bind.
      * apply preserves_breed; [exact Hev0|].
        apply Forall_map. apply slice0_Forall. exact Hev0.
      * intros pop' Hp'. now apply IH.
Qed.

End Chromosomes.

(** ** A replay inserts at most one swap per chromosome entry *)

Lemma genetic_loop_swap_count : forall rest c t st i st1 i1,
    GeneticSwapOptimizer.swap_loop rest c t st i = Ok (st1, i1) ->
    i <= i1 /\ i1 <= i + length rest
    /\ st_insertedSwaps st1 + i <= st_insertedSwaps st + i1.
Proof.
  induction rest as [|x rest IH]; intros c t st i st1 i1 H; simpl in H.
  - destruct (Topology.isConnected _ _ _); injection H as <- <-; simpl; lia.
  - destruct (Topology.isConnected _ _ _); [injection H as <- <-; simpl; lia|].
    destruct x as [[a b]|]; [|discriminate].
    apply IH in H. destruct H as (H1 & H2 & H3).
    destruct (_ && _); simpl in *; lia.
Qed.

Lemma genetic_forEach_swap_count : forall ch gs st i st' i',
    GeneticSwapOptimizer.forEach (Some ch) gs (st, i) = Ok (st', i') ->
    st_insertedSwaps st <= i -> i <= length ch ->
    st_insertedSwaps st' <= i' /\ i' <= length ch.
Proof.
  intros ch gs. induction gs as [|g gs IH]; intros st i st' i' H Hs Hi;
    simpl in H.
  - injection H as <- <-. auto.
  - destruct (GeneticSwapOptimizer.processGate (Some ch) (st, i) g)
      as [[st2 i2]|] eqn:E; [|discriminate].
    apply IH in H; [exact H| |];
      unfold GeneticSwapOptimizer.processGate in E;
      destruct (QuantumCircuit.gqubits g) as [|c [|t [|x l]]];
      try (injection E as <- <-; simpl; assumption);
      unfold GeneticSwapOptimizer.run_swap_loop in E;
      destruct (GeneticSwapOptimizer.swap_loop _ c t st i) as [[st1 i1]|] eqn:El;
      try discriminate;
      injection E as <- <-;
      apply genetic_loop_swap_count in El;
      destruct El as (L1 & L2 & L3);
      destruct (addPenalty_fields st1 c t) as (_ & _ & F3 & _);
      rewrite length_skipn in L2; simpl; try rewrite F3; lia.
Qed.

(** A replay of a chromosome inserts at most as many swaps as the
    chromosome has entries. *)
Lemma replay_swap_count : forall circuit hw ch r hw',
    GeneticSwapOptimizer.applyChromosome circuit hw (Some ch) = Ok (r, hw') ->
    insertedSwaps r <= length ch.
Proof.
  intros circuit hw ch r hw' H. unfold GeneticSwapOptimizer.applyChromosome in H.
  destruct (GeneticSwapOptimizer.forEach _ _ _) as [[st i]|] eqn:E; [|discriminate].
  injection H as <- _. simpl.
  apply genetic_forEach_swap_count in E; simpl; lia.
Qed.

Lemma null_processGate_no_swap : forall st i g st' i',
    GeneticSwapOptimizer.processGate None (st, i) g = Ok (st', i') ->
    st_insertedSwaps st' = st_insertedSwaps st
    /\ exists s, st_steps st' = st_steps st ++ [s] /\ is_swap s = false.
Proof.
  intros st i g st' i' E. unfold GeneticSwapOptimizer.processGate in E.
  destruct (QuantumCircuit.gqubits g) as [|c [|t [|x l]]];
    try (injection E as <- <-; split; [reflexivity|];
         eexists; split; reflexivity).
  unfold GeneticSwapOptimizer.run_swap_loop in E.
  destruct (Topology.isConnected _ _ _); [|discriminate].
  injection E as <- <-.
  destruct (addPenalty_fields st c t) as (F1 & _ & F3 & _).
  split; [simpl; exact F3|]. eexists. split; [simpl; rewrite F1|]; reflexivity.
Qed.

Lemma replay_null_no_swap : forall circuit hw r hw',
    GeneticSwapOptimizer.applyChromosome circuit hw None = Ok (r, hw') ->
    insertedSwaps r = 0 /\ Forall (fun s => is_swap s = false) (steps r).
Proof.
  intros circuit hw r hw' H. unfold GeneticSwapOptimizer.applyChromosome in H.
  destruct (GeneticSwapOptimizer.forEach _ _ _) as [[st i]|] eqn:E; [|discriminate].
  injection H as <- _. simpl.
  assert (K : forall gs st i st' i',
             GeneticSwapOptimizer.forEach None gs (st, i) = Ok (st', i') ->
             st_insertedSwaps st = 0 ->
             Forall (fun s => is_swap s = false) (st_steps st) ->
             st_insertedSwaps st' = 0
             /\ Forall (fun s => is_swap s = false) (st_steps st')).
  { clear. induction gs as [|g gs IH]; intros st i st' i' H Hs Hf; simpl in H.
    - injection H as <- <-. auto.
    - destruct (GeneticSwapOptimizer.processGate None (st, i) g)
        as [[st2 i2]|] eqn:E; [|discriminate].
      apply null_processGate_no_swap in E. destruct E as (E1 & s & E2 & E3).
      apply IH in H; [exact H|congruence|].
      rewrite E2. apply Forall_app. split; [exact Hf|].
      constructor; [exact E3|constructor]. }
  eapply K; [exact E|reflexivity|constructor].
Qed.

Lemma genetic_forEach_edge_swaps_result : forall circuit hw ch r hw',
    Forall (gene_on_edge (Topology.graph hw)) ch ->
    GeneticSwapOptimizer.applyChromosome circuit hw (Some ch) = Ok (r, hw') ->
    Forall (swap_on_edge (Topology.graph hw)) (steps r).
Proof.
  intros circuit hw ch r hw' Hg H.
  unfold GeneticSwapOptimizer.applyChromosome in H.
  destruct (GeneticSwapOptimizer.forEach _ _ _) as [[st i]|] eqn:E;
    [|discriminate].
  injection H as <- _.
  apply (genetic_forEach_edge_swaps _ (Some ch) _ _ _ _ _ Hg E
                                    (edge_swaps_init _ _)).
Qed.

(** What [GeneticSwapOptimizer.map] returns is the replay of a chromosome
    the search produced: every inserted swap joins two adjacent physical
    qubits, and there are at most [maxSwapsPerChromosome] of them (eight
    unless configured), however many the circuit would need. The random
    numbers are taken in [[0, 1)], as [Math.random] gives them. *)
Theorem genetic_swaps_are_bounded : forall circuit hw o rnd r hw',
    unit_interval rnd ->
    GeneticSwapOptimizer.map circuit hw o rnd = Ok (r, hw') ->
    insertedSwaps r
    <= GeneticSwapOptimizer.maxSwapsPerChromosome (GeneticSwapOptimizer.makeConfig o)
    /\ Forall (swap_on_edge (Topology.graph hw)) (steps r).
Proof.
  intros circuit hw o rnd r hw' Hrnd H.
  set (cfg := GeneticSwapOptimizer.makeConfig o) in *.
  assert (Hmax : 0 < GeneticSwapOptimizer.maxSwapsPerChromosome cfg)
    by (apply or_default_pos; lia).
  unfold GeneticSwapOptimizer.map in H. fold cfg in H.
  destruct (GeneticSwapOptimizer.gbind _ _ rnd _) as [[best e]|] eqn:E;
    [|discriminate].
  assert (P : preserves (Topology.graph hw) rnd
                (fun b => match b with
                          | Some c => chromosome_ok
                                        (Topology.graph hw)
                                        (GeneticSwapOptimizer.maxSwapsPerChromosome cfg)
                                        c
                          | None => True
                          end)
                (GeneticSwapOptimizer.gbind
                   (GeneticSwapOptimizer.initializePopulation cfg)
                   (fun population =>
                      GeneticSwapOptimizer.evolve
                        circuit cfg (GeneticSwapOptimizer.generations cfg)
                        population None GeneticSwapOptimizer.FNegInf 0
                        (GeneticSwapOptimizer.initialMutationRate cfg)))).
  { eapply preserves_bind.
    - now apply preserves_initializePopulation.
    - intros pop Hpop. apply preserves_evolve; auto. }
  destruct (P (GeneticSwapOptimizer.mkEnv 0 [] hw) _ _ eq_refl E) as [Hbest Hg].
  destruct best as [c|].
  - destruct Hbest as (G1 & L1 & M1). split.
    + apply replay_swap_count in H. lia.
    + rewrite <- Hg.
      eapply (genetic_forEach_edge_swaps_result circuit); [|exact H].
      rewrite Hg. exact G1.
  - apply replay_null_no_swap in H. destruct H as [H1 H2]. split; [lia|].
    eapply Forall_impl; [|exact H2]. intros s Hs. destruct s; [discriminate|exact I].
Qed.

Lemma genetic_swaps_are_bounded_example :
  exists r hw',
    GeneticSwapOptimizer.map
      circuitA lnn3
      (GeneticSwapOptimizer.mkOptions (Some 2) (Some 1) None None None None
                                      None None)
      (fun _ => 0%Q)
    = Ok (r, hw')
    /\ insertedSwaps r <= 8.
Proof.
  eexists. eexists. split; [vm_compute; reflexivity|].
  refine (proj1 (genetic_swaps_are_bounded
                   circuitA lnn3
                   (GeneticSwapOptimizer.mkOptions (Some 2) (Some 1) None None
                                                   None None None None)
                   (fun _ => 0%Q) _ _ _ _)).
  - intro i. split; [apply Qle_refl|reflexivity].
  - vm_compute. reflexivity.
Defined.

(** * The benchmark circuits *)

Lemma extends_refl : forall n c, extends_by n 0 c c.
Proof.
  intros n c. split; [reflexivity|]. exists []. rewrite app_nil_r.
  repeat split. constructor.
Qed.

Lemma extends_trans : forall n k1 k2 c1 c2 c3,
    extends_by n k1 c1 c2 -> extends_by n k2 c2 c3 ->
    extends_by n (k1 + k2) c1 c3.
Proof.
  intros n k1 k2 c1 c2 c3 (N1 & m1 & G1 & L1 & F1) (N2 & m2 & G2 & L2 & F2).
  split; [congruence|]. exists (m1 ++ m2). split; [|split].
  - rewrite G2, G1. now rewrite app_assoc.
  - rewrite length_app. lia.
  - apply Forall_app. auto.
Qed.

Lemma extends_push : forall n c ty qs,
    Forall (fun q => q < n) qs ->
    routable n (QuantumCircuit.mkGate ty qs) ->
    extends_by n 1 c
               (QuantumCircuit.mk (QuantumCircuit.nQubits c)
                  (QuantumCircuit.gates c ++ [QuantumCircuit.mkGate ty qs])).
Proof.
  intros n c ty qs Hq Hr. split; [reflexivity|].
  exists [QuantumCircuit.mkGate ty qs].
  split; [reflexivity|]. split; [reflexivity|].
  constructor; [|constructor]. split; assumption.
Qed.

(** Names the circuit the next [addGate] makes, with what it adds. *)
Ltac add_gate n c1 H1 :=
  match goal with
  | |- context [QuantumCircuit.mk (QuantumCircuit.nQubits ?c)
                  (QuantumCircuit.gates ?c ++ [QuantumCircuit.mkGate ?ty ?qs])] =>
      assert (H1 : extends_by n 1 c
                     (QuantumCircuit.mk (QuantumCircuit.nQubits c)
                        (QuantumCircuit.gates c ++ [QuantumCircuit.mkGate ty qs])))
        by (apply extends_push;
            [repeat constructor; lia
            |unfold routable; simpl; try exact I; lia]);
      remember (QuantumCircuit.mk (QuantumCircuit.nQubits c)
                  (QuantumCircuit.gates c ++ [QuantumCircuit.mkGate ty qs])) as c1
  end.

Lemma qft_inner_extends : forall n i k c,
    i < n -> k <= i ->
    exists c', Benchmarks.qft_inner i k c = Ok c' /\ extends_by n k c c'.
Proof.
  intros n i k. induction k as [|j IH]; intros c Hi Hk; simpl.
  - exists c. split; [reflexivity|apply extends_refl].
  - add_gate n c1 H1.
    destruct (IH c1 Hi ltac:(lia)) as (c' & E' & H').
    exists c'. split; [exact E'|].
    exact (extends_trans n 1 j _ _ _ H1 H').
Qed.

Lemma qft_outer_extends : forall n k c,
    k <= n ->
    exists c', Benchmarks.qft_outer k c = Ok c' /\ extends_by n (triangle k) c c'.
Proof.
  intros n k. induction k as [|i IH]; intros c Hk; simpl.
  - exists c. split; [reflexivity|apply extends_refl].
  - add_gate n c1 H1.
    destruct (qft_inner_extends n i i c1 ltac:(lia) (le_n _)) as (c2 & E2 & H2).
    rewrite E2. simpl.
    destruct (IH c2 ltac:(lia)) as (c' & E' & H').
    exists c'. split; [exact E'|].
    replace (S (i + triangle i)) with (1 + i + triangle i) by lia.
    exact (extends_trans n _ _ _ _ _ (extends_trans n _ _ _ _ _ H1 H2) H').
Qed.

Lemma h_layer_extends : forall n k i c,
    i + k <= n ->
    exists c', Benchmarks.h_layer k i c = Ok c' /\ extends_by n k c c'.
Proof.
  intros n k. induction k as [|k IH]; intros i c H; simpl.
  - exists c. split; [reflexivity|apply extends_refl].
  - add_gate n c1 H1.
    destruct (IH (S i) c1 ltac:(lia)) as (c' & E' & H').
    exists c'. split; [exact E'|].
    exact (extends_trans n 1 k _ _ _ H1 H').
Qed.

Lemma grover_inner_extends : forall n k i c,
    i + k <= n - 1 ->
    exists c', Benchmarks.grover_inner n k i c = Ok c'
               /\ extends_by n (grover_inner_count n k i) c c'.
Proof.
  intros n k. induction k as [|k IH]; intros i c H; simpl.
  - exists c. split; [reflexivity|apply extends_refl].
  - add_gate n c1 H1.
    destruct (Nat.ltb_spec i (n - 2)) as [L|L].
    + simpl. add_gate n c2 H2.
      destruct (IH (S i) c2 ltac:(lia)) as (c' & E' & H').
      exists c'. split; [exact E'|].
      exact (extends_trans n 2 _ _ _ _ (extends_trans n 1 1 _ _ _ H1 H2) H').
    + simpl.
      destruct (IH (S i) c1 ltac:(lia)) as (c' & E' & H').
      exists c'. split; [exact E'|].
      exact (extends_trans n 1 _ _ _ _ H1 H').
Qed.

Lemma grover_inner_count_all : forall n k i,
    i + k = n - 1 -> grover_inner_count n k i = k + (k - 1).
Proof.
  intros n k. induction k as [|k IH]; intros i H; simpl; [reflexivity|].
  destruct (Nat.ltb_spec i (n - 2)) as [L|L].
  - rewrite IH by lia. lia.
  - assert (k = 0) by lia. subst k. reflexivity.
Qed.

Lemma grover_outer_extends : forall n k c,
    2 <= n ->
    exists c', Benchmarks.grover_outer n k c = Ok c'
               /\ extends_by n (k * (1 + ((n - 1) + (n - 2)))) c c'.
Proof.
  intros n k. induction k as [|k IH]; intros c Hn; simpl.
  - exists c. split; [reflexivity|apply extends_refl].
  - add_gate n c1 H1.
    destruct (grover_inner_extends n (n - 1) 0 c1 ltac:(lia)) as (c2 & E2 & H2).
    rewrite E2. simpl. rewrite grover_inner_count_all in H2 by lia.
    destruct (IH c2 Hn) as (c' & E' & H').
    exists c'. split; [exact E'|].
    replace (S (n - 1 + (n - 2) + k * S (n - 1 + (n - 2))))
      with (1 + (n - 1 + (n - 1 - 1)) + k * (1 + (n - 1 + (n - 2)))) by lia.
    exact (extends_trans n _ _ _ _ _ (extends_trans n _ _ _ _ _ H1 H2) H').
Qed.

Lemma entangle_chain_extends : forall n k i c,
    i + k < n ->
    exists c', Benchmarks.entangle_chain k i c = Ok c' /\ extends_by n k c c'.
Proof.
  intros n k. induction k as [|k IH]; intros i c H; simpl.
  - exists c. split; [reflexivity|apply extends_refl].
  - add_gate n c1 H1.
    destruct (IH (S i) c1 ltac:(lia)) as (c' & E' & H').
    exists c'. split; [exact E'|].
    exact (extends_trans n 1 k _ _ _ H1 H').
Qed.

Lemma extends_from_new : forall n k c,
    extends_by n k (QuantumCircuit.mk n []) c ->
    QuantumCircuit.nQubits c = n
    /\ length (QuantumCircuit.gates c) = k
    /\ gates_fit n (QuantumCircuit.gates c).
Proof.
  intros n k c (N & more & G & L & F). simpl in *. subst more. auto.
Qed.

Lemma qft_fits : forall n,
    exists c, Benchmarks.qft n = Ok c
              /\ QuantumCircuit.nQubits c = n
              /\ 2 * length (QuantumCircuit.gates c) = n * (n + 1)
              /\ gates_fit n (QuantumCircuit.gates c).
Proof.
  intro n.
  destruct (qft_outer_extends n n (QuantumCircuit.mk n []) (le_n _))
    as (c & E & H).
  exists c. split; [exact E|].
  apply extends_from_new in H. destruct H as (H1 & H2 & H3).
  split; [exact H1|]. split; [|exact H3]. rewrite H2.
  clear. induction n as [|n IH]; simpl; [reflexivity|]. lia.
Qed.

Lemma entangle_fits : forall n,
    1 <= n ->
    exists c, Benchmarks.entangle n = Ok c
              /\ QuantumCircuit.nQubits c = n
              /\ length (QuantumCircuit.gates c) = n
              /\ gates_fit n (QuantumCircuit.gates c).
Proof.
  intros n Hn. unfold Benchmarks.entangle. simpl.
  assert (H1 : extends_by n 1 (QuantumCircuit.mk n [])
                          (QuantumCircuit.mk n [QuantumCircuit.mkGate "h" [0]])).
  { apply (extends_push n (QuantumCircuit.mk n []) "h" [0]);
      [repeat constructor; lia|exact I]. }
  remember (QuantumCircuit.mk n [QuantumCircuit.mkGate "h" [0]]) as c1.
  destruct (entangle_chain_extends n (n - 1) 0 c1 ltac:(lia)) as (c & E & H).
  exists c. split; [exact E|].
  pose proof (extends_trans n _ _ _ _ _ H1 H) as H'.
  apply extends_from_new in H'. destruct H' as (H2 & H3 & H4).
  split; [exact H2|]. split; [lia|exact H4].
Qed.

Lemma grover_fits : forall n,
    2 <= n ->
    exists c, Benchmarks.grover n = Ok c
              /\ QuantumCircuit.nQubits c = n
              /\ length (QuantumCircuit.gates c) = n + Nat.sqrt_up n * (2 * n - 2)
              /\ gates_fit n (QuantumCircuit.gates c).
Proof.
  intros n Hn. unfold Benchmarks.grover. simpl.
  destruct (h_layer_extends n n 0 (QuantumCircuit.mk n []) ltac:(lia))
    as (c1 & E1 & H1).
  rewrite E1. simpl.
  destruct (grover_outer_extends n (Nat.sqrt_up n) c1 Hn) as (c & E & H).
  exists c. split; [exact E|].
  pose proof (extends_trans n _ _ _ _ _ H1 H) as H'.
  apply extends_from_new in H'. destruct H' as (H2 & H3 & H4).
  split; [exact H2|]. split; [|exact H4]. rewrite H3.
  replace (1 + (n - 1 + (n - 2))) with (2 * n - 2) by lia. reflexivity.
Qed.

(** The three benchmark generators build well-formed circuits. For [n]
    qubits, [qft] has [n (n + 1) / 2] gates and [entangle] (for [n >= 1])
    has [n]; [grover] (for [n >= 2]) has [n] gates followed by
    [ceil(sqrt n)] rounds of [2 n - 2]. Every gate acts on qubits below
    [n], and every two-qubit gate on two different ones. *)
Theorem benchmarks_are_well_formed : forall n,
    (exists c, Benchmarks.qft n = Ok c
               /\ QuantumCircuit.nQubits c = n
               /\ 2 * length (QuantumCircuit.gates c) = n * (n + 1)
               /\ gates_fit n (QuantumCircuit.gates c))
    /\ (1 <= n ->
        exists c, Benchmarks.entangle n = Ok c
                  /\ QuantumCircuit.nQubits c = n
                  /\ length (QuantumCircuit.gates c) = n
                  /\ gates_fit n (QuantumCircuit.gates c))
    /\ (2 <= n ->
        exists c, Benchmarks.grover n = Ok c
                  /\ QuantumCircuit.nQubits c = n
                  /\ length (QuantumCircuit.gates c)
                     = n + Nat.sqrt_up n * (2 * n - 2)
                  /\ gates_fit n (QuantumCircuit.gates c)).
Proof.
  intro n. split; [apply qft_fits|]. split; [apply entangle_fits|apply grover_fits].
Qed.

Lemma benchmarks_are_well_formed_example :
  exists c, Benchmarks.grover 4 = Ok c
            /\ QuantumCircuit.nQubits c = 4
            /\ length (QuantumCircuit.gates c) = 4 + Nat.sqrt_up 4 * (2 * 4 - 2)
            /\ gates_fit 4 (QuantumCircuit.gates c).
Proof.
  apply (proj2 (proj2 (benchmarks_are_well_formed 4))). lia.
Defined.

(** * Circuits that need no routing *)

Lemma identity_at : forall n q, q < n -> Layout.at_ (Layout.identity n) q = Some q.
Proof.
  intros n q H. rewrite at_nth. unfold Layout.identity. simpl.
  rewrite (nth_indep _ None (Some 0)) by (now rewrite length_map, length_seq).
  rewrite (map_nth Some (seq 0 n) 0 q), seq_nth; [reflexivity|exact H].
Qed.

Lemma untouched_emitNative : forall n g k st gate,
    untouched n g k st -> untouched n g (S k) (emitNative st gate).
Proof.
  intros n g k st gate (H1 & H2 & H3).
  split; [now apply idle_emitNative|]. split; assumption.
Qed.

Lemma untouched_addPenalty : forall n g k st c t,
    untouched n g k st -> c < n -> t < n -> In t (nth c g []) ->
    untouched n g k (addPenalty st c t).
Proof.
  intros n g k st c t (H1 & H2 & H3) Hc Ht Hin.
  split; [now apply idle_addPenalty|]. split; [|now apply built_addPenalty].
  destruct (addPenalty_fields st c t) as (_ & _ & _ & _ & F5).
  destruct H1 as (_ & El & _ & Eg).
  rewrite F5, H2, El, !identity_at by assumption.
  rewrite distance_value; [|now apply built_symmetric|apply H3].
  rewrite bfs_distance_adjacent;
    [reflexivity|now apply built_loop_free|].
  apply isConnected_In. now rewrite Eg.
Qed.

Lemma untouched_connected : forall n g k st c t,
    untouched n g k st -> c < n -> t < n -> In t (nth c g []) ->
    Topology.isConnected (st_hw st) (Layout.at_ (st_layout st) c)
                         (Layout.at_ (st_layout st) t) = true.
Proof.
  intros n g k st c t ((_ & El & _ & Eg) & _) Hc Ht Hin.
  rewrite El, !identity_at by assumption. apply isConnected_In. now rewrite Eg.
Qed.

Lemma greedy_forEach_untouched : forall n g fuel gs st k,
    Forall (already_adjacent n g) gs -> untouched n g k st ->
    exists st', GreedyMapper.forEach (S fuel) gs st = Some st'
                /\ untouched n g (k + length gs) st'.
Proof.
  intros n g fuel gs. induction gs as [|gate gs IH]; intros st k Hgs Hu.
  - exists st. split; [reflexivity|]. now rewrite Nat.add_0_r.
  - assert (Step : exists st2, GreedyMapper.processGate (S fuel) st gate = Some st2
                               /\ untouched n g (S k) st2).
    { pose proof (Forall_inv Hgs) as Hg. unfold already_adjacent in Hg.
      unfold GreedyMapper.processGate.
      destruct (QuantumCircuit.gqubits gate) as [|c [|t [|x l]]];
        try (eexists; split; [reflexivity|now apply untouched_emitNative]).
      destruct Hg as (Hc & Ht & Hin). simpl.
      rewrite (untouched_connected n g k st c t Hu Hc Ht Hin).
      eexists. split; [reflexivity|].
      now apply untouched_emitNative, untouched_addPenalty. }
    destruct Step as (st2 & E & Hu2). simpl. rewrite E.
    destruct (IH st2 (S k) (Forall_inv_tail Hgs) Hu2) as (st' & E' & Hu').
    exists st'. split; [exact E'|].
    replace (k + S (length gs)) with (S k + length gs) by lia. exact Hu'.
Qed.

Lemma lookahead_forEach_untouched : forall circuit w n g fuel gs idx st k,
    Forall (already_adjacent n g) gs -> untouched n g k st ->
    exists st', LookAheadMapper.forEach circuit w (S fuel) gs idx st = Some st'
                /\ untouched n g (k + length gs) st'.
Proof.
  intros circuit w n g fuel gs. induction gs as [|gate gs IH];
    intros idx st k Hgs Hu.
  - exists st. split; [reflexivity|]. now rewrite Nat.add_0_r.
  - assert (Step : exists st2,
               LookAheadMapper.processGate circuit w (S fuel) st idx gate = Some st2
               /\ untouched n g (S k) st2).
    { pose proof (Forall_inv Hgs) as Hg. unfold already_adjacent in Hg.
      unfold LookAheadMapper.processGate.
      destruct (QuantumCircuit.gqubits gate) as [|c [|t [|x l]]];
        try (eexists; split; [reflexivity|now apply untouched_emitNative]).
      destruct Hg as (Hc & Ht & Hin). simpl.
      rewrite (untouched_connected n g k st c t Hu Hc Ht Hin).
      eexists. split; [reflexivity|].
      now apply untouched_emitNative, untouched_addPenalty. }
    destruct Step as (st2 & E & Hu2). simpl. rewrite E.
    destruct (IH (S idx) st2 (S k) (Forall_inv_tail Hgs) Hu2) as (st' & E' & Hu').
    exists st'. split; [exact E'|].
    replace (k + S (length gs)) with (S k + length gs) by lia. exact Hu'.
Qed.

Lemma genetic_forEach_untouched : forall ch n g gs st i k,
    Forall (already_adjacent n g) gs -> untouched n g k st ->
    exists st', GeneticSwapOptimizer.forEach ch gs (st, i) = Ok (st', i)
                /\ untouched n g (k + length gs) st'.
Proof.
  intros ch n g gs. induction gs as [|gate gs IH]; intros st i k Hgs Hu.
  - exists st. split; [reflexivity|]. now rewrite Nat.add_0_r.
  - assert (Step : exists st2,
               GeneticSwapOptimizer.processGate ch (st, i) gate = Ok (st2, i)
               /\ untouched n g (S k) st2).
    { pose proof (Forall_inv Hgs) as Hg. unfold already_adjacent in Hg.
      unfold GeneticSwapOptimizer.processGate.
      destruct (QuantumCircuit.gqubits gate) as [|c [|t [|x l]]];
        try (eexists; split; [reflexivity|now apply untouched_emitNative]).
      destruct Hg as (Hc & Ht & Hin).
      pose proof (untouched_connected n g k st c t Hu Hc Ht Hin) as C.
      assert (R : GeneticSwapOptimizer.run_swap_loop ch c t st i = Ok (st, i)).
      { unfold GeneticSwapOptimizer.run_swap_loop. destruct ch as [l|].
        - destruct (skipn i l); simpl; now rewrite C.
        - now rewrite C. }
      rewrite R. eexists. split; [reflexivity|].
      now apply untouched_emitNative, untouched_addPenalty. }
    destruct Step as (st2 & E & Hu2). simpl. rewrite E.
    destruct (IH st2 i (S k) (Forall_inv_tail Hgs) Hu2) as (st' & E' & Hu').
    exists st'. split; [exact E'|].
    replace (k + S (length gs)) with (S k + length gs) by lia. exact Hu'.
Qed.

Lemma untouched_init : forall n hw,
    built hw -> untouched n (Topology.graph hw) 0 (init n hw).
Proof. intros n hw Hb. repeat split; assumption || apply Hb. Qed.

(** A circuit whose two-qubit gates all act on physically adjacent qubits
    under the identity layout needs no routing, and none of the three
    strategies does any: [GreedyMapper], [LookAheadMapper] and every replay
    of a chromosome (also of [null]) return with no swap inserted, distance
    penalty [0], the identity as final layout, and the number of gates as
    depth. *)
Theorem adjacent_circuits_need_no_swap : forall circuit hw,
    built hw ->
    Forall (already_adjacent (QuantumCircuit.nQubits circuit) (Topology.graph hw))
           (QuantumCircuit.gates circuit) ->
    (forall fuel, exists r hw',
          GreedyMapper.map (S fuel) circuit hw = Some (r, hw')
          /\ insertedSwaps r = 0 /\ distancePenalty r = Fin 0
          /\ depth r = length (QuantumCircuit.gates circuit)
          /\ finalLayout r = Layout.identity (QuantumCircuit.nQubits circuit))
    /\ (forall k fuel, exists r hw',
           LookAheadMapper.map k (S fuel) circuit hw = Some (r, hw')
           /\ insertedSwaps r = 0 /\ distancePenalty r = Fin 0
           /\ depth r = length (QuantumCircuit.gates circuit)
           /\ finalLayout r = Layout.identity (QuantumCircuit.nQubits circuit))
    /\ (forall ch, exists r hw',
           GeneticSwapOptimizer.applyChromosome circuit hw ch = Ok (r, hw')
           /\ insertedSwaps r = 0 /\ distancePenalty r = Fin 0
           /\ depth r = length (QuantumCircuit.gates circuit)
           /\ finalLayout r = Layout.identity (QuantumCircuit.nQubits circuit)).
Proof.
  intros circuit hw Hb Hgs.
  pose proof (untouched_init (QuantumCircuit.nQubits circuit) hw Hb) as Hu.
  split; [|split].
  - intro fuel.
    destruct (greedy_forEach_untouched _ _ fuel _ _ _ Hgs Hu)
      as (st & E & (H1 & H2 & H3 & _) & H4 & _).
    unfold GreedyMapper.map. rewrite E. eexists. eexists.
    split; [reflexivity|]. simpl. auto.
  - intros k fuel.
    destruct (lookahead_forEach_untouched circuit k _ _ fuel _ 0 _ _ Hgs Hu)
      as (st & E & (H1 & H2 & H3 & _) & H4 & _).
    unfold LookAheadMapper.map. rewrite E. eexists. eexists.
    split; [reflexivity|]. simpl. auto.
  - intro ch.
    destruct (genetic_forEach_untouched ch _ _ _ _ 0 _ Hgs Hu)
      as (st & E & (H1 & H2 & H3 & _) & H4 & _).
    unfold GeneticSwapOptimizer.applyChromosome. rewrite E. eexists. eexists.
    split; [reflexivity|]. simpl. auto.
Qed.

Lemma adjacent_circuits_need_no_swap_example :
  exists r hw',
    GreedyMapper.map 1 (QuantumCircuit.mk 3 [cx 0 1; cx 2 1]) lnn3 = Some (r, hw')
    /\ insertedSwaps r = 0 /\ distancePenalty r = Fin 0
    /\ depth r = 2
    /\ finalLayout r = Layout.identity 3.
Proof.
  refine (proj1 (adjacent_circuits_need_no_swap
                   (QuantumCircuit.mk 3 [cx 0 1; cx 2 1]) lnn3 _ _) 0).
  - split; reflexivity.
  - repeat constructor; simpl; auto.
Defined.

(** * The benchmarks on the devices of their size *)

Lemma entangle_chain_adjacent : forall n k i c,
    i + k < n ->
    exists c', Benchmarks.entangle_chain k i c = Ok c'
               /\ QuantumCircuit.nQubits c' = QuantumCircuit.nQubits c
               /\ exists more,
                   QuantumCircuit.gates c' = QuantumCircuit.gates c ++ more
                   /\ Forall (already_adjacent n (lnn_graph n)) more.
Proof.
  intros n k. induction k as [|k IH]; intros i c H; simpl.
  - exists c. split; [reflexivity|]. split; [reflexivity|].
    exists []. rewrite app_nil_r. split; [reflexivity|constructor].
  - destruct (IH (S i)
                 (QuantumCircuit.mk (QuantumCircuit.nQubits c)
                    (QuantumCircuit.gates c ++ [QuantumCircuit.mkGate "cx" [i; i + 1]]))
                 ltac:(lia)) as (c' & E' & N' & more & G' & F').
    exists c'. split; [exact E'|]. split; [exact N'|].
    exists (QuantumCircuit.mkGate "cx" [i; i + 1] :: more). split.
    + rewrite G'. simpl. now rewrite <- app_assoc.
    + constructor; [|exact F']. unfold already_adjacent. simpl.
      split; [lia|]. split; [lia|]. apply lnn_neighbor. lia.
Qed.

Lemma entangle_adjacent : forall n c,
    1 <= n -> Benchmarks.entangle n = Ok c ->
    QuantumCircuit.nQubits c = n
    /\ Forall (already_adjacent n (lnn_graph n)) (QuantumCircuit.gates c).
Proof.
  intros n c Hn E. unfold Benchmarks.entangle in E. simpl in E.
  destruct (entangle_chain_adjacent
              n (n - 1) 0 (QuantumCircuit.mk n [QuantumCircuit.mkGate "h" [0]])
              ltac:(lia)) as (c' & E' & N' & more & G' & F').
  rewrite E' in E. injection E as <-. split; [exact N'|].
  rewrite G'. simpl. constructor; [exact I|exact F'].
Qed.

Lemma built_lnn_graph : forall hw,
    built hw -> Topology.type hw = "lnn" ->
    Topology.graph hw
    = lnn_graph (or_default (Topology.qubits (Topology.params hw)) 5).
Proof. intros hw [E _] Ht. rewrite E, Ht. reflexivity. Qed.

(** The [entangle] benchmark on the chain of its size needs no routing:
    [GreedyMapper], [LookAheadMapper] and the genetic search all return
    with no swap inserted and distance penalty [0]. The genetic search is
    run on at least two qubits (a chain of one has no edge) with random
    numbers in [[0, 1)]. *)
Theorem entangle_on_a_chain_needs_no_swap : forall n c hw,
    1 <= n ->
    Benchmarks.entangle n = Ok c ->
    built hw -> Topology.type hw = "lnn" ->
    or_default (Topology.qubits (Topology.params hw)) 5 = n ->
    (forall fuel, exists r hw',
          GreedyMapper.map (S fuel) c hw = Some (r, hw')
          /\ insertedSwaps r = 0 /\ distancePenalty r = Fin 0 /\ depth r = n)
    /\ (forall k fuel, exists r hw',
           LookAheadMapper.map k (S fuel) c hw = Some (r, hw')
           /\ insertedSwaps r = 0 /\ distancePenalty r = Fin 0 /\ depth r = n)
    /\ (forall o rnd,
           2 <= n -> unit_interval rnd ->
           exists r hw',
             GeneticSwapOptimizer.map c hw o rnd = Ok (r, hw')
             /\ insertedSwaps r = 0 /\ distancePenalty r = Fin 0 /\ depth r = n).
Proof.
  intros n c hw Hn E Hb Ht Hq.
  pose proof (built_lnn_graph hw Hb Ht) as Eg. rewrite Hq in Eg.
  destruct (entangle_adjacent n c Hn E) as [Nc Hadj].
  destruct (entangle_fits n Hn) as (c0 & E0 & _ & Hlen & Hfit).
  rewrite E in E0. injection E0 as <-.
  assert (Hgs : Forall (already_adjacent (QuantumCircuit.nQubits c)
                                         (Topology.graph hw))
                       (QuantumCircuit.gates c))
    by (now rewrite Nc, Eg).
  split; [|split].
  - intro fuel.
    destruct (greedy_forEach_untouched _ _ fuel _ _ _ Hgs
                (untouched_init (QuantumCircuit.nQubits c) hw Hb))
      as (st & Ef & (H1 & H2 & H3 & _) & H4 & _).
    unfold GreedyMapper.map. rewrite Ef. eexists. eexists.
    split; [reflexivity|]. simpl. repeat split; try assumption. lia.
  - intros k fuel.
    destruct (lookahead_forEach_untouched c k _ _ fuel _ 0 _ _ Hgs
                (untouched_init (QuantumCircuit.nQubits c) hw Hb))
      as (st & Ef & (H1 & H2 & H3 & _) & H4 & _).
    unfold LookAheadMapper.map. rewrite Ef. eexists. eexists.
    split; [reflexivity|]. simpl. repeat split; try assumption. lia.
  - intros o rnd Hn2 Hrnd.
    destruct (genetic_map_total c hw o rnd Hb) as (r & hw' & Em); try assumption.
    + rewrite Eg. intro Ee.
      assert (Hin : In (0, 1) (LookAheadMapper.edges (lnn_graph n))).
      { unfold LookAheadMapper.edges. apply in_flat_map. exists 0. split.
        - apply in_seq. unfold lnn_graph. rewrite length_map, length_seq. lia.
        - apply in_map_iff. exists 1. split; [reflexivity|].
          apply filter_In. split; [apply lnn_neighbor; lia|reflexivity]. }
      rewrite Ee in Hin. exact Hin.
    + unfold operands_in_range. rewrite Nc.
      eapply Forall_impl; [|exact Hfit]. intros g [H _]. exact H.
    + rewrite Nc, Eg. intros a b Ha Hlt. now apply lnn_connected.
    + exists r, hw'. split; [exact Em|].
      destruct (genetic_map_is_replay _ _ _ _ _ _ Em)
        as (hw1 & best & (_ & _ & G1 & B1) & R).
      assert (Hgs1 : Forall (already_adjacent (QuantumCircuit.nQubits c)
                                              (Topology.graph hw1))
                            (QuantumCircuit.gates c))
        by (now rewrite G1).
      destruct (genetic_forEach_untouched best _ _ _ _ 0 _ Hgs1
                  (untouched_init (QuantumCircuit.nQubits c) hw1 (B1 Hb)))
        as (st & Ef & (H1 & H2 & H3 & _) & H4 & _).
      unfold GeneticSwapOptimizer.applyChromosome in R. rewrite Ef in R.
      injection R as <- _. simpl. repeat split; try assumption. lia.
Qed.

Lemma entangle_on_a_chain_needs_no_swap_example :
  exists r hw',
    GreedyMapper.map 1 (QuantumCircuit.mk 3 [hgate 0; cx 0 1; cx 1 2]) lnn3
    = Some (r, hw')
    /\ insertedSwaps r = 0 /\ distancePenalty r = Fin 0 /\ depth r = 3.
Proof.
  refine (proj1 (entangle_on_a_chain_needs_no_swap
                   3 (QuantumCircuit.mk 3 [hgate 0; cx 0 1; cx 1 2]) lnn3
                   _ eq_refl _ eq_refl eq_refl) 0).
  - lia.
  - split; reflexivity.
Defined.

(** On a device of one of the three shapes with exactly as many qubits as
    the circuit (a chain, a star, or a grid with [rows * cols = n]),
    [GreedyMapper] routes each benchmark completely: [map] returns, every
    two-qubit gate step acts on adjacent physical qubits and the distance
    penalty is [0]. *)
Theorem greedy_routes_the_benchmarks : forall n c hw fuel,
    2 <= n ->
    Benchmarks.qft n = Ok c \/ Benchmarks.grover n = Ok c
    \/ Benchmarks.entangle n = Ok c ->
    built hw -> known_shape (Topology.type hw) ->
    length (Topology.graph hw) = n ->
    1 + Topology.bfs_fuel (Topology.graph hw) < fuel ->
    exists r hw',
      GreedyMapper.map fuel c hw = Some (r, hw')
      /\ distancePenalty r = Fin 0
      /\ Forall (native_adjacent (Topology.graph hw)) (steps r).
Proof.
  intros n c hw fuel Hn Hbench Hb Hk Hlen Hf.
  assert (Hc : QuantumCircuit.nQubits c = n
               /\ gates_fit n (QuantumCircuit.gates c)).
  { destruct Hbench as [E|[E|E]].
    - destruct (qft_fits n) as (c0 & E0 & H1 & _ & H2).
      rewrite E in E0. injection E0 as <-. auto.
    - destruct (grover_fits n Hn) as (c0 & E0 & H1 & _ & H2).
      rewrite E in E0. injection E0 as <-. auto.
    - destruct (entangle_fits n ltac:(lia)) as (c0 & E0 & H1 & _ & H2).
      rewrite E in E0. injection E0 as <-. auto. }
  destruct Hc as [Nc Hfit].
  destruct (greedy_forEach_routes
              (QuantumCircuit.nQubits c) fuel (Topology.graph hw)
              (QuantumCircuit.gates c) (init (QuantumCircuit.nQubits c) hw))
    as (st & E & P & F); try assumption.
  - unfold device_fits. simpl. lia.
  - apply trace_ok_init.
  - reflexivity.
  - rewrite Nc, <- Hlen. now apply built_connected.
  - rewrite Nc. eapply Forall_impl; [|exact Hfit]. intros g [_ H]. exact H.
  - split; [reflexivity|constructor].
  - unfold GreedyMapper.map. rewrite E. eexists. eexists.
    split; [reflexivity|]. split; assumption.
Qed.

Lemma greedy_routes_the_benchmarks_example :
  exists c r hw',
    Benchmarks.qft 3 = Ok c
    /\ GreedyMapper.map 12 c lnn3 = Some (r, hw')
    /\ distancePenalty r = Fin 0.
Proof.
  eexists. 
  destruct (greedy_routes_the_benchmarks
              3 (QuantumCircuit.mk 3 [hgate 2; cx 1 2; cx 0 2; hgate 1; cx 0 1;
                                      hgate 0])
              lnn3 12) as (r & hw' & E & P & _).
  - lia.
  - left. reflexivity.
  - split; reflexivity.
  - left. reflexivity.
  - reflexivity.
  - unfold Topology.bfs_fuel. simpl. lia.
  - exists r, hw'. split; [reflexivity|]. split; assumption.
Defined.

(** * The distance memo changes no result *)

Lemma twin_graph : forall hw1 hw2,
    twin hw1 hw2 -> Topology.graph hw1 = Topology.graph hw2.
Proof.
  intros hw1 hw2 ((E1 & _) & (E2 & _) & Et & Ep). now rewrite E1, E2, Et, Ep.
Qed.

Lemma twin_refl : forall hw, built hw -> twin hw hw.
Proof. intros hw H. repeat split; apply H. Qed.

Lemma twin_isConnected : forall hw1 hw2 q1 q2,
    twin hw1 hw2 ->
    Topology.isConnected hw1 q1 q2 = Topology.isConnected hw2 q1 q2.
Proof.
  intros hw1 hw2 q1 q2 H. unfold Topology.isConnected.
  now rewrite (twin_graph _ _ H).
Qed.

Lemma twin_path : forall hw1 hw2 q1 q2,
    twin hw1 hw2 ->
    Topology.getShortestPath hw1 q1 q2 = Topology.getShortestPath hw2 q1 q2.
Proof.
  intros hw1 hw2 q1 q2 H. unfold Topology.getShortestPath.
  now rewrite (twin_graph _ _ H).
Qed.

Lemma twin_distance : forall hw1 hw2 a b,
    twin hw1 hw2 ->
    fst (Topology.distance hw1 (Some a) (Some b))
    = fst (Topology.distance hw2 (Some a) (Some b))
    /\ twin (snd (Topology.distance hw1 (Some a) (Some b)))
            (snd (Topology.distance hw2 (Some a) (Some b))).
Proof.
  intros hw1 hw2 a b H. pose proof (twin_graph _ _ H) as Eg.
  destruct H as (B1 & B2 & Et & Ep). split.
  - rewrite !distance_value; try (now apply built_symmetric);
      try apply B1; try apply B2. now rewrite Eg.
  - split; [now apply built_distance|]. split; [now apply built_distance|].
    destruct (distance_type_params hw1 (Some a) (Some b)) as [T1 P1].
    destruct (distance_type_params hw2 (Some a) (Some b)) as [T2 P2].
    split; congruence.
Qed.

Lemma twin_states_refl : forall st, built (st_hw st) -> twin_states st st.
Proof. intros st H. repeat split; apply H. Qed.

Lemma twin_insertSwap : forall st1 st2 q1 q2,
    twin_states st1 st2 ->
    twin_states (insertSwap st1 q1 q2) (insertSwap st2 q1 q2).
Proof.
  intros st1 st2 q1 q2 (H1 & H2 & H3 & H4 & H5 & H6).
  unfold insertSwap. rewrite H1, H2, H3, H4, H5.
  repeat split; try reflexivity; apply H6.
Qed.

Lemma twin_emitNative : forall st1 st2 g,
    twin_states st1 st2 ->
    twin_states (emitNative st1 g) (emitNative st2 g).
Proof.
  intros st1 st2 g (H1 & H2 & H3 & H4 & H5 & H6).
  unfold emitNative. rewrite H1, H2, H3, H4, H5.
  repeat split; try reflexivity; apply H6.
Qed.

Lemma twin_addPenalty : forall n st1 st2 c t,
    twin_states st1 st2 -> layout_ok n (st_layout st1) -> c < n -> t < n ->
    twin_states (addPenalty st1 c t) (addPenalty st2 c t).
Proof.
  intros n st1 st2 c t (H1 & H2 & H3 & H4 & H5 & H6) Hl Hc Ht.
  destruct (layout_ok_at n _ c Hl Hc) as (a & Ea & _).
  destruct (layout_ok_at n _ t Hl Ht) as (b & Eb & _).
  destruct (twin_distance _ _ a b H6) as [D1 D2].
  unfold addPenalty. rewrite <- H2, Ea, Eb.
  destruct (Topology.distance (st_hw st1) (Some a) (Some b)) as [d1 h1].
  destruct (Topology.distance (st_hw st2) (Some a) (Some b)) as [d2 h2].
  simpl in D1, D2. subst d2.
  repeat split; simpl; try assumption; try congruence; apply D2.
Qed.

Lemma twin_with_hw : forall st1 st2 hw1 hw2,
    twin_states st1 st2 -> twin hw1 hw2 ->
    twin_states (with_hw st1 hw1) (with_hw st2 hw2).
Proof.
  intros st1 st2 hw1 hw2 (H1 & H2 & H3 & H4 & H5 & _) H.
  repeat split; simpl; try assumption; apply H.
Qed.

(** ** Greedy *)

Lemma greedy_loop_twin : forall fuel c t st1 st2,
    twin_states st1 st2 ->
    twin_outcomes (GreedyMapper.swap_loop fuel c t st1)
                  (GreedyMapper.swap_loop fuel c t st2).
Proof.
  induction fuel as [|fuel IH]; intros c t st1 st2 H; simpl; [exact I|].
  pose proof H as (_ & El & _ & _ & _ & Hw).
  rewrite <- El, <- (twin_isConnected _ _ _ _ Hw), <- (twin_path _ _ _ _ Hw).
  destruct (Topology.isConnected _ _ _); [exact H|].
  destruct (length _ <? 2); [exact H|].
  apply IH. now apply twin_insertSwap.
Qed.

Lemma greedy_forEach_twin : forall n fuel gs st1 st2,
    twin_states st1 st2 ->
    device_fits n (st_hw st1) -> trace_ok n st1 ->
    Forall (fun g => Forall (fun q => q < n) (QuantumCircuit.gqubits g)) gs ->
    twin_outcomes (GreedyMapper.forEach fuel gs st1)
                  (GreedyMapper.forEach fuel gs st2).
Proof.
  intros n fuel gs. induction gs as [|g gs IH]; intros st1 st2 H Hfit Ht Hgs;
    simpl; [exact H|].
  pose proof H as (_ & _ & _ & _ & _ & (Hb & _)).
  assert (Step : twin_outcomes (GreedyMapper.processGate fuel st1 g)
                               (GreedyMapper.processGate fuel st2 g)).
  { unfold GreedyMapper.processGate.
    pose proof (Forall_inv Hgs) as Hq. cbv beta in Hq.
    destruct (QuantumCircuit.gqubits g) as [|c [|t [|x l]]];
      try (now apply twin_emitNative).
    pose proof (greedy_loop_twin fuel c t st1 st2 H) as L.
    destruct (GreedyMapper.swap_loop fuel c t st1) as [s1|] eqn:E1;
      destruct (GreedyMapper.swap_loop fuel c t st2) as [s2|]; simpl in L;
        try contradiction; [|exact I].
    apply twin_emitNative. apply (twin_addPenalty n); [exact L| | |].
    - apply (greedy_loop_trace_ok n fuel c t st1 s1 Hb Hfit Ht E1).
    - exact (Forall_inv Hq).
    - exact (Forall_inv (Forall_inv_tail Hq)). }
  destruct (GreedyMapper.processGate fuel st1 g) as [s1|] eqn:E1;
    destruct (GreedyMapper.processGate fuel st2 g) as [s2|]; simpl in Step;
      try contradiction; [|exact I].
  destruct (greedy_processGate_trace_ok _ _ _ _ _ Hb Hfit Ht E1) as (_ & F & T).
  apply IH; try assumption. exact (Forall_inv_tail Hgs).
Qed.

(** ** LookAhead *)

Lemma score_layout_twin : forall n layout upcoming hw1 hw2 score,
    twin hw1 hw2 -> layout_ok n layout ->
    Forall (fun i => nth 0 (InteractionGraph.iqubits i) 0 < n
                     /\ nth 1 (InteractionGraph.iqubits i) 0 < n) upcoming ->
    fst (LookAheadMapper.score_layout hw1 layout upcoming score)
    = fst (LookAheadMapper.score_layout hw2 layout upcoming score)
    /\ twin (snd (LookAheadMapper.score_layout hw1 layout upcoming score))
            (snd (LookAheadMapper.score_layout hw2 layout upcoming score)).
Proof.
  intros n layout upcoming. induction upcoming as [|i rest IH];
    intros hw1 hw2 score H Hl Hu; simpl.
  - auto.
  - destruct (Forall_inv Hu) as [H0 H1].
    destruct (layout_ok_at n _ _ Hl H0) as (a & Ea & _).
    destruct (layout_ok_at n _ _ Hl H1) as (b & Eb & _).
    rewrite Ea, Eb.
    destruct (twin_distance _ _ a b H) as [D1 D2].
    destruct (Topology.distance hw1 (Some a) (Some b)) as [d1 h1].
    destruct (Topology.distance hw2 (Some a) (Some b)) as [d2 h2].
    simpl in D1, D2. subst d2.
    apply IH; [exact D2|exact Hl|exact (Forall_inv_tail Hu)].
Qed.

Lemma layout_ok_copy : forall n l,
    layout_ok n l -> Layout.mk (Layout.snapshot l) None = l.
Proof.
  intros n [cells m1] (H & _). simpl in *. now subst.
Qed.

Lemma try_edge_twin : forall n layout upcoming best score hw1 hw2 q1 q2,
    twin hw1 hw2 -> layout_ok n layout ->
    q1 < n -> q2 < n ->
    Forall (fun i => nth 0 (InteractionGraph.iqubits i) 0 < n
                     /\ nth 1 (InteractionGraph.iqubits i) 0 < n) upcoming ->
    exists best' score' h1 h2,
      LookAheadMapper.try_edge layout upcoming (best, score, hw1) (q1, q2)
      = (best', score', h1)
      /\ LookAheadMapper.try_edge layout upcoming (best, score, hw2) (q1, q2)
         = (best', score', h2)
      /\ twin h1 h2.
Proof.
  intros n layout upcoming best score hw1 hw2 q1 q2 H Hl Hq1 Hq2 Hu.
  unfold LookAheadMapper.try_edge. rewrite (layout_ok_copy n layout Hl).
  destruct (swap_transposes n layout (Some q1) (Some q2) Hl
              (layout_ok_In n _ _ Hl Hq1) (layout_ok_In n _ _ Hl Hq2))
    as [_ Hl'].
  destruct (score_layout_twin n _ upcoming hw1 hw2 (LookAheadMapper.SFin 0)
                              H Hl' Hu) as [S1 S2].
  destruct (LookAheadMapper.score_layout hw1 _ upcoming _) as [s1 h1].
  destruct (LookAheadMapper.score_layout hw2 _ upcoming _) as [s2 h2].
  simpl in S1, S2. subst s2.
  destruct (LookAheadMapper.score_gt s1 score); do 4 eexists; eauto.
Qed.

Lemma fold_try_edge_twin : forall n layout upcoming es best score hw1 hw2,
    twin hw1 hw2 -> layout_ok n layout ->
    Forall (fun e => fst e < n /\ snd e < n) es ->
    Forall (fun i => nth 0 (InteractionGraph.iqubits i) 0 < n
                     /\ nth 1 (InteractionGraph.iqubits i) 0 < n) upcoming ->
    exists best' score' h1 h2,
      fold_left (LookAheadMapper.try_edge layout upcoming) es (best, score, hw1)
      = (best', score', h1)
      /\ fold_left (LookAheadMapper.try_edge layout upcoming) es (best, score, hw2)
         = (best', score', h2)
      /\ twin h1 h2.
Proof.
  intros n layout upcoming es. induction es as [|[q1 q2] es IH];
    intros best score hw1 hw2 H Hl He Hu; cbn [fold_left].
  - do 4 eexists. eauto.
  - destruct (Forall_inv He) as [Hq1 Hq2]. simpl in Hq1, Hq2.
    destruct (try_edge_twin n layout upcoming best score hw1 hw2 q1 q2
                            H Hl Hq1 Hq2 Hu) as (b' & s' & h1 & h2 & E1 & E2 & T).
    rewrite E1, E2. apply IH; [exact T|exact Hl|exact (Forall_inv_tail He)|exact Hu].
Qed.

Lemma upcoming_in_range : forall circuit idx w,
    operands_in_range circuit ->
    Forall (fun i => nth 0 (InteractionGraph.iqubits i) 0
                     < QuantumCircuit.nQubits circuit
                     /\ nth 1 (InteractionGraph.iqubits i) 0
                        < QuantumCircuit.nQubits circuit)
           (InteractionGraph.getUpcomingInteractions circuit idx w).
Proof.
  intros circuit idx w Hops. unfold InteractionGraph.getUpcomingInteractions.
  destruct (upcoming_from_spec (skipn idx (QuantumCircuit.gates circuit)) 0 w)
    as (_ & F & _).
  eapply Forall_impl; [|exact F]. simpl.
  intros i (_ & _ & (g & N & Q0) & L2 & _).
  rewrite nth_error_skipn in N. apply nth_error_In in N.
  unfold operands_in_range in Hops. rewrite Forall_forall in Hops.
  specialize (Hops g N). rewrite Q0 in Hops.
  destruct (InteractionGraph.iqubits i) as [|a [|b [|x l]]]; simpl in L2;
    try discriminate.
  simpl. split; [exact (Forall_inv Hops)|exact (Forall_inv (Forall_inv_tail Hops))].
Qed.

Lemma edges_below : forall hw n,
    built hw -> device_fits n hw ->
    Forall (fun e => fst e < n /\ snd e < n)
           (LookAheadMapper.edges (Topology.graph hw)).
Proof.
  intros hw n Hb Hfit. apply Forall_forall. intros [a b] Hin.
  apply in_edges in Hin. destruct Hin as [_ Hin]. simpl.
  pose proof (neighbor_in_graph _ _ _ Hin).
  pose proof (neighbor_closed _ _ _ (built_symmetric _ Hb) Hin).
  unfold device_fits in Hfit. lia.
Qed.

Lemma findBestSwap_twin : forall circuit k hw1 hw2 layout idx,
    twin hw1 hw2 ->
    device_fits (QuantumCircuit.nQubits circuit) hw1 ->
    layout_ok (QuantumCircuit.nQubits circuit) layout ->
    operands_in_range circuit ->
    fst (LookAheadMapper.findBestSwap circuit k hw1 layout idx)
    = fst (LookAheadMapper.findBestSwap circuit k hw2 layout idx)
    /\ twin (snd (LookAheadMapper.findBestSwap circuit k hw1 layout idx))
            (snd (LookAheadMapper.findBestSwap circuit k hw2 layout idx)).
Proof.
  intros circuit k hw1 hw2 layout idx H Hfit Hl Hops.
  unfold LookAheadMapper.findBestSwap. rewrite <- (twin_graph _ _ H).
  destruct (fold_try_edge_twin
              (QuantumCircuit.nQubits circuit) layout
              (InteractionGraph.getUpcomingInteractions circuit idx k)
              (LookAheadMapper.edges (Topology.graph hw1))
              None LookAheadMapper.SNegInf hw1 hw2 H Hl
              (edges_below hw1 _ (proj1 H) Hfit)
              (upcoming_in_range circuit idx k Hops))
    as (b' & s' & h1 & h2 & E1 & E2 & T).
  rewrite E1, E2. simpl. auto.
Qed.

Lemma lookahead_loop_twin : forall circuit k fuel idx c t st1 st2,
    twin_states st1 st2 ->
    device_fits (QuantumCircuit.nQubits circuit) (st_hw st1) ->
    trace_ok (QuantumCircuit.nQubits circuit) st1 ->
    operands_in_range circuit ->
    twin_outcomes (LookAheadMapper.swap_loop circuit k fuel idx c t st1)
                  (LookAheadMapper.swap_loop circuit k fuel idx c t st2).
Proof.
  intros circuit k fuel. induction fuel as [|fuel IH];
    intros idx c t st1 st2 H Hfit Ht Hops; simpl; [exact I|].
  pose proof H as (_ & El & _ & _ & _ & Hw).
  rewrite <- El, <- (twin_isConnected _ _ _ _ Hw).
  destruct (Topology.isConnected _ _ _); [exact H|].
  destruct (findBestSwap_twin circuit k _ _ (st_layout st1) idx Hw Hfit
                              (proj1 Ht) Hops) as [F1 F2].
  pose proof (findBestSwap_same_device circuit k (st_hw st1) (st_layout st1) idx)
    as Hd.
  destruct (LookAheadMapper.findBestSwap circuit k (st_hw st1) (st_layout st1) idx)
    as [b1 h1] eqn:E1.
  destruct (LookAheadMapper.findBestSwap circuit k (st_hw st2) (st_layout st1) idx)
    as [b2 h2] eqn:E2.
  simpl in F1, F2, Hd. subst b2.
  destruct b1 as [[q1 q2]|].
  - apply IH; try assumption.
    + apply twin_insertSwap. now apply twin_with_hw.
    + simpl. eapply device_fits_same; eassumption.
    + apply findBestSwap_In in E1. apply in_edges in E1.
      destruct E1 as [Hlt Hin].
      pose proof (neighbor_in_graph _ _ _ Hin).
      pose proof (neighbor_closed _ _ _ (built_symmetric _ (proj1 Hw)) Hin).
      unfold device_fits in Hfit.
      apply trace_ok_insertSwap.
      * now apply trace_ok_with_hw.
      * intro E. inversion E. lia.
      * apply (layout_ok_In (QuantumCircuit.nQubits circuit)); [apply Ht|lia].
      * apply (layout_ok_In (QuantumCircuit.nQubits circuit)); [apply Ht|lia].
  - now apply twin_with_hw.
Qed.

Lemma lookahead_forEach_twin : forall circuit k fuel gs idx st1 st2,
    twin_states st1 st2 ->
    device_fits (QuantumCircuit.nQubits circuit) (st_hw st1) ->
    trace_ok (QuantumCircuit.nQubits circuit) st1 ->
    operands_in_range circuit ->
    Forall (fun g => Forall (fun q => q < QuantumCircuit.nQubits circuit)
                            (QuantumCircuit.gqubits g)) gs ->
    twin_outcomes (LookAheadMapper.forEach circuit k fuel gs idx st1)
                  (LookAheadMapper.forEach circuit k fuel gs idx st2).
Proof.
  intros circuit k fuel gs. induction gs as [|g gs IH];
    intros idx st1 st2 H Hfit Ht Hops Hgs; simpl; [exact H|].
  pose proof H as (_ & _ & _ & _ & _ & (Hb & _)).
  assert (Step : twin_outcomes (LookAheadMapper.processGate circuit k fuel st1 idx g)
                               (LookAheadMapper.processGate circuit k fuel st2 idx g)).
  { unfold LookAheadMapper.processGate.
    pose proof (Forall_inv Hgs) as Hq. cbv beta in Hq.
    destruct (QuantumCircuit.gqubits g) as [|c [|t [|x l]]];
      try (now apply twin_emitNative).
    pose proof (lookahead_loop_twin circuit k fuel idx c t st1 st2 H Hfit Ht Hops)
      as L.
    destruct (LookAheadMapper.swap_loop circuit k fuel idx c t st1) as [s1|] eqn:E1;
      destruct (LookAheadMapper.swap_loop circuit k fuel idx c t st2) as [s2|];
      simpl in L; try contradiction; [|exact I].
    apply twin_emitNative.
    apply (twin_addPenalty (QuantumCircuit.nQubits circuit)); [exact L| | |].
    - apply (lookahead_loop_trace_ok circuit k _ fuel idx c t st1 s1 Hb Hfit Ht E1).
    - exact (Forall_inv Hq).
    - exact (Forall_inv (Forall_inv_tail Hq)). }
  destruct (LookAheadMapper.processGate circuit k fuel st1 idx g) as [s1|] eqn:E1;
    destruct (LookAheadMapper.processGate circuit k fuel st2 idx g) as [s2|];
    simpl in Step; try contradiction; [|exact I].
  destruct (lookahead_processGate_trace_ok _ _ _ _ _ _ _ _ Hb Hfit Ht E1)
    as (_ & F & T).
  apply IH; try assumption. exact (Forall_inv_tail Hgs).
Qed.

(** ** The genetic replay and search *)

Lemma genetic_loop_twin : forall rest c t st1 st2 i,
    twin_states st1 st2 ->
    match GeneticSwapOptimizer.swap_loop rest c t st1 i,
          GeneticSwapOptimizer.swap_loop rest c t st2 i with
    | Ok (s1, i1), Ok (s2, i2) => twin_states s1 s2 /\ i1 = i2
    | TypeError, TypeError => True
    | _, _ => False
    end.
Proof.
  induction rest as [|x rest IH]; intros c t st1 st2 i H; simpl;
    pose proof H as (_ & El & _ & _ & _ & Hw);
    rewrite <- El, <- (twin_isConnected _ _ _ _ Hw);
    destruct (Topology.isConnected _ _ _); auto.
  destruct x as [[a b]|]; [|exact I].
  apply IH. destruct (_ && _); [now apply twin_insertSwap|exact H].
Qed.

Lemma genetic_forEach_twin : forall n ch gs st1 st2 i,
    twin_states st1 st2 ->
    layout_ok n (st_layout st1) ->
    Forall (fun g => Forall (fun q => q < n) (QuantumCircuit.gqubits g)) gs ->
    match GeneticSwapOptimizer.forEach ch gs (st1, i),
          GeneticSwapOptimizer.forEach ch gs (st2, i) with
    | Ok (s1, i1), Ok (s2, i2) => twin_states s1 s2 /\ i1 = i2
    | TypeError, TypeError => True
    | _, _ => False
    end.
Proof.
  intros n ch gs. induction gs as [|g gs IH]; intros st1 st2 i H Hl Hgs;
    simpl; [auto|].
  assert (Step : match GeneticSwapOptimizer.processGate ch (st1, i) g,
                       GeneticSwapOptimizer.processGate ch (st2, i) g with
                 | Ok (s1, i1), Ok (s2, i2) => twin_states s1 s2 /\ i1 = i2
                 | TypeError, TypeError => True
                 | _, _ => False
                 end).
  { unfold GeneticSwapOptimizer.processGate.
    pose proof (Forall_inv Hgs) as Hq. cbv beta in Hq.
    destruct (QuantumCircuit.gqubits g) as [|c [|t [|x l]]];
      try (split; [now apply twin_emitNative|reflexivity]).
    assert (L : match GeneticSwapOptimizer.run_swap_loop ch c t st1 i,
                      GeneticSwapOptimizer.run_swap_loop ch c t st2 i with
                | Ok (s1, i1), Ok (s2, i2) => twin_states s1 s2 /\ i1 = i2
                | TypeError, TypeError => True
                | _, _ => False
                end).
    { unfold GeneticSwapOptimizer.run_swap_loop. destruct ch as [l|].
      - now apply genetic_loop_twin.
      - pose proof H as (_ & El & _ & _ & _ & Hw).
        rewrite <- El, <- (twin_isConnected _ _ _ _ Hw).
        destruct (Topology.isConnected _ _ _); auto. }
    destruct (GeneticSwapOptimizer.run_swap_loop ch c t st1 i)
      as [[s1 i1]|] eqn:E1;
      destruct (GeneticSwapOptimizer.run_swap_loop ch c t st2 i)
      as [[s2 i2]|]; try contradiction; [|exact I].
    destruct L as [L ->]. split; [|reflexivity].
    apply twin_emitNative. apply (twin_addPenalty n); [exact L| | |].
    - unfold GeneticSwapOptimizer.run_swap_loop in E1. destruct ch as [l|].
      + eapply genetic_loop_layout_ok; eassumption.
      + destruct (Topology.isConnected _ _ _); [|discriminate].
        injection E1 as <- _. exact Hl.
    - exact (Forall_inv Hq).
    - exact (Forall_inv (Forall_inv_tail Hq)). }
  destruct (GeneticSwapOptimizer.processGate ch (st1, i) g) as [[s1 i1]|] eqn:E1;
    destruct (GeneticSwapOptimizer.processGate ch (st2, i) g) as [[s2 i2]|];
    try contradiction; [|exact I].
  destruct Step as [T ->].
  apply IH; [exact T| |exact (Forall_inv_tail Hgs)].
  eapply genetic_processGate_layout_ok; eassumption.
Qed.

(** A replay gives the same result whatever the memo holds. *)
Lemma applyChromosome_twin : forall circuit hw1 hw2 ch,
    twin hw1 hw2 -> operands_in_range circuit ->
    same_replay (GeneticSwapOptimizer.applyChromosome circuit hw1 ch)
                (GeneticSwapOptimizer.applyChromosome circuit hw2 ch).
Proof.
  intros circuit hw1 hw2 ch H Hops. unfold GeneticSwapOptimizer.applyChromosome.
  pose proof (genetic_forEach_twin
                (QuantumCircuit.nQubits circuit) ch (QuantumCircuit.gates circuit)
                (init (QuantumCircuit.nQubits circuit) hw1)
                (init (QuantumCircuit.nQubits circuit) hw2) 0) as K.
  destruct (GeneticSwapOptimizer.forEach ch _ (init _ hw1, 0)) as [[s1 i1]|];
    destruct (GeneticSwapOptimizer.forEach ch _ (init _ hw2, 0)) as [[s2 i2]|];
    simpl.
  - destruct K as [(K1 & K2 & K3 & K4 & K5 & K6) _].
    + repeat split; try reflexivity; apply H.
    + apply layout_ok_identity.
    + exact Hops.
    + split; [|exact K6]. unfold result_of. congruence.
  - apply K; [repeat split; try reflexivity; apply H
             |apply layout_ok_identity|exact Hops].
  - apply K; [repeat split; try reflexivity; apply H
             |apply layout_ok_identity|exact Hops].
  - exact I.
Qed.

Section MemoBlind.

Variable circuit : QuantumCircuit.t.
Variable rnd : nat -> Q.
Hypothesis Hops : operands_in_range circuit.

Lemma blind_ret : forall A (a : A), memo_blind rnd (GeneticSwapOptimizer.ret a).
Proof. intros A a e1 e2 H. simpl. auto. Qed.

Lemma blind_throw : forall A, memo_blind rnd (@GeneticSwapOptimizer.throw A).
Proof. intros A e1 e2 H. exact I. Qed.

Lemma blind_bind : forall A B (m : GeneticSwapOptimizer.G A)
                          (k : A -> GeneticSwapOptimizer.G B),
    memo_blind rnd m -> (forall a, memo_blind rnd (k a)) ->
    memo_blind rnd (GeneticSwapOptimizer.gbind m k).
Proof.
  intros A B m k Hm Hk e1 e2 H. unfold GeneticSwapOptimizer.gbind.
  specialize (Hm e1 e2 H).
  destruct (m rnd e1) as [[a1 x1]|]; destruct (m rnd e2) as [[a2 x2]|];
    simpl in Hm; try contradiction; [|exact I].
  destruct Hm as [-> Hx]. now apply Hk.
Qed.

Lemma blind_random : memo_blind rnd GeneticSwapOptimizer.random.
Proof.
  intros e1 e2 (H1 & H2 & H3). unfold GeneticSwapOptimizer.random. simpl.
  rewrite H1, H2. repeat split; assumption || apply H3.
Qed.

Lemma blind_randomIndex : forall k,
    memo_blind rnd (GeneticSwapOptimizer.randomIndex k).
Proof.
  intro k. unfold GeneticSwapOptimizer.randomIndex.
  apply blind_bind; [apply blind_random|]. intro r. apply blind_ret.
Qed.

Lemma blind_random_genes : forall vs k,
    memo_blind rnd (GeneticSwapOptimizer.random_genes vs k).
Proof.
  intros vs k. induction k as [|k IH]; simpl; [apply blind_ret|].
  apply blind_bind; [apply blind_randomIndex|]. intro i.
  apply blind_bind; [exact IH|]. intro rest. apply blind_ret.
Qed.

Lemma blind_random_population : forall cfg vs k,
    memo_blind rnd (GeneticSwapOptimizer.random_population cfg vs k).
Proof.
  intros cfg vs k. induction k as [|k IH]; simpl; [apply blind_ret|].
  apply blind_bind; [apply blind_randomIndex|]. intro l.
  apply blind_bind; [apply blind_random_genes|]. intro c.
  apply blind_bind; [exact IH|]. intro rest. apply blind_ret.
Qed.

Lemma blind_initializePopulation : forall cfg,
    memo_blind rnd (GeneticSwapOptimizer.initializePopulation cfg).
Proof.
  intros cfg e1 e2 H. unfold GeneticSwapOptimizer.initializePopulation.
  unfold GeneticSwapOptimizer.getValidSwaps.
  pose proof H as (_ & _ & Hw). rewrite <- (twin_graph _ _ Hw).
  now apply blind_random_population.
Qed.

Lemma blind_evaluate_one : forall c,
    memo_blind rnd (GeneticSwapOptimizer.evaluate_one circuit c).
Proof.
  intros c e1 e2 (H1 & H2 & H3). unfold GeneticSwapOptimizer.evaluate_one.
  destruct (GeneticSwapOptimizer.chromosomeKey c) as [key|]; [|exact I].
  rewrite <- H2.
  destruct (GeneticSwapOptimizer.fitness_get key _) as [f|].
  - simpl. repeat split; assumption || apply H3.
  - unfold GeneticSwapOptimizer.evaluateFitness.
    pose proof (applyChromosome_twin circuit _ _ (Some c) H3 Hops) as K.
    destruct (GeneticSwapOptimizer.applyChromosome circuit
                (GeneticSwapOptimizer.ehw e1) (Some c)) as [[r1 h1]|];
      destruct (GeneticSwapOptimizer.applyChromosome circuit
                  (GeneticSwapOptimizer.ehw e2) (Some c)) as [[r2 h2]|];
      simpl in K; try contradiction; [|exact I].
    destruct K as [-> K]. simpl. rewrite H1, H2.
    repeat split; apply K.
Qed.

Lemma blind_evaluate_all : forall p,
    memo_blind rnd (GeneticSwapOptimizer.evaluate_all circuit p).
Proof.
  induction p as [|c p IH]; simpl; [apply blind_ret|].
  apply blind_bind; [apply blind_evaluate_one|]. intro x.
  apply blind_bind; [exact IH|]. intro xs. apply blind_ret.
Qed.

Lemma blind_tournament_draw : forall ev k,
    memo_blind rnd (GeneticSwapOptimizer.tournament_draw ev k).
Proof.
  intros ev k. induction k as [|k IH]; simpl; [apply blind_ret|].
  apply blind_bind; [apply blind_randomIndex|]. intro i.
  match goal with
  | |- memo_blind _ (match ?t with _ => _ end) => destruct t
  end; [|apply blind_throw].
  apply blind_bind; [exact IH|]. intro rest. apply blind_ret.
Qed.

Lemma blind_tournamentSelect : forall cfg ev,
    memo_blind rnd (GeneticSwapOptimizer.tournamentSelect cfg ev).
Proof.
  intros cfg ev. unfold GeneticSwapOptimizer.tournamentSelect.
  apply blind_bind; [apply blind_tournament_draw|]. intro t.
  destruct (GeneticSwapOptimizer.sort_desc t); [apply blind_throw|apply blind_ret].
Qed.

Lemma blind_crossover : forall p1 p2,
    memo_blind rnd (GeneticSwapOptimizer.crossover p1 p2).
Proof.
  intros p1 p2. unfold GeneticSwapOptimizer.crossover.
  destruct (_ || _); [apply blind_ret|].
  apply blind_bind; [apply blind_randomIndex|]. intro point. apply blind_ret.
Qed.

Lemma blind_mutate : forall cfg c,
    memo_blind rnd (GeneticSwapOptimizer.mutate cfg c).
Proof.
  intros cfg c e1 e2 H.
  unfold GeneticSwapOptimizer.mutate, GeneticSwapOptimizer.getValidSwaps.
  cbv beta zeta. pose proof H as (_ & _ & Hw). rewrite <- (twin_graph _ _ Hw).
  clear Hw.
  set (g := Topology.graph (GeneticSwapOptimizer.ehw e1)). clearbody g.
  match goal with
  | |- alike (?m rnd e1) (?m rnd e2) =>
      cut (memo_blind rnd m); [intro K; exact (K e1 e2 H)|]
  end.
  clear e1 e2 H.
  apply blind_bind; [apply blind_random|]. intro mt.
  destruct (_ && _).
  - apply blind_bind; [apply blind_randomIndex|]. intro idx.
    apply blind_bind; [apply blind_randomIndex|]. intro i. apply blind_ret.
  - destruct (_ && _).
    + apply blind_bind; [apply blind_randomIndex|]. intro i. apply blind_ret.
    + destruct (1 <? _); [|apply blind_ret].
      apply blind_bind; [apply blind_randomIndex|]. intro idx. apply blind_ret.
Qed.

Lemma blind_breed : forall cfg ev rate k pop,
    memo_blind rnd (GeneticSwapOptimizer.breed cfg ev rate k pop).
Proof.
  intros cfg ev rate k. induction k as [|k IH]; intro pop; simpl;
    [apply blind_ret|].
  apply blind_bind; [apply blind_tournamentSelect|]. intro p1.
  apply blind_bind; [apply blind_tournamentSelect|]. intro p2.
  apply blind_bind; [apply blind_crossover|]. intro child.
  apply blind_bind; [apply blind_random|]. intro r.
  apply blind_bind; [destruct (negb _); [apply blind_mutate|apply blind_ret]|].
  intro child'. apply IH.
Qed.

Lemma blind_evolve : forall cfg gens pop best bf pc rate,
    memo_blind rnd
               (GeneticSwapOptimizer.evolve circuit cfg gens pop best bf pc rate).
Proof.
  intros cfg gens. induction gens as [|gens IH]; intros pop best bf pc rate;
    simpl; [apply blind_ret|].
  apply blind_bind; [apply blind_evaluate_all|]. intro ev0.
  destruct (GeneticSwapOptimizer.sort_desc ev0) as [|top l]; [apply blind_throw|].
  destruct (GeneticSwapOptimizer.fitness_gt (snd top) bf).
  - destruct (_ <=? _); [apply blind_ret|].
    apply blind_bind; [apply blind_breed|]. intro pop'. apply IH.
  - destruct (_ <=? _); [apply blind_ret|].
    apply blind_bind; [apply blind_breed|]. intro pop'. apply IH.
Qed.

Lemma genetic_map_twin : forall hw1 hw2 o,
    twin hw1 hw2 ->
    same_replay (GeneticSwapOptimizer.map circuit hw1 o rnd)
                (GeneticSwapOptimizer.map circuit hw2 o rnd).
Proof.
  intros hw1 hw2 o H. unfold GeneticSwapOptimizer.map.
  assert (B : memo_blind rnd
                (GeneticSwapOptimizer.gbind
                   (GeneticSwapOptimizer.initializePopulation
                      (GeneticSwapOptimizer.makeConfig o))
                   (fun population =>
                      GeneticSwapOptimizer.evolve
                        circuit (GeneticSwapOptimizer.makeConfig o)
                        (GeneticSwapOptimizer.generations
                           (GeneticSwapOptimizer.makeConfig o))
                        population None GeneticSwapOptimizer.FNegInf 0
                        (GeneticSwapOptimizer.initialMutationRate
                           (GeneticSwapOptimizer.makeConfig o))))).
  { apply blind_bind; [apply blind_initializePopulation|].
    intro pop. apply blind_evolve. }
  specialize (B (GeneticSwapOptimizer.mkEnv 0 [] hw1)
                (GeneticSwapOptimizer.mkEnv 0 [] hw2)
                (conj eq_refl (conj eq_refl H))).
  destruct (GeneticSwapOptimizer.gbind _ _ rnd (GeneticSwapOptimizer.mkEnv 0 [] hw1))
    as [[b1 e1]|];
    destruct (GeneticSwapOptimizer.gbind _ _ rnd
                                         (GeneticSwapOptimizer.mkEnv 0 [] hw2))
    as [[b2 e2]|]; simpl in B; try contradiction; [|exact I].
  destruct B as [-> (_ & _ & Hw)].
  now apply applyChromosome_twin.
Qed.

End MemoBlind.

(** ** The three strategies *)

Lemma greedy_map_twin : forall fuel circuit hw1 hw2,
    twin hw1 hw2 ->
    device_fits (QuantumCircuit.nQubits circuit) hw1 ->
    operands_in_range circuit ->
    same_mapping (GreedyMapper.map fuel circuit hw1)
                 (GreedyMapper.map fuel circuit hw2).
Proof.
  intros fuel circuit hw1 hw2 H Hfit Hops. unfold GreedyMapper.map.
  pose proof (greedy_forEach_twin
                (QuantumCircuit.nQubits circuit) fuel (QuantumCircuit.gates circuit)
                (init (QuantumCircuit.nQubits circuit) hw1)
                (init (QuantumCircuit.nQubits circuit) hw2)) as K.
  assert (T : twin_states (init (QuantumCircuit.nQubits circuit) hw1)
                          (init (QuantumCircuit.nQubits circuit) hw2))
    by (repeat split; try reflexivity; apply H).
  specialize (K T Hfit (trace_ok_init _ _) Hops).
  destruct (GreedyMapper.forEach fuel _ (init _ hw1)) as [s1|];
    destruct (GreedyMapper.forEach fuel _ (init _ hw2)) as [s2|];
    simpl in K; try contradiction; [|exact I].
  destruct K as (K1 & K2 & K3 & K4 & K5 & K6). simpl.
  split; [|exact K6]. unfold result_of. congruence.
Qed.

Lemma lookahead_map_twin : forall k fuel circuit hw1 hw2,
    twin hw1 hw2 ->
    device_fits (QuantumCircuit.nQubits circuit) hw1 ->
    operands_in_range circuit ->
    same_mapping (LookAheadMapper.map k fuel circuit hw1)
                 (LookAheadMapper.map k fuel circuit hw2).
Proof.
  intros k fuel circuit hw1 hw2 H Hfit Hops. unfold LookAheadMapper.map.
  pose proof (lookahead_forEach_twin
                circuit k fuel (QuantumCircuit.gates circuit) 0
                (init (QuantumCircuit.nQubits circuit) hw1)
                (init (QuantumCircuit.nQubits circuit) hw2)) as K.
  assert (T : twin_states (init (QuantumCircuit.nQubits circuit) hw1)
                          (init (QuantumCircuit.nQubits circuit) hw2))
    by (repeat split; try reflexivity; apply H).
  specialize (K T Hfit (trace_ok_init _ _) Hops Hops).
  destruct (LookAheadMapper.forEach circuit k fuel _ 0 (init _ hw1)) as [s1|];
    destruct (LookAheadMapper.forEach circuit k fuel _ 0 (init _ hw2)) as [s2|];
    simpl in K; try contradiction; [|exact I].
  destruct K as (K1 & K2 & K3 & K4 & K5 & K6). simpl.
  split; [|exact K6]. unfold result_of. congruence.
Qed.

(** The distance memo is an optimisation only: two hardware objects built
    for the same shape and parameters give the same result, whatever their
    memos hold, for [GreedyMapper.map] and [LookAheadMapper.map] (on a
    device with no more qubits than the circuit) and for
    [GeneticSwapOptimizer.map] (with the same random numbers), on every
    circuit whose gates act on qubits of the circuit. They stop, fail or
    run for ever together. *)
Theorem memo_changes_no_result : forall circuit hw1 hw2,
    twin hw1 hw2 -> operands_in_range circuit ->
    (device_fits (QuantumCircuit.nQubits circuit) hw1 ->
     (forall fuel, same_mapping (GreedyMapper.map fuel circuit hw1)
                                (GreedyMapper.map fuel circuit hw2))
     /\ (forall k fuel, same_mapping (LookAheadMapper.map k fuel circuit hw1)
                                     (LookAheadMapper.map k fuel circuit hw2)))
    /\ (forall o rnd, same_replay (GeneticSwapOptimizer.map circuit hw1 o rnd)
                                  (GeneticSwapOptimizer.map circuit hw2 o rnd)).
Proof.
  intros circuit hw1 hw2 H Hops. split.
  - intro Hfit. split.
    + intro fuel. now apply greedy_map_twin.
    + intros k fuel. now apply lookahead_map_twin.
  - intros o rnd. now apply genetic_map_twin.
Qed.

Lemma memo_changes_no_result_example :
  same_mapping
    (GreedyMapper.map 3 circuitA lnn3)
    (GreedyMapper.map 3 circuitA
       (Topology.mk "lnn" (Topology.mkParams (Some 3) None None)
                    [[1]; [0; 2]; [1]] [(Topology.Key 0 2, Fin 2)])).
Proof.
  refine (proj1 (proj1 (memo_changes_no_result
                          circuitA lnn3
                          (Topology.mk "lnn" (Topology.mkParams (Some 3) None None)
                                       [[1]; [0; 2]; [1]]
                                       [(Topology.Key 0 2, Fin 2)])
                          _ _) _) 3).
  - repeat split; reflexivity.
  - repeat constructor.
  - unfold device_fits. simpl. lia.
Defined.

(** ** Side by side *)

Lemma greedy_map_kept : forall fuel circuit hw r hw',
    GreedyMapper.map fuel circuit hw = Some (r, hw') -> gates_kept circuit r.
Proof.
  intros fuel circuit hw r hw' H. unfold GreedyMapper.map in H.
  destruct (GreedyMapper.forEach _ _ _) as [st|] eqn:E; [|discriminate].
  injection H as <- _. eapply run_gates_kept.
  - eapply greedy_forEach_run. exact E.
  - eapply (greedy_forEach_counters _ _ _ _ E). apply counters_init.
Qed.

Lemma lookahead_map_kept : forall k fuel circuit hw r hw',
    LookAheadMapper.map k fuel circuit hw = Some (r, hw') -> gates_kept circuit r.
Proof.
  intros k fuel circuit hw r hw' H. unfold LookAheadMapper.map in H.
  destruct (LookAheadMapper.forEach _ _ _ _ _ _) as [st|] eqn:E; [|discriminate].
  injection H as <- _. eapply run_gates_kept.
  - eapply lookahead_forEach_run. exact E.
  - eapply (lookahead_forEach_counters _ _ _ _ _ _ _ E). apply counters_init.
Qed.

Lemma genetic_map_kept : forall circuit hw o rnd r hw',
    GeneticSwapOptimizer.map circuit hw o rnd = Ok (r, hw') -> gates_kept circuit r.
Proof.
  intros circuit hw o rnd r hw' H.
  destruct (genetic_map_is_replay _ _ _ _ _ _ H) as (hw1 & best & _ & R).
  unfold GeneticSwapOptimizer.applyChromosome in R.
  destruct (GeneticSwapOptimizer.forEach _ _ _) as [[st i]|] eqn:E;
    [|discriminate].
  injection R as <- _. eapply run_gates_kept.
  - eapply genetic_forEach_run. exact E.
  - eapply (genetic_forEach_counters _ _ _ _ _ _ E). apply counters_init.
Qed.

Lemma entry_cost : forall circuit name r,
    gates_kept circuit r ->
    reported_cost (length (QuantumCircuit.gates circuit)) r
                  (Comparison.e_cost (Comparison.entry name r)).
Proof.
  intros circuit name r (_ & _ & Hd). unfold reported_cost, Comparison.entry.
  cbn [Comparison.e_cost]. unfold CostModel.evaluate_result.
  destruct (distancePenalty r) as [p|].
  - eexists. split; [reflexivity|].
    unfold CostModel.evaluate.
    change (CostModel.alpha Comparison.costModel) with 10%Q.
    change (CostModel.beta Comparison.costModel) with 1%Q.
    change (CostModel.gamma Comparison.costModel) with 5%Q.
    rewrite Hd, Nat2Z.inj_add, !inject_Z_plus, !inject_Z_mult.
    change (inject_Z 11) with 11%Q. change (inject_Z 5) with 5%Q. ring.
  - reflexivity.
Qed.

Lemma twin_built_snd : forall hw hw', same_device hw hw' -> built hw -> twin hw hw'.
Proof.
  intros hw hw' (T & P & G & B) Hb. repeat split; try apply Hb;
    try apply (B Hb); congruence.
Qed.

Lemma twin_sym : forall hw1 hw2, twin hw1 hw2 -> twin hw2 hw1.
Proof. intros hw1 hw2 (A & B & C & D). repeat split; try apply A; try apply B; congruence. Qed.

Lemma twin_trans : forall hw1 hw2 hw3, twin hw1 hw2 -> twin hw2 hw3 -> twin hw1 hw3.
Proof.
  intros hw1 hw2 hw3 (A & B & C & D) (A' & B' & C' & D').
  repeat split; try apply A; try apply B'; congruence.
Qed.

Lemma run_same_device : forall gs st st',
    run gs st st' -> same_device (st_hw st) (st_hw st').
Proof.
  intros gs st st' H. induction H as [st|g gs st st1 st2 st3 Hs Hg Hr IH].
  - apply same_device_refl.
  - eapply same_device_trans; [|exact IH].
    apply swaps_only_shape in Hs.
    destruct Hs as (_ & _ & _ & _ & _ & _ & D).
    destruct Hg as [->|(c & t & _ & ->)]; simpl; [exact D|].
    eapply same_device_trans; [exact D|apply same_device_addPenalty].
Qed.

Lemma greedy_map_twin_out : forall fuel circuit hw r hw',
    built hw -> GreedyMapper.map fuel circuit hw = Some (r, hw') -> twin hw hw'.
Proof.
  intros fuel circuit hw r hw' Hb H. unfold GreedyMapper.map in H.
  destruct (GreedyMapper.forEach _ _ _) as [st|] eqn:E; [|discriminate].
  injection H as _ <-. apply twin_built_snd; [|exact Hb].
  apply (run_same_device _ _ _ (greedy_forEach_run _ _ _ _ E)).
Qed.

Lemma lookahead_map_twin_out : forall k fuel circuit hw r hw',
    built hw -> LookAheadMapper.map k fuel circuit hw = Some (r, hw') ->
    twin hw hw'.
Proof.
  intros k fuel circuit hw r hw' Hb H. unfold LookAheadMapper.map in H.
  destruct (LookAheadMapper.forEach _ _ _ _ _ _) as [st|] eqn:E; [|discriminate].
  injection H as _ <-. apply twin_built_snd; [|exact Hb].
  apply (run_same_device _ _ _ (lookahead_forEach_run _ _ _ _ _ _ _ E)).
Qed.

(** The strategies that [runOptimization] and the worker run one after the
    other on one shared hardware object do not influence each other: on a
    hardware object the constructor built, with no more qubits than the
    circuit, and a circuit whose gates act on its own qubits, every entry
    of the comparison carries the result its strategy gives when run alone
    on that hardware object, under its strategy's name and with the cost
    [11 * insertedSwaps + gates + 5 * distancePenalty]; the comparison
    fails only when the genetic search run alone throws, and gives nothing
    only when a loop of [GreedyMapper] or [LookAheadMapper] run alone does
    not stop. *)
Theorem comparison_runs_are_independent :
  forall fuel circuit hw useGenetic o rnd,
    built hw ->
    device_fits (QuantumCircuit.nQubits circuit) hw ->
    operands_in_range circuit ->
    match Comparison.runMappers fuel circuit hw useGenetic o rnd with
    | None =>
        GreedyMapper.map fuel circuit hw = None
        \/ LookAheadMapper.map 3 fuel circuit hw = None
    | Some TypeError =>
        useGenetic = true
        /\ GeneticSwapOptimizer.map circuit hw o rnd = TypeError
    | Some (Ok entries) =>
        exists r1 h1 r2 h2,
          GreedyMapper.map fuel circuit hw = Some (r1, h1)
          /\ LookAheadMapper.map 3 fuel circuit hw = Some (r2, h2)
          /\ (if useGenetic
              then exists r3 h3,
                  GeneticSwapOptimizer.map circuit hw o rnd = Ok (r3, h3)
                  /\ map Comparison.e_result entries = [r1; r2; r3]
                  /\ map Comparison.e_mapper entries
                     = ["Greedy Baseline"; "Look-Ahead (k=3)";
                        "Genetic Algorithm"]
              else map Comparison.e_result entries = [r1; r2]
                   /\ map Comparison.e_mapper entries
                      = ["Greedy Baseline"; "Look-Ahead (k=3)"])
          /\ Forall (fun e =>
                       reported_cost (length (QuantumCircuit.gates circuit))
                                     (Comparison.e_result e)
                                     (Comparison.e_cost e))
                    entries
    end.
Proof.
  intros fuel circuit hw useGenetic o rnd Hb Hfit Hops.
  unfold Comparison.runMappers.
  destruct (GreedyMapper.map fuel circuit hw) as [[r1 hw1]|] eqn:E1;
    [|left; reflexivity].
  pose proof (greedy_map_twin_out _ _ _ _ _ Hb E1) as T1.
  pose proof (lookahead_map_twin 3 fuel circuit hw hw1 T1 Hfit Hops) as L.
  destruct (LookAheadMapper.map 3 fuel circuit hw1) as [[r2 hw2]|] eqn:E2;
    destruct (LookAheadMapper.map 3 fuel circuit hw) as [[r2' h2']|] eqn:E2';
    simpl in L; try contradiction; [|right; reflexivity].
  destruct L as [-> L].
  pose proof (lookahead_map_twin_out _ _ _ _ _ _ (proj1 (proj2 T1)) E2) as T2.
  pose proof (twin_trans _ _ _ T1 T2) as T.
  pose proof (greedy_map_kept _ _ _ _ _ E1) as K1.
  pose proof (lookahead_map_kept _ _ _ _ _ _ E2) as K2.
  destruct useGenetic.
  - pose proof (genetic_map_twin circuit rnd Hops hw hw2 o T) as G.
    destruct (GeneticSwapOptimizer.map circuit hw2 o rnd) as [[r3 hw3]|] eqn:E3;
      destruct (GeneticSwapOptimizer.map circuit hw o rnd) as [[r3' h3']|] eqn:E3';
      simpl in G; try contradiction; [|split; reflexivity].
    destruct G as [-> G].
    pose proof (genetic_map_kept _ _ _ _ _ _ E3) as K3.
    exists r1, hw1, r2, h2'. split; [reflexivity|]. split; [reflexivity|].
    split.
    + exists r3, h3'. repeat split; reflexivity.
    + repeat constructor; now apply entry_cost.
  - exists r1, hw1, r2, h2'. split; [reflexivity|]. split; [reflexivity|].
    split; [split; reflexivity|].
    repeat constructor; now apply entry_cost.
Qed.

Lemma comparison_runs_are_independent_example :
  exists r1 h1 r2 h2,
    GreedyMapper.map 12 circuitA lnn3 = Some (r1, h1)
    /\ LookAheadMapper.map 3 12 circuitA lnn3 = Some (r2, h2)
    /\ option_map (fun x => match x with
                            | Ok l => map Comparison.e_result l
                            | TypeError => []
                            end)
                  (Comparison.runMappers 12 circuitA lnn3 false
                     GeneticSwapOptimizer.no_options (fun _ => 0%Q))
       = Some [r1; r2].
Proof.
  pose proof (comparison_runs_are_independent
                12 circuitA lnn3 false GeneticSwapOptimizer.no_options
                (fun _ => 0%Q)) as H.
  assert (Hb : built lnn3) by (split; reflexivity).
  assert (Hfit : device_fits (QuantumCircuit.nQubits circuitA) lnn3)
    by (unfold device_fits; simpl; lia).
  assert (Hops : operands_in_range circuitA) by (repeat constructor).
  specialize (H Hb Hfit Hops).
  destruct (Comparison.runMappers 12 circuitA lnn3 false
              GeneticSwapOptimizer.no_options (fun _ => 0%Q))
    as [[entries|]|] eqn:E.
  - destruct H as (r1 & h1 & r2 & h2 & E1 & E2 & (E3 & _) & _).
    exists r1, h1, r2, h2. split; [exact E1|]. split; [exact E2|].
    simpl. now rewrite E3.
  - destruct H as [H _]. discriminate H.
  - exfalso. vm_compute in E. discriminate E.
Defined.
